(** * pyroutingtable: IP routing tables over a prefix tree and a radix tree

    A shallow embedding of [pyroutingtable.py]: the helper functions, the
    [Route] container, and the two tables [IPPrefixTree] and [IPRadixTree].

    Python dictionaries keep insertion order and the code depends on it
    ([popitem] takes the entry inserted last, [list.pop] the last element), so
    a dictionary is an association list in insertion order.  A tree node is a
    dictionary whose key ["*"] holds the list of routes of the node and whose
    other keys hold the child nodes. *)

From Stdlib Require Import ZArith List String Ascii Bool Lia Arith.
From Stdlib Require Import Sorted Permutation.
Import ListNotations.
Open Scope string_scope.
Open Scope Z_scope.
Open Scope list_scope.

(** ** Exceptions and results *)

Inductive exn : Type :=
| KeyError
| TypeError
| AttributeError
| RoutingTableValidationError
| UnboundLocalError
| OutOfFuel. (* not a Python exception: the loop bound of the model ran out *)

Inductive result (A : Type) : Type :=
| Ok (a : A)
| Raise (e : exn).
Arguments Ok {A} a.
Arguments Raise {A} e.

Definition bind {A B : Type} (r : result A) (k : A -> result B) : result B :=
  match r with
  | Ok a => k a
  | Raise e => Raise e
  end.

Notation "x <- r ;; k" := (bind r (fun x => k))
  (at level 61, r at next level, right associativity).
Notation "' p <- r ;; k" := (bind r (fun p => k))
  (at level 61, p pattern, r at next level, right associativity).

Definition exn_eqb (a b : exn) : bool :=
  match a, b with
  | KeyError, KeyError | TypeError, TypeError
  | AttributeError, AttributeError
  | RoutingTableValidationError, RoutingTableValidationError
  | UnboundLocalError, UnboundLocalError
  | OutOfFuel, OutOfFuel => true
  | _, _ => false
  end.

(** [sanitize]: the decorator turns a [KeyError] of the wrapped method into a
    [RoutingTableValidationError]; the conversion of the prefix argument with
    [ip_network(prefix, strict=False)] is the caller's side of the model, a
    prefix here is already a network. *)
Definition sanitize {A : Type} (r : result A) : result A :=
  match r with
  | Raise KeyError => Raise RoutingTableValidationError
  | _ => r
  end.

(** ** Bit strings *)

Fixpoint take (n : nat) (s : string) : string :=
  match n, s with
  | S n', String c s' => String c (take n' s')
  | _, _ => ""
  end.

Fixpoint drop (n : nat) (s : string) : string :=
  match n, s with
  | S n', String _ s' => drop n' s'
  | _, _ => s
  end.

Definition is_empty (s : string) : bool :=
  match s with
  | EmptyString => true
  | String _ _ => false
  end.

(** ** Networks (the part of [ipaddress] the code uses) *)

Inductive version : Type := V4 | V6.

Definition version_eqb (a b : version) : bool :=
  match a, b with
  | V4, V4 | V6, V6 => true
  | _, _ => false
  end.

Definition max_prefixlen (v : version) : nat :=
  match v with
  | V4 => 32%nat
  | V6 => 128%nat
  end.

Record network : Type := Network {
  ver : version;
  network_address : Z;
  prefixlen : nat
}.

Definition hostbits (p : network) : nat := (max_prefixlen (ver p) - prefixlen p)%nat.

Definition hostmask (p : network) : Z := 2 ^ Z.of_nat (hostbits p) - 1.

Definition netmask (p : network) : Z :=
  2 ^ Z.of_nat (max_prefixlen (ver p)) - 2 ^ Z.of_nat (hostbits p).

Definition broadcast_address (p : network) : Z :=
  Z.lor (network_address p) (hostmask p).

(** A network as [ip_network(_, strict=False)] builds it: the length is in
    range and the host bits of the network address are zero. *)
Definition valid_network (p : network) : Prop :=
  (prefixlen p <= max_prefixlen (ver p))%nat /\
  0 <= network_address p < 2 ^ Z.of_nat (max_prefixlen (ver p)) /\
  Z.land (network_address p) (hostmask p) = 0.

Definition network_eqb (a b : network) : bool :=
  version_eqb (ver a) (ver b) && (network_address a =? network_address b)
  && Nat.eqb (prefixlen a) (prefixlen b).

(** [_BaseNetwork.__lt__]: networks of two versions do not compare. *)
Definition network_lt (a b : network) : result bool :=
  if negb (version_eqb (ver a) (ver b)) then Raise TypeError
  else if negb (network_address a =? network_address b)
       then Ok (network_address a <? network_address b)
  else if negb (netmask a =? netmask b) then Ok (netmask a <? netmask b)
  else Ok false.

(** ["{:0wb}".format(n)] for [0 <= n < 2^w]: [w] binary digits, the most
    significant first. *)
Fixpoint format_b (w : nat) (n : Z) : string :=
  match w with
  | O => ""
  | S w' => String (if Z.testbit n (Z.of_nat w') then "1" else "0")%char
                   (format_b w' n)
  end.

Definition bits_in_prefix (prefix : network) : string :=
  let bits := format_b (max_prefixlen (ver prefix)) (network_address prefix) in
  take (prefixlen prefix) bits.

Fixpoint bits_in_common (x_bits y_bits : string) : string :=
  match x_bits, y_bits with
  | String x_bit x', String y_bit y' =>
      if Ascii.eqb x_bit y_bit then String x_bit (bits_in_common x' y') else ""
  | _, _ => ""
  end.

Definition int_prefix_boundaries (prefix : network) : Z * Z :=
  (network_address prefix, broadcast_address prefix).

Definition int_wildcard_boundaries (address wildcard : Z) : Z * Z :=
  let wc_start := address in
  let wc_end := Z.lor wc_start wildcard in
  (wc_start, wc_end).

(** ** Insertion-ordered dictionaries and lists used as stacks *)

Section OrderedDict.
Context {A : Type}.

Definition dict : Type := list (string * A).

(** [d.get(k)] *)
Fixpoint dget (k : string) (d : dict) : option A :=
  match d with
  | [] => None
  | (k', v) :: d' => if String.eqb k' k then Some v else dget k d'
  end.

(** [k in d] *)
Definition dmem (k : string) (d : dict) : bool :=
  match dget k d with
  | Some _ => true
  | None => false
  end.

(** [d[k] = v]: a present key keeps its place, a new key goes last. *)
Fixpoint dset (k : string) (v : A) (d : dict) : dict :=
  match d with
  | [] => [(k, v)]
  | (k', v') :: d' =>
      if String.eqb k' k then (k', v) :: d' else (k', v') :: dset k v d'
  end.

(** [del d[k]] for a present key. *)
Fixpoint ddel (k : string) (d : dict) : dict :=
  match d with
  | [] => []
  | (k', v') :: d' => if String.eqb k' k then d' else (k', v') :: ddel k d'
  end.

Definition new_dict_without_key (unwanted_key : string) (dct : dict) : dict :=
  filter (fun kv => negb (String.eqb (fst kv) unwanted_key)) dct.

(** [d.popitem()]: the entry inserted last, and what is left. *)
Definition popitem (d : dict) : option ((string * A) * dict) :=
  match rev d with
  | [] => None
  | kv :: r => Some (kv, rev r)
  end.
End OrderedDict.
Arguments dict A : clear implicits.

(** [l.pop()] *)
Definition pop {A : Type} (l : list A) : option (A * list A) :=
  match rev l with
  | [] => None
  | x :: r => Some (x, rev r)
  end.

(** ** Routes and attribute filters *)

(** Attribute values are opaque to the table; only their equality is used. *)
Inductive value : Type :=
| VStr (s : string)
| VInt (z : Z).

Definition value_eqb (a b : value) : bool :=
  match a, b with
  | VStr s, VStr s' => String.eqb s s'
  | VInt z, VInt z' => Z.eqb z z'
  | _, _ => false
  end.

(** Keyword arguments [**attrs].  The names are the caller's attribute names;
    the attribute [_prefix] of a route is the field [_prefix] below, apart
    from the keywords: the model is of routes whose keywords are not named
    [_prefix] (see [plain_names]). *)
Definition kwargs : Type := dict value.

Record Route : Type := mkRoute {
  _prefix : network;
  attributes : kwargs
}.

Definition option_value_eqb (a b : option value) : bool :=
  match a, b with
  | Some x, Some y => value_eqb x y
  | None, None => true
  | _, _ => false
  end.

(** Equality of two Python dictionaries: the same keys with equal values,
    whatever the order. *)
Definition kwargs_eqb (a b : kwargs) : bool :=
  forallb (fun kv => option_value_eqb (dget (fst kv) a) (dget (fst kv) b)) a
  && forallb (fun kv => option_value_eqb (dget (fst kv) a) (dget (fst kv) b)) b.

(** [Route.__eq__]: equality of the two [__dict__]s. *)
Definition Route_eqb (r1 r2 : Route) : bool :=
  network_eqb (_prefix r1) (_prefix r2)
  && kwargs_eqb (attributes r1) (attributes r2).

(** [route in routes] *)
Definition route_in (route : Route) (routes : list Route) : bool :=
  existsb (fun r => Route_eqb r route) routes.

(** [routes.remove(route)]: the first equal element goes. *)
Fixpoint list_remove (route : Route) (routes : list Route) : list Route :=
  match routes with
  | [] => []
  | r :: routes' =>
      if Route_eqb r route then routes' else r :: list_remove route routes'
  end.

(** [getattr(route, name)] reads the keyword [name] of the route, and raises
    [AttributeError] when the route has none, for every name but those that
    the class answers: the property [prefix]; [_prefix], which [__init__]
    sets to the prefix; and the names with two leading underscores
    ([__class__], [__dict__], [__weakref__], [__module__], [__doc__] and the
    methods).  [plain_names] holds of the keywords with none of these names;
    for them [has_all_attrs] below is the source's. *)
Definition plain_name (name : string) : bool :=
  negb (String.eqb name "prefix") && negb (String.eqb name "_prefix")
  && negb (String.prefix "__" name).

Definition plain_names (attrs : kwargs) : bool :=
  forallb (fun kv => plain_name (fst kv)) attrs.

Definition has_all_attrs (obj : Route) (attrs : kwargs) : bool :=
  forallb (fun kv =>
             match dget (fst kv) (attributes obj) with
             | Some val => value_eqb val (snd kv)
             | None => false (* AttributeError *)
             end) attrs.

Definition objs_with_all_attrs (objs : list Route) (attrs : kwargs) : list Route :=
  filter (fun obj => has_all_attrs obj attrs) objs.

(** The truth value of [attrs]: a dictionary is true when it is not empty. *)
Definition truthy {A : Type} (l : list A) : bool :=
  match l with
  | [] => false
  | _ :: _ => true
  end.

(** ** Tree nodes *)

(** What a key of a node can hold: a child node or the list of routes. *)
#[local] Unset Elimination Schemes.
Inductive obj : Type :=
| Dict (items : list (string * obj))
| PList (routes : list Route).
#[local] Set Elimination Schemes.

(** Accesses that need a dictionary or a list.  A table built by [add] never
    takes the error branches; [as_dict] fails on the list that the merge step
    of [IPRadixTree.delete] can leave under a key of bits. *)
Definition as_dict (o : obj) : result (dict obj) :=
  match o with
  | Dict items => Ok items
  | PList _ => Raise AttributeError
  end.

Definition as_list (o : obj) : result (list Route) :=
  match o with
  | PList routes => Ok routes
  | Dict _ => Raise TypeError
  end.

Fixpoint height (o : obj) : nat :=
  match o with
  | PList _ => O
  | Dict items =>
      S ((fix hs (l : list (string * obj)) : nat :=
            match l with
            | [] => O
            | (_, c) :: l' => Nat.max (height c) (hs l')
            end) items)
  end.

(** The number of dictionary entries of a tree, the bound of a traversal. *)
Fixpoint entries (o : obj) : nat :=
  match o with
  | PList _ => O
  | Dict items =>
      (fix es (l : list (string * obj)) : nat :=
         match l with
         | [] => O
         | (_, c) :: l' => S (entries c + es l')
         end) items
  end.

Definition entries_of (nodes : list (string * obj)) : nat := entries (Dict nodes).

(** ** The table state shared by both trees *)

Record table : Type := Table {
  _root : obj;
  _counter : Z
}.

(** [__init__] *)
Definition init : table := Table (Dict []) 0.

(** [__len__] *)
Definition len (self : table) : Z := _counter self.

(** ** [_traverse] and [_sort] (the same code in both classes) *)

Fixpoint _traverse_loop (fuel : nat) (nodes : list (string * obj)) (attrs : kwargs)
  : result (list Route) :=
  match fuel with
  | O => match nodes with [] => Ok [] | _ => Raise OutOfFuel end
  | S fuel' =>
      match pop nodes with
      | None => Ok []
      | Some ((node_bit, children), nodes') =>
          if String.eqb node_bit "*" then
            routes <- as_list children ;;
            rest <- _traverse_loop fuel' nodes' attrs ;;
            Ok (objs_with_all_attrs routes attrs ++ rest)
          else
            items <- as_dict children ;;
            _traverse_loop fuel' (nodes' ++ items) attrs
      end
  end.

Definition _traverse (root : obj) (attrs : kwargs) : result (list Route) :=
  items <- as_dict root ;;
  _traverse_loop (entries root) items attrs.

(** [sorted(routes, key=...)]: a stable sort that compares the keys with
    [<] only; a comparison that raises ends the sort.  Python's sort is a
    merge sort; every stable sort returns the same list when no comparison
    raises, and has to compare two networks of different versions when the
    list holds both.  The model is the stable insertion sort, which returns
    and raises in the same cases ([sort_total], [sort_mixed]). *)
Fixpoint insert_sorted (x : Route) (l : list Route) : result (list Route) :=
  match l with
  | [] => Ok [x]
  | y :: l' =>
      b <- network_lt (_prefix y) (_prefix x) ;;
      if b then (r <- insert_sorted x l' ;; Ok (y :: r)) else Ok (x :: y :: l')
  end.

Fixpoint sorted (routes : list Route) : result (list Route) :=
  match routes with
  | [] => Ok []
  | x :: t => t' <- sorted t ;; insert_sorted x t'
  end.

Definition _sort (routes : list Route) : result (list Route) := sorted routes.

(** The end of both [add] methods:
    [routes = pointer.setdefault("*", [])], then the route is appended and
    counted when it is not in [routes]. *)
Definition install (pointer : dict obj) (route : Route) (counter : Z)
  : result (dict obj * Z) :=
  match dget "*" pointer with
  | None => Ok (dset "*" (PList [route]) pointer, counter + 1)
  | Some held =>
      routes <- as_list held ;;
      if route_in route routes then Ok (pointer, counter)
      else Ok (dset "*" (PList (routes ++ [route])) pointer, counter + 1)
  end.

(** The attribute branch of both [delete] methods: every route of the copy of
    [routes] that has all [attrs] is removed from [routes] and counted. *)
Definition remove_matching (routes : list Route) (attrs : kwargs) (counter : Z)
  : list Route * Z * bool :=
  fold_left
    (fun st route =>
       let '(routes, counter, something_removed) := st in
       if has_all_attrs route attrs
       then (list_remove route routes, counter - 1, true)
       else st)
    routes (routes, counter, false).

(** [pointer.get("*", default)] *)
Definition get_star (pointer : dict obj) (default : obj) : obj :=
  match dget "*" pointer with
  | Some routes => routes
  | None => default
  end.

(** The test of [wcmatch] on the integer boundaries of a route. *)
Definition in_wildcard (wc_start wc_end : Z) (route : Route) : bool :=
  let '(network_id, bc_address) := int_prefix_boundaries (_prefix route) in
  (Z.land network_id wc_end =? network_id)
  && (Z.land wc_start bc_address =? wc_start).

(** [wcmatch] (the same code in both classes); the address and the wildcard
    are the integers of [ip_address(_)]. *)
Definition wcmatch (self : table) (address wildcard : Z) (attrs : kwargs)
  : result (list Route) :=
  let '(wc_start, wc_end) := int_wildcard_boundaries address wildcard in
  routes <- _traverse (_root self) attrs ;;
  _sort (filter (in_wildcard wc_start wc_end) routes).

(** What [delete] leaves of a node to the nodes above it: the node as it is
    now, or nothing when the branch down to the prefix is to be trimmed. *)
Inductive pruned : Type :=
| Kept (pointer : obj)
| Trimmed.

(** ** The prefix tree *)

Module IPPrefixTree.

Fixpoint add_walk (bits : string) (pointer : obj) (route : Route) (counter : Z)
  : result (obj * Z) :=
  items <- as_dict pointer ;;
  match bits with
  | EmptyString =>
      '(items', counter') <- install items route counter ;;
      Ok (Dict items', counter')
  | String c bits' =>
      let bit := String c EmptyString in
      let child := match dget bit items with
                   | Some child => child
                   | None => Dict []
                   end in
      '(child', counter') <- add_walk bits' child route counter ;;
      Ok (Dict (dset bit child' items), counter')
  end.

Definition add (self : table) (prefix : network) (attrs : kwargs) : result table :=
  sanitize (
    '(root, counter) <- add_walk (bits_in_prefix prefix) (_root self)
                                 (mkRoute prefix attrs) (_counter self) ;;
    Ok (Table root counter)).

Fixpoint get_walk (bits : string) (pointer : dict obj) (routes : obj) : result obj :=
  match bits with
  | EmptyString => Ok routes
  | String c bits' =>
      let bit := String c EmptyString in
      match dget bit pointer with
      | None => Ok routes
      | Some child =>
          items <- as_dict child ;;
          get_walk bits' items (get_star items routes)
      end
  end.

Definition get (self : table) (prefix : network) (attrs : kwargs)
  : result (list Route) :=
  sanitize (
    root <- as_dict (_root self) ;;
    held <- get_walk (bits_in_prefix prefix) root (get_star root (PList [])) ;;
    routes <- as_list held ;;
    Ok (objs_with_all_attrs routes attrs)).

(** [__contains__] *)
Definition contains (self : table) (prefix : network) : result bool :=
  routes <- get self prefix [] ;;
  Ok (truthy routes).

(** The walk of [show]: [None] is the early [return []]. *)
Fixpoint show_walk (bits : string) (pointer : dict obj) : result (option (dict obj)) :=
  match bits with
  | EmptyString => Ok (Some pointer)
  | String c bits' =>
      let bit := String c EmptyString in
      match dget bit pointer with
      | None => Ok None
      | Some child => items <- as_dict child ;; show_walk bits' items
      end
  end.

Definition show (self : table) (prefix : option network) (as_root : bool)
           (attrs : kwargs) : result (list Route) :=
  match prefix with
  | None =>
      if as_root then Raise TypeError
      else routes <- _traverse (_root self) attrs ;; _sort routes
  | Some prefix =>
      root <- as_dict (_root self) ;;
      found <- show_walk (bits_in_prefix prefix) root ;;
      match found with
      | None => Ok []
      | Some pointer =>
          if negb as_root then
            routes <- as_list (get_star pointer (PList [])) ;;
            Ok (objs_with_all_attrs routes attrs)
          else routes <- _traverse (Dict pointer) attrs ;; _sort routes
      end
  end.

Fixpoint parent_walk (bits : string) (pointer : dict obj) (routes : obj)
  : result (dict obj * obj) :=
  match bits with
  | EmptyString => Ok (pointer, routes)
  | String c bits' =>
      let bit := String c EmptyString in
      let routes := get_star pointer routes in
      match dget bit pointer with
      | None => Raise KeyError
      | Some child => items <- as_dict child ;; parent_walk bits' items routes
      end
  end.

Definition parent (self : table) (prefix : network) (attrs : kwargs)
  : result (list Route) :=
  sanitize (
    root <- as_dict (_root self) ;;
    '(pointer, held) <- parent_walk (bits_in_prefix prefix) root (PList []) ;;
    if negb (dmem "*" pointer) then Raise KeyError
    else routes <- as_list held ;; Ok (objs_with_all_attrs routes attrs)).

Fixpoint children_walk (bits : string) (pointer : dict obj) : result (dict obj) :=
  match bits with
  | EmptyString => Ok pointer
  | String c bits' =>
      let bit := String c EmptyString in
      match dget bit pointer with
      | None => Raise KeyError
      | Some child => items <- as_dict child ;; children_walk bits' items
      end
  end.

Definition children (self : table) (prefix : network) (attrs : kwargs)
  : result (list Route) :=
  sanitize (
    root <- as_dict (_root self) ;;
    pointer <- children_walk (bits_in_prefix prefix) root ;;
    if negb (dmem "*" pointer) then Raise KeyError
    else
      let pointer := new_dict_without_key "*" pointer in
      routes <- _traverse (Dict pointer) attrs ;; _sort routes).

Fixpoint match_walk (bits : string) (pointer : dict obj) (matches : list Route)
  : result (list Route) :=
  match bits with
  | EmptyString => Ok matches
  | String c bits' =>
      let bit := String c EmptyString in
      match dget bit pointer with
      | None => Ok matches
      | Some child =>
          items <- as_dict child ;;
          match dget "*" items with
          | None => match_walk bits' items matches
          | Some held =>
              routes <- as_list held ;;
              match_walk bits' items (matches ++ routes)
          end
      end
  end.

Definition match_ (self : table) (prefix : network) (attrs : kwargs)
  : result (list Route) :=
  sanitize (
    root <- as_dict (_root self) ;;
    routes <- as_list (get_star root (PList [])) ;;
    matches <- match_walk (bits_in_prefix prefix) root routes ;;
    _sort (objs_with_all_attrs matches attrs)).

(** [delete] after the walk, at the node of the prefix.  The node is
    [Trimmed] when it has no child left and the branch is to be cut at the
    last node above that has more than one key. *)
Definition delete_here (pointer : dict obj) (attrs : kwargs) (counter : Z)
  : result (pruned * Z) :=
  match dget "*" pointer with
  | None => Raise KeyError
  | Some held =>
      routes0 <- as_list held ;;
      let '(routes, counter, something_removed) :=
        if truthy attrs then remove_matching routes0 attrs counter
        else (routes0, counter, false) in
      if truthy attrs && negb something_removed
      then Raise RoutingTableValidationError
      else if negb (truthy attrs) || negb (truthy routes) then
        if (1 <? List.length pointer)%nat
        then Ok (Kept (Dict (ddel "*" pointer)), counter - Z.of_nat (List.length routes))
        else Ok (Trimmed, counter - Z.of_nat (List.length routes))
      else Ok (Kept (Dict (dset "*" (PList routes) pointer)), counter)
  end.

(** The walk of [delete]; on the way back the first node with more than one
    key is [parent_prefix_node], the last one the loop recorded. *)
Fixpoint delete_walk (bits : string) (pointer : dict obj) (attrs : kwargs)
         (counter : Z) : result (pruned * Z) :=
  match bits with
  | EmptyString => delete_here pointer attrs counter
  | String c bits' =>
      let bit := String c EmptyString in
      match dget bit pointer with
      | None => Raise KeyError
      | Some child =>
          items <- as_dict child ;;
          '(below, counter') <- delete_walk bits' items attrs counter ;;
          match below with
          | Kept child' => Ok (Kept (Dict (dset bit child' pointer)), counter')
          | Trimmed =>
              if (1 <? List.length pointer)%nat
              then Ok (Kept (Dict (ddel bit pointer)), counter')
              else Ok (Trimmed, counter')
          end
      end
  end.

(** [flush()] without arguments. *)
Definition flush_all (self : table) : table := Table (Dict []) 0.

Definition delete (self : table) (prefix : network) (attrs : kwargs)
  : result table :=
  sanitize (
    root <- as_dict (_root self) ;;
    '(below, counter) <- delete_walk (bits_in_prefix prefix) root attrs
                                     (_counter self) ;;
    match below with
    | Kept root' => Ok (Table root' counter)
    | Trimmed => Ok (flush_all self)
    end).

End IPPrefixTree.

(** ** The radix tree *)

(** Every method of [IPRadixTree] walks with the same loop,

      [while nodes and prefix_bits: node_bits, children = nodes.popitem() ...]

    where [nodes] is a copy of the current node without ["*"].  The loop is a
    scan of the entries of [nodes], the last one first, that restarts in a
    child when the walk moves down; the scan recurses on the reversed copy
    and the way down on a bound that the height of the tree covers. *)

Module IPRadixTree.

Definition nodes_of (pointer : dict obj) : list (string * obj) :=
  rev (new_dict_without_key "*" pointer).

Definition fuel_of (root : obj) : nat := S (height root).

(** After the loop of [add]: a new edge for the bits that are left, then
    the route goes into the node. *)
Definition add_finish (pointer : dict obj) (prefix_bits : string) (route : Route)
           (counter : Z) : result (dict obj * Z) :=
  if negb (is_empty prefix_bits) then
    '(leaf, counter') <- install [] route counter ;;
    Ok (dset prefix_bits (Dict leaf) pointer, counter')
  else install pointer route counter.

Section Add.
Variable descend : dict obj -> string -> result (dict obj * Z).
Variables (route : Route) (counter : Z).

Fixpoint add_scan (pointer : dict obj) (nodes : list (string * obj))
         (prefix_bits : string) : result (dict obj * Z) :=
  match nodes with
  | [] => add_finish pointer prefix_bits route counter
  | (node_bits, children) :: nodes' =>
      if is_empty prefix_bits then add_finish pointer prefix_bits route counter
      else
        let common_bits := bits_in_common node_bits prefix_bits in
        if negb (is_empty common_bits) then
          let prefix_bits := drop (String.length common_bits) prefix_bits in
          if String.eqb common_bits node_bits then
            items <- as_dict children ;;
            '(items', counter') <- descend items prefix_bits ;;
            Ok (dset node_bits (Dict items') pointer, counter')
          else
            let pointer := ddel node_bits pointer in
            let remaining_node_bits := drop (String.length common_bits) node_bits in
            '(split, counter') <-
              add_finish [(remaining_node_bits, children)] prefix_bits route counter ;;
            Ok (dset common_bits (Dict split) pointer, counter')
        else add_scan pointer nodes' prefix_bits
  end.
End Add.

Fixpoint add_walk (fuel : nat) (route : Route) (counter : Z) (pointer : dict obj)
         (prefix_bits : string) : result (dict obj * Z) :=
  match fuel with
  | O => Raise OutOfFuel
  | S fuel' =>
      add_scan (add_walk fuel' route counter) route counter
               pointer (nodes_of pointer) prefix_bits
  end.

Definition add (self : table) (prefix : network) (attrs : kwargs) : result table :=
  sanitize (
    root <- as_dict (_root self) ;;
    '(root', counter) <- add_walk (fuel_of (_root self)) (mkRoute prefix attrs)
                                  (_counter self) root (bits_in_prefix prefix) ;;
    Ok (Table (Dict root') counter)).

Section Get.
Variable descend : dict obj -> obj -> string -> result obj.

Fixpoint get_scan (nodes : list (string * obj)) (routes : obj)
         (prefix_bits : string) : result obj :=
  match nodes with
  | [] => Ok routes
  | (node_bits, children) :: nodes' =>
      if is_empty prefix_bits then Ok routes
      else
        let common_bits := bits_in_common node_bits prefix_bits in
        if String.eqb common_bits node_bits then
          items <- as_dict children ;;
          descend items (get_star items routes)
                  (drop (String.length common_bits) prefix_bits)
        else get_scan nodes' routes prefix_bits
  end.
End Get.

Fixpoint get_walk (fuel : nat) (pointer : dict obj) (routes : obj)
         (prefix_bits : string) : result obj :=
  match fuel with
  | O => Raise OutOfFuel
  | S fuel' => get_scan (get_walk fuel') (nodes_of pointer) routes prefix_bits
  end.

Definition get (self : table) (prefix : network) (attrs : kwargs)
  : result (list Route) :=
  sanitize (
    root <- as_dict (_root self) ;;
    held <- get_walk (fuel_of (_root self)) root (get_star root (PList []))
                     (bits_in_prefix prefix) ;;
    routes <- as_list held ;;
    Ok (objs_with_all_attrs routes attrs)).

(** [__contains__] *)
Definition contains (self : table) (prefix : network) : result bool :=
  routes <- get self prefix [] ;;
  Ok (truthy routes).

(** The walk of [show] gives the node it stops at and the bits left.  The
    bits in common with an edge are taken off [prefix_bits] also when the
    walk does not go down that edge. *)
Section Show.
Variable descend : dict obj -> string -> result (dict obj * string).

Fixpoint show_scan (pointer : dict obj) (nodes : list (string * obj))
         (prefix_bits : string) : result (dict obj * string) :=
  match nodes with
  | [] => Ok (pointer, prefix_bits)
  | (node_bits, children) :: nodes' =>
      if is_empty prefix_bits then Ok (pointer, prefix_bits)
      else
        let common_bits := bits_in_common node_bits prefix_bits in
        if negb (is_empty common_bits) then
          let prefix_bits := drop (String.length common_bits) prefix_bits in
          if String.eqb common_bits node_bits then
            items <- as_dict children ;;
            descend items prefix_bits
          else show_scan pointer nodes' prefix_bits
        else show_scan pointer nodes' prefix_bits
  end.
End Show.

Fixpoint show_walk (fuel : nat) (pointer : dict obj) (prefix_bits : string)
  : result (dict obj * string) :=
  match fuel with
  | O => Raise OutOfFuel
  | S fuel' => show_scan (show_walk fuel') pointer (nodes_of pointer) prefix_bits
  end.

Definition show (self : table) (prefix : option network) (as_root : bool)
           (attrs : kwargs) : result (list Route) :=
  match prefix with
  | None =>
      if as_root then Raise TypeError
      else routes <- _traverse (_root self) attrs ;; _sort routes
  | Some prefix =>
      root <- as_dict (_root self) ;;
      '(pointer, prefix_bits) <-
        show_walk (fuel_of (_root self)) root (bits_in_prefix prefix) ;;
      if negb (is_empty prefix_bits) then Ok []
      else if negb as_root then
        routes <- as_list (get_star pointer (PList [])) ;;
        Ok (objs_with_all_attrs routes attrs)
      else routes <- _traverse (Dict pointer) attrs ;; _sort routes
  end.

(** The walk of [parent]: the node reached, the bits left, and the routes
    of the last node with routes that the walk left behind. *)
Section Parent.
Variable descend : dict obj -> obj -> string -> result (dict obj * obj * string).

Fixpoint parent_scan (pointer : dict obj) (nodes : list (string * obj))
         (routes : obj) (prefix_bits : string)
  : result (dict obj * obj * string) :=
  match nodes with
  | [] => Ok (pointer, routes, prefix_bits)
  | (node_bits, children) :: nodes' =>
      if is_empty prefix_bits then Ok (pointer, routes, prefix_bits)
      else
        let common_bits := bits_in_common node_bits prefix_bits in
        if String.eqb common_bits node_bits then
          let routes := get_star pointer routes in
          items <- as_dict children ;;
          descend items routes (drop (String.length common_bits) prefix_bits)
        else parent_scan pointer nodes' routes prefix_bits
  end.
End Parent.

Fixpoint parent_walk (fuel : nat) (pointer : dict obj) (routes : obj)
         (prefix_bits : string) : result (dict obj * obj * string) :=
  match fuel with
  | O => Raise OutOfFuel
  | S fuel' =>
      parent_scan (parent_walk fuel') pointer (nodes_of pointer) routes prefix_bits
  end.

Definition parent (self : table) (prefix : network) (attrs : kwargs)
  : result (list Route) :=
  sanitize (
    root <- as_dict (_root self) ;;
    '(pointer, held, prefix_bits) <-
      parent_walk (fuel_of (_root self)) root (PList []) (bits_in_prefix prefix) ;;
    if negb (is_empty prefix_bits) || negb (dmem "*" pointer) then Raise KeyError
    else routes <- as_list held ;; Ok (objs_with_all_attrs routes attrs)).

Section Children.
Variable descend : dict obj -> string -> result (dict obj * string).

Fixpoint children_scan (pointer : dict obj) (nodes : list (string * obj))
         (prefix_bits : string) : result (dict obj * string) :=
  match nodes with
  | [] => Ok (pointer, prefix_bits)
  | (node_bits, children) :: nodes' =>
      if is_empty prefix_bits then Ok (pointer, prefix_bits)
      else
        let common_bits := bits_in_common node_bits prefix_bits in
        if String.eqb common_bits node_bits then
          items <- as_dict children ;;
          descend items (drop (String.length common_bits) prefix_bits)
        else children_scan pointer nodes' prefix_bits
  end.
End Children.

Fixpoint children_walk (fuel : nat) (pointer : dict obj) (prefix_bits : string)
  : result (dict obj * string) :=
  match fuel with
  | O => Raise OutOfFuel
  | S fuel' =>
      children_scan (children_walk fuel') pointer (nodes_of pointer) prefix_bits
  end.

Definition children (self : table) (prefix : network) (attrs : kwargs)
  : result (list Route) :=
  sanitize (
    root <- as_dict (_root self) ;;
    '(pointer, prefix_bits) <-
      children_walk (fuel_of (_root self)) root (bits_in_prefix prefix) ;;
    if negb (is_empty prefix_bits) || negb (dmem "*" pointer) then Raise KeyError
    else
      let pointer := new_dict_without_key "*" pointer in
      routes <- _traverse (Dict pointer) attrs ;; _sort routes).

Section Match.
Variable descend : dict obj -> list Route -> string -> result (list Route).

Fixpoint match_scan (nodes : list (string * obj)) (matches : list Route)
         (prefix_bits : string) : result (list Route) :=
  match nodes with
  | [] => Ok matches
  | (node_bits, children) :: nodes' =>
      if is_empty prefix_bits then Ok matches
      else
        let common_bits := bits_in_common node_bits prefix_bits in
        if String.eqb common_bits node_bits then
          let prefix_bits := drop (String.length common_bits) prefix_bits in
          items <- as_dict children ;;
          match dget "*" items with
          | None => descend items matches prefix_bits
          | Some held =>
              routes <- as_list held ;;
              descend items (matches ++ routes) prefix_bits
          end
        else match_scan nodes' matches prefix_bits
  end.
End Match.

Fixpoint match_walk (fuel : nat) (pointer : dict obj) (matches : list Route)
         (prefix_bits : string) : result (list Route) :=
  match fuel with
  | O => Raise OutOfFuel
  | S fuel' => match_scan (match_walk fuel') (nodes_of pointer) matches prefix_bits
  end.

Definition match_ (self : table) (prefix : network) (attrs : kwargs)
  : result (list Route) :=
  sanitize (
    root <- as_dict (_root self) ;;
    routes <- as_list (get_star root (PList [])) ;;
    matches <- match_walk (fuel_of (_root self)) root routes
                          (bits_in_prefix prefix) ;;
    _sort (objs_with_all_attrs matches attrs)).

(** [delete] after the walk, at the node the walk stopped at.  The number
    is how many entries of [parents] the loop [while parents] takes: the
    list holds the last two steps of the walk, and the loop runs only when
    the node lost its routes. *)
Definition delete_here (pointer : dict obj) (prefix_bits : string)
           (attrs : kwargs) (counter : Z) : result (dict obj * Z * nat) :=
  if negb (is_empty prefix_bits) then Raise KeyError
  else
    match dget "*" pointer with
    | None => Raise KeyError
    | Some held =>
        routes0 <- as_list held ;;
        let '(routes, counter, something_removed) :=
          if truthy attrs then remove_matching routes0 attrs counter
          else (routes0, counter, false) in
        if truthy attrs && negb something_removed
        then Raise RoutingTableValidationError
        else if negb (truthy attrs) || negb (truthy routes) then
          Ok (ddel "*" pointer, counter - Z.of_nat (List.length routes), 2%nat)
        else Ok (dset "*" (PList routes) pointer, counter, O)
    end.

(** One turn of [while parents]: [children] is the node below as the turns
    before left it. *)
Definition merge (parent : dict obj) (parent_bits : string) (children : dict obj)
  : dict obj :=
  match children with
  | [] => ddel parent_bits parent
  | [(child_bits, child)] =>
      dset (parent_bits ++ child_bits)%string child (ddel parent_bits parent)
  | _ => dset parent_bits (Dict children) parent
  end.

Section Delete.
Variable descend : dict obj -> string -> result (dict obj * Z * nat).
Variables (attrs : kwargs) (counter : Z).

Fixpoint delete_scan (pointer : dict obj) (nodes : list (string * obj))
         (prefix_bits : string) : result (dict obj * Z * nat) :=
  match nodes with
  | [] => delete_here pointer prefix_bits attrs counter
  | (node_bits, children) :: nodes' =>
      if is_empty prefix_bits then delete_here pointer prefix_bits attrs counter
      else
        let common_bits := bits_in_common node_bits prefix_bits in
        if String.eqb common_bits node_bits then
          items <- as_dict children ;;
          '(items', counter', turns) <-
            descend items (drop (String.length common_bits) prefix_bits) ;;
          match turns with
          | O => Ok (dset node_bits (Dict items') pointer, counter', O)
          | S turns' => Ok (merge pointer node_bits items', counter', turns')
          end
        else delete_scan pointer nodes' prefix_bits
  end.
End Delete.

Fixpoint delete_walk (fuel : nat) (attrs : kwargs) (counter : Z)
         (pointer : dict obj) (prefix_bits : string)
  : result (dict obj * Z * nat) :=
  match fuel with
  | O => Raise OutOfFuel
  | S fuel' =>
      delete_scan (delete_walk fuel' attrs counter) attrs counter
                  pointer (nodes_of pointer) prefix_bits
  end.

Definition delete (self : table) (prefix : network) (attrs : kwargs)
  : result table :=
  sanitize (
    root <- as_dict (_root self) ;;
    '(root', counter, _) <-
      delete_walk (fuel_of (_root self)) attrs (_counter self) root
                  (bits_in_prefix prefix) ;;
    Ok (Table (Dict root') counter)).

(** [flush()] without arguments. *)
Definition flush_all (self : table) : table := Table (Dict []) 0.

End IPRadixTree.

(** ** [flush] with attributes: objects with an identity

    [flush] with attributes only walks a stack of references into the tree while
    [self.delete] rebuilds that tree in place, so here the dictionaries and
    the lists are cells of a heap and a reference is the index of a cell.  The
    two [delete] methods are written once more over the heap, statement by
    statement. *)

Module Heap.

Inductive cell : Type :=
| HDict (items : dict nat)
| HList (routes : list Route).

Definition heap : Type := list cell.

Fixpoint store (h : heap) (a : nat) (c : cell) : heap :=
  match h, a with
  | [], _ => []
  | _ :: h', O => c :: h'
  | x :: h', S a' => x :: store h' a' c
  end.

Definition dict_at (h : heap) (a : nat) : result (dict nat) :=
  match nth_error h a with
  | Some (HDict items) => Ok items
  | _ => Raise AttributeError
  end.

Definition list_at (h : heap) (a : nat) : result (list Route) :=
  match nth_error h a with
  | Some (HList routes) => Ok routes
  | _ => Raise TypeError
  end.

(** A tree is laid out in the heap, children first. *)
Fixpoint alloc (o : obj) (h : heap) : nat * heap :=
  match o with
  | PList routes => (List.length h, h ++ [HList routes])
  | Dict items =>
      let '(refs, h') :=
        (fix go (l : list (string * obj)) (h : heap) : dict nat * heap :=
           match l with
           | [] => ([], h)
           | (k, c) :: l' =>
               let '(a, h1) := alloc c h in
               let '(r, h2) := go l' h1 in
               ((k, a) :: r, h2)
           end) items h in
      (List.length h', h' ++ [HDict refs])
  end.

(** The tree below a reference; a dangling reference reads as no entry. *)
Fixpoint reify (fuel : nat) (h : heap) (a : nat) : obj :=
  match fuel with
  | O => Dict []
  | S fuel' =>
      match nth_error h a with
      | Some (HList routes) => PList routes
      | Some (HDict items) =>
          Dict (map (fun kv => (fst kv, reify fuel' h (snd kv))) items)
      | None => Dict []
      end
  end.

Definition size (h : heap) : nat :=
  fold_right (fun c n => match c with
                         | HDict items => (List.length items + n)%nat
                         | HList _ => n
                         end) O h.

(** The state of a table in the heap: the heap, the reference of the root
    dictionary and the counter. *)
Record state : Type := State {
  cells : heap;
  root : nat;
  counter : Z
}.

Definition load_table (self : table) : state :=
  let '(a, h) := alloc (_root self) [] in State h a (_counter self).

Definition read_table (s : state) : table :=
  Table (reify (S (List.length (cells s))) (cells s) (root s)) (counter s).

(** The part of both [delete] methods between the walk and the pruning:
    [routes = pointer["*"]] and the removal by attributes.  It gives the
    heap, the counter, the reference of [routes], its content, and whether
    the pruning is to follow. *)
Definition take_routes (h : heap) (pointer : nat) (attrs : kwargs) (counter : Z)
  : result (heap * Z * list Route * bool) :=
  items <- dict_at h pointer ;;
  match dget "*" items with
  | None => Raise KeyError
  | Some held =>
      routes0 <- list_at h held ;;
      let '(routes, counter, something_removed) :=
        if truthy attrs then remove_matching routes0 attrs counter
        else (routes0, counter, false) in
      if truthy attrs && negb something_removed
      then Raise RoutingTableValidationError
      else Ok (store h held (HList routes), counter, routes,
               negb (truthy attrs) || negb (truthy routes))
  end.

(** [IPPrefixTree.delete] *)
Fixpoint prefix_walk (h : heap) (bits : string) (pointer : nat)
         (parent_prefix_node : option (nat * string))
  : result (nat * option (nat * string)) :=
  match bits with
  | EmptyString => Ok (pointer, parent_prefix_node)
  | String c bits' =>
      let bit := String c EmptyString in
      items <- dict_at h pointer ;;
      let parent_prefix_node :=
        if (1 <? List.length items)%nat then Some (pointer, bit)
        else parent_prefix_node in
      match dget bit items with
      | None => Raise KeyError
      | Some child => prefix_walk h bits' child parent_prefix_node
      end
  end.

Definition prefix_delete_raw (s : state) (prefix : network) (attrs : kwargs)
  : result state :=
  '(pointer, parent_prefix_node) <-
    prefix_walk (cells s) (bits_in_prefix prefix) (root s) None ;;
  '(h, counter, routes, prune) <- take_routes (cells s) pointer attrs (counter s) ;;
  if prune then
    items <- dict_at h pointer ;;
    if (1 <? List.length items)%nat then
      Ok (State (store h pointer (HDict (ddel "*" items))) (root s)
                (counter - Z.of_nat (List.length routes)))
    else
      match parent_prefix_node with
      | Some (node, branching_bit) =>
          above <- dict_at h node ;;
          Ok (State (store h node (HDict (ddel branching_bit above))) (root s)
                    (counter - Z.of_nat (List.length routes)))
      | None => Ok (State (store h (root s) (HDict [])) (root s) 0)
      end
  else Ok (State h (root s) counter).

Definition prefix_delete (s : state) (prefix : network) (attrs : kwargs)
  : result state := sanitize (prefix_delete_raw s prefix attrs).

(** [IPRadixTree.delete]: the walk keeps the last two steps in [parents]. *)
Definition step : Type := (nat * string * nat)%type.

Definition last_two (parents : list step) : list step :=
  skipn (List.length parents - 2) parents.

Fixpoint radix_walk (fuel : nat) (h : heap) (pointer : nat) (nodes : dict nat)
         (prefix_bits : string) (parents : list step)
  : result (nat * string * list step) :=
  match fuel with
  | O => Raise OutOfFuel
  | S fuel' =>
      if truthy nodes && negb (is_empty prefix_bits) then
        match popitem nodes with
        | None => Ok (pointer, prefix_bits, parents)
        | Some ((node_bits, children), nodes') =>
            let common_bits := bits_in_common node_bits prefix_bits in
            if String.eqb common_bits node_bits then
              let prefix_bits := drop (String.length common_bits) prefix_bits in
              let parents := last_two (parents ++ [(pointer, node_bits, children)]) in
              items <- dict_at h children ;;
              radix_walk fuel' h children (new_dict_without_key "*" items)
                         prefix_bits parents
            else radix_walk fuel' h pointer nodes' prefix_bits parents
        end
      else Ok (pointer, prefix_bits, parents)
  end.

(** [while parents: parent, parent_bits, children = parents.pop() ...];
    the argument is [parents] reversed. *)
Fixpoint merge_loop (h : heap) (parents : list step) : result heap :=
  match parents with
  | [] => Ok h
  | (parent, parent_bits, children) :: parents' =>
      below <- dict_at h children ;;
      above <- dict_at h parent ;;
      match below with
      | [] => merge_loop (store h parent (HDict (ddel parent_bits above))) parents'
      | [(child_bits, child)] =>
          let h := store h children (HDict []) in
          let above := dset (parent_bits ++ child_bits)%string child
                            (ddel parent_bits above) in
          merge_loop (store h parent (HDict above)) parents'
      | _ => merge_loop h parents'
      end
  end.

Definition radix_delete_raw (s : state) (prefix : network) (attrs : kwargs)
  : result state :=
  items <- dict_at (cells s) (root s) ;;
  '(pointer, prefix_bits, parents) <-
    radix_walk (S (size (cells s))) (cells s) (root s)
               (new_dict_without_key "*" items) (bits_in_prefix prefix) [] ;;
  if negb (is_empty prefix_bits) then Raise KeyError
  else
    '(h, counter, routes, prune) <- take_routes (cells s) pointer attrs (counter s) ;;
    if prune then
      items <- dict_at h pointer ;;
      h <- merge_loop (store h pointer (HDict (ddel "*" items))) (rev parents) ;;
      Ok (State h (root s) (counter - Z.of_nat (List.length routes)))
    else Ok (State h (root s) counter).

Definition radix_delete (s : state) (prefix : network) (attrs : kwargs)
  : result state := sanitize (radix_delete_raw s prefix attrs).

(** The loop of [flush] (the same code in both classes).  [route] is the
    loop variable of [for route in routes.copy()], which the call of
    [self.delete] reads after that loop.  An exception of [self.delete]
    ends [flush] in the state reached so far. *)
Section Flush.
Variable delete : state -> network -> kwargs -> result state.
Variable attrs : kwargs.

Fixpoint flush_loop (fuel : nat) (s : state) (nodes : dict nat)
         (route : option Route) : state * option exn :=
  match fuel with
  | O => (s, match nodes with [] => None | _ => Some OutOfFuel end)
  | S fuel' =>
      match pop nodes with
      | None => (s, None)
      | Some ((node_bits, children), nodes') =>
          if String.eqb node_bits "*" then
            match list_at (cells s) children with
            | Raise e => (s, Some e)
            | Ok routes0 =>
                let '(routes, counter, _) :=
                  remove_matching routes0 attrs (counter s) in
                let route := match rev routes0 with
                             | last :: _ => Some last
                             | [] => route
                             end in
                let s := State (store (cells s) children (HList routes))
                               (root s) counter in
                if negb (truthy routes) then
                  match route with
                  | None => (s, Some UnboundLocalError)
                  | Some r =>
                      match delete s (_prefix r) [] with
                      | Raise e => (s, Some e)
                      | Ok s' => flush_loop fuel' s' nodes' route
                      end
                  end
                else flush_loop fuel' s nodes' route
            end
          else
            match dict_at (cells s) children with
            | Raise e => (s, Some e)
            | Ok items => flush_loop fuel' s (nodes' ++ items) route
            end
      end
  end.

(** [flush(prefix=None, attrs)] with attributes given. *)
Definition flush_attrs (self : table) : table * option exn :=
  let s := load_table self in
  match dict_at (cells s) (root s) with
  | Raise e => (self, Some e)
  | Ok items =>
      let '(s', e) := flush_loop (S (size (cells s))) s items None in
      (read_table s', e)
  end.
End Flush.

End Heap.

(** [flush] of each class: with a prefix it is [delete]; without arguments
    the root is cleared and the counter reset; with attributes only it is the
    loop over the heap. An exception leaves the table as it is then. *)
Definition flush_with (delete : table -> network -> kwargs -> result table)
           (hdelete : Heap.state -> network -> kwargs -> result Heap.state)
           (self : table) (prefix : option network) (attrs : kwargs)
  : table * option exn :=
  match prefix with
  | Some prefix =>
      match delete self prefix attrs with
      | Ok self' => (self', None)
      | Raise e => (self, Some e)
      end
  | None =>
      if negb (truthy attrs) then (Table (Dict []) 0, None)
      else Heap.flush_attrs hdelete attrs self
  end.

Definition IPPrefixTree_flush : table -> option network -> kwargs -> table * option exn :=
  flush_with IPPrefixTree.delete Heap.prefix_delete.

Definition IPRadixTree_flush : table -> option network -> kwargs -> table * option exn :=
  flush_with IPRadixTree.delete Heap.radix_delete.

(** ** The interface [RoutingTable] and its two implementations *)

Record RoutingTable : Type := {
  add : table -> network -> kwargs -> result table;
  get : table -> network -> kwargs -> result (list Route);
  show : table -> option network -> bool -> kwargs -> result (list Route);
  parent : table -> network -> kwargs -> result (list Route);
  children : table -> network -> kwargs -> result (list Route);
  match_ : table -> network -> kwargs -> result (list Route);
  delete : table -> network -> kwargs -> result table;
  flush : table -> option network -> kwargs -> table * option exn
}.

Definition PrefixTree : RoutingTable := {|
  add := IPPrefixTree.add;
  get := IPPrefixTree.get;
  show := IPPrefixTree.show;
  parent := IPPrefixTree.parent;
  children := IPPrefixTree.children;
  match_ := IPPrefixTree.match_;
  delete := IPPrefixTree.delete;
  flush := IPPrefixTree_flush
|}.

Definition RadixTree : RoutingTable := {|
  add := IPRadixTree.add;
  get := IPRadixTree.get;
  show := IPRadixTree.show;
  parent := IPRadixTree.parent;
  children := IPRadixTree.children;
  match_ := IPRadixTree.match_;
  delete := IPRadixTree.delete;
  flush := IPRadixTree_flush
|}.

(** [__iter__] and [__contains__] *)
Definition iter (self : table) : result (list Route) := _traverse (_root self) [].

Definition contains (T : RoutingTable) (self : table) (prefix : network)
  : result bool :=
  routes <- get T self prefix [] ;; Ok (truthy routes).

(** A call of the shared contract, and what the caller sees of it. *)
Inductive call : Type :=
| CAdd (prefix : network) (attrs : kwargs)
| CGet (prefix : network) (attrs : kwargs)
| CShow (prefix : option network) (as_root : bool) (attrs : kwargs)
| CParent (prefix : network) (attrs : kwargs)
| CChildren (prefix : network) (attrs : kwargs)
| CMatch (prefix : network) (attrs : kwargs)
| CWcmatch (address wildcard : Z) (attrs : kwargs)
| CDelete (prefix : network) (attrs : kwargs)
| CFlush (prefix : option network) (attrs : kwargs)
| CIter
| CContains (prefix : network)
| CLen.

Inductive answer : Type :=
| Routes (routes : list Route)
| Truth (b : bool)
| Count (n : Z)
| Done
| Raised (e : exn).

Definition answer_of {A : Type} (f : A -> answer) (r : result A) : answer :=
  match r with
  | Ok a => f a
  | Raise e => Raised e
  end.

Definition update (self : table) (r : result table) : table * answer :=
  match r with
  | Ok self' => (self', Done)
  | Raise e => (self, Raised e)
  end.

Definition exec (T : RoutingTable) (self : table) (c : call) : table * answer :=
  match c with
  | CAdd prefix attrs => update self (add T self prefix attrs)
  | CGet prefix attrs => (self, answer_of Routes (get T self prefix attrs))
  | CShow prefix as_root attrs =>
      (self, answer_of Routes (show T self prefix as_root attrs))
  | CParent prefix attrs => (self, answer_of Routes (parent T self prefix attrs))
  | CChildren prefix attrs => (self, answer_of Routes (children T self prefix attrs))
  | CMatch prefix attrs => (self, answer_of Routes (match_ T self prefix attrs))
  | CWcmatch address wildcard attrs =>
      (self, answer_of Routes (wcmatch self address wildcard attrs))
  | CDelete prefix attrs => update self (delete T self prefix attrs)
  | CFlush prefix attrs =>
      let '(self', e) := flush T self prefix attrs in
      (self', match e with Some e => Raised e | None => Done end)
  | CIter => (self, answer_of Routes (iter self))
  | CContains prefix => (self, answer_of Truth (contains T self prefix))
  | CLen => (self, Count (len self))
  end.

(** The answers of a sequence of calls on a table. *)
Fixpoint run_from (T : RoutingTable) (self : table) (calls : list call)
  : table * list answer :=
  match calls with
  | [] => (self, [])
  | c :: calls' =>
      let '(self', a) := exec T self c in
      let '(final, answers) := run_from T self' calls' in
      (final, a :: answers)
  end.

Definition run (T : RoutingTable) (calls : list call) : table * list answer :=
  run_from T init calls.

(** ** Well-formed trees

    What the data model says of a node: the keys of a dictionary are distinct,
    ["*"] holds a list of routes and every other key holds a node.  In a
    prefix tree the other keys are the bits ["0"] and ["1"]; in a radix tree
    they are non-empty strings of bits, no two of which start alike. *)

Fixpoint nodup_keys {A : Type} (d : dict A) : bool :=
  match d with
  | [] => true
  | (k, _) :: d' => negb (dmem k d') && nodup_keys d'
  end.

Fixpoint is_bits (s : string) : bool :=
  match s with
  | EmptyString => true
  | String c s' => (Ascii.eqb c "0" || Ascii.eqb c "1") && is_bits s'
  end.

Definition is_bit (k : string) : bool := String.eqb k "0" || String.eqb k "1".

Definition is_routes (o : obj) : bool :=
  match o with
  | PList _ => true
  | Dict _ => false
  end.

Fixpoint pairwise {A : Type} (ok : A -> A -> bool) (l : list A) : bool :=
  match l with
  | [] => true
  | x :: l' => forallb (ok x) l' && pairwise ok l'
  end.

Definition disjoint_edges (a b : string * obj) : bool :=
  is_empty (bits_in_common (fst a) (fst b)).

Fixpoint prefix_wf (o : obj) : bool :=
  match o with
  | PList _ => false
  | Dict items =>
      nodup_keys items
      && forallb (fun kv => if String.eqb (fst kv) "*" then is_routes (snd kv)
                            else is_bit (fst kv) && prefix_wf (snd kv)) items
  end.

Fixpoint radix_wf (o : obj) : bool :=
  match o with
  | PList _ => false
  | Dict items =>
      nodup_keys items
      && pairwise disjoint_edges (new_dict_without_key "*" items)
      && forallb (fun kv => if String.eqb (fst kv) "*" then is_routes (snd kv)
                            else negb (is_empty (fst kv)) && is_bits (fst kv)
                                 && radix_wf (snd kv)) items
  end.

(** No node but the root is without routes and with one child only. *)
Fixpoint compact (is_root : bool) (o : obj) : bool :=
  match o with
  | PList _ => true
  | Dict items =>
      (is_root || dmem "*" items
       || (2 <=? List.length (new_dict_without_key "*" items))%nat)
      && forallb (fun kv => compact false (snd kv)) items
  end.

(** The canonical form of a radix tree. *)
Definition canonical (self : table) : bool :=
  radix_wf (_root self) && compact true (_root self).

(** ** What a tree stores

    The lists of routes of a tree, each with the bits of the way from the
    root to its node. *)

Fixpoint stored (o : obj) : list (string * list Route) :=
  match o with
  | PList _ => []
  | Dict items =>
      flat_map
        (fun kv =>
           if String.eqb (fst kv) "*" then
             match snd kv with
             | PList routes => [(EmptyString, routes)]
             | Dict _ => []
             end
           else map (fun e => ((fst kv ++ fst e)%string, snd e)) (stored (snd kv)))
        items
  end.

(** [k] is the beginning of [s]. *)
Definition prefix_of (k s : string) : bool := String.eqb (bits_in_common k s) k.

(** The routes stored under the bits [bits]; none when no node is there. *)
Definition bucket_at (o : obj) (bits : string) : list Route :=
  match find (fun e => String.eqb (fst e) bits) (stored o) with
  | Some e => snd e
  | None => []
  end.

(** [routes] is the list stored under the longest stored bits that begin
    [bits]. *)
Definition longest_entry (entries : list (string * list Route)) (bits : string)
           (routes : list Route) : Prop :=
  exists path,
    In (path, routes) entries
    /\ prefix_of path bits = true
    /\ forall path' routes',
        In (path', routes') entries -> prefix_of path' bits = true ->
        (String.length path' <= String.length path)%nat.

(** The same, or [routes] is empty when no stored bits begin [bits]. *)
Definition longest_match (entries : list (string * list Route)) (bits : string)
           (routes : list Route) : Prop :=
  longest_entry entries bits routes
  \/ (routes = []
      /\ forall path' routes',
          In (path', routes') entries -> prefix_of path' bits = false).

(** The network of one address, [address/32] or [address/128]. *)
Definition host (v : version) (address : Z) : network :=
  Network v address (max_prefixlen v).

(** [address in p] for an address of the version of [p]. *)
Definition address_in (address : Z) (p : network) : Prop :=
  network_address p <= address <= broadcast_address p.

(** [get] on tables that [wf] holds of: it returns the routes with all
    [attrs] of the list that is the longest match of the bits of the prefix. *)
Definition get_longest_match (T : RoutingTable) (wf : obj -> bool) : Prop :=
  forall (t : table) (prefix : network) (attrs : kwargs),
    wf (_root t) = true ->
    exists routes,
      get T t prefix attrs = Ok (objs_with_all_attrs routes attrs)
      /\ longest_match (stored (_root t)) (bits_in_prefix prefix) routes.

(** The scan of [add] stops at the first entry of [nodes] that has bits in
    common with [prefix_bits]. *)
Definition shares (bits : string) (e : string * obj) : bool :=
  negb (is_empty (bits_in_common (fst e) bits)).

(** What the walk of [get] returns from a node: the list of the longest match
    below the node, or [prev] when nothing below matches. *)
Definition walk_result (entries : list (string * list Route)) (bits : string)
           (prev res : obj) : Prop :=
  (exists routes, res = PList routes /\ longest_entry entries bits routes)
  \/ (res = prev
      /\ forall path' routes',
          In (path', routes') entries -> prefix_of path' bits = false).

(** ** Networks for the examples *)

Definition net4 (a b c d : Z) (len : nat) : network :=
  Network V4 (a * 2 ^ 24 + b * 2 ^ 16 + c * 2 ^ 8 + d) len.

Definition net6_unspecified (len : nat) : network := Network V6 0 len.

(** ** The order of the results

    [sorted] orders networks of one version by network address, then by
    netmask; for networks as [ip_network] builds them that is by network
    address, then by prefix length. *)

Definition version_rank (v : version) : Z :=
  match v with
  | V4 => 4
  | V6 => 6
  end.

(** The order on (version, network address, prefix length). *)
Definition key_le (a b : network) : Prop :=
  version_rank (ver a) < version_rank (ver b)
  \/ (ver a = ver b
      /\ (network_address a < network_address b
          \/ (network_address a = network_address b
              /\ (prefixlen a <= prefixlen b)%nat))).

Definition route_le (r1 r2 : Route) : Prop := key_le (_prefix r1) (_prefix r2).

Definition valid_route (r : Route) : Prop :=
  (prefixlen (_prefix r) <= max_prefixlen (ver (_prefix r)))%nat.

Definition one_family (l : list Route) : Prop :=
  forall r1 r2, In r1 l -> In r2 l -> ver (_prefix r1) = ver (_prefix r2).

(** Two networks that [sorted] does not tell apart. *)
Definition same_key (k : network) (r : Route) : bool :=
  version_eqb (ver (_prefix r)) (ver k)
  && (network_address (_prefix r) =? network_address k)
  && (netmask (_prefix r) =? netmask k).

(** [l] is [collected] sorted, stably, and all of one version. *)
Definition sorted_output (collected l : list Route) : Prop :=
  Permutation collected l
  /\ one_family l
  /\ (Forall valid_route l -> StronglySorted route_le l)
  /\ (forall k, filter (same_key k) l = filter (same_key k) collected).

Definition dev (name : string) : kwargs := [("dev"%string, VStr name)].

Definition sample_calls : list call :=
  [CAdd (net4 10 0 0 0 8) (dev "a"); CAdd (net4 10 128 0 0 9) (dev "b");
   CAdd (net4 10 1 0 0 16) (dev "b"); CAdd (net4 192 168 0 0 24) (dev "a");
   CAdd (net4 192 168 1 0 24) (dev "b"); CAdd (net4 10 0 0 0 8) (dev "b")].

Definition through_heap (hdelete : Heap.state -> network -> kwargs -> result Heap.state)
           (self : table) (prefix : network) (attrs : kwargs) : result table :=
  s <- hdelete (Heap.load_table self) prefix attrs ;; Ok (Heap.read_table s).

(** ** What [add] does

    [add] of [route] under [bits] takes a node and the counter from [before]
    and [counter] to [after] and [counter']: nothing changes when the route is
    in the list under [bits] already, otherwise the route is appended to that
    list and counted. *)
Definition added (route : Route) (bits : string) (before : obj) (counter : Z)
           (after : obj) (counter' : Z) : Prop :=
  let bucket := bucket_at before bits in
  (route_in route bucket = true -> after = before /\ counter' = counter)
  /\ (route_in route bucket = false ->
      counter' = counter + 1 /\ bucket_at after bits = bucket ++ [route]).

(** [add] on tables that [wf] holds of: it returns, keeps [wf], does what
    [added] says, and a second [add] of the same route changes nothing. *)
Definition add_idempotent (T : RoutingTable) (wf : obj -> bool) : Prop :=
  forall (t : table) (prefix : network) (attrs : kwargs),
    wf (_root t) = true ->
    exists t',
      add T t prefix attrs = Ok t'
      /\ wf (_root t') = true
      /\ add T t' prefix attrs = Ok t'
      /\ added (mkRoute prefix attrs) (bits_in_prefix prefix)
               (_root t) (_counter t) (_root t') (_counter t').

(** The order [sorted] works with: [a] before [b] when [b < a] is false. *)
Definition mask_le (a b : network) : Prop :=
  ver a = ver b
  /\ (network_address a < network_address b
      \/ (network_address a = network_address b /\ netmask a <= netmask b)).

(** ** All the routes of a tree *)

(** The routes under one key of a node, and all the routes of a tree, in the
    order of [stored]. *)
Definition routes_of (o : obj) : list Route := List.concat (map snd (stored o)).

Definition entry_routes (kv : string * obj) : list Route :=
  if String.eqb (fst kv) "*" then
    match snd kv with
    | PList routes => routes
    | Dict _ => []
    end
  else routes_of (snd kv).

(** An entry of the stack of [_traverse] over a well-formed tree. *)
Definition entry_ok (kv : string * obj) : bool :=
  if String.eqb (fst kv) "*" then is_routes (snd kv) else radix_wf (snd kv).

(** The counter of a table is the number of its routes. *)
Definition counted (self : table) : Prop :=
  _counter self = Z.of_nat (List.length (routes_of (_root self))).

(** ** What [delete] does

    The routes that [delete] with [attrs] leaves of a list: those without all
    [attrs], and none when [attrs] is empty. *)
Definition kept (routes : list Route) (attrs : kwargs) : list Route :=
  filter (fun r => negb (has_all_attrs r attrs)) routes.

(** [after] stores what [before] stores, but [left] under [bits], and
    nothing under [bits] when [left] is empty. *)
Definition replaced (bits : string) (left : list Route) (before after : obj) : Prop :=
  (forall path routes,
      path <> bits ->
      (In (path, routes) (stored after) <-> In (path, routes) (stored before)))
  /\ (forall routes, In (bits, routes) (stored after) <-> routes = left /\ left <> []).

(** What [IPPrefixTree.delete_walk] returns from a node, with [bits] the
    bits left and [counter] the counter before: [KeyError] when nothing is
    stored under [bits]; the validation error when attributes are given and
    no route has them; otherwise the counter less the routes removed, and
    either the node with [left] in the place of the list, or the word that
    the node stored that list only and is to be trimmed. *)
Definition delete_result (bits : string) (items : dict obj) (attrs : kwargs)
           (counter : Z) (out : result (pruned * Z)) : Prop :=
  match out with
  | Raise e =>
      (e = KeyError /\ forall routes, ~ In (bits, routes) (stored (Dict items)))
      \/ (e = RoutingTableValidationError
          /\ truthy attrs = true
          /\ exists bucket,
              In (bits, bucket) (stored (Dict items))
              /\ objs_with_all_attrs bucket attrs = [])
  | Ok (below, counter') =>
      exists bucket,
        In (bits, bucket) (stored (Dict items))
        /\ (truthy attrs = true -> objs_with_all_attrs bucket attrs <> [])
        /\ counter' = counter - (Z.of_nat (List.length bucket)
                                  - Z.of_nat (List.length
                                                (if truthy attrs
                                                 then kept bucket attrs else [])))
        /\ match below with
           | Kept after =>
               prefix_wf after = true
               /\ replaced bits (if truthy attrs then kept bucket attrs else [])
                           (Dict items) after
           | Trimmed =>
               (if truthy attrs then kept bucket attrs else []) = []
               /\ stored (Dict items) = [(bits, bucket)]
           end
  end.

(** ** A lookup after [add]

    What [get] and [prefix in table] return on a table that holds the route
    of [prefix] and [attrs]: [get] returns the routes with all [attrs] of the
    list stored under the bits of [prefix], the route is one of them, and
    [prefix] is in the table. *)
Definition looked_up (T : RoutingTable) (self : table) (prefix : network)
           (attrs : kwargs) : Prop :=
  let bucket := bucket_at (_root self) (bits_in_prefix prefix) in
  get T self prefix attrs = Ok (objs_with_all_attrs bucket attrs)
  /\ route_in (mkRoute prefix attrs) (objs_with_all_attrs bucket attrs) = true
  /\ contains T self prefix = Ok true.

(** ** What [add] leaves alone *)

(** [after] stores under all bits but [bits] what [before] stores. *)
Definition same_elsewhere (bits : string) (before after : obj) : Prop :=
  forall path routes,
    path <> bits ->
    (In (path, routes) (stored after) <-> In (path, routes) (stored before)).

(** [add] on tables that [wf] holds of changes the list under the bits of
    the prefix and no other list: that list gains the route at its end when
    it does not hold it, and is left as it is when it does. *)
Definition add_changes_one_list (T : RoutingTable) (wf : obj -> bool) : Prop :=
  forall (t t' : table) (prefix : network) (attrs : kwargs),
    wf (_root t) = true -> add T t prefix attrs = Ok t' ->
    let route := mkRoute prefix attrs in
    let bucket := bucket_at (_root t) (bits_in_prefix prefix) in
    replaced (bits_in_prefix prefix)
             (if route_in route bucket then bucket else bucket ++ [route])
             (_root t) (_root t').

(** ** The routes at and below given bits *)

(** The routes of the lists stored under bits that begin with [bits], in the
    order of [stored]. *)
Definition routes_below (o : obj) (bits : string) : list Route :=
  List.concat (map snd (filter (fun e => prefix_of bits (fst e)) (stored o))).

(** The routes of the lists stored under the bits that [sel] selects, in the
    order of [stored]. *)
Definition routes_at (sel : string -> bool) (o : obj) : list Route :=
  List.concat (map snd (filter (fun e => sel (fst e)) (stored o))).

(** The routes stored under the bits that begin [bits], [bits] included:
    the routes of the prefixes that cover the prefix of [bits]. *)
Definition routes_on_path (o : obj) (bits : string) : list Route :=
  routes_at (fun path => prefix_of path bits) o.

(** The routes stored under bits that begin with [bits] and are longer:
    the routes of the prefixes inside the prefix of [bits]. *)
Definition routes_under (o : obj) (bits : string) : list Route :=
  routes_at (fun path => prefix_of bits path && negb (String.eqb path bits)) o.

(** [match] on tables that [wf] holds of: it returns the sort of the routes
    with all [attrs] among the routes stored under the bits that begin the
    bits of the prefix. *)
Definition match_collects_path (T : RoutingTable) (wf : obj -> bool) : Prop :=
  forall (t : table) (prefix : network) (attrs : kwargs),
    wf (_root t) = true ->
    exists matches,
      Permutation matches (routes_on_path (_root t) (bits_in_prefix prefix))
      /\ match_ T t prefix attrs = _sort (objs_with_all_attrs matches attrs).

(** ** The node of given bits *)

(** [pointer] is the node that the edges spelling [bits] lead to from the
    node [items]. *)
Inductive reaches : dict obj -> string -> dict obj -> Prop :=
| reaches_here : forall items, reaches items "" items
| reaches_edge : forall items k citems rest pointer,
    dget k items = Some (Dict citems) -> k <> "*"%string ->
    reaches citems rest pointer ->
    reaches items (k ++ rest) pointer.

(** [children] on tables that [wf] holds of: the validation error when
    nothing is stored under the bits of the prefix, otherwise the sort of the
    routes with all [attrs] among the routes stored under longer bits that
    begin with the bits of the prefix. *)
Definition children_are_inside (T : RoutingTable) (wf : obj -> bool) : Prop :=
  forall (t : table) (prefix : network) (attrs : kwargs),
    wf (_root t) = true ->
    let bits := bits_in_prefix prefix in
    ((forall routes, ~ In (bits, routes) (stored (_root t))) ->
     children T t prefix attrs = Raise RoutingTableValidationError)
    /\ ((exists routes, In (bits, routes) (stored (_root t))) ->
        exists c,
          Permutation c (objs_with_all_attrs (routes_under (_root t) bits) attrs)
          /\ children T t prefix attrs = _sort c).

(** The lists stored under other bits than [bits]. *)
Definition stored_above (o : obj) (bits : string) : list (string * list Route) :=
  filter (fun e => negb (String.eqb (fst e) bits)) (stored o).

(** [parent] on tables that [wf] holds of: the validation error when nothing
    is stored under the bits of the prefix, otherwise the routes with all
    [attrs] of the list stored under the longest shorter bits that begin the
    bits of the prefix, none when there are no such bits. *)
Definition parent_is_covering (T : RoutingTable) (wf : obj -> bool) : Prop :=
  forall (t : table) (prefix : network) (attrs : kwargs),
    wf (_root t) = true ->
    let bits := bits_in_prefix prefix in
    ((forall routes, ~ In (bits, routes) (stored (_root t))) ->
     parent T t prefix attrs = Raise RoutingTableValidationError)
    /\ ((exists routes, In (bits, routes) (stored (_root t))) ->
        exists routes,
          longest_match (stored_above (_root t) bits) bits routes
          /\ parent T t prefix attrs = Ok (objs_with_all_attrs routes attrs)).

(** ** What [IPRadixTree.delete] does

    What [IPRadixTree.delete_walk] returns from a node, with [bits] the bits
    left and [counter] the counter before: [KeyError] when nothing is stored
    under [bits]; the validation error when attributes are given and no route
    has them; otherwise the counter less the routes removed, and, when routes
    are left in the list, no turn of the loop over [parents] and the node
    with [left] in the place of the list. *)
Definition radix_delete_result (bits : string) (items : dict obj) (attrs : kwargs)
           (counter : Z) (out : result (dict obj * Z * nat)) : Prop :=
  match out with
  | Raise e =>
      (e = KeyError /\ forall routes, ~ In (bits, routes) (stored (Dict items)))
      \/ (e = RoutingTableValidationError
          /\ truthy attrs = true
          /\ exists bucket,
              In (bits, bucket) (stored (Dict items))
              /\ objs_with_all_attrs bucket attrs = [])
  | Ok (after, counter', turns) =>
      exists bucket,
        In (bits, bucket) (stored (Dict items))
        /\ (truthy attrs = true -> objs_with_all_attrs bucket attrs <> [])
        /\ counter' = counter - (Z.of_nat (List.length bucket)
                                  - Z.of_nat (List.length
                                                (if truthy attrs
                                                 then kept bucket attrs else [])))
        /\ ((if truthy attrs then kept bucket attrs else []) <> [] ->
            turns = O
            /\ radix_wf (Dict after) = true
            /\ replaced bits (kept bucket attrs) (Dict items) (Dict after))
  end.

(** ** Address ranges *)

(** The range [inner] of integers lies within the range [outer]. *)
Definition within (inner outer : Z * Z) : Prop :=
  fst outer <= fst inner /\ snd inner <= snd outer.

(** One of two ranges lies within the other. *)
Definition nested (r1 r2 : Z * Z) : Prop := within r1 r2 \/ within r2 r1.

(** ** Tables built by calls *)

(** What [delete] leaves of a node for the count of the routes: the node,
    or nothing. *)
Definition left_of (below : pruned) : obj :=
  match below with
  | Kept after => after
  | Trimmed => Dict []
  end.

(** All calls but [flush] with attributes and no prefix. *)
Definition plain_call (c : call) : bool :=
  match c with
  | CFlush None attrs => negb (truthy attrs)
  | _ => true
  end.

(** The calls that take no route of a prefix out of a table: all but
    [delete], and [flush] with arguments. *)
Definition keeps_routes (c : call) : bool :=
  match c with
  | CDelete _ _ => false
  | CFlush (Some _) _ => false
  | CFlush None attrs => negb (truthy attrs)
  | _ => true
  end.

(** [len(table)] is the number of the routes that iteration yields. *)
Definition len_is_iterated (self : table) : Prop :=
  exists l, iter self = Ok l /\ len self = Z.of_nat (List.length l).

(** ** Routable prefixes *)

(** No list of the tree is empty. *)
Definition lists_nonempty (o : obj) : Prop :=
  forall path routes, In (path, routes) (stored o) -> routes <> [].

(** A list is stored under bits that begin [bits], [bits] included: a
    stored prefix covers the prefix of [bits]. *)
Definition covered (o : obj) (bits : string) : Prop :=
  exists path routes, In (path, routes) (stored o) /\ prefix_of path bits = true.

(** [prefix in table] returns, and is true exactly of the prefixes that a
    stored prefix covers. *)
Definition contains_is_covered (T : RoutingTable) (self : table) : Prop :=
  forall prefix : network,
    exists b,
      contains T self prefix = Ok b
      /\ (b = true <-> covered (_root self) (bits_in_prefix prefix)).

(** ** Prefixes with no prefix inside *)

(** Of the bits that begin with [bits], lists are stored under [bits]
    only: no stored prefix is inside the prefix of [bits]. *)
Definition nothing_inside (o : obj) (bits : string) : bool :=
  forallb (fun e => negb (prefix_of bits (fst e)) || String.eqb (fst e) bits)
          (stored o).

(** Every stored prefix that covers the prefix of [bits], the one of no bits
    apart, covers another stored prefix as well. *)
Definition covers_have_more (o : obj) (bits : string) : bool :=
  forallb
    (fun e =>
       is_empty (fst e) || negb (prefix_of (fst e) bits) || String.eqb (fst e) bits
       || existsb (fun e' => prefix_of (fst e) (fst e')
                             && negb (String.eqb (fst e') (fst e))
                             && negb (String.eqb (fst e') bits))
                  (stored o))
    (stored o).

(** ** The layout of a tree in the heap

    The proofs about [flush] with attributes follow the references of the
    heap along the keys of a tree.  The keys of a prefix tree are one
    character each, so a string spells a way through the tree: bits, and
    ["*"] at its end for a list of routes. *)

(** The object that the keys spelled by [e] lead to. *)
Fixpoint sub_at (o : obj) (e : string) : option obj :=
  match e with
  | EmptyString => Some o
  | String c e' =>
      match o with
      | Dict items =>
          match dget (String c EmptyString) items with
          | Some child => sub_at child e'
          | None => None
          end
      | PList _ => None
      end
  end.

(** The tree with [new] in the place of the node under [bits]. *)
Fixpoint put (items : dict obj) (bits : string) (new : dict obj) : dict obj :=
  match bits with
  | EmptyString => new
  | String c rest =>
      match dget (String c EmptyString) items with
      | Some (Dict citems) =>
          dset (String c EmptyString) (Dict (put citems rest new)) items
      | _ => items
      end
  end.

(** The reference that the keys spelled by [e] lead to from [a]. *)
Fixpoint haddr (h : Heap.heap) (a : nat) (e : string) : option nat :=
  match e with
  | EmptyString => Some a
  | String c e' =>
      match nth_error h a with
      | Some (Heap.HDict refs) =>
          match dget (String c EmptyString) refs with
          | Some a' => haddr h a' e'
          | None => None
          end
      | _ => None
      end
  end.

(** The loop of [Heap.alloc] over the entries of a dictionary. *)
Definition alloc_items : list (string * obj) -> Heap.heap -> dict nat * Heap.heap :=
  fix go (l : list (string * obj)) (h : Heap.heap) : dict nat * Heap.heap :=
    match l with
    | [] => ([], h)
    | (k, c) :: l' =>
        let '(a, h1) := Heap.alloc c h in
        let '(r, h2) := go l' h1 in
        ((k, a) :: r, h2)
    end.

(** [o] lies at [a] in cells from [lo] to [a]: the children of a node lie
    below it, each in cells of its own, in the order of the keys. *)
Definition lay_items (lay : obj -> nat -> nat -> Prop) (a : nat)
  : list (string * obj) -> dict nat -> nat -> Prop :=
  fix go (l : list (string * obj)) (refs : dict nat) (lo : nat) : Prop :=
    match l, refs with
    | [], [] => (lo <= a)%nat
    | (k, c) :: l', (k', ac) :: refs' => k = k' /\ lay c lo ac /\ go l' refs' (S ac)
    | _, _ => False
    end.

Fixpoint lay (h : Heap.heap) (o : obj) (lo a : nat) {struct o} : Prop :=
  match o with
  | PList routes => (lo <= a)%nat /\ nth_error h a = Some (Heap.HList routes)
  | Dict items =>
      exists refs,
        nth_error h a = Some (Heap.HDict refs) /\ lay_items (lay h) a items refs lo
  end.

(** The number of objects of a tree. *)
Fixpoint cost (o : obj) : nat :=
  match o with
  | PList _ => 1
  | Dict items =>
      S ((fix go (l : list (string * obj)) : nat :=
            match l with
            | [] => O
            | (_, c) :: l' => (cost c + go l')%nat
            end) items)
  end.

Definition cost_items (l : list (string * obj)) : nat :=
  fold_right (fun kv n => (cost (snd kv) + n)%nat) O l.

(** The cell of an object: a list holds its routes, a dictionary the
    references of its keys, with [A] the reference of every way. *)
Definition cell_of (A : string -> nat) (e : string) (c : obj) : Heap.cell :=
  match c with
  | PList routes => Heap.HList routes
  | Dict items => Heap.HDict (map (fun kv => (fst kv, A (e ++ fst kv)%string)) items)
  end.

(** The heap holds the tree [o], every object in the cell that [A] gives. *)
Definition rep (A : string -> nat) (h : Heap.heap) (o : obj) : Prop :=
  forall e c, sub_at o e = Some c -> nth_error h (A e) = Some (cell_of A e c).

(** [A] gives the objects of [o] cells of their own, each below the cell of
    the node above it. *)
Definition apart (A : string -> nat) (o : obj) : Prop :=
  (forall e1 e2 c1 c2,
      sub_at o e1 = Some c1 -> sub_at o e2 = Some c2 -> A e1 = A e2 -> e1 = e2)
  /\ (forall e ch c,
         sub_at o (e ++ String ch "")%string = Some c ->
         (A (e ++ String ch "")%string < A e)%nat).

(** Every way of [o] is a way of [o0]. *)
Definition ways_of (o o0 : obj) : Prop :=
  forall e c, sub_at o e = Some c -> exists c0, sub_at o0 e = Some c0.

Definition addr (h : Heap.heap) (a : nat) (e : string) : nat :=
  match haddr h a e with
  | Some x => x
  | None => O
  end.

(** The nodes on the way [rest] from a node, the last one apart, have one
    key at most. *)
Fixpoint shallow (items : dict obj) (rest : string) : Prop :=
  match rest with
  | EmptyString => True
  | String c r =>
      (1 <? List.length items)%nat = false
      /\ match dget (String c EmptyString) items with
         | Some (Dict ci) => shallow ci r
         | _ => False
         end
  end.

(** [parent_prefix_node] and [branching_bit] after the loop of
    [IPPrefixTree.delete] over [rest] from the node under [done]: the way
    of the node in the place of the node. *)
Fixpoint walk_ppn (items : dict obj) (done rest : string)
         (ppn : option (string * string)) : option (string * string) :=
  match rest with
  | EmptyString => ppn
  | String c r =>
      let bit := String c EmptyString in
      let ppn' := if (1 <? List.length items)%nat then Some (done, bit) else ppn in
      match dget bit items with
      | Some (Dict ci) => walk_ppn ci (done ++ bit) r ppn'
      | _ => ppn'
      end
  end.

(** ** The loop of [flush] with attributes *)

(** A way of [ways] leads to the list under [path], or to a node above it. *)
Definition cov (ways : list string) (path : string) : bool :=
  existsb (fun w => prefix_of w (path ++ "*")) ways.

(** The number of the objects that the ways lead to, with the objects below
    them. *)
Definition weight (o : obj) (ways : list string) : nat :=
  fold_right (fun w n => (match sub_at o w with
                          | Some c => cost c
                          | None => O
                          end + n)%nat) O ways.

(** Every route is stored under the bits of its own prefix. *)
Definition routes_in_place (o : obj) : bool :=
  forallb (fun e => forallb (fun r => String.eqb (bits_in_prefix (_prefix r)) (fst e))
                            (snd e))
          (stored o).

(** The state of the loop of [flush] over a prefix tree: the heap holds the
    tree [o], a well-formed tree of the ways of the tree [o0] that [flush]
    started from; [ways] are the ways to the objects on the stack; the lists
    that the stack still leads to are those of [o0], the other lists are
    what [attrs] leaves of the lists of [o0]. *)
Definition flush_inv (A : string -> nat) (o0 : obj) (attrs : kwargs)
           (s : Heap.state) (o : obj) (ways : list string) : Prop :=
  rep A (Heap.cells s) o
  /\ Heap.root s = A ""
  /\ prefix_wf o = true
  /\ ways_of o o0
  /\ counted (Table o (Heap.counter s))
  /\ lists_nonempty o
  /\ (forall w, In w ways -> exists c, sub_at o w = Some c)
  /\ NoDup ways
  /\ (forall w1 w2, In w1 ways -> In w2 ways -> prefix_of w1 w2 = true -> w1 = w2)
  /\ (forall path, is_bits path = true ->
                   bucket_at o path = if cov ways path then bucket_at o0 path
                                      else kept (bucket_at o0 path) attrs).

(** The way of an entry of the stack: the bits of its node, and its key. *)
Definition entry_way (pk : string * string) : string := (fst pk ++ snd pk)%string.

(** The entry of the stack for the key [snd pk] of the node under [fst pk]. *)
Definition stack_entry (A : string -> nat) (pk : string * string) : string * nat :=
  (snd pk, A (entry_way pk)).

(** ** [get] of an address *)

(** [valid_network] as a test. *)
Definition is_valid_network (p : network) : bool :=
  (prefixlen p <=? max_prefixlen (ver p))%nat
  && (0 <=? network_address p)
  && (network_address p <? 2 ^ Z.of_nat (max_prefixlen (ver p)))
  && (Z.land (network_address p) (hostmask p) =? 0).

(** A tree of the address family [v]: no list is empty, and every route is
    of version [v], its prefix a network as [ip_network] builds it, and is
    stored under the bits of its prefix.  The empty table is such a tree and
    [add] of a prefix of version [v] keeps it one. *)
Definition of_version (v : version) (o : obj) : bool :=
  forallb (fun e =>
             truthy (snd e)
             && forallb (fun r =>
                           version_eqb (ver (_prefix r)) v
                           && is_valid_network (_prefix r)
                           && String.eqb (bits_in_prefix (_prefix r)) (fst e))
                        (snd e))
          (stored o).

(** The prefix of the route [r] covers the address [address] of version
    [v]: [ip_address(address) in r.prefix]. *)
Definition covers (r : Route) (v : version) (address : Z) : Prop :=
  ver (_prefix r) = v /\ address_in address (_prefix r).

(** [routes] is the list of the longest prefix of the tree that covers the
    address: the list stored under the bits of a prefix [p] that covers the
    address, which holds the routes of the tree with the prefix [p] and no
    others, while no route of the tree that covers the address has a longer
    prefix; or [routes] is empty and no route of the tree covers the
    address. *)
Definition longest_cover (o : obj) (v : version) (address : Z)
           (routes : list Route) : Prop :=
  (exists p,
      ver p = v /\ address_in address p
      /\ routes <> [] /\ routes = bucket_at o (bits_in_prefix p)
      /\ (forall r, In r (routes_of o) -> (In r routes <-> _prefix r = p))
      /\ (forall r, In r (routes_of o) -> covers r v address ->
                    (prefixlen (_prefix r) <= prefixlen p)%nat))
  \/ (routes = [] /\ forall r, In r (routes_of o) -> ~ covers r v address).

(** [get] of an address on the tables of one address family that [wf] holds
    of: it returns the routes with all [attrs] of the list of the longest
    stored prefix that covers the address. *)
Definition get_longest_cover (T : RoutingTable) (wf : obj -> bool) : Prop :=
  forall (t : table) (v : version) (address : Z) (attrs : kwargs),
    wf (_root t) = true -> of_version v (_root t) = true ->
    0 <= address < 2 ^ Z.of_nat (max_prefixlen v) ->
    exists routes,
      get T t (host v address) attrs = Ok (objs_with_all_attrs routes attrs)
      /\ longest_cover (_root t) v address routes.

(** [add] of a prefix of version [v] keeps a table of that family one. *)
Definition add_keeps_version (T : RoutingTable) (wf : obj -> bool) : Prop :=
  forall (t t' : table) (prefix : network) (attrs : kwargs),
    wf (_root t) = true -> of_version (ver prefix) (_root t) = true ->
    valid_network prefix -> add T t prefix attrs = Ok t' ->
    of_version (ver prefix) (_root t') = true.

(** * Properties *)

(** ** The two models of [delete] agree on a sample table *)

Example heap_round_trip :
  Heap.read_table (Heap.load_table (fst (run RadixTree sample_calls)))
  = fst (run RadixTree sample_calls).
Proof. vm_compute. reflexivity. Qed.

Example radix_delete_models_agree :
  Forall (fun pa =>
            IPRadixTree.delete (fst (run RadixTree sample_calls)) (fst pa) (snd pa)
            = through_heap Heap.radix_delete (fst (run RadixTree sample_calls))
                           (fst pa) (snd pa))
         (list_prod [net4 10 128 0 0 9; net4 10 1 0 0 16; net4 192 168 0 0 24;
                     net4 192 168 1 0 24; net4 10 0 0 0 8; net4 10 0 0 0 7]
                    [[]; dev "a"; dev "b"]).
Proof. repeat constructor; vm_compute; reflexivity. Qed.

Example prefix_delete_models_agree :
  Forall (fun pa =>
            IPPrefixTree.delete (fst (run PrefixTree sample_calls)) (fst pa) (snd pa)
            = through_heap Heap.prefix_delete (fst (run PrefixTree sample_calls))
                           (fst pa) (snd pa))
         (list_prod [net4 10 128 0 0 9; net4 10 1 0 0 16; net4 192 168 0 0 24;
                     net4 192 168 1 0 24; net4 10 0 0 0 8; net4 10 0 0 0 7]
                    [[]; dev "a"; dev "b"]).
Proof. repeat constructor; vm_compute; reflexivity. Qed.

(** ** What the code does at particular inputs *)

(** C10: with [::/128] as the only route of either tree, whose bounds are
    [(0, 0)], [wcmatch("0.0.0.0", "0.0.3.255")] returns that IPv6 route: the
    test on the bounds does not look at the version of the route. *)
Theorem wcmatch_crosses_address_family :
  forall attrs : kwargs,
    let route := mkRoute (net6_unspecified 128) attrs in
    int_prefix_boundaries (_prefix route) = (0, 0)
    /\ int_wildcard_boundaries 0 (3 * 2 ^ 8 + 255) = (0, 1023)
    /\ (exists t, add PrefixTree init (net6_unspecified 128) attrs = Ok t
                  /\ iter t = Ok [route]
                  /\ wcmatch t 0 (3 * 2 ^ 8 + 255) [] = Ok [route])
    /\ (exists t, add RadixTree init (net6_unspecified 128) attrs = Ok t
                  /\ iter t = Ok [route]
                  /\ wcmatch t 0 (3 * 2 ^ 8 + 255) [] = Ok [route]).
Proof.
  intros attrs route. subst route.
  split; [reflexivity|]. split; [reflexivity|].
  split; eexists; (split; [vm_compute; reflexivity|]);
    split; vm_compute; reflexivity.
Qed.

(** C2: after [add 10.0.0.0/8], [add 10.128.0.0/9] the radix tree is
    canonical; [delete 10.128.0.0/9] then splices out the node of
    [10.0.0.0/8], which still holds its route: the list of routes ends under
    the key ["00001010*"] of the root, and the tree is not canonical. *)
Theorem radix_delete_merges_away_node_with_routes :
  let r8 := mkRoute (net4 10 0 0 0 8) [] in
  let r9 := mkRoute (net4 10 128 0 0 9) [] in
  exists t2 t3,
    run RadixTree [CAdd (net4 10 0 0 0 8) []; CAdd (net4 10 128 0 0 9) []]
    = (t2, [Done; Done])
    /\ _root t2 = Dict [("00001010", Dict [("*", PList [r8]);
                                           ("1", Dict [("*", PList [r9])])])]
    /\ canonical t2 = true
    /\ delete RadixTree t2 (net4 10 128 0 0 9) [] = Ok t3
    /\ t3 = Table (Dict [("00001010*", PList [r8])]) 1
    /\ canonical t3 = false.
Proof.
  intros r8 r9. subst r8 r9. do 2 eexists.
  split; [vm_compute; reflexivity|].
  repeat split; vm_compute; reflexivity.
Qed.

(** C4: in the radix tree with [10.0.0.0/8] and [10.128.0.0/9],
    [delete 10.128.0.0/9] removes one route and takes one off the counter, but
    the route of [10.0.0.0/8] is not retrievable afterwards: [get] returns no
    route and [show()] raises. *)
Theorem radix_delete_loses_other_prefix :
  let r8 := mkRoute (net4 10 0 0 0 8) [] in
  exists t2 t3,
    run RadixTree [CAdd (net4 10 0 0 0 8) []; CAdd (net4 10 128 0 0 9) []]
    = (t2, [Done; Done])
    /\ get RadixTree t2 (net4 10 0 0 0 8) [] = Ok [r8]
    /\ delete RadixTree t2 (net4 10 128 0 0 9) [] = Ok t3
    /\ len t3 = len t2 - 1
    /\ get RadixTree t3 (net4 10 0 0 0 8) [] = Ok []
    /\ show RadixTree t3 (Some (net4 10 0 0 0 8)) false [] = Ok []
    /\ show RadixTree t3 None false [] = Raise AttributeError
    /\ iter t3 = Raise AttributeError.
Proof.
  intros r8. subst r8. do 2 eexists.
  split; [vm_compute; reflexivity|].
  repeat split; vm_compute; reflexivity.
Qed.

(** C6: in the radix tree with [0.0.0.0/0] and [10.0.0.0/8], [show] of
    [0.0.0.0/4], which is no node and holds no route, returns the routes of
    the root, and with [as_root] every route of the table; the prefix tree
    returns the empty list and the routes below [0.0.0.0/4]. *)
Theorem radix_show_prefix_inside_edge :
  let r0 := mkRoute (net4 0 0 0 0 0) [] in
  let r8 := mkRoute (net4 10 0 0 0 8) [] in
  let calls := [CAdd (net4 0 0 0 0 0) []; CAdd (net4 10 0 0 0 8) []] in
  show RadixTree (fst (run RadixTree calls)) (Some (net4 0 0 0 0 4)) false [] = Ok [r0]
  /\ show RadixTree (fst (run RadixTree calls)) (Some (net4 0 0 0 0 4)) true []
     = Ok [r0; r8]
  /\ show PrefixTree (fst (run PrefixTree calls)) (Some (net4 0 0 0 0 4)) false [] = Ok []
  /\ show PrefixTree (fst (run PrefixTree calls)) (Some (net4 0 0 0 0 4)) true []
     = Ok [r8].
Proof. repeat split; vm_compute; reflexivity. Qed.

(** C5: in the radix tree with [128.0.0.0/1] and [10.0.0.0/8], [show] of the
    absent prefix [16.0.0.0/4] returns the route of [128.0.0.0/1], not the
    empty list; [get] and [match] return the empty list there. *)
Theorem radix_show_absent_prefix_not_empty :
  let r1 := mkRoute (net4 128 0 0 0 1) [] in
  let calls := [CAdd (net4 128 0 0 0 1) []; CAdd (net4 10 0 0 0 8) []] in
  show RadixTree (fst (run RadixTree calls)) (Some (net4 16 0 0 0 4)) false [] = Ok [r1]
  /\ get RadixTree (fst (run RadixTree calls)) (net4 16 0 0 0 4) [] = Ok []
  /\ match_ RadixTree (fst (run RadixTree calls)) (net4 16 0 0 0 4) [] = Ok []
  /\ show PrefixTree (fst (run PrefixTree calls)) (Some (net4 16 0 0 0 4)) false [] = Ok [].
Proof. repeat split; vm_compute; reflexivity. Qed.

(** C1: the same three calls on both trees, the last one
    [show("0.0.0.0/4", as_root=True)]: the prefix tree answers with one
    route, the radix tree with two. *)
Theorem tries_differ_on_show_as_root :
  let calls := [CAdd (net4 128 0 0 0 1) []; CAdd (net4 10 0 0 0 8) [];
                CShow (Some (net4 0 0 0 0 4)) true []] in
  exists l1 l2,
    snd (run PrefixTree calls) = [Done; Done; Routes l1]
    /\ snd (run RadixTree calls) = [Done; Done; Routes l2]
    /\ ~ Permutation l1 l2.
Proof.
  intros calls. subst calls. do 2 eexists.
  split; [vm_compute; reflexivity|]. split; [vm_compute; reflexivity|].
  intros H. apply Permutation_length in H. discriminate H.
Qed.

(** C9: in the radix tree with [10.0.0.0/8 dev=a] and [10.128.0.0/9 dev=b],
    [flush(dev="b")] removes the one matching route and takes one off the
    counter, but its call of [delete] merges the node of [10.0.0.0/8] away:
    the route with [dev=a] is not retrievable afterwards. *)
Theorem radix_flush_attrs_loses_route :
  let r8 := mkRoute (net4 10 0 0 0 8) (dev "a") in
  exists t2 t3,
    run RadixTree [CAdd (net4 10 0 0 0 8) (dev "a"); CAdd (net4 10 128 0 0 9) (dev "b")]
    = (t2, [Done; Done])
    /\ get RadixTree t2 (net4 10 0 0 0 8) [] = Ok [r8]
    /\ flush RadixTree t2 None (dev "b") = (t3, None)
    /\ t3 = Table (Dict [("00001010*", PList [r8])]) 1
    /\ get RadixTree t3 (net4 10 0 0 0 8) [] = Ok []
    /\ show RadixTree t3 None false [] = Raise AttributeError.
Proof.
  intros r8. subst r8. do 2 eexists.
  split; [vm_compute; reflexivity|].
  repeat split; vm_compute; reflexivity.
Qed.

(** ** The sort *)

Lemma version_eqb_eq : forall a b, version_eqb a b = true <-> a = b.
Proof. intros [] []; simpl; split; congruence. Qed.

Lemma bind_ok : forall (A B : Type) (r : result A) (k : A -> result B) (b : B),
    bind r k = Ok b -> exists a, r = Ok a /\ k a = Ok b.
Proof. intros A B [a|e] k b H; simpl in H; [eauto | discriminate]. Qed.

Lemma sanitize_ok : forall (A : Type) (r : result A) (a : A),
    sanitize r = Ok a -> r = Ok a.
Proof. intros A [x|[]] a H; simpl in H; congruence. Qed.

Lemma network_lt_version : forall a b r,
    network_lt a b = Ok r -> ver a = ver b.
Proof.
  intros a b r H. unfold network_lt in H.
  destruct (version_eqb (ver a) (ver b)) eqn:E; simpl in H; [|discriminate].
  now apply version_eqb_eq.
Qed.

Lemma network_lt_same_version : forall a b,
    ver a = ver b -> exists r, network_lt a b = Ok r.
Proof.
  intros a b E. unfold network_lt.
  apply version_eqb_eq in E. rewrite E. simpl.
  destruct (network_address a =? network_address b); simpl; eauto.
  destruct (netmask a =? netmask b); simpl; eauto.
Qed.

Lemma network_lt_raises : forall a b e, network_lt a b = Raise e -> e = TypeError.
Proof.
  intros a b e H. unfold network_lt in H.
  destruct (version_eqb (ver a) (ver b)); simpl in H; [|congruence].
  destruct (network_address a =? network_address b); simpl in H; [|discriminate].
  destruct (netmask a =? netmask b); simpl in H; discriminate.
Qed.

Lemma network_lt_false : forall a b,
    network_lt b a = Ok false -> mask_le a b.
Proof.
  intros a b H. pose proof (network_lt_version _ _ _ H) as E.
  unfold network_lt in H. apply version_eqb_eq in E. rewrite E in H. simpl in H.
  apply version_eqb_eq in E. split; [congruence|].
  destruct (network_address b =? network_address a) eqn:Ea; simpl in H.
  - apply Z.eqb_eq in Ea.
    destruct (netmask b =? netmask a) eqn:Em; simpl in H.
    + apply Z.eqb_eq in Em. right. lia.
    + injection H as H. apply Z.ltb_ge in H. right. lia.
  - injection H as H. apply Z.ltb_ge in H. apply Z.eqb_neq in Ea. left. lia.
Qed.

Lemma network_lt_true : forall a b,
    network_lt a b = Ok true -> mask_le a b /\ forall k, same_key k (mkRoute a []) && same_key k (mkRoute b []) = false.
Proof.
  intros a b H. pose proof (network_lt_version _ _ _ H) as E.
  unfold network_lt in H. apply version_eqb_eq in E. rewrite E in H. simpl in H.
  apply version_eqb_eq in E.
  destruct (network_address a =? network_address b) eqn:Ea; simpl in H.
  - apply Z.eqb_eq in Ea.
    destruct (netmask a =? netmask b) eqn:Em; simpl in H; [discriminate|].
    injection H as H. apply Z.ltb_lt in H. split.
    + split; [assumption|]. right. lia.
    + intros k. unfold same_key. simpl.
      destruct (netmask a =? netmask k) eqn:E1;
        destruct (netmask b =? netmask k) eqn:E2;
        rewrite ?andb_false_r; try reflexivity.
      apply Z.eqb_eq in E1, E2. lia.
  - injection H as H. apply Z.ltb_lt in H. split.
    + split; [assumption|]. left. lia.
    + intros k. unfold same_key. simpl.
      destruct (network_address a =? network_address k) eqn:E1;
        destruct (network_address b =? network_address k) eqn:E2;
        rewrite ?andb_false_r, ?andb_false_l, ?andb_false_r; try reflexivity.
      apply Z.eqb_eq in E1, E2. lia.
Qed.

Lemma mask_le_trans : forall a b c, mask_le a b -> mask_le b c -> mask_le a c.
Proof.
  intros a b c [E1 H1] [E2 H2]. split; [congruence|]. lia.
Qed.

Lemma netmask_le_prefixlen : forall a b,
    ver a = ver b ->
    (prefixlen a <= max_prefixlen (ver a))%nat ->
    (prefixlen b <= max_prefixlen (ver b))%nat ->
    netmask a <= netmask b -> (prefixlen a <= prefixlen b)%nat.
Proof.
  intros a b E Ha Hb H. unfold netmask, hostbits in H. rewrite <- E in *.
  assert (Hp : 2 ^ Z.of_nat (max_prefixlen (ver a) - prefixlen b)
               <= 2 ^ Z.of_nat (max_prefixlen (ver a) - prefixlen a)) by lia.
  apply Z.pow_le_mono_r_iff in Hp; lia.
Qed.

Lemma mask_le_key_le : forall r1 r2,
    valid_route r1 -> valid_route r2 ->
    mask_le (_prefix r1) (_prefix r2) -> route_le r1 r2.
Proof.
  intros r1 r2 V1 V2 [E H]. unfold route_le, key_le. right.
  split; [assumption|]. destruct H as [H|[H1 H2]]; [left; assumption|].
  right. split; [assumption|]. now apply netmask_le_prefixlen.
Qed.

Lemma insert_sorted_perm : forall x l l',
    insert_sorted x l = Ok l' -> Permutation (x :: l) l'.
Proof.
  intros x l. induction l as [|y l IH]; intros l' H; simpl in H.
  - injection H as <-. apply Permutation_refl.
  - apply bind_ok in H. destruct H as [b [Hb H]]. destruct b.
    + apply bind_ok in H. destruct H as [r [Hr H]]. injection H as <-.
      eapply perm_trans; [apply perm_swap|]. apply perm_skip. now apply IH.
    + injection H as <-. apply Permutation_refl.
Qed.

Lemma sorted_perm : forall l l', sorted l = Ok l' -> Permutation l l'.
Proof.
  induction l as [|x t IH]; intros l' H; simpl in H.
  - injection H as <-. apply perm_nil.
  - apply bind_ok in H. destruct H as [t' [Ht H]].
    eapply perm_trans; [apply perm_skip, IH, Ht|]. now apply insert_sorted_perm.
Qed.

Lemma insert_sorted_family : forall x l l',
    one_family l -> insert_sorted x l = Ok l' -> one_family l'.
Proof.
  intros x l l' F H.
  assert (Hx : forall r, In r l -> ver (_prefix r) = ver (_prefix x)).
  { destruct l as [|y l]; [intros r []|]. simpl in H.
    apply bind_ok in H. destruct H as [b [Hb _]].
    apply network_lt_version in Hb. intros r Hr.
    rewrite <- Hb. apply F; [assumption | now left]. }
  pose proof (insert_sorted_perm _ _ _ H) as P.
  intros r1 r2 H1 H2.
  apply (Permutation_in _ (Permutation_sym P)) in H1, H2.
  assert (Hx' : forall r, In r (x :: l) -> ver (_prefix r) = ver (_prefix x)).
  { intros r [<-|Hr]; [reflexivity | now apply Hx]. }
  rewrite (Hx' _ H1), (Hx' _ H2). reflexivity.
Qed.

Lemma sorted_family : forall l l', sorted l = Ok l' -> one_family l'.
Proof.
  induction l as [|x t IH]; intros l' H; simpl in H.
  - injection H as <-. intros r1 r2 [].
  - apply bind_ok in H. destruct H as [t' [Ht H]].
    eapply insert_sorted_family; [apply IH, Ht | apply H].
Qed.

Lemma insert_sorted_order : forall x l l',
    StronglySorted (fun a b => mask_le (_prefix a) (_prefix b)) l ->
    insert_sorted x l = Ok l' ->
    StronglySorted (fun a b => mask_le (_prefix a) (_prefix b)) l'.
Proof.
  intros x l. induction l as [|y l IH]; intros l' S H; simpl in H.
  - injection H as <-. repeat constructor.
  - apply bind_ok in H. destruct H as [b [Hb H]].
    apply StronglySorted_inv in S. destruct S as [S Hy]. destruct b.
    + apply bind_ok in H. destruct H as [r [Hr H]]. injection H as <-.
      constructor; [now apply IH|].
      apply network_lt_true in Hb. destruct Hb as [Hb _].
      pose proof (insert_sorted_perm _ _ _ Hr) as P.
      rewrite Forall_forall in *. intros z Hz.
      apply (Permutation_in _ (Permutation_sym P)) in Hz.
      destruct Hz as [<-|Hz]; auto.
    + injection H as <-. apply network_lt_false in Hb.
      constructor; [constructor; assumption|].
      constructor; [assumption|].
      rewrite Forall_forall in *. intros z Hz.
      eapply mask_le_trans; [apply Hb | apply Hy, Hz].
Qed.

Lemma sorted_order : forall l l',
    sorted l = Ok l' ->
    StronglySorted (fun a b => mask_le (_prefix a) (_prefix b)) l'.
Proof.
  induction l as [|x t IH]; intros l' H; simpl in H.
  - injection H as <-. constructor.
  - apply bind_ok in H. destruct H as [t' [Ht H]].
    eapply insert_sorted_order; [apply IH, Ht | apply H].
Qed.

Lemma same_key_route : forall k r,
    same_key k r = same_key k (mkRoute (_prefix r) []).
Proof. reflexivity. Qed.

Lemma insert_sorted_stable : forall k x l l',
    insert_sorted x l = Ok l' ->
    filter (same_key k) l' = filter (same_key k) (x :: l).
Proof.
  intros k x l. induction l as [|y l IH]; intros l' H; simpl in H.
  - injection H as <-. reflexivity.
  - apply bind_ok in H. destruct H as [b [Hb H]]. destruct b.
    + apply bind_ok in H. destruct H as [r [Hr H]]. injection H as <-.
      apply network_lt_true in Hb. destruct Hb as [_ Hb]. specialize (Hb k).
      rewrite <- !same_key_route in Hb.
      simpl. rewrite (IH _ Hr). simpl.
      destruct (same_key k y), (same_key k x); simpl in *;
        try reflexivity; discriminate.
    + injection H as <-. reflexivity.
Qed.

Lemma sorted_stable : forall k l l',
    sorted l = Ok l' -> filter (same_key k) l' = filter (same_key k) l.
Proof.
  intros k. induction l as [|x t IH]; intros l' H; simpl in H.
  - injection H as <-. reflexivity.
  - apply bind_ok in H. destruct H as [t' [Ht H]].
    rewrite (insert_sorted_stable _ _ _ _ H). simpl. now rewrite (IH _ Ht).
Qed.

Lemma strongly_sorted_weaken : forall (A : Type) (R S : A -> A -> Prop) (l : list A),
    (forall a b, In a l -> In b l -> R a b -> S a b) ->
    StronglySorted R l -> StronglySorted S l.
Proof.
  intros A R S l. induction l as [|x l IH]; intros W H; [constructor|].
  apply StronglySorted_inv in H. destruct H as [H Hx]. constructor.
  - apply IH; [|assumption]. intros a b Ha Hb. apply W; now right.
  - rewrite Forall_forall in *. intros y Hy.
    apply W; [now left | now right | now apply Hx].
Qed.

Lemma sort_sorted_output : forall collected l,
    _sort collected = Ok l -> sorted_output collected l.
Proof.
  intros collected l H. unfold _sort in H. repeat split.
  - now apply sorted_perm.
  - eapply sorted_family, H.
  - intros V. apply (strongly_sorted_weaken _ _ _ _ ) with (2 := sorted_order _ _ H).
    rewrite Forall_forall in V. intros a b Ha Hb. apply mask_le_key_le; auto.
  - intros k. now apply sorted_stable.
Qed.

Lemma insert_sorted_total : forall x l,
    (forall r, In r l -> ver (_prefix r) = ver (_prefix x)) ->
    exists l', insert_sorted x l = Ok l'.
Proof.
  intros x l. induction l as [|y l IH]; intros F; simpl; [eauto|].
  destruct (network_lt_same_version (_prefix y) (_prefix x)) as [b Hb].
  { apply F. now left. }
  rewrite Hb. simpl. destruct b; [|eauto].
  destruct IH as [r Hr]; [intros; apply F; now right|]. rewrite Hr. simpl. eauto.
Qed.

Lemma sort_total : forall collected,
    one_family collected -> exists l, _sort collected = Ok l.
Proof.
  unfold _sort. induction collected as [|x t IH]; intros F; simpl; [eauto|].
  destruct IH as [t' Ht].
  { intros r1 r2 H1 H2. apply F; now right. }
  rewrite Ht. simpl. apply insert_sorted_total.
  intros r Hr. apply (Permutation_in _ (Permutation_sym (sorted_perm _ _ Ht))) in Hr.
  apply F; [now right | now left].
Qed.

Lemma insert_sorted_raises : forall x l e,
    insert_sorted x l = Raise e -> e = TypeError.
Proof.
  intros x l. induction l as [|y l IH]; intros e H; simpl in H; [discriminate|].
  destruct (network_lt (_prefix y) (_prefix x)) as [b|e'] eqn:Hb; simpl in H.
  - destruct b; [|discriminate].
    destruct (insert_sorted x l) eqn:Hr; simpl in H; [discriminate|].
    injection H as <-. now apply IH.
  - injection H as <-. eapply network_lt_raises, Hb.
Qed.

Lemma sorted_raises : forall l e, sorted l = Raise e -> e = TypeError.
Proof.
  induction l as [|x t IH]; intros e H; simpl in H; [discriminate|].
  destruct (sorted t) as [t'|e'] eqn:Ht; simpl in H.
  - eapply insert_sorted_raises, H.
  - injection H as <-. now apply IH.
Qed.

Lemma sort_mixed : forall collected r1 r2,
    In r1 collected -> In r2 collected ->
    ver (_prefix r1) <> ver (_prefix r2) ->
    _sort collected = Raise TypeError.
Proof.
  intros collected r1 r2 H1 H2 N. unfold _sort.
  destruct (sorted collected) as [l|e] eqn:H.
  - exfalso. apply N. apply (sorted_family _ _ H);
      eapply Permutation_in; try apply (sorted_perm _ _ H); assumption.
  - f_equal. eapply sorted_raises, H.
Qed.

(** [_sort], the [sorted] of both trees with the network of the prefix as
    key: of routes of one version it returns a list, and every list it
    returns holds the routes it was given, all of one version, ascending in
    the order on (version, network address, prefix length), with the routes
    that the key does not tell apart in the order they were given in. *)
Theorem sort_orders_one_family :
  forall collected : list Route,
    (one_family collected -> exists l, _sort collected = Ok l)
    /\ (forall l, _sort collected = Ok l -> sorted_output collected l).
Proof.
  intros collected. split.
  - apply sort_total.
  - intros l. apply sort_sorted_output.
Qed.

(** C8 on a table that holds routes of both versions.  After [add a00::/8]
    and [add 10.0.0.0/8], which have the same bits, [show] of [10.0.0.0/8]
    returns the IPv6 route before the IPv4 route on both trees, and [show()]
    raises [TypeError] instead of returning the sorted list; with
    [10.128.0.0/9] and [a40::/10] added below them, [children] of
    [10.0.0.0/8], [match] of [10.128.0.0/9] and [show] of [10.0.0.0/8] with
    [as_root] raise [TypeError] as well. *)
Lemma show_of_two_families_not_sorted :
  let r6 := mkRoute (Network V6 (10 * 2 ^ 120) 8) [] in
  let r4 := mkRoute (net4 10 0 0 0 8) [] in
  let calls := [CAdd (Network V6 (10 * 2 ^ 120) 8) []; CAdd (net4 10 0 0 0 8) []] in
  let more := calls ++ [CAdd (net4 10 128 0 0 9) [];
                        CAdd (Network V6 (10 * 2 ^ 120 + 64 * 2 ^ 112) 10) []] in
  (show PrefixTree (fst (run PrefixTree calls)) (Some (net4 10 0 0 0 8)) false []
   = Ok [r6; r4]
   /\ show RadixTree (fst (run RadixTree calls)) (Some (net4 10 0 0 0 8)) false []
      = Ok [r6; r4]
   /\ ~ StronglySorted route_le [r6; r4]
   /\ show PrefixTree (fst (run PrefixTree calls)) None false [] = Raise TypeError
   /\ show RadixTree (fst (run RadixTree calls)) None false [] = Raise TypeError)
  /\ (children PrefixTree (fst (run PrefixTree more)) (net4 10 0 0 0 8) []
      = Raise TypeError
      /\ children RadixTree (fst (run RadixTree more)) (net4 10 0 0 0 8) []
         = Raise TypeError
      /\ match_ PrefixTree (fst (run PrefixTree more)) (net4 10 128 0 0 9) []
         = Raise TypeError
      /\ match_ RadixTree (fst (run RadixTree more)) (net4 10 128 0 0 9) []
         = Raise TypeError
      /\ show PrefixTree (fst (run PrefixTree more)) (Some (net4 10 0 0 0 8)) true []
         = Raise TypeError
      /\ show RadixTree (fst (run RadixTree more)) (Some (net4 10 0 0 0 8)) true []
         = Raise TypeError).
Proof.
  split; [|repeat split; vm_compute; reflexivity].
  split; [vm_compute; reflexivity|]. split; [vm_compute; reflexivity|].
  split; [|split; vm_compute; reflexivity].
  intros S. apply StronglySorted_inv in S. destruct S as [_ S].
  apply Forall_inv in S. unfold route_le, key_le in S. simpl in S.
  destruct S as [S | [S _]]; [lia | discriminate].
Qed.

(** ** Strings of bits *)

Lemma append_assoc : forall a b c : string, ((a ++ b) ++ c = a ++ (b ++ c))%string.
Proof. induction a as [|x a IH]; intros b c; simpl; [reflexivity | now rewrite IH]. Qed.

Lemma append_empty_r : forall a : string, (a ++ "" = a)%string.
Proof. induction a as [|x a IH]; simpl; [reflexivity | now rewrite IH]. Qed.

Lemma length_append : forall a b : string,
    String.length (a ++ b) = (String.length a + String.length b)%nat.
Proof. induction a as [|x a IH]; intros b; simpl; [reflexivity | now rewrite IH]. Qed.

Lemma drop_append : forall k s : string, drop (String.length k) (k ++ s) = s.
Proof. induction k as [|x k IH]; intros s; simpl; [reflexivity | apply IH]. Qed.

Lemma is_empty_true : forall s, is_empty s = true <-> s = EmptyString.
Proof. intros [|c s]; simpl; split; congruence. Qed.

Lemma is_empty_false : forall s, is_empty s = false <-> s <> EmptyString.
Proof. intros [|c s]; simpl; split; congruence. Qed.

Lemma common_split_l : forall k s,
    k = (bits_in_common k s ++ drop (String.length (bits_in_common k s)) k)%string.
Proof.
  induction k as [|x k IH]; intros [|y s]; simpl; try reflexivity.
  destruct (Ascii.eqb x y); simpl; [f_equal; apply IH | reflexivity].
Qed.

Lemma common_split_r : forall k s,
    s = (bits_in_common k s ++ drop (String.length (bits_in_common k s)) s)%string.
Proof.
  induction k as [|x k IH]; intros [|y s]; simpl; try reflexivity.
  destruct (Ascii.eqb x y) eqn:E; simpl; [|reflexivity].
  apply Ascii.eqb_eq in E. subst y. f_equal. apply IH.
Qed.

Lemma common_rest : forall k s,
    bits_in_common (drop (String.length (bits_in_common k s)) k)
                   (drop (String.length (bits_in_common k s)) s) = EmptyString.
Proof.
  induction k as [|x k IH]; intros [|y s]; simpl; try reflexivity.
  destruct (Ascii.eqb x y) eqn:E; simpl; [apply IH | now rewrite E].
Qed.

Lemma common_append : forall k a b,
    bits_in_common (k ++ a) (k ++ b) = (k ++ bits_in_common a b)%string.
Proof.
  induction k as [|x k IH]; intros a b; simpl; [reflexivity|].
  rewrite Ascii.eqb_refl. f_equal. apply IH.
Qed.

Lemma common_sym : forall a b, bits_in_common a b = bits_in_common b a.
Proof.
  induction a as [|x a IH]; intros [|y b]; simpl; try reflexivity.
  rewrite (Ascii.eqb_sym y x). destruct (Ascii.eqb x y) eqn:E; [|reflexivity].
  apply Ascii.eqb_eq in E. subst y. f_equal. apply IH.
Qed.

Lemma common_empty_r : forall a, bits_in_common a "" = EmptyString.
Proof. intros [|x a]; reflexivity. Qed.

(** Two strings have bits in common exactly when they start with the same
    character. *)
Lemma common_nonempty : forall a b,
    bits_in_common a b <> EmptyString <->
    exists c a' b', a = String c a' /\ b = String c b'.
Proof.
  intros [|x a] [|y b]; simpl; split;
    try congruence; try (intros (c & a' & b' & H1 & H2); congruence).
  - destruct (Ascii.eqb x y) eqn:E; [|congruence].
    apply Ascii.eqb_eq in E. subst y. intros _. eauto.
  - intros (c & a' & b' & H1 & H2). injection H1 as -> ->. injection H2 as -> ->.
    rewrite Ascii.eqb_refl. congruence.
Qed.

Lemma prefix_of_append : forall k s, prefix_of k (k ++ s) = true.
Proof.
  intros k s. unfold prefix_of. apply String.eqb_eq.
  rewrite <- (append_empty_r k) at 1. rewrite common_append.
  simpl. apply append_empty_r.
Qed.

Lemma prefix_of_split : forall k s,
    prefix_of k s = true -> s = (k ++ drop (String.length k) s)%string.
Proof.
  intros k s H. unfold prefix_of in H. apply String.eqb_eq in H.
  pose proof (common_split_r k s) as E. rewrite H in E. exact E.
Qed.

Lemma prefix_of_iff : forall k s,
    prefix_of k s = true <-> exists suf, s = (k ++ suf)%string.
Proof.
  intros k s. split.
  - intros H. eexists. now apply prefix_of_split.
  - intros [suf ->]. apply prefix_of_append.
Qed.

Lemma prefix_of_empty : forall s, prefix_of "" s = true.
Proof. reflexivity. Qed.

Lemma prefix_of_nonempty_common : forall k s,
    k <> EmptyString -> prefix_of k s = true -> bits_in_common k s <> EmptyString.
Proof.
  intros k s N H. unfold prefix_of in H. apply String.eqb_eq in H. congruence.
Qed.

Lemma common_empty_prefix : forall k s,
    k <> EmptyString -> bits_in_common k s = EmptyString -> prefix_of k s = false.
Proof.
  intros k s N H. unfold prefix_of. rewrite H. apply String.eqb_neq. congruence.
Qed.

Lemma append_prefix_cancel : forall k a b,
    prefix_of (k ++ a) (k ++ b) = prefix_of a b.
Proof.
  intros k a b. unfold prefix_of. rewrite common_append.
  destruct (String.eqb_spec (bits_in_common a b) a) as [E|N].
  - rewrite E. apply String.eqb_refl.
  - apply String.eqb_neq. intros E. apply N.
    apply (f_equal (drop (String.length k))) in E. now rewrite !drop_append in E.
Qed.

Lemma append_inj_l : forall k a b : string, (k ++ a = k ++ b)%string -> a = b.
Proof.
  intros k a b E. apply (f_equal (drop (String.length k))) in E.
  now rewrite !drop_append in E.
Qed.

Lemma prefix_of_append_l : forall k suf s,
    prefix_of (k ++ suf) s = true -> prefix_of k s = true.
Proof.
  intros k suf s H. apply prefix_of_iff in H. destruct H as [r ->].
  rewrite append_assoc. apply prefix_of_append.
Qed.

Lemma is_bits_append : forall a b, is_bits (a ++ b) = is_bits a && is_bits b.
Proof.
  induction a as [|x a IH]; intros b; simpl; [reflexivity|].
  rewrite IH. now rewrite andb_assoc.
Qed.

Lemma is_bits_not_star : forall s, is_bits s = true -> String.eqb s "*" = false.
Proof.
  intros s H. apply String.eqb_neq. intros ->. discriminate H.
Qed.

Lemma is_bits_common : forall k s, is_bits s = true -> is_bits (bits_in_common k s) = true.
Proof.
  intros k s H. rewrite (common_split_r k s), is_bits_append in H.
  now apply andb_prop in H.
Qed.

Lemma is_bits_drop : forall n s, is_bits s = true -> is_bits (drop n s) = true.
Proof.
  induction n as [|n IH]; intros [|c s] H; simpl; try assumption.
  simpl in H. apply andb_prop in H. now apply IH.
Qed.

(** ** Dictionaries *)

Section DictFacts.
Context {A : Type}.
Implicit Types (d : dict A) (k : string) (v : A).

Lemma dget_dset_same : forall k v d, dget k (dset k v d) = Some v.
Proof.
  intros k v d. induction d as [|[k' v'] d IH]; simpl.
  - now rewrite String.eqb_refl.
  - destruct (String.eqb k' k) eqn:E; simpl; rewrite E; [reflexivity | apply IH].
Qed.

Lemma dget_dset_other : forall k k' v d,
    k' <> k -> dget k' (dset k v d) = dget k' d.
Proof.
  intros k k' v d N. induction d as [|[k0 v0] d IH]; simpl.
  - destruct (String.eqb_spec k k'); [congruence | reflexivity].
  - destruct (String.eqb_spec k0 k) as [->|N0]; simpl.
    + destruct (String.eqb_spec k k'); [congruence | reflexivity].
    + now rewrite IH.
Qed.

Lemma dget_ddel_other : forall k k' d,
    k' <> k -> dget k' (ddel k d) = dget k' d.
Proof.
  intros k k' d N. induction d as [|[k0 v0] d IH]; simpl; [reflexivity|].
  destruct (String.eqb_spec k0 k) as [->|N0]; simpl.
  - destruct (String.eqb_spec k k'); [congruence | reflexivity].
  - now rewrite IH.
Qed.

Lemma dset_same : forall k v d, dget k d = Some v -> dset k v d = d.
Proof.
  intros k v d. induction d as [|[k0 v0] d IH]; simpl; [discriminate|].
  destruct (String.eqb_spec k0 k) as [->|N0]; intros H.
  - now injection H as ->.
  - now rewrite IH.
Qed.

Lemma dset_dset : forall k v v' d, dset k v (dset k v' d) = dset k v d.
Proof.
  intros k v v' d. induction d as [|[k0 v0] d IH]; simpl.
  - now rewrite String.eqb_refl.
  - destruct (String.eqb k0 k) eqn:E; simpl; rewrite E; [reflexivity | now rewrite IH].
Qed.

Lemma dmem_dget : forall k d, dmem k d = false <-> dget k d = None.
Proof. intros k d. unfold dmem. destruct (dget k d); split; congruence. Qed.

Lemma dget_In : forall k v d, dget k d = Some v -> In (k, v) d.
Proof.
  intros k v d. induction d as [|[k0 v0] d IH]; simpl; [discriminate|].
  destruct (String.eqb_spec k0 k) as [->|N0]; intros H.
  - injection H as ->. now left.
  - right. now apply IH.
Qed.

Lemma In_dget : forall k v d, nodup_keys d = true -> In (k, v) d -> dget k d = Some v.
Proof.
  intros k v d. induction d as [|[k0 v0] d IH]; simpl; [intros _ []|].
  intros N [E|H]; apply andb_prop in N; destruct N as [N1 N2].
  - injection E as -> ->. now rewrite String.eqb_refl.
  - destruct (String.eqb_spec k0 k) as [->|N0]; [|now apply IH].
    apply negb_true_iff, dmem_dget in N1. rewrite (IH N2 H) in N1. discriminate.
Qed.

Lemma dmem_dset : forall k k' v d,
    dmem k' (dset k v d) = String.eqb k k' || dmem k' d.
Proof.
  intros k k' v d. unfold dmem.
  destruct (String.eqb_spec k k') as [->|N].
  - now rewrite dget_dset_same.
  - rewrite dget_dset_other by congruence. reflexivity.
Qed.

Lemma nodup_keys_dset : forall k v d, nodup_keys d = true -> nodup_keys (dset k v d) = true.
Proof.
  intros k v d. induction d as [|[k0 v0] d IH]; simpl; [reflexivity|].
  intros N. apply andb_prop in N. destruct N as [N1 N2].
  destruct (String.eqb_spec k0 k) as [->|N0]; simpl.
  - now rewrite N1, N2.
  - rewrite IH by assumption. rewrite dmem_dset.
    destruct (String.eqb_spec k k0); [congruence|]. simpl. now rewrite N1.
Qed.

Lemma dmem_ddel : forall k k' d, dmem k' d = false -> dmem k' (ddel k d) = false.
Proof.
  intros k k' d. unfold dmem. induction d as [|[k0 v0] d IH]; simpl; [reflexivity|].
  destruct (String.eqb_spec k0 k') as [->|N0]; [discriminate|]. intros H.
  destruct (String.eqb k0 k); simpl; [assumption|].
  destruct (String.eqb_spec k0 k'); [congruence | now apply IH].
Qed.

Lemma nodup_keys_ddel : forall k d, nodup_keys d = true -> nodup_keys (ddel k d) = true.
Proof.
  intros k d. induction d as [|[k0 v0] d IH]; simpl; [reflexivity|].
  intros N. apply andb_prop in N. destruct N as [N1 N2].
  destruct (String.eqb k0 k); simpl; [assumption|].
  rewrite IH by assumption. apply negb_true_iff in N1.
  now rewrite (dmem_ddel _ _ _ N1).
Qed.

Lemma dget_ddel_same : forall k d, nodup_keys d = true -> dget k (ddel k d) = None.
Proof.
  intros k d. induction d as [|[k0 v0] d IH]; simpl; [reflexivity|].
  intros N. apply andb_prop in N. destruct N as [N1 N2].
  destruct (String.eqb_spec k0 k) as [->|N0]; simpl.
  - now apply negb_true_iff, dmem_dget in N1.
  - destruct (String.eqb_spec k0 k); [congruence | now apply IH].
Qed.

Lemma forallb_dset : forall (P : string * A -> bool) k v d,
    forallb P d = true -> P (k, v) = true ->
    (forall v', In (k, v') d -> forall k0, String.eqb k0 k = true -> P (k0, v) = true) ->
    forallb P (dset k v d) = true.
Proof.
  intros P k v d. induction d as [|[k0 v0] d IH]; simpl; intros H Hv Hk.
  - now rewrite Hv.
  - apply andb_prop in H. destruct H as [H1 H2].
    destruct (String.eqb k0 k) eqn:E; simpl.
    + rewrite H2, andb_true_r. apply String.eqb_eq in E. subst k0. assumption.
    + rewrite H1. apply IH; auto. intros v' Hin. apply (Hk v'). now right.
Qed.

Lemma forallb_ddel : forall (P : string * A -> bool) k d,
    forallb P d = true -> forallb P (ddel k d) = true.
Proof.
  intros P k d. induction d as [|[k0 v0] d IH]; simpl; [reflexivity|].
  intros H. apply andb_prop in H. destruct H as [H1 H2].
  destruct (String.eqb k0 k); simpl; [assumption|]. now rewrite H1, IH.
Qed.

Lemma without_In : forall k0 k v d,
    In (k, v) (new_dict_without_key k0 d) <-> In (k, v) d /\ k <> k0.
Proof.
  intros k0 k v d. unfold new_dict_without_key. rewrite filter_In. simpl.
  rewrite negb_true_iff, String.eqb_neq. reflexivity.
Qed.

Lemma without_dset_other : forall k0 k v d,
    k <> k0 ->
    new_dict_without_key k0 (dset k v d) = dset k v (new_dict_without_key k0 d).
Proof.
  intros k0 k v d N. induction d as [|[k1 v1] d IH]; simpl.
  - destruct (String.eqb_spec k k0); [congruence | reflexivity].
  - destruct (String.eqb_spec k1 k) as [->|N1]; simpl.
    + destruct (String.eqb_spec k k0); [congruence|]. simpl.
      now rewrite String.eqb_refl.
    + rewrite IH. destruct (String.eqb_spec k1 k0); simpl; [reflexivity|].
      destruct (String.eqb_spec k1 k); [congruence | reflexivity].
Qed.

Lemma without_dset_same : forall k0 v d,
    new_dict_without_key k0 (dset k0 v d) = new_dict_without_key k0 d.
Proof.
  intros k0 v d. induction d as [|[k1 v1] d IH]; simpl.
  - now rewrite String.eqb_refl.
  - destruct (String.eqb_spec k1 k0) as [->|N1]; simpl.
    + now rewrite String.eqb_refl.
    + destruct (String.eqb_spec k1 k0); [congruence|]. simpl. now rewrite IH.
Qed.

Lemma without_ddel_other : forall k0 k d,
    k <> k0 ->
    new_dict_without_key k0 (ddel k d) = ddel k (new_dict_without_key k0 d).
Proof.
  intros k0 k d N. induction d as [|[k1 v1] d IH]; simpl; [reflexivity|].
  destruct (String.eqb_spec k1 k) as [->|N1]; simpl.
  - destruct (String.eqb_spec k k0); [congruence|]. simpl.
    now rewrite String.eqb_refl.
  - destruct (String.eqb_spec k1 k0); simpl; [assumption|].
    destruct (String.eqb_spec k1 k); [congruence|]. now rewrite IH.
Qed.

Lemma dset_new : forall k v d, dget k d = None -> dset k v d = d ++ [(k, v)].
Proof.
  intros k v d. induction d as [|[k0 v0] d IH]; simpl; [reflexivity|].
  destruct (String.eqb k0 k); [discriminate|]. intros H. now rewrite IH.
Qed.

Lemma In_ddel : forall k k' v d, In (k', v) (ddel k d) -> In (k', v) d.
Proof.
  intros k k' v d. induction d as [|[k0 v0] d IH]; simpl; [tauto|].
  destruct (String.eqb k0 k); simpl; [tauto|]. intros [E|H]; [now left | right; auto].
Qed.
End DictFacts.

(** ** Well-formed nodes *)

Lemma obj_induction : forall P : obj -> Prop,
    (forall routes, P (PList routes)) ->
    (forall items, (forall k c, In (k, c) items -> P c) -> P (Dict items)) ->
    forall o, P o.
Proof.
  intros P HL HD. fix IH 1. intros [items|routes]; [|apply HL].
  apply HD. induction items as [|[k0 c0] items IHitems]; intros k c H.
  - destruct H.
  - destruct H as [E|H].
    + injection E as _ <-. apply IH.
    + eapply IHitems, H.
Qed.

Lemma height_child : forall k c items,
    In (k, c) items -> (height c < height (Dict items))%nat.
Proof.
  intros k c items. simpl. induction items as [|[k0 c0] items IH]; intros H.
  - destruct H.
  - destruct H as [E|H].
    + injection E as _ <-. lia.
    + specialize (IH H). lia.
Qed.

Lemma pairwise_In : forall (A : Type) (R : A -> A -> bool) (l : list A) a b,
    pairwise R l = true -> In a l -> In b l ->
    a = b \/ R a b = true \/ R b a = true.
Proof.
  intros A R l a b. induction l as [|x l IH]; simpl; [intros _ []|].
  intros H Ha Hb. apply andb_prop in H. destruct H as [Hx Hl].
  rewrite forallb_forall in Hx.
  destruct Ha as [<-|Ha], Hb as [<-|Hb]; auto.
Qed.

Lemma is_bit_chars : forall k,
    is_bit k = true -> k = "0"%string \/ k = "1"%string.
Proof.
  intros k H. unfold is_bit in H. apply orb_prop in H.
  destruct H as [H|H]; apply String.eqb_eq in H; auto.
Qed.

Lemma pairwise_bits : forall items : dict obj,
    nodup_keys items = true ->
    forallb (fun kv => is_bit (fst kv)) items = true ->
    pairwise disjoint_edges items = true.
Proof.
  induction items as [|[k c] items IH]; simpl; [reflexivity|].
  intros N B. apply andb_prop in N, B. destruct N as [N1 N2], B as [B1 B2].
  rewrite IH by assumption. rewrite andb_true_r.
  apply forallb_forall. intros [k' c'] Hin.
  rewrite forallb_forall in B2. pose proof (B2 _ Hin) as B'. simpl in B'.
  apply negb_true_iff, dmem_dget in N1.
  assert (k' <> k).
  { intros ->. rewrite (In_dget _ _ _ N2 Hin) in N1. discriminate. }
  unfold disjoint_edges. simpl.
  destruct (is_bit_chars _ B1) as [->| ->], (is_bit_chars _ B') as [->| ->];
    try reflexivity; congruence.
Qed.

Lemma forallb_without : forall (P : string * obj -> bool) (items : dict obj),
    forallb (fun kv => if String.eqb (fst kv) "*" then true else P kv) items = true ->
    forallb P (new_dict_without_key "*" items) = true.
Proof.
  intros P. induction items as [|[k c] items IH]; simpl; [reflexivity|].
  intros H. apply andb_prop in H. destruct H as [H1 H2].
  destruct (String.eqb k "*"); simpl; [now apply IH|]. now rewrite H1, IH.
Qed.

Lemma nodup_keys_without : forall (items : dict obj),
    nodup_keys items = true -> nodup_keys (new_dict_without_key "*" items) = true.
Proof.
  induction items as [|[k c] items IH]; simpl; [reflexivity|].
  intros N. apply andb_prop in N. destruct N as [N1 N2].
  destruct (String.eqb k "*"); simpl; [now apply IH|].
  rewrite IH by assumption. rewrite andb_true_r.
  apply negb_true_iff, dmem_dget in N1. apply negb_true_iff, dmem_dget.
  destruct (dget k (new_dict_without_key "*" items)) eqn:E; [|reflexivity].
  apply dget_In, without_In in E. destruct E as [E _].
  rewrite (In_dget _ _ _ N2 E) in N1. discriminate.
Qed.

(** A well-formed prefix tree is a well-formed radix tree with edges of one
    bit. *)
Lemma prefix_wf_radix_wf : forall o, prefix_wf o = true -> radix_wf o = true.
Proof.
  induction o as [routes|items IH] using obj_induction; [trivial|].
  simpl. intros H. apply andb_prop in H. destruct H as [N F].
  rewrite N. simpl. apply andb_true_intro. split.
  - apply pairwise_bits; [now apply nodup_keys_without|].
    apply forallb_without. rewrite forallb_forall in *. intros kv Hin.
    specialize (F kv Hin). destruct (String.eqb (fst kv) "*"); [reflexivity|].
    now apply andb_prop in F.
  - rewrite forallb_forall in *. intros [k c] Hin. specialize (F _ Hin).
    simpl in *. destruct (String.eqb k "*"); [assumption|].
    apply andb_prop in F. destruct F as [B W].
    rewrite (IH _ _ Hin W), andb_true_r.
    destruct (is_bit_chars _ B) as [->| ->]; reflexivity.
Qed.

Lemma radix_wf_nodup : forall items, radix_wf (Dict items) = true -> nodup_keys items = true.
Proof.
  intros items H. simpl in H. apply andb_prop in H. destruct H as [H _].
  apply andb_prop in H. tauto.
Qed.

Lemma radix_wf_routes : forall items held,
    radix_wf (Dict items) = true -> dget "*" items = Some held ->
    exists routes, held = PList routes.
Proof.
  intros items held H G. simpl in H. apply andb_prop in H. destruct H as [_ F].
  rewrite forallb_forall in F. specialize (F _ (dget_In _ _ _ G)). simpl in F.
  destruct held; [discriminate | eauto].
Qed.

Lemma radix_wf_edge : forall items k c,
    radix_wf (Dict items) = true -> dget k items = Some c -> k <> "*"%string ->
    k <> EmptyString /\ is_bits k = true /\ radix_wf c = true.
Proof.
  intros items k c H G N. simpl in H. apply andb_prop in H. destruct H as [_ F].
  rewrite forallb_forall in F. specialize (F _ (dget_In _ _ _ G)). simpl in F.
  apply String.eqb_neq in N. rewrite N in F.
  apply andb_prop in F. destruct F as [F W]. apply andb_prop in F.
  destruct F as [E B]. apply negb_true_iff, is_empty_false in E. auto.
Qed.

Lemma radix_wf_child_dict : forall items k c,
    radix_wf (Dict items) = true -> dget k items = Some c -> k <> "*"%string ->
    exists items', c = Dict items'.
Proof.
  intros items k c H G N. destruct (radix_wf_edge _ _ _ H G N) as (_ & _ & W).
  destruct c; [eauto | discriminate].
Qed.

Lemma radix_wf_disjoint : forall items k1 c1 k2 c2,
    radix_wf (Dict items) = true ->
    dget k1 items = Some c1 -> dget k2 items = Some c2 ->
    k1 <> "*"%string -> k2 <> "*"%string -> k1 <> k2 ->
    bits_in_common k1 k2 = EmptyString.
Proof.
  intros items k1 c1 k2 c2 H G1 G2 N1 N2 N. simpl in H.
  apply andb_prop in H. destruct H as [H _]. apply andb_prop in H.
  destruct H as [_ P].
  assert (I1 : In (k1, c1) (new_dict_without_key "*" items))
    by (apply without_In; split; [now apply dget_In | assumption]).
  assert (I2 : In (k2, c2) (new_dict_without_key "*" items))
    by (apply without_In; split; [now apply dget_In | assumption]).
  destruct (pairwise_In _ _ _ _ _ P I1 I2) as [E|[D|D]].
  - congruence.
  - now apply is_empty_true in D.
  - apply is_empty_true in D. simpl in D. now rewrite common_sym.
Qed.

(** At most one edge of a node starts like given bits. *)
Lemma radix_wf_one_edge : forall items k1 c1 k2 c2 bits,
    radix_wf (Dict items) = true ->
    dget k1 items = Some c1 -> dget k2 items = Some c2 ->
    k1 <> "*"%string -> k2 <> "*"%string ->
    bits_in_common k1 bits <> EmptyString ->
    bits_in_common k2 bits <> EmptyString ->
    k1 = k2.
Proof.
  intros items k1 c1 k2 c2 bits H G1 G2 N1 N2 C1 C2.
  destruct (String.eqb_spec k1 k2) as [E|N]; [assumption|]. exfalso.
  pose proof (radix_wf_disjoint _ _ _ _ _ H G1 G2 N1 N2 N) as D.
  apply common_nonempty in C1, C2.
  destruct C1 as (x & a1 & b1 & -> & ->), C2 as (y & a2 & b2 & -> & E).
  injection E as <- <-. simpl in D. rewrite Ascii.eqb_refl in D. discriminate.
Qed.

(** ** What a well-formed tree stores *)

Lemma In_stored : forall items path routes,
    nodup_keys items = true ->
    (In (path, routes) (stored (Dict items)) <->
     (path = EmptyString /\ dget "*" items = Some (PList routes))
     \/ (exists k child suf,
            k <> "*"%string /\ dget k items = Some child
            /\ path = (k ++ suf)%string /\ In (suf, routes) (stored child))).
Proof.
  intros items path routes N. simpl. rewrite in_flat_map. split.
  - intros [[k c] [Hin H]]. simpl in H.
    pose proof (In_dget _ _ _ N Hin) as G.
    destruct (String.eqb_spec k "*") as [->|Nk].
    + left. destruct c as [|rs]; [destruct H|].
      destruct H as [E|[]]. injection E as <- <-. auto.
    + right. apply in_map_iff in H. destruct H as [[suf rs] [E H]].
      simpl in E. injection E as <- <-. exists k, c, suf. auto.
  - intros [[-> G]|(k & child & suf & Nk & G & -> & H)].
    + exists ("*"%string, PList routes). split; [now apply dget_In|]. simpl. now left.
    + exists (k, child). split; [now apply dget_In|]. simpl.
      apply String.eqb_neq in Nk. rewrite Nk.
      apply in_map_iff. exists (suf, routes). auto.
Qed.

Lemma In_stored_here : forall items routes,
    dget "*" items = Some (PList routes) ->
    In (EmptyString, routes) (stored (Dict items)).
Proof.
  intros items routes G. simpl. apply in_flat_map.
  exists ("*"%string, PList routes). split; [now apply dget_In|]. simpl. now left.
Qed.

Lemma In_stored_edge : forall items k child suf routes,
    k <> "*"%string -> dget k items = Some child ->
    In (suf, routes) (stored child) ->
    In ((k ++ suf)%string, routes) (stored (Dict items)).
Proof.
  intros items k child suf routes Nk G H. simpl. apply in_flat_map.
  exists (k, child). split; [now apply dget_In|]. simpl.
  apply String.eqb_neq in Nk. rewrite Nk.
  apply in_map_iff. exists (suf, routes). auto.
Qed.

Lemma append_nonempty : forall k suf : string,
    k <> EmptyString -> (k ++ suf)%string <> EmptyString.
Proof. intros [|c k] suf N; [congruence | discriminate]. Qed.

Lemma common_of_append : forall k suf k' suf' : string,
    k <> EmptyString -> k' <> EmptyString ->
    (k ++ suf = k' ++ suf')%string -> bits_in_common k k' <> EmptyString.
Proof.
  intros [|c k] suf [|c' k'] suf' N N' E; try congruence.
  simpl in E. injection E as <- _. simpl. rewrite Ascii.eqb_refl. discriminate.
Qed.

(** Under bits that hold a list, a well-formed tree holds one list. *)
Lemma stored_functional : forall o path r1 r2,
    radix_wf o = true ->
    In (path, r1) (stored o) -> In (path, r2) (stored o) -> r1 = r2.
Proof.
  induction o as [routes|items IH] using obj_induction;
    intros path r1 r2 W H1 H2; [destruct H1|].
  pose proof (radix_wf_nodup _ W) as N.
  apply In_stored in H1, H2; try assumption.
  destruct H1 as [[-> G1]|(k1 & c1 & s1 & N1 & G1 & E1 & I1)];
    destruct H2 as [[E2 G2]|(k2 & c2 & s2 & N2 & G2 & E2 & I2)].
  - congruence.
  - destruct (radix_wf_edge _ _ _ W G2 N2) as (Ne & _).
    symmetry in E2. now apply append_nonempty in E2.
  - destruct (radix_wf_edge _ _ _ W G1 N1) as (Ne & _).
    subst path. now apply append_nonempty in E2.
  - destruct (radix_wf_edge _ _ _ W G1 N1) as (Ne1 & _ & W1).
    destruct (radix_wf_edge _ _ _ W G2 N2) as (Ne2 & _ & _).
    subst path.
    assert (k1 = k2).
    { destruct (String.eqb_spec k1 k2) as [E|Nk]; [assumption|]. exfalso.
      apply (common_of_append _ _ _ _ Ne1 Ne2 E2).
      eapply radix_wf_disjoint; eauto. }
    subst k2. apply append_inj_l in E2. subst s2.
    assert (c2 = c1) by congruence. subst c2.
    eapply IH; eauto using dget_In.
Qed.

Lemma bucket_at_In : forall o bits routes,
    radix_wf o = true -> In (bits, routes) (stored o) -> bucket_at o bits = routes.
Proof.
  intros o bits routes W H. unfold bucket_at.
  destruct (find (fun e => String.eqb (fst e) bits) (stored o)) as [[p rs]|] eqn:F.
  - apply find_some in F. destruct F as [Hin E]. simpl in E.
    apply String.eqb_eq in E. subst p. simpl. eapply stored_functional; eauto.
  - eapply find_none in F; [|apply H]. simpl in F.
    now rewrite String.eqb_refl in F.
Qed.

Lemma bucket_at_none : forall o bits,
    (forall routes, ~ In (bits, routes) (stored o)) -> bucket_at o bits = [].
Proof.
  intros o bits H. unfold bucket_at.
  destruct (find (fun e => String.eqb (fst e) bits) (stored o)) as [[p rs]|] eqn:F;
    [|reflexivity].
  apply find_some in F. destruct F as [Hin E]. simpl in E.
  apply String.eqb_eq in E. subst p. now apply H in Hin.
Qed.

Lemma bucket_at_cases : forall o bits,
    (exists routes, In (bits, routes) (stored o))
    \/ (forall routes, ~ In (bits, routes) (stored o)).
Proof.
  intros o bits.
  destruct (find (fun e => String.eqb (fst e) bits) (stored o)) as [[p rs]|] eqn:F.
  - apply find_some in F. destruct F as [Hin E]. simpl in E.
    apply String.eqb_eq in E. subst p. eauto.
  - right. intros routes Hin. eapply find_none in F; [|apply Hin]. simpl in F.
    now rewrite String.eqb_refl in F.
Qed.

Lemma bucket_at_here : forall items,
    radix_wf (Dict items) = true ->
    bucket_at (Dict items) "" =
    match dget "*" items with
    | Some (PList routes) => routes
    | _ => []
    end.
Proof.
  intros items W. pose proof (radix_wf_nodup _ W) as N.
  destruct (dget "*" items) as [held|] eqn:G.
  - destruct (radix_wf_routes _ _ W G) as [routes ->].
    apply bucket_at_In; [assumption | now apply In_stored_here].
  - apply bucket_at_none. intros routes H. apply In_stored in H; [|assumption].
    destruct H as [[_ G']|(k & c & s & Nk & Gk & E & _)]; [congruence|].
    destruct (radix_wf_edge _ _ _ W Gk Nk) as (Ne & _).
    symmetry in E. now apply append_nonempty in E.
Qed.

Lemma bucket_at_edge : forall items k child rest,
    radix_wf (Dict items) = true -> dget k items = Some child -> k <> "*"%string ->
    bucket_at (Dict items) (k ++ rest) = bucket_at child rest.
Proof.
  intros items k child rest W G Nk. pose proof (radix_wf_nodup _ W) as N.
  destruct (radix_wf_edge _ _ _ W G Nk) as (Ne & _ & Wc).
  destruct (bucket_at_cases child rest) as [[routes H]|H].
  - rewrite (bucket_at_In _ _ _ Wc H).
    apply bucket_at_In; [assumption|]. eapply In_stored_edge; eauto.
  - rewrite (bucket_at_none _ _ H). apply bucket_at_none.
    intros routes Hin. apply In_stored in Hin; [|assumption].
    destruct Hin as [[E _]|(k' & c' & s' & Nk' & G' & E & I')].
    + now apply append_nonempty in E.
    + destruct (radix_wf_edge _ _ _ W G' Nk') as (Ne' & _).
      assert (k = k').
      { destruct (String.eqb_spec k k') as [E'|Nkk]; [assumption|]. exfalso.
        apply (common_of_append _ _ _ _ Ne Ne' E).
        eapply radix_wf_disjoint; eauto. }
      subst k'. apply append_inj_l in E. subst s'.
      assert (c' = child) by congruence. subst c'. now apply H in I'.
Qed.

Lemma bucket_at_no_edge : forall items bits,
    radix_wf (Dict items) = true -> bits <> EmptyString ->
    (forall k child, dget k items = Some child -> k <> "*"%string ->
                     prefix_of k bits = false) ->
    bucket_at (Dict items) bits = [].
Proof.
  intros items bits W Nb H. pose proof (radix_wf_nodup _ W) as N.
  apply bucket_at_none. intros routes Hin. apply In_stored in Hin; [|assumption].
  destruct Hin as [[E _]|(k & c & s & Nk & G & E & _)]; [congruence|].
  specialize (H _ _ G Nk). subst bits. now rewrite prefix_of_append in H.
Qed.

(** ** Updates keep nodes well formed *)

Lemma disjoint_edges_key : forall k c c' e,
    disjoint_edges (k, c) e = disjoint_edges (k, c') e.
Proof. reflexivity. Qed.

Lemma forallb_disjoint_dset : forall e k v (d : dict obj),
    forallb (disjoint_edges e) d = true ->
    disjoint_edges e (k, v) = true ->
    forallb (disjoint_edges e) (dset k v d) = true.
Proof.
  intros e k v d. induction d as [|[k0 v0] d IH]; simpl; intros H D.
  - now rewrite D.
  - apply andb_prop in H. destruct H as [H1 H2].
    destruct (String.eqb_spec k0 k) as [->|Nk]; simpl.
    + unfold disjoint_edges in *. simpl in *. now rewrite H1, H2.
    + now rewrite H1, IH.
Qed.

Lemma pairwise_dset : forall k v (d : dict obj),
    pairwise disjoint_edges d = true ->
    (forall k' c', In (k', c') d -> k' <> k -> bits_in_common k k' = EmptyString) ->
    pairwise disjoint_edges (dset k v d) = true.
Proof.
  intros k v d. induction d as [|[k0 v0] d IH]; simpl; intros P H; [reflexivity|].
  apply andb_prop in P. destruct P as [P1 P2].
  destruct (String.eqb_spec k0 k) as [->|Nk]; simpl.
  - rewrite P2, andb_true_r. exact P1.
  - rewrite IH; [|assumption|intros; eapply H; eauto]. rewrite andb_true_r.
    apply forallb_disjoint_dset; [assumption|].
    unfold disjoint_edges. simpl. rewrite common_sym.
    apply is_empty_true. eapply H; [now left | assumption].
Qed.

Lemma pairwise_ddel : forall k (d : dict obj),
    pairwise disjoint_edges d = true -> pairwise disjoint_edges (ddel k d) = true.
Proof.
  intros k d. induction d as [|[k0 v0] d IH]; simpl; intros P; [reflexivity|].
  apply andb_prop in P. destruct P as [P1 P2].
  destruct (String.eqb k0 k); simpl; [assumption|].
  rewrite IH by assumption. rewrite andb_true_r. now apply forallb_ddel.
Qed.

Lemma radix_wf_intro : forall items,
    nodup_keys items = true ->
    pairwise disjoint_edges (new_dict_without_key "*" items) = true ->
    forallb (fun kv => if String.eqb (fst kv) "*" then is_routes (snd kv)
                       else negb (is_empty (fst kv)) && is_bits (fst kv)
                            && radix_wf (snd kv)) items = true ->
    radix_wf (Dict items) = true.
Proof. intros items N P F. simpl. now rewrite N, P, F. Qed.

Lemma radix_wf_parts : forall items,
    radix_wf (Dict items) = true ->
    nodup_keys items = true
    /\ pairwise disjoint_edges (new_dict_without_key "*" items) = true
    /\ forallb (fun kv => if String.eqb (fst kv) "*" then is_routes (snd kv)
                          else negb (is_empty (fst kv)) && is_bits (fst kv)
                               && radix_wf (snd kv)) items = true.
Proof.
  intros items H. simpl in H. apply andb_prop in H. destruct H as [H F].
  apply andb_prop in H. tauto.
Qed.

Lemma radix_wf_dset_star : forall items routes,
    radix_wf (Dict items) = true ->
    radix_wf (Dict (dset "*" (PList routes) items)) = true.
Proof.
  intros items routes W. apply radix_wf_parts in W. destruct W as (N & P & F).
  apply radix_wf_intro.
  - now apply nodup_keys_dset.
  - now rewrite without_dset_same.
  - apply forallb_dset; [assumption | reflexivity|].
    intros v' _ k0 E. simpl. now rewrite E.
Qed.

Lemma radix_wf_dset_edge : forall items k child,
    radix_wf (Dict items) = true ->
    k <> EmptyString -> is_bits k = true -> radix_wf child = true ->
    (forall k' c', dget k' items = Some c' -> k' <> "*"%string -> k' <> k ->
                   bits_in_common k k' = EmptyString) ->
    radix_wf (Dict (dset k child items)) = true.
Proof.
  intros items k child W Ne B Wc D.
  apply radix_wf_parts in W. destruct W as (N & P & F).
  pose proof (is_bits_not_star _ B) as Ns.
  apply radix_wf_intro.
  - now apply nodup_keys_dset.
  - rewrite without_dset_other by (now apply String.eqb_neq).
    apply pairwise_dset; [assumption|].
    intros k' c' Hin Nk. apply without_In in Hin. destruct Hin as [Hin Nk'].
    eapply D; eauto using In_dget.
  - apply forallb_dset; [assumption| |].
    + simpl. rewrite Ns, B, Wc. apply is_empty_false in Ne. now rewrite Ne.
    + intros v' _ k0 E. apply String.eqb_eq in E. subst k0. simpl.
      rewrite Ns, B, Wc. apply is_empty_false in Ne. now rewrite Ne.
Qed.

Lemma radix_wf_ddel : forall items k,
    radix_wf (Dict items) = true -> k <> "*"%string ->
    radix_wf (Dict (ddel k items)) = true.
Proof.
  intros items k W Nk. apply radix_wf_parts in W. destruct W as (N & P & F).
  apply radix_wf_intro.
  - now apply nodup_keys_ddel.
  - rewrite without_ddel_other by assumption. now apply pairwise_ddel.
  - now apply forallb_ddel.
Qed.

Lemma prefix_wf_dset_star : forall items routes,
    prefix_wf (Dict items) = true ->
    prefix_wf (Dict (dset "*" (PList routes) items)) = true.
Proof.
  intros items routes W. simpl in W. apply andb_prop in W. destruct W as [N F].
  simpl. rewrite nodup_keys_dset by assumption. simpl.
  apply forallb_dset; [assumption | reflexivity|].
  intros v' _ k0 E. simpl. now rewrite E.
Qed.

Lemma prefix_wf_dset_bit : forall items k child,
    prefix_wf (Dict items) = true -> is_bit k = true -> prefix_wf child = true ->
    prefix_wf (Dict (dset k child items)) = true.
Proof.
  intros items k child W B Wc. simpl in W. apply andb_prop in W.
  destruct W as [N F]. simpl. rewrite nodup_keys_dset by assumption. simpl.
  assert (Ns : String.eqb k "*" = false)
    by (destruct (is_bit_chars _ B) as [->| ->]; reflexivity).
  apply forallb_dset; [assumption| |].
  - simpl. now rewrite Ns, B, Wc.
  - intros v' _ k0 E. apply String.eqb_eq in E. subst k0. simpl.
    now rewrite Ns, B, Wc.
Qed.

Lemma prefix_wf_child : forall items k c,
    prefix_wf (Dict items) = true -> dget k items = Some c -> k <> "*"%string ->
    prefix_wf c = true.
Proof.
  intros items k c W G Nk. simpl in W. apply andb_prop in W. destruct W as [_ F].
  rewrite forallb_forall in F. specialize (F _ (dget_In _ _ _ G)). simpl in F.
  apply String.eqb_neq in Nk. rewrite Nk in F. now apply andb_prop in F.
Qed.

(** ** Routes in a list *)

Lemma value_eqb_refl : forall v, value_eqb v v = true.
Proof. intros [s|z]; simpl; [apply String.eqb_refl | apply Z.eqb_refl]. Qed.

Lemma option_value_eqb_refl : forall o, option_value_eqb o o = true.
Proof. intros [v|]; simpl; [apply value_eqb_refl | reflexivity]. Qed.

Lemma kwargs_eqb_refl : forall a, kwargs_eqb a a = true.
Proof.
  intros a. unfold kwargs_eqb.
  assert (H : forallb (fun kv => option_value_eqb (dget (fst kv) a) (dget (fst kv) a)) a
              = true)
    by (apply forallb_forall; intros; apply option_value_eqb_refl).
  now rewrite H.
Qed.

Lemma network_eqb_refl : forall n, network_eqb n n = true.
Proof.
  intros [v a l]. unfold network_eqb. simpl.
  rewrite Z.eqb_refl, Nat.eqb_refl. now destruct v.
Qed.

Lemma Route_eqb_refl : forall r, Route_eqb r r = true.
Proof.
  intros r. unfold Route_eqb. now rewrite network_eqb_refl, kwargs_eqb_refl.
Qed.

Lemma route_in_last : forall route routes, route_in route (routes ++ [route]) = true.
Proof.
  intros route routes. unfold route_in. rewrite existsb_app. simpl.
  rewrite Route_eqb_refl. now rewrite orb_true_r.
Qed.

(** ** [add] *)

Lemma bucket_at_leaf : forall route,
    bucket_at (Dict [("*"%string, PList [route])]) "" = [route].
Proof. reflexivity. Qed.

Lemma install_added : forall items route counter,
    radix_wf (Dict items) = true ->
    exists items' counter',
      install items route counter = Ok (items', counter')
      /\ radix_wf (Dict items') = true
      /\ (prefix_wf (Dict items) = true -> prefix_wf (Dict items') = true)
      /\ added route "" (Dict items) counter (Dict items') counter'.
Proof.
  intros items route counter W. unfold install, added.
  rewrite (bucket_at_here _ W).
  destruct (dget "*" items) as [held|] eqn:G.
  - destruct (radix_wf_routes _ _ W G) as [routes ->]. simpl.
    destruct (route_in route routes) eqn:R.
    + exists items, counter. repeat split; auto; discriminate.
    + exists (dset "*" (PList (routes ++ [route])) items), (counter + 1).
      split; [reflexivity|]. split; [now apply radix_wf_dset_star|].
      split; [now apply prefix_wf_dset_star|].
      split; [discriminate|]. intros _. split; [reflexivity|].
      rewrite bucket_at_here by now apply radix_wf_dset_star.
      now rewrite dget_dset_same.
  - exists (dset "*" (PList [route]) items), (counter + 1).
    split; [reflexivity|]. split; [now apply radix_wf_dset_star|].
    split; [now apply prefix_wf_dset_star|].
    split; [discriminate|]. intros _. split; [reflexivity|].
    rewrite bucket_at_here by now apply radix_wf_dset_star.
    now rewrite dget_dset_same.
Qed.

Lemma prefix_wf_dict : forall o, prefix_wf o = true -> exists items, o = Dict items.
Proof. intros [items|routes] H; [eauto | discriminate]. Qed.

Lemma bit_prefix_of : forall k c bits,
    is_bit k = true -> k <> String c EmptyString ->
    prefix_of k (String c bits) = false.
Proof.
  intros k c bits B N. unfold prefix_of.
  destruct (is_bit_chars _ B) as [->| ->]; cbn [bits_in_common].
  - destruct (Ascii.eqb_spec "0" c) as [<-|?]; [now elim N | reflexivity].
  - destruct (Ascii.eqb_spec "1" c) as [<-|?]; [now elim N | reflexivity].
Qed.

Lemma prefix_wf_bit : forall items k c,
    prefix_wf (Dict items) = true -> dget k items = Some c -> k <> "*"%string ->
    is_bit k = true.
Proof.
  intros items k c W G Nk. simpl in W. apply andb_prop in W. destruct W as [_ F].
  rewrite forallb_forall in F. specialize (F _ (dget_In _ _ _ G)). simpl in F.
  apply String.eqb_neq in Nk. rewrite Nk in F. now apply andb_prop in F.
Qed.

Lemma prefix_add_walk_added : forall bits pointer route counter,
    prefix_wf pointer = true -> is_bits bits = true ->
    exists pointer' counter',
      IPPrefixTree.add_walk bits pointer route counter = Ok (pointer', counter')
      /\ prefix_wf pointer' = true
      /\ added route bits pointer counter pointer' counter'.
Proof.
  induction bits as [|c bits IH]; intros pointer route counter W B;
    destruct (prefix_wf_dict _ W) as [items ->];
    pose proof (prefix_wf_radix_wf _ W) as RW.
  - destruct (install_added items route counter RW) as (items' & c' & E & _ & W' & A).
    exists (Dict items'), c'. simpl. rewrite E. simpl. auto.
  - simpl in B. apply andb_prop in B. destruct B as [Bc B].
    set (bit := String c EmptyString).
    assert (Bb : is_bit bit = true).
    { unfold is_bit, bit. apply orb_prop in Bc.
      destruct Bc as [E|E]; apply Ascii.eqb_eq in E; subst c; reflexivity. }
    assert (Ns : bit <> "*"%string)
      by (destruct (is_bit_chars _ Bb) as [E|E]; rewrite E; discriminate).
    set (child := match dget bit items with Some ch => ch | None => Dict [] end).
    assert (Wc : prefix_wf child = true).
    { unfold child. destruct (dget bit items) eqn:G; [|reflexivity].
      eapply prefix_wf_child; eauto. }
    assert (Hb : bucket_at (Dict items) (String c bits) = bucket_at child bits).
    { unfold child. destruct (dget bit items) as [ch|] eqn:G.
      - apply (bucket_at_edge items bit ch bits RW G Ns).
      - rewrite bucket_at_no_edge; [reflexivity | assumption | discriminate |].
        intros k ch Gk Nk. apply bit_prefix_of.
        + apply (prefix_wf_bit items k ch W Gk Nk).
        + intros ->. fold bit in Gk. congruence. }
    destruct (IH child route counter Wc B) as (child' & c' & E & W' & A).
    exists (Dict (dset bit child' items)), c'.
    assert (W2 : prefix_wf (Dict (dset bit child' items)) = true)
      by now apply prefix_wf_dset_bit.
    split; [|split; [assumption|]].
    + simpl. fold bit. fold child. rewrite E. reflexivity.
    + unfold added in *. rewrite Hb. destruct A as [A1 A2]. split.
      * intros R. destruct (A1 R) as [-> ->]. split; [|reflexivity]. f_equal.
        unfold child in *. destruct (dget bit items) eqn:G; [now apply dset_same|].
        discriminate R.
      * intros R. destruct (A2 R) as [-> Hb']. split; [reflexivity|].
        rewrite <- Hb'.
        apply (bucket_at_edge (dset bit child' items) bit child' bits);
          [now apply prefix_wf_radix_wf | apply dget_dset_same | assumption].
Qed.

Lemma format_b_is_bits : forall w n, is_bits (format_b w n) = true.
Proof.
  induction w as [|w IH]; intros n; simpl; [reflexivity|].
  rewrite IH. now destruct (Z.testbit n (Z.of_nat w)).
Qed.

Lemma is_bits_take : forall n s, is_bits s = true -> is_bits (take n s) = true.
Proof.
  induction n as [|n IH]; intros [|c s] H; simpl; try reflexivity.
  simpl in H. apply andb_prop in H. destruct H as [H1 H2]. now rewrite H1, IH.
Qed.

Lemma bits_in_prefix_is_bits : forall prefix, is_bits (bits_in_prefix prefix) = true.
Proof. intros prefix. apply is_bits_take, format_b_is_bits. Qed.

Lemma added_then_in : forall route bits before counter after counter',
    added route bits before counter after counter' ->
    route_in route (bucket_at after bits) = true.
Proof.
  intros route bits before counter after counter' [A1 A2].
  destruct (route_in route (bucket_at before bits)) eqn:R.
  - destruct (A1 eq_refl) as [-> _]. exact R.
  - destruct (A2 eq_refl) as [_ ->]. apply route_in_last.
Qed.

Lemma prefix_add_idempotent : add_idempotent PrefixTree prefix_wf.
Proof.
  intros t prefix attrs W. simpl. unfold IPPrefixTree.add.
  pose proof (bits_in_prefix_is_bits prefix) as B.
  destruct (prefix_add_walk_added _ _ (mkRoute prefix attrs) (_counter t) W B)
    as (root' & c' & E & W' & A).
  exists (Table root' c'). rewrite E. simpl.
  split; [reflexivity|]. split; [assumption|]. split; [|assumption].
  destruct (prefix_add_walk_added _ _ (mkRoute prefix attrs) c' W' B)
    as (root2 & c2 & E2 & _ & A2 & _).
  rewrite E2. simpl.
  destruct (A2 (added_then_in _ _ _ _ _ _ A)) as [-> ->]. reflexivity.
Qed.

Lemma add_scan_empty : forall D route counter pointer nodes,
    IPRadixTree.add_scan D route counter pointer nodes ""
    = IPRadixTree.add_finish pointer "" route counter.
Proof. intros D route counter pointer [|[k c] nodes]; reflexivity. Qed.

Lemma add_scan_find : forall D route counter pointer nodes bits,
    bits <> EmptyString ->
    IPRadixTree.add_scan D route counter pointer nodes bits
    = match find (shares bits) nodes with
      | None => IPRadixTree.add_finish pointer bits route counter
      | Some (node_bits, children) =>
          let common_bits := bits_in_common node_bits bits in
          let prefix_bits := drop (String.length common_bits) bits in
          if String.eqb common_bits node_bits then
            items <- as_dict children ;;
            '(items', counter') <- D items prefix_bits ;;
            Ok (dset node_bits (Dict items') pointer, counter')
          else
            '(split, counter') <-
              IPRadixTree.add_finish
                [(drop (String.length common_bits) node_bits, children)]
                prefix_bits route counter ;;
            Ok (dset common_bits (Dict split) (ddel node_bits pointer), counter')
      end.
Proof.
  intros D route counter pointer nodes bits N.
  apply is_empty_false in N.
  induction nodes as [|[k c] nodes IH]; [reflexivity|].
  cbn [IPRadixTree.add_scan find]. rewrite N. unfold shares at 1. cbn [fst].
  destruct (is_empty (bits_in_common k bits)); cbn [negb]; [apply IH | reflexivity].
Qed.

Lemma nodes_of_In : forall items k c,
    In (k, c) (IPRadixTree.nodes_of items) <-> In (k, c) items /\ k <> "*"%string.
Proof.
  intros items k c. unfold IPRadixTree.nodes_of.
  rewrite <- in_rev. apply without_In.
Qed.

Lemma shares_true : forall bits k c,
    shares bits (k, c) = true <-> bits_in_common k bits <> EmptyString.
Proof.
  intros bits k c. unfold shares. simpl.
  rewrite negb_true_iff. apply is_empty_false.
Qed.

Lemma wf_leaf : forall route, radix_wf (Dict [("*"%string, PList [route])]) = true.
Proof. reflexivity. Qed.

(** No edge starts like [bits]: a new edge [bits] with the route. *)
Lemma add_new_edge : forall items bits route counter,
    radix_wf (Dict items) = true -> is_bits bits = true -> bits <> EmptyString ->
    (forall k child, dget k items = Some child -> k <> "*"%string ->
                     bits_in_common k bits = EmptyString) ->
    exists items' counter',
      IPRadixTree.add_finish items bits route counter = Ok (items', counter')
      /\ radix_wf (Dict items') = true
      /\ added route bits (Dict items) counter (Dict items') counter'.
Proof.
  intros items bits route counter W B N H.
  unfold IPRadixTree.add_finish. apply is_empty_false in N. rewrite N.
  apply is_empty_false in N. cbn.
  set (leaf := Dict [("*"%string, PList [route])]).
  exists (dset bits leaf items), (counter + 1).
  assert (W' : radix_wf (Dict (dset bits leaf items)) = true).
  { apply radix_wf_dset_edge; auto.
    intros k' c' G Nk _. rewrite common_sym. eauto. }
  split; [reflexivity|]. split; [assumption|].
  assert (E : bucket_at (Dict items) bits = []).
  { apply bucket_at_no_edge; auto. intros k child G Nk.
    destruct (radix_wf_edge _ _ _ W G Nk) as (Ne & _).
    apply common_empty_prefix; eauto. }
  unfold added. rewrite E. split; [discriminate|]. intros _.
  split; [reflexivity|].
  assert (Ns : bits <> "*"%string)
    by (apply String.eqb_neq; now apply is_bits_not_star).
  pose proof (bucket_at_edge _ bits leaf "" W' (dget_dset_same _ _ _) Ns) as X.
  rewrite append_empty_r in X. rewrite X. reflexivity.
Qed.

Lemma add_finish_added : forall items bits route counter,
    radix_wf (Dict items) = true -> is_bits bits = true ->
    (forall k child, dget k items = Some child -> k <> "*"%string ->
                     bits_in_common k bits = EmptyString) ->
    exists items' counter',
      IPRadixTree.add_finish items bits route counter = Ok (items', counter')
      /\ radix_wf (Dict items') = true
      /\ added route bits (Dict items) counter (Dict items') counter'.
Proof.
  intros items bits route counter W B H.
  destruct (String.eqb_spec bits EmptyString) as [->|N].
  - destruct (install_added items route counter W) as (items' & c' & I & W' & _ & A).
    exists items', c'. auto.
  - now apply add_new_edge.
Qed.

Lemma common_prefix_empty : forall c0 rest k',
    c0 <> EmptyString -> bits_in_common (c0 ++ rest) k' = EmptyString ->
    bits_in_common c0 k' = EmptyString.
Proof.
  intros [|x c0] rest [|y k'] N H; try reflexivity.
  cbn [append bits_in_common] in *. destruct (Ascii.eqb x y); [discriminate | reflexivity].
Qed.

(** An edge [k] shares some bits with [bits] but not all of its own: it is
    split at the common bits. *)
Lemma add_split : forall items k child bits route counter,
    radix_wf (Dict items) = true -> is_bits bits = true ->
    dget k items = Some child -> k <> "*"%string ->
    bits_in_common k bits <> EmptyString ->
    bits_in_common k bits <> k ->
    exists split counter',
      IPRadixTree.add_finish
        [(drop (String.length (bits_in_common k bits)) k, child)]
        (drop (String.length (bits_in_common k bits)) bits) route counter
      = Ok (split, counter')
      /\ radix_wf (Dict (dset (bits_in_common k bits) (Dict split) (ddel k items))) = true
      /\ added route bits (Dict items) counter
               (Dict (dset (bits_in_common k bits) (Dict split) (ddel k items)))
               counter'.
Proof.
  intros items k child bits route counter W B G Nk Nc Nck.
  destruct (radix_wf_edge _ _ _ W G Nk) as (Ne & Bk & Wc).
  pose proof (radix_wf_nodup _ W) as N.
  set (c0 := bits_in_common k bits) in *.
  set (rem := drop (String.length c0) k).
  set (bits' := drop (String.length c0) bits).
  assert (Ek : k = (c0 ++ rem)%string) by apply common_split_l.
  assert (Eb : bits = (c0 ++ bits')%string) by apply common_split_r.
  assert (Nr : rem <> EmptyString).
  { intros E. rewrite E, append_empty_r in Ek. congruence. }
  assert (Br : is_bits rem = true) by now apply is_bits_drop.
  assert (Bb : is_bits bits' = true) by now apply is_bits_drop.
  assert (Bc : is_bits c0 = true) by now apply is_bits_common.
  assert (Nrs : String.eqb rem "*" = false) by now apply is_bits_not_star.
  assert (Ncs : c0 <> "*"%string)
    by (apply String.eqb_neq; now apply is_bits_not_star).
  assert (Wm : radix_wf (Dict [(rem, child)]) = true).
  { cbn. rewrite Nrs. cbn. rewrite Br, Wc.
    apply is_empty_false in Nr. now rewrite Nr. }
  assert (Dm : forall k1 c1, dget k1 [(rem, child)] = Some c1 -> k1 <> "*"%string ->
                             bits_in_common k1 bits' = EmptyString).
  { intros k1 c1 G1 _. cbn in G1.
    destruct (String.eqb_spec rem k1) as [<-|]; [|discriminate]. apply common_rest. }
  destruct (add_finish_added _ _ route counter Wm Bb Dm) as (split & c' & F & Ws & A).
  exists split, c'. split; [exact F|].
  assert (W' : radix_wf (Dict (dset c0 (Dict split) (ddel k items))) = true).
  { apply radix_wf_dset_edge; auto using radix_wf_ddel.
    intros k' ch' G' Nk' _.
    assert (k' <> k).
    { intros ->. rewrite dget_ddel_same in G' by assumption. discriminate. }
    rewrite dget_ddel_other in G' by assumption.
    apply (common_prefix_empty c0 rem); [assumption|]. rewrite <- Ek.
    apply (radix_wf_disjoint items k child k' ch'); auto. }
  split; [assumption|].
  assert (E0 : bucket_at (Dict items) bits = []).
  { apply bucket_at_no_edge; [assumption| |].
    - intros E. unfold c0 in Nc. rewrite E in Nc. now rewrite common_empty_r in Nc.
    - intros k1 c1 G1 N1. destruct (String.eqb_spec k1 k) as [->|Nk1].
      + unfold prefix_of. fold c0. now apply String.eqb_neq.
      + destruct (radix_wf_edge _ _ _ W G1 N1) as (Ne1 & _).
        apply common_empty_prefix; [assumption|].
        destruct (String.eqb_spec (bits_in_common k1 bits) EmptyString) as [E|N1b];
          [assumption|].
        elim Nk1. apply (radix_wf_one_edge items k1 c1 k child bits); auto. }
  assert (Em : bucket_at (Dict [(rem, child)]) bits' = []).
  { destruct bits' as [|b bs] eqn:E'.
    - rewrite bucket_at_here by assumption. cbn. now rewrite Nrs.
    - apply bucket_at_no_edge; [assumption | discriminate|].
      intros k1 c1 G1 N1. apply common_empty_prefix; [|now apply (Dm k1 c1)].
      cbn in G1. destruct (String.eqb_spec rem k1) as [<-|]; [assumption | discriminate]. }
  unfold added in *. rewrite E0. rewrite Em in A. destruct A as [_ A].
  split; [discriminate|]. intros _. destruct (A eq_refl) as [-> A'].
  split; [reflexivity|].
  pose proof (bucket_at_edge _ c0 (Dict split) bits' W' (dget_dset_same _ _ _) Ncs)
    as X.
  rewrite <- Eb in X. rewrite X. exact A'.
Qed.

Lemma radix_add_walk_added : forall fuel items bits route counter,
    radix_wf (Dict items) = true -> is_bits bits = true ->
    (height (Dict items) <= fuel)%nat ->
    exists items' counter',
      IPRadixTree.add_walk fuel route counter items bits = Ok (items', counter')
      /\ radix_wf (Dict items') = true
      /\ added route bits (Dict items) counter (Dict items') counter'.
Proof.
  induction fuel as [|fuel IH]; intros items bits route counter W B Hh;
    [simpl in Hh; lia|].
  cbn [IPRadixTree.add_walk].
  destruct (String.eqb_spec bits EmptyString) as [->|Nb].
  { rewrite add_scan_empty.
    destruct (install_added items route counter W) as (items' & c' & I & W' & _ & A).
    exists items', c'. auto. }
  rewrite add_scan_find by assumption.
  destruct (find (shares bits) (IPRadixTree.nodes_of items)) as [[k child]|] eqn:F.
  - apply find_some in F. destruct F as [Hin S].
    apply nodes_of_In in Hin. destruct Hin as [Hin Nk]. apply shares_true in S.
    pose proof (radix_wf_nodup _ W) as N.
    pose proof (In_dget _ _ _ N Hin) as G.
    destruct (radix_wf_edge _ _ _ W G Nk) as (Ne & Bk & Wc).
    cbv zeta.
    destruct (String.eqb_spec (bits_in_common k bits) k) as [E|NE].
    + destruct child as [citems|]; [|discriminate Wc]. cbn [as_dict bind].
      rewrite E.
      assert (Eb : bits = (k ++ drop (String.length k) bits)%string).
      { apply prefix_of_split. unfold prefix_of. rewrite E. apply String.eqb_refl. }
      destruct (IH citems (drop (String.length k) bits) route counter Wc)
        as (citems' & c' & Ew & Wc' & A).
      { now apply is_bits_drop. }
      { pose proof (height_child _ _ _ Hin). lia. }
      rewrite Ew. cbn [bind].
      exists (dset k (Dict citems') items), c'.
      assert (W' : radix_wf (Dict (dset k (Dict citems') items)) = true).
      { apply radix_wf_dset_edge; auto.
        intros k' ch' G' Nk' Nkk.
        apply (radix_wf_disjoint items k (Dict citems) k' ch'); auto. }
      split; [reflexivity|]. split; [assumption|].
      unfold added in *.
      pose proof (bucket_at_edge _ k _ (drop (String.length k) bits) W G Nk) as X.
      rewrite <- Eb in X. rewrite X. destruct A as [A1 A2]. split.
      * intros R. destruct (A1 R) as [Ec ->]. injection Ec as ->.
        split; [|reflexivity]. f_equal. now apply dset_same.
      * intros R. destruct (A2 R) as [-> A']. split; [reflexivity|].
        pose proof (bucket_at_edge _ k _ (drop (String.length k) bits) W'
                                   (dget_dset_same _ _ _) Nk) as X'.
        rewrite <- Eb in X'. rewrite X'. exact A'.
    + destruct (add_split items k child bits route counter W B G Nk S NE)
        as (split & c' & Fs & W' & A).
      rewrite Fs. cbn [bind]. eauto.
  - destruct (add_finish_added items bits route counter W B) as (items' & c' & Fa & W' & A).
    + intros k child G Nk.
      destruct (String.eqb_spec (bits_in_common k bits) EmptyString) as [E|NE];
        [assumption|]. exfalso.
      eapply find_none in F.
      * pose proof (proj2 (shares_true bits k child) NE) as S.
        rewrite S in F. discriminate F.
      * apply nodes_of_In. split; [apply dget_In, G | assumption].
    + eauto.
Qed.

Lemma radix_wf_dict : forall o, radix_wf o = true -> exists items, o = Dict items.
Proof. intros [items|routes] H; [eauto | discriminate]. Qed.

Lemma radix_add_idempotent : add_idempotent RadixTree radix_wf.
Proof.
  intros t prefix attrs W. simpl. unfold IPRadixTree.add.
  pose proof (bits_in_prefix_is_bits prefix) as B.
  destruct (radix_wf_dict _ W) as [items Er]. rewrite Er in *. cbn [as_dict bind].
  destruct (radix_add_walk_added (IPRadixTree.fuel_of (Dict items)) items _
                                 (mkRoute prefix attrs) (_counter t) W B)
    as (items' & c' & E & W' & A).
  { unfold IPRadixTree.fuel_of. lia. }
  exists (Table (Dict items') c'). rewrite E. cbn [bind sanitize _root _counter as_dict].
  split; [reflexivity|]. split; [assumption|]. split; [|assumption].
  destruct (radix_add_walk_added (IPRadixTree.fuel_of (Dict items')) items' _
                                 (mkRoute prefix attrs) c' W' B)
    as (items2 & c2 & E2 & _ & A2 & _).
  { unfold IPRadixTree.fuel_of. lia. }
  rewrite E2. cbn [bind sanitize].
  destruct (A2 (added_then_in _ _ _ _ _ _ A)) as [Ei ->].
  injection Ei as ->. reflexivity.
Qed.

(** C7: on a well-formed table of either tree [add] returns, keeps the table
    well formed, and a second [add] of the same prefix and attributes leaves
    the whole table, counter included, as the first one left it; when the
    route is in the list of its prefix already the first [add] changes
    nothing either, otherwise it appends the route to that list and adds one
    to the counter. *)
Theorem add_is_idempotent :
  add_idempotent PrefixTree prefix_wf /\ add_idempotent RadixTree radix_wf.
Proof. split; [apply prefix_add_idempotent | apply radix_add_idempotent]. Qed.

(** ** [get] *)

Lemma prefix_of_nonempty_empty : forall k, k <> EmptyString -> prefix_of k "" = false.
Proof.
  intros k N. unfold prefix_of. rewrite common_empty_r.
  apply String.eqb_neq. congruence.
Qed.

Lemma prefix_of_false_append : forall k suf s,
    prefix_of k s = false -> prefix_of (k ++ suf) s = false.
Proof.
  intros k suf s H. destruct (prefix_of (k ++ suf) s) eqn:E; [|reflexivity].
  apply prefix_of_append_l in E. congruence.
Qed.

(** Nothing below the edges of a node matches: the walk has the list of the
    node, or what it had before. *)
Lemma walk_result_node : forall items bits prev,
    radix_wf (Dict items) = true ->
    (forall k child suf routes,
        dget k items = Some child -> k <> "*"%string ->
        In (suf, routes) (stored child) -> prefix_of (k ++ suf) bits = false) ->
    walk_result (stored (Dict items)) bits prev (get_star items prev).
Proof.
  intros items bits prev W H. pose proof (radix_wf_nodup _ W) as N.
  unfold get_star. destruct (dget "*" items) as [held|] eqn:G.
  - destruct (radix_wf_routes _ _ W G) as [routes ->]. left.
    exists routes. split; [reflexivity|]. exists EmptyString.
    split; [now apply In_stored_here|]. split; [reflexivity|].
    intros path' routes' Hin P. apply In_stored in Hin; [|assumption].
    destruct Hin as [[-> _]|(k & c & suf & Nk & Gk & -> & I)]; [simpl; lia|].
    rewrite (H _ _ _ _ Gk Nk I) in P. discriminate.
  - right. split; [reflexivity|].
    intros path' routes' Hin. apply In_stored in Hin; [|assumption].
    destruct Hin as [[_ G']|(k & c & suf & Nk & Gk & -> & I)]; [congruence|].
    eauto.
Qed.

(** The walk goes down the edge [k]: what it returns from the child is what
    it returns from the node. *)
Lemma walk_result_descend : forall items k citems rest prev res,
    radix_wf (Dict items) = true ->
    dget k items = Some (Dict citems) -> k <> "*"%string ->
    walk_result (stored (Dict citems)) rest (get_star items prev) res ->
    walk_result (stored (Dict items)) (k ++ rest) prev res.
Proof.
  intros items k citems rest prev res W G Nk R.
  pose proof (radix_wf_nodup _ W) as N.
  destruct (radix_wf_edge _ _ _ W G Nk) as (Ne & _ & Wc).
  assert (Same : forall k' c' suf routes,
             dget k' items = Some c' -> k' <> "*"%string ->
             In (suf, routes) (stored c') ->
             prefix_of (k' ++ suf) (k ++ rest) = true ->
             k' = k /\ c' = Dict citems /\ prefix_of suf rest = true).
  { intros k' c' suf routes G' Nk' I P.
    destruct (radix_wf_edge _ _ _ W G' Nk') as (Ne' & _).
    assert (k' = k).
    { apply (radix_wf_one_edge items k' c' k (Dict citems) (k ++ rest)); auto.
      - apply prefix_of_nonempty_common; [assumption|].
        eapply prefix_of_append_l, P.
      - apply prefix_of_nonempty_common; [assumption | apply prefix_of_append]. }
    subst k'. rewrite append_prefix_cancel in P.
    split; [reflexivity|]. split; [congruence | assumption]. }
  destruct R as [(routes & -> & path & I & P & M)|[-> Hn]].
  - left. exists routes. split; [reflexivity|]. exists (k ++ path)%string.
    split; [eapply In_stored_edge; eauto|].
    split; [now rewrite append_prefix_cancel|].
    intros path' routes' Hin P'. apply In_stored in Hin; [|assumption].
    destruct Hin as [[-> _]|(k' & c' & suf & Nk' & G' & -> & I')]; [simpl; lia|].
    destruct (Same _ _ _ _ G' Nk' I' P') as (-> & -> & Ps).
    rewrite !length_append. specialize (M _ _ I' Ps). lia.
  - apply walk_result_node; [assumption|].
    intros k' c' suf routes G' Nk' I'.
    destruct (prefix_of (k' ++ suf) (k ++ rest)) eqn:P; [|reflexivity].
    destruct (Same _ _ _ _ G' Nk' I' P) as (-> & -> & Ps).
    rewrite (Hn _ _ I') in Ps. discriminate.
Qed.

Lemma bit_of_char : forall c,
    (Ascii.eqb c "0" || Ascii.eqb c "1") = true ->
    is_bit (String c EmptyString) = true /\ String c EmptyString <> "*"%string.
Proof.
  intros c H. apply orb_prop in H.
  destruct H as [E|E]; apply Ascii.eqb_eq in E; subst c; split;
    (reflexivity || discriminate).
Qed.

Lemma prefix_get_walk_result : forall bits items prev,
    prefix_wf (Dict items) = true -> is_bits bits = true ->
    exists res,
      IPPrefixTree.get_walk bits items (get_star items prev) = Ok res
      /\ walk_result (stored (Dict items)) bits prev res.
Proof.
  induction bits as [|c bits IH]; intros items prev W B;
    pose proof (prefix_wf_radix_wf _ W) as RW.
  - exists (get_star items prev). split; [reflexivity|].
    apply walk_result_node; [assumption|].
    intros k child suf routes G Nk _.
    destruct (radix_wf_edge _ _ _ RW G Nk) as (Ne & _).
    apply prefix_of_nonempty_empty. now apply append_nonempty.
  - cbn [IPPrefixTree.get_walk]. set (bit := String c EmptyString).
    simpl in B. apply andb_prop in B. destruct B as [Bc B].
    destruct (bit_of_char _ Bc) as [Bb Ns]. fold bit in Bb, Ns.
    destruct (dget bit items) as [child|] eqn:G.
    + pose proof (prefix_wf_child _ _ _ W G Ns) as Wc.
      destruct (prefix_wf_dict _ Wc) as [citems ->]. cbn [as_dict bind].
      destruct (IH citems (get_star items prev) Wc B) as (res & E & R).
      exists res. split; [exact E|].
      apply (walk_result_descend items bit citems bits prev res RW G Ns R).
    + exists (get_star items prev). split; [reflexivity|].
      apply walk_result_node; [assumption|].
      intros k child suf routes Gk Nk _. apply prefix_of_false_append.
      apply bit_prefix_of; [apply (prefix_wf_bit items k child W Gk Nk)|].
      intros ->. fold bit in Gk. congruence.
Qed.

Lemma get_scan_empty : forall D nodes routes,
    IPRadixTree.get_scan D nodes routes "" = Ok routes.
Proof. intros D [|[k c] nodes] routes; reflexivity. Qed.

(** The scan of [get] stops at the first entry of [nodes] whose bits begin
    [prefix_bits]. *)
Lemma get_scan_find : forall D nodes routes bits,
    bits <> EmptyString ->
    IPRadixTree.get_scan D nodes routes bits
    = match find (fun e => prefix_of (fst e) bits) nodes with
      | None => Ok routes
      | Some (node_bits, children) =>
          items <- as_dict children ;;
          D items (get_star items routes)
            (drop (String.length (bits_in_common node_bits bits)) bits)
      end.
Proof.
  intros D nodes routes bits N. apply is_empty_false in N.
  induction nodes as [|[k c] nodes IH]; [reflexivity|].
  cbn [IPRadixTree.get_scan find fst]. rewrite N. unfold prefix_of at 1.
  destruct (String.eqb (bits_in_common k bits) k); [reflexivity | apply IH].
Qed.

Lemma radix_get_walk_result : forall fuel items bits prev,
    radix_wf (Dict items) = true ->
    (height (Dict items) <= fuel)%nat ->
    exists res,
      IPRadixTree.get_walk fuel items (get_star items prev) bits = Ok res
      /\ walk_result (stored (Dict items)) bits prev res.
Proof.
  induction fuel as [|fuel IH]; intros items bits prev W Hh;
    [simpl in Hh; lia|].
  cbn [IPRadixTree.get_walk]. pose proof (radix_wf_nodup _ W) as N.
  destruct (String.eqb_spec bits EmptyString) as [->|Nb].
  { rewrite get_scan_empty. exists (get_star items prev). split; [reflexivity|].
    apply walk_result_node; [assumption|].
    intros k child suf routes G Nk _.
    destruct (radix_wf_edge _ _ _ W G Nk) as (Ne & _).
    apply prefix_of_nonempty_empty. now apply append_nonempty. }
  rewrite get_scan_find by assumption.
  destruct (find (fun e => prefix_of (fst e) bits) (IPRadixTree.nodes_of items))
    as [[k child]|] eqn:F.
  - apply find_some in F. destruct F as [Hin P]. simpl in P.
    apply nodes_of_In in Hin. destruct Hin as [Hin Nk].
    pose proof (In_dget _ _ _ N Hin) as G.
    destruct (radix_wf_edge _ _ _ W G Nk) as (Ne & _ & Wc).
    destruct (radix_wf_dict _ Wc) as [citems ->]. cbn [as_dict bind].
    assert (Ec : bits_in_common k bits = k)
      by (unfold prefix_of in P; now apply String.eqb_eq in P).
    rewrite Ec.
    destruct (IH citems (drop (String.length k) bits) (get_star items prev) Wc)
      as (res & E & R).
    { pose proof (height_child _ _ _ Hin). lia. }
    exists res. split; [exact E|].
    rewrite (prefix_of_split _ _ P) at 1.
    apply (walk_result_descend items k citems _ prev res W G Nk R).
  - exists (get_star items prev). split; [reflexivity|].
    apply walk_result_node; [assumption|].
    intros k child suf routes G Nk _. apply prefix_of_false_append.
    apply (find_none _ _ F (k, child)).
    apply nodes_of_In. split; [apply dget_In, G | assumption].
Qed.

Lemma walk_result_top : forall entries bits res,
    walk_result entries bits (PList []) res ->
    exists routes, res = PList routes /\ longest_match entries bits routes.
Proof.
  intros entries bits res [(routes & -> & L)|[-> H]].
  - exists routes. split; [reflexivity | now left].
  - exists []. split; [reflexivity|]. right. auto.
Qed.

Lemma prefix_get_match : forall t prefix attrs,
    prefix_wf (_root t) = true ->
    exists routes,
      get PrefixTree t prefix attrs = Ok (objs_with_all_attrs routes attrs)
      /\ longest_match (stored (_root t)) (bits_in_prefix prefix) routes.
Proof.
  intros t prefix attrs W. simpl. unfold IPPrefixTree.get.
  destruct (prefix_wf_dict _ W) as [items E]. rewrite E in *. cbn [as_dict bind].
  destruct (prefix_get_walk_result (bits_in_prefix prefix) items (PList []) W
                                   (bits_in_prefix_is_bits prefix))
    as (res & Eg & R).
  rewrite Eg. cbn [bind].
  destruct (walk_result_top _ _ _ R) as (routes & -> & L).
  exists routes. split; [reflexivity | assumption].
Qed.

Lemma radix_get_match : forall t prefix attrs,
    radix_wf (_root t) = true ->
    exists routes,
      get RadixTree t prefix attrs = Ok (objs_with_all_attrs routes attrs)
      /\ longest_match (stored (_root t)) (bits_in_prefix prefix) routes.
Proof.
  intros t prefix attrs W. simpl. unfold IPRadixTree.get.
  destruct (radix_wf_dict _ W) as [items E]. rewrite E in *. cbn [as_dict bind].
  destruct (radix_get_walk_result (IPRadixTree.fuel_of (Dict items)) items
                                  (bits_in_prefix prefix) (PList []) W)
    as (res & Eg & R).
  { unfold IPRadixTree.fuel_of. lia. }
  rewrite Eg. cbn [bind].
  destruct (walk_result_top _ _ _ R) as (routes & -> & L).
  exists routes. split; [reflexivity | assumption].
Qed.

(** ** The bits of an address inside a network *)

Lemma take_prefix_of : forall n s, prefix_of (take n s) s = true.
Proof.
  intros n s. unfold prefix_of. apply String.eqb_eq. revert s.
  induction n as [|n IH]; intros [|c s]; simpl; try reflexivity.
  rewrite Ascii.eqb_refl. f_equal. apply IH.
Qed.

Lemma length_format_b : forall w n, String.length (format_b w n) = w.
Proof. induction w as [|w IH]; intros n; simpl; [reflexivity | now rewrite IH]. Qed.

Lemma take_all : forall s, take (String.length s) s = s.
Proof. induction s as [|c s IH]; simpl; [reflexivity | now rewrite IH]. Qed.

Lemma format_b_take : forall w n a b,
    (forall j, Z.of_nat (w - n) <= j < Z.of_nat w -> Z.testbit a j = Z.testbit b j) ->
    take n (format_b w a) = take n (format_b w b).
Proof.
  induction w as [|w IH]; intros n a b H; destruct n as [|n]; simpl; try reflexivity.
  rewrite (H (Z.of_nat w)) by lia. f_equal. apply IH.
  intros j Hj. apply H. lia.
Qed.

Lemma high_bits_of_address : forall p address,
    valid_network p -> address_in address p ->
    forall j, Z.of_nat (hostbits p) <= j ->
              Z.testbit (network_address p) j = Z.testbit address j.
Proof.
  intros p address (Hl & Hn & Hm) [Lo Hi] j Hj.
  set (h := Z.of_nat (hostbits p)) in *.
  assert (Hh : 0 <= h) by (unfold h; lia).
  assert (P : 0 < 2 ^ h) by (apply Z.pow_pos_nonneg; lia).
  unfold hostmask in Hm. fold h in Hm.
  assert (Em : network_address p mod 2 ^ h = 0).
  { rewrite <- Z.land_ones by assumption. rewrite Z.ones_equiv.
    unfold Z.pred. replace (2 ^ h + -1) with (2 ^ h - 1) by lia. exact Hm. }
  unfold broadcast_address, hostmask in Hi. fold h in Hi.
  rewrite <- Z.lxor_lor, <- Z.add_nocarry_lxor in Hi by assumption.
  assert (Ed : address / 2 ^ h = network_address p / 2 ^ h).
  { symmetry. apply (Z.div_unique address (2 ^ h) _ (address - network_address p)).
    - left. lia.
    - pose proof (Z.div_mod (network_address p) (2 ^ h)). lia. }
  replace j with ((j - h) + h) by lia.
  rewrite <- !Z.div_pow2_bits by lia. now rewrite Ed.
Qed.

Lemma bits_of_address : forall p address,
    valid_network p -> address_in address p ->
    prefix_of (bits_in_prefix p) (bits_in_prefix (host (ver p) address)) = true.
Proof.
  intros p address V A. unfold bits_in_prefix, host. cbn [ver network_address prefixlen].
  rewrite <- (length_format_b (max_prefixlen (ver p)) address) at 2.
  rewrite take_all.
  rewrite (format_b_take _ _ (network_address p) address).
  - apply take_prefix_of.
  - intros j Hj. apply high_bits_of_address; auto. unfold hostbits. lia.
Qed.

(** ** The theorems on a sample table *)

Lemma add_is_idempotent_witness :
  let tp := fst (run PrefixTree sample_calls) in
  let tr := fst (run RadixTree sample_calls) in
  let prefix := net4 10 1 0 0 16 in
  (prefix_wf (_root tp) = true
   /\ exists t',
       add PrefixTree tp prefix (dev "c") = Ok t'
       /\ prefix_wf (_root t') = true
       /\ add PrefixTree t' prefix (dev "c") = Ok t'
       /\ added (mkRoute prefix (dev "c")) (bits_in_prefix prefix)
                (_root tp) (_counter tp) (_root t') (_counter t'))
  /\ (radix_wf (_root tr) = true
      /\ exists t',
          add RadixTree tr prefix (dev "c") = Ok t'
          /\ radix_wf (_root t') = true
          /\ add RadixTree t' prefix (dev "c") = Ok t'
          /\ added (mkRoute prefix (dev "c")) (bits_in_prefix prefix)
                   (_root tr) (_counter tr) (_root t') (_counter t')).
Proof.
  split; (split; [vm_compute; reflexivity|]).
  - apply (proj1 add_is_idempotent). vm_compute. reflexivity.
  - apply (proj2 add_is_idempotent). vm_compute. reflexivity.
Defined.

Lemma sort_orders_one_family_witness :
  let r1 := mkRoute (net4 192 168 1 0 24) [] in
  let r2 := mkRoute (net4 192 168 0 0 23) [] in
  let r3 := mkRoute (net4 192 168 0 0 24) (dev "a") in
  one_family [r1; r2; r3]
  /\ _sort [r1; r2; r3] = Ok [r2; r3; r1]
  /\ sorted_output [r1; r2; r3] [r2; r3; r1].
Proof.
  assert (F : one_family [mkRoute (net4 192 168 1 0 24) [];
                          mkRoute (net4 192 168 0 0 23) [];
                          mkRoute (net4 192 168 0 0 24) (dev "a")]).
  { intros r1 r2 H1 H2. simpl in H1, H2.
    destruct H1 as [<-|[<-|[<-|[]]]], H2 as [<-|[<-|[<-|[]]]]; reflexivity. }
  split; [exact F|]. split; [vm_compute; reflexivity|].
  apply (proj2 (sort_orders_one_family _)). vm_compute. reflexivity.
Defined.

(** ** [_traverse] yields what is stored *)

Lemma routes_of_dict : forall items,
    routes_of (Dict items) = flat_map entry_routes items.
Proof.
  intros items. unfold routes_of. simpl.
  induction items as [|[k c] items IH]; [reflexivity|].
  cbn [flat_map]. rewrite map_app, concat_app, IH. f_equal.
  unfold entry_routes. cbn [fst snd].
  destruct (String.eqb k "*").
  - destruct c; simpl; [reflexivity | now rewrite app_nil_r].
  - unfold routes_of. rewrite map_map. reflexivity.
Qed.

Lemma entries_of_app : forall a b,
    entries_of (a ++ b) = (entries_of a + entries_of b)%nat.
Proof.
  intros a b. unfold entries_of. simpl.
  induction a as [|[k c] a IH]; [reflexivity|]. simpl in *. rewrite IH. lia.
Qed.

Lemma pop_snoc : forall (A : Type) (l : list A) (x : A), pop (l ++ [x]) = Some (x, l).
Proof.
  intros A l x. unfold pop. rewrite rev_app_distr. simpl. now rewrite rev_involutive.
Qed.

Lemma pop_cases : forall (A : Type) (l : list A),
    (l = [] /\ pop l = None) \/ (exists x l', l = l' ++ [x] /\ pop l = Some (x, l')).
Proof.
  intros A l. destruct l as [|a l] using rev_ind.
  - left. auto.
  - right. exists a, l. split; [reflexivity | apply pop_snoc].
Qed.

Lemma entries_ok_dict : forall items,
    radix_wf (Dict items) = true -> forallb entry_ok items = true.
Proof.
  intros items W. apply radix_wf_parts in W. destruct W as (_ & _ & F).
  rewrite forallb_forall in *. intros [k c] Hin. specialize (F _ Hin).
  unfold entry_ok. simpl in *. destruct (String.eqb k "*"); [assumption|].
  now apply andb_prop in F.
Qed.

Lemma traverse_loop_yields : forall attrs fuel nodes,
    forallb entry_ok nodes = true ->
    (entries_of nodes <= fuel)%nat ->
    exists l,
      _traverse_loop fuel nodes attrs = Ok l
      /\ Permutation l (objs_with_all_attrs (flat_map entry_routes nodes) attrs).
Proof.
  intros attrs. induction fuel as [|fuel IH]; intros nodes T Hf.
  - destruct nodes as [|[k c] nodes]; [|unfold entries_of in Hf; simpl in Hf; lia].
    exists []. split; [reflexivity | constructor].
  - destruct (pop_cases _ nodes) as [[-> _]|([k c] & nodes' & -> & P)].
    { exists []. split; [reflexivity | constructor]. }
    cbn [_traverse_loop]. rewrite P.
    rewrite forallb_app in T. apply andb_prop in T. destruct T as [T1 T2].
    simpl in T2. rewrite andb_true_r in T2. unfold entry_ok in T2. simpl in T2.
    rewrite entries_of_app in Hf.
    rewrite flat_map_app. simpl. rewrite app_nil_r.
    unfold objs_with_all_attrs. rewrite filter_app.
    unfold entry_routes at 2. cbn [fst snd].
    destruct (String.eqb k "*") eqn:Ek.
    + destruct c as [|routes]; [discriminate T2|]. cbn [as_list bind].
      destruct (IH nodes' T1) as (rest & E & Pr).
      { unfold entries_of in *. simpl in *. lia. }
      rewrite E. cbn [bind]. eexists. split; [reflexivity|].
      eapply perm_trans; [apply Permutation_app_comm|].
      now apply Permutation_app_tail.
    + destruct c as [items|]; [|discriminate T2]. cbn [as_dict bind].
      destruct (IH (nodes' ++ items)) as (l & E & Pl).
      { rewrite forallb_app, T1. now apply entries_ok_dict. }
      { rewrite entries_of_app. unfold entries_of in *. simpl in *. lia. }
      exists l. split; [exact E|].
      rewrite flat_map_app in Pl. unfold objs_with_all_attrs in Pl.
      rewrite filter_app in Pl. now rewrite routes_of_dict.
Qed.

Lemma traverse_yields : forall root attrs,
    radix_wf root = true ->
    exists l,
      _traverse root attrs = Ok l
      /\ Permutation l (objs_with_all_attrs (routes_of root) attrs).
Proof.
  intros root attrs W. destruct (radix_wf_dict _ W) as [items ->].
  unfold _traverse. cbn [as_dict bind].
  destruct (traverse_loop_yields attrs (entries (Dict items)) items) as (l & E & P).
  - now apply entries_ok_dict.
  - unfold entries_of. lia.
  - exists l. split; [exact E|]. now rewrite routes_of_dict.
Qed.

Lemma objs_with_no_attrs : forall l, objs_with_all_attrs l [] = l.
Proof.
  induction l as [|x l IH]; [reflexivity|]. unfold objs_with_all_attrs in *.
  cbn [filter has_all_attrs forallb]. now f_equal.
Qed.

(** On a well-formed table of either tree, iteration yields every stored
    route once, and [show()] is the sort of the stored routes that have all
    [attrs]. *)
Theorem iteration_yields_stored_routes :
  forall (t : table) (attrs : kwargs),
    radix_wf (_root t) = true ->
    (exists l, iter t = Ok l /\ Permutation l (routes_of (_root t)))
    /\ (exists c,
           Permutation c (objs_with_all_attrs (routes_of (_root t)) attrs)
           /\ show PrefixTree t None false attrs = _sort c
           /\ show RadixTree t None false attrs = _sort c).
Proof.
  intros t attrs W. split.
  - destruct (traverse_yields _ [] W) as (l & E & P).
    exists l. split; [exact E|]. now rewrite objs_with_no_attrs in P.
  - destruct (traverse_yields _ attrs W) as (c & E & P).
    exists c. split; [exact P|]. simpl.
    unfold IPPrefixTree.show, IPRadixTree.show. rewrite E. auto.
Qed.

Lemma iteration_yields_stored_routes_witness :
  let t := fst (run RadixTree sample_calls) in
  radix_wf (_root t) = true
  /\ (exists l, iter t = Ok l /\ Permutation l (routes_of (_root t)))
  /\ (exists c,
         Permutation c (objs_with_all_attrs (routes_of (_root t)) (dev "b"))
         /\ show PrefixTree t None false (dev "b") = _sort c
         /\ show RadixTree t None false (dev "b") = _sort c).
Proof.
  split; [vm_compute; reflexivity|].
  apply iteration_yields_stored_routes. vm_compute. reflexivity.
Defined.

(** ** [add] and the counter *)

Lemma length_flat_dset_old : forall (f : string * obj -> list Route) k v old items,
    dget k items = Some old ->
    (List.length (flat_map f (dset k v items)) + List.length (f (k, old))
     = List.length (flat_map f items) + List.length (f (k, v)))%nat.
Proof.
  intros f k v old items. induction items as [|[k0 v0] items IH]; simpl; [discriminate|].
  destruct (String.eqb_spec k0 k) as [->|N]; intros G; simpl.
  - injection G as ->. rewrite !length_app. lia.
  - specialize (IH G). rewrite !length_app. lia.
Qed.

Lemma length_flat_dset_new : forall (f : string * obj -> list Route) k v items,
    dget k items = None ->
    List.length (flat_map f (dset k v items))
    = (List.length (flat_map f items) + List.length (f (k, v)))%nat.
Proof.
  intros f k v items G. rewrite (dset_new _ _ _ G), flat_map_app, length_app.
  simpl. now rewrite app_nil_r.
Qed.

Lemma length_flat_ddel : forall (f : string * obj -> list Route) k old items,
    dget k items = Some old ->
    (List.length (flat_map f (ddel k items)) + List.length (f (k, old))
     = List.length (flat_map f items))%nat.
Proof.
  intros f k old items. induction items as [|[k0 v0] items IH]; simpl; [discriminate|].
  destruct (String.eqb_spec k0 k) as [->|N]; intros G; simpl.
  - injection G as ->. rewrite !length_app. lia.
  - specialize (IH G). rewrite !length_app. lia.
Qed.

Lemma entry_routes_edge : forall k c,
    k <> "*"%string -> entry_routes (k, c) = routes_of c.
Proof.
  intros k c N. unfold entry_routes. cbn [fst snd].
  apply String.eqb_neq in N. now rewrite N.
Qed.

Lemma install_counts : forall items route counter items' counter',
    radix_wf (Dict items) = true ->
    install items route counter = Ok (items', counter') ->
    Z.of_nat (List.length (routes_of (Dict items')))
    - Z.of_nat (List.length (routes_of (Dict items))) = counter' - counter.
Proof.
  intros items route counter items' counter' W H. unfold install in H.
  rewrite !routes_of_dict.
  destruct (dget "*" items) as [held|] eqn:G.
  - destruct (radix_wf_routes _ _ W G) as [routes ->]. cbn [as_list bind] in H.
    destruct (route_in route routes); injection H as <- <-; [lia|].
    pose proof (length_flat_dset_old entry_routes "*" (PList (routes ++ [route]))
                                     _ items G) as L.
    unfold entry_routes at 2 4 in L. cbn in L. rewrite length_app in L. simpl in L. lia.
  - injection H as <- <-.
    rewrite (length_flat_dset_new entry_routes _ _ _ G). cbn. lia.
Qed.

Lemma add_finish_counts : forall items bits route counter items' counter',
    radix_wf (Dict items) = true -> is_bits bits = true ->
    (forall k child, dget k items = Some child -> k <> "*"%string ->
                     bits_in_common k bits = EmptyString) ->
    IPRadixTree.add_finish items bits route counter = Ok (items', counter') ->
    Z.of_nat (List.length (routes_of (Dict items')))
    - Z.of_nat (List.length (routes_of (Dict items))) = counter' - counter.
Proof.
  intros items bits route counter items' counter' W B D H.
  unfold IPRadixTree.add_finish in H.
  destruct (is_empty bits) eqn:E; cbn [negb] in H.
  - eapply install_counts; eauto.
  - cbn in H. injection H as <- <-. apply is_empty_false in E.
    assert (Ns : bits <> "*"%string)
      by (apply String.eqb_neq; now apply is_bits_not_star).
    assert (G : dget bits items = None).
    { destruct (dget bits items) as [x|] eqn:G; [|reflexivity].
      specialize (D _ _ G Ns). destruct bits; [congruence|].
      cbn in D. rewrite Ascii.eqb_refl in D. discriminate. }
    rewrite !routes_of_dict, (length_flat_dset_new entry_routes _ _ _ G).
    rewrite entry_routes_edge by assumption. cbn. lia.
Qed.

Lemma radix_add_walk_counts : forall fuel items bits route counter items' counter',
    radix_wf (Dict items) = true -> is_bits bits = true ->
    IPRadixTree.add_walk fuel route counter items bits = Ok (items', counter') ->
    Z.of_nat (List.length (routes_of (Dict items')))
    - Z.of_nat (List.length (routes_of (Dict items))) = counter' - counter.
Proof.
  induction fuel as [|fuel IH]; intros items bits route counter items' counter' W B H;
    [discriminate|].
  cbn [IPRadixTree.add_walk] in H.
  destruct (String.eqb_spec bits EmptyString) as [->|Nb].
  { rewrite add_scan_empty in H. unfold IPRadixTree.add_finish in H.
    cbn [is_empty negb] in H. eapply install_counts; eauto. }
  rewrite add_scan_find in H by assumption.
  pose proof (radix_wf_nodup _ W) as N.
  destruct (find (shares bits) (IPRadixTree.nodes_of items)) as [[k child]|] eqn:F.
  - apply find_some in F. destruct F as [Hin S].
    apply nodes_of_In in Hin. destruct Hin as [Hin Nk]. apply shares_true in S.
    pose proof (In_dget _ _ _ N Hin) as G.
    destruct (radix_wf_edge _ _ _ W G Nk) as (Ne & Bk & Wc).
    cbv zeta in H.
    destruct (String.eqb_spec (bits_in_common k bits) k) as [E|NE].
    + destruct child as [citems|]; [|discriminate Wc]. cbn [as_dict bind] in H.
      apply bind_ok in H. destruct H as ([citems' c'] & Ew & H). injection H as <- <-.
      apply IH in Ew; [|assumption | now apply is_bits_drop].
      rewrite !routes_of_dict.
      pose proof (length_flat_dset_old entry_routes k (Dict citems') _ items G) as L.
      rewrite !entry_routes_edge in L by assumption. lia.
    + apply bind_ok in H. destruct H as ([split c'] & Fs & H). injection H as <- <-.
      set (c0 := bits_in_common k bits) in *.
      set (rem := drop (String.length c0) k) in *.
      assert (Bc : is_bits c0 = true) by now apply is_bits_common.
      assert (Ncs : c0 <> "*"%string)
        by (apply String.eqb_neq; now apply is_bits_not_star).
      assert (Br : is_bits rem = true) by now apply is_bits_drop.
      assert (Nrs : String.eqb rem "*" = false) by now apply is_bits_not_star.
      assert (Nr : rem <> EmptyString).
      { intros E. pose proof (common_split_l k bits) as Ek. fold c0 in Ek.
        fold rem in Ek. rewrite E, append_empty_r in Ek. congruence. }
      assert (Wm : radix_wf (Dict [(rem, child)]) = true).
      { cbn. rewrite Nrs. cbn. rewrite Br, Wc.
        apply is_empty_false in Nr. now rewrite Nr. }
      apply add_finish_counts in Fs; [|assumption | now apply is_bits_drop|].
      2:{ intros k1 c1 G1 _. cbn in G1.
          destruct (String.eqb_spec rem k1) as [<-|]; [|discriminate].
          apply common_rest. }
      assert (G0 : dget c0 (ddel k items) = None).
      { destruct (dget c0 (ddel k items)) as [x|] eqn:G0; [|reflexivity]. exfalso.
        rewrite dget_ddel_other in G0 by congruence.
        assert (D : bits_in_common c0 k = EmptyString)
          by (apply (radix_wf_disjoint items c0 x k child); auto).
        pose proof (common_split_l k bits) as Ek. fold c0 in Ek. rewrite Ek in D.
        rewrite <- (append_empty_r c0) in D at 1. rewrite common_append in D.
        now apply append_nonempty in D. }
      rewrite !routes_of_dict in *.
      rewrite (length_flat_dset_new entry_routes _ _ _ G0).
      pose proof (length_flat_ddel entry_routes k _ items G) as L.
      cbn [flat_map] in Fs. rewrite app_nil_r in Fs.
      rewrite !entry_routes_edge in * by (assumption || now apply String.eqb_neq).
      rewrite routes_of_dict. lia.
  - eapply add_finish_counts; eauto.
    intros k child G Nk.
    destruct (String.eqb_spec (bits_in_common k bits) EmptyString) as [E|NE];
      [assumption|]. exfalso.
    pose proof (proj2 (shares_true bits k child) NE) as S.
    rewrite (find_none _ _ F (k, child)) in S; [discriminate|].
    apply nodes_of_In. split; [apply dget_In, G | assumption].
Qed.

Lemma prefix_add_walk_counts : forall bits pointer route counter pointer' counter',
    prefix_wf pointer = true -> is_bits bits = true ->
    IPPrefixTree.add_walk bits pointer route counter = Ok (pointer', counter') ->
    Z.of_nat (List.length (routes_of pointer'))
    - Z.of_nat (List.length (routes_of pointer)) = counter' - counter.
Proof.
  induction bits as [|c bits IH]; intros pointer route counter pointer' counter' W B H;
    destruct (prefix_wf_dict _ W) as [items ->];
    pose proof (prefix_wf_radix_wf _ W) as RW; cbn [IPPrefixTree.add_walk as_dict bind] in H.
  - apply bind_ok in H. destruct H as ([items' c'] & I & H). injection H as <- <-.
    eapply install_counts; eauto.
  - simpl in B. apply andb_prop in B. destruct B as [Bc B].
    destruct (bit_of_char _ Bc) as [Bb Ns].
    set (bit := String c EmptyString) in *.
    apply bind_ok in H. destruct H as ([child' c'] & E & H). injection H as <- <-.
    rewrite !routes_of_dict.
    destruct (dget bit items) as [child|] eqn:G.
    + apply IH in E; [|eapply prefix_wf_child; eauto | assumption].
      pose proof (length_flat_dset_old entry_routes bit child' _ items G) as L.
      rewrite !entry_routes_edge in L by assumption. lia.
    + apply IH in E; [|reflexivity | assumption].
      rewrite (length_flat_dset_new entry_routes _ _ _ G).
      rewrite entry_routes_edge by assumption. cbn in E. lia.
Qed.

Lemma add_counted :
  forall (t t' : table) (prefix : network) (attrs : kwargs),
    counted t ->
    (prefix_wf (_root t) = true -> add PrefixTree t prefix attrs = Ok t' -> counted t')
    /\ (radix_wf (_root t) = true -> add RadixTree t prefix attrs = Ok t' -> counted t').
Proof.
  intros t t' prefix attrs C. unfold counted in *.
  pose proof (bits_in_prefix_is_bits prefix) as B. split; intros W H; simpl in H.
  - unfold IPPrefixTree.add in H. apply sanitize_ok in H.
    apply bind_ok in H. destruct H as ([root' c'] & E & H). injection H as <-.
    apply prefix_add_walk_counts in E; [|assumption..]. simpl. lia.
  - unfold IPRadixTree.add in H. apply sanitize_ok in H.
    destruct (radix_wf_dict _ W) as [items Er]. rewrite Er in *.
    cbn [as_dict bind] in H.
    apply bind_ok in H. destruct H as ([root' c'] & E & H). injection H as <-.
    apply radix_add_walk_counts in E; [|assumption..]. simpl. lia.
Qed.

(** On a well-formed table whose counter is the number of its routes, [add]
    leaves the counter the number of the routes, on both trees. *)
Theorem add_keeps_counter :
  forall (t t' : table) (prefix : network) (attrs : kwargs),
    counted t ->
    (prefix_wf (_root t) = true -> add PrefixTree t prefix attrs = Ok t' -> counted t')
    /\ (radix_wf (_root t) = true -> add RadixTree t prefix attrs = Ok t' -> counted t').
Proof. exact add_counted. Qed.

Lemma add_keeps_counter_witness :
  let tp := fst (run PrefixTree sample_calls) in
  let tr := fst (run RadixTree sample_calls) in
  (counted tp /\ exists t',
      add PrefixTree tp (net4 10 64 0 0 10) (dev "c") = Ok t' /\ counted t')
  /\ (counted tr /\ exists t',
         add RadixTree tr (net4 10 64 0 0 10) (dev "c") = Ok t' /\ counted t').
Proof.
  assert (Cp : counted (fst (run PrefixTree sample_calls)))
    by (vm_compute; reflexivity).
  assert (Cr : counted (fst (run RadixTree sample_calls)))
    by (vm_compute; reflexivity).
  split; (split; [assumption|]); eexists; (split; [vm_compute; reflexivity|]).
  - refine (proj1 (add_keeps_counter _ _ (net4 10 64 0 0 10) (dev "c") Cp) _ _);
      vm_compute; reflexivity.
  - refine (proj2 (add_keeps_counter _ _ (net4 10 64 0 0 10) (dev "c") Cr) _ _);
      vm_compute; reflexivity.
Defined.

(** ** Removing the routes with given attributes *)

Lemma value_eqb_eq : forall x y, value_eqb x y = true -> x = y.
Proof.
  intros [s|z] [s'|z'] H; simpl in H; try discriminate.
  - apply String.eqb_eq in H. now subst.
  - apply Z.eqb_eq in H. now subst.
Qed.

Lemma kwargs_eqb_dget : forall a b k,
    kwargs_eqb a b = true -> option_value_eqb (dget k a) (dget k b) = true.
Proof.
  intros a b k H. unfold kwargs_eqb in H. apply andb_prop in H.
  destruct H as [Ha Hb]. rewrite forallb_forall in Ha, Hb.
  destruct (dget k a) as [v|] eqn:Ga.
  - specialize (Ha _ (dget_In _ _ _ Ga)). simpl in Ha. now rewrite Ga in Ha.
  - destruct (dget k b) as [v|] eqn:Gb; [|reflexivity].
    specialize (Hb _ (dget_In _ _ _ Gb)). simpl in Hb. now rewrite Ga, Gb in Hb.
Qed.

Lemma has_all_attrs_eqb : forall x r attrs,
    Route_eqb x r = true -> has_all_attrs x attrs = has_all_attrs r attrs.
Proof.
  intros x r attrs H. unfold Route_eqb in H. apply andb_prop in H.
  destruct H as [_ H]. unfold has_all_attrs.
  induction attrs as [|[k v] attrs IH]; [reflexivity|]. cbn [forallb fst snd].
  rewrite IH. f_equal.
  pose proof (kwargs_eqb_dget _ _ k H) as E.
  destruct (dget k (attributes x)) as [vx|], (dget k (attributes r)) as [vr|];
    simpl in E; try discriminate; [|reflexivity].
  apply value_eqb_eq in E. now subst.
Qed.

Lemma list_remove_skip : forall r K T,
    (forall x, In x K -> Route_eqb x r = false) ->
    list_remove r (K ++ r :: T) = K ++ T.
Proof.
  intros r K T. induction K as [|x K IH]; intros H; simpl.
  - now rewrite Route_eqb_refl.
  - rewrite (H x) by now left. f_equal. apply IH. intros y Hy. apply H. now right.
Qed.

Lemma remove_matching_from : forall attrs todo K counter flag,
    (forall x, In x K -> has_all_attrs x attrs = false) ->
    fold_left
      (fun st route =>
         let '(routes, counter, something_removed) := st in
         if has_all_attrs route attrs
         then (list_remove route routes, counter - 1, true)
         else st)
      todo (K ++ todo, counter, flag)
    = (K ++ kept todo attrs,
       counter - Z.of_nat (List.length (objs_with_all_attrs todo attrs)),
       flag || truthy (objs_with_all_attrs todo attrs)).
Proof.
  intros attrs. induction todo as [|r todo IH]; intros K counter flag H.
  - simpl. rewrite Z.sub_0_r, orb_false_r. reflexivity.
  - cbn [fold_left]. unfold kept, objs_with_all_attrs in *. cbn [filter].
    destruct (has_all_attrs r attrs) eqn:M; cbn [negb].
    + rewrite list_remove_skip.
      * rewrite IH by assumption. cbn [List.length truthy orb].
        rewrite orb_true_r. f_equal. f_equal. lia.
      * intros x Hx. destruct (Route_eqb x r) eqn:E; [|reflexivity].
        apply has_all_attrs_eqb with (attrs := attrs) in E.
        rewrite (H x Hx), M in E. discriminate.
    + replace (K ++ r :: todo) with ((K ++ [r]) ++ todo)
        by now rewrite <- app_assoc.
      rewrite IH.
      * now rewrite <- app_assoc.
      * intros x Hx. apply in_app_or in Hx. destruct Hx as [Hx|[<-|[]]]; auto.
Qed.

Lemma remove_matching_kept : forall routes attrs counter,
    remove_matching routes attrs counter
    = (kept routes attrs,
       counter - Z.of_nat (List.length (objs_with_all_attrs routes attrs)),
       truthy (objs_with_all_attrs routes attrs)).
Proof.
  intros routes attrs counter. unfold remove_matching.
  apply (remove_matching_from attrs routes [] counter false). intros x [].
Qed.

Lemma kept_length : forall routes attrs,
    (List.length (kept routes attrs) + List.length (objs_with_all_attrs routes attrs)
     = List.length routes)%nat.
Proof.
  intros routes attrs. unfold kept, objs_with_all_attrs.
  induction routes as [|r routes IH]; [reflexivity|]. simpl.
  destruct (has_all_attrs r attrs); simpl; lia.
Qed.

(** ** [IPPrefixTree.delete] *)

Lemma prefix_wf_ddel : forall items k,
    prefix_wf (Dict items) = true -> prefix_wf (Dict (ddel k items)) = true.
Proof.
  intros items k W. simpl in *. apply andb_prop in W. destruct W as [N F].
  rewrite nodup_keys_ddel by assumption. simpl. now apply forallb_ddel.
Qed.

Lemma prefix_wf_nodup : forall items, prefix_wf (Dict items) = true -> nodup_keys items = true.
Proof. intros items W. simpl in W. now apply andb_prop in W. Qed.

Lemma bit_append_inj : forall k k' s s',
    is_bit k = true -> is_bit k' = true ->
    (k ++ s = k' ++ s')%string -> k = k' /\ s = s'.
Proof.
  intros k k' s s' B B' E.
  destruct (is_bit_chars _ B) as [->| ->], (is_bit_chars _ B') as [->| ->];
    simpl in E; injection E as E; auto; discriminate.
Qed.

Lemma no_entry_here : forall items routes,
    radix_wf (Dict items) = true -> dget "*" items = None ->
    ~ In (EmptyString, routes) (stored (Dict items)).
Proof.
  intros items routes W G H. apply In_stored in H; [|now apply radix_wf_nodup].
  destruct H as [[_ G']|(k & c & s & Nk & Gk & E & _)]; [congruence|].
  destruct (radix_wf_edge _ _ _ W Gk Nk) as (Ne & _).
  symmetry in E. now apply append_nonempty in E.
Qed.

Lemma replaced_here : forall items left,
    radix_wf (Dict items) = true ->
    replaced "" left (Dict items)
             (Dict (match left with
                    | [] => ddel "*" items
                    | _ => dset "*" (PList left) items
                    end)).
Proof.
  intros items left W. pose proof (radix_wf_nodup _ W) as N.
  assert (N' : nodup_keys (match left with
                           | [] => ddel "*" items
                           | _ => dset "*" (PList left) items
                           end) = true)
    by (destruct left; [now apply nodup_keys_ddel | now apply nodup_keys_dset]).
  assert (Edge : forall k, k <> "*"%string ->
                           dget k (match left with
                                   | [] => ddel "*" items
                                   | _ => dset "*" (PList left) items
                                   end) = dget k items).
  { intros k Nk. destruct left;
      [now apply dget_ddel_other | now apply dget_dset_other]. }
  split.
  - intros path routes Np. rewrite !In_stored by assumption.
    split; (intros [[E _]|(k & c & s & Nk & Gk & E & I)]; [congruence|]);
      right; exists k, c, s.
    + rewrite Edge in Gk by assumption. auto.
    + rewrite Edge by assumption. auto.
  - intros routes. rewrite In_stored by assumption. split.
    + intros [[_ G]|(k & c & s & Nk & Gk & E & I)].
      * destruct left as [|r left].
        -- rewrite dget_ddel_same in G by assumption. discriminate.
        -- rewrite dget_dset_same in G. injection G as <-. split; congruence.
      * rewrite Edge in Gk by assumption.
        destruct (radix_wf_edge _ _ _ W Gk Nk) as (Ne & _).
        symmetry in E. now apply append_nonempty in E.
    + intros [-> Nl]. left. split; [reflexivity|].
      destruct left as [|r left]; [congruence|]. apply dget_dset_same.
Qed.

Lemma short_dict_star : forall (items : dict obj) v,
    (1 <? List.length items)%nat = false -> dget "*" items = Some v ->
    items = [("*"%string, v)].
Proof.
  intros [|[k c] [|x items]] v L G; simpl in *; try discriminate.
  destruct (String.eqb_spec k "*") as [->|]; [|discriminate]. now injection G as ->.
Qed.

Lemma short_dict_edge : forall (items : dict obj) k v,
    (1 <? List.length items)%nat = false -> dget k items = Some v ->
    items = [(k, v)].
Proof.
  intros [|[k0 c] [|x items]] k v L G; simpl in *; try discriminate.
  destruct (String.eqb_spec k0 k) as [->|]; [|discriminate]. now injection G as ->.
Qed.

Lemma delete_here_result : forall items attrs counter,
    prefix_wf (Dict items) = true ->
    delete_result "" items attrs counter (IPPrefixTree.delete_here items attrs counter).
Proof.
  intros items attrs counter W. pose proof (prefix_wf_radix_wf _ W) as RW.
  unfold IPPrefixTree.delete_here.
  destruct (dget "*" items) as [held|] eqn:G.
  2:{ left. split; [reflexivity|]. intros routes. now apply no_entry_here. }
  destruct (radix_wf_routes _ _ RW G) as [bucket ->]. cbn [as_list bind].
  pose proof (In_stored_here _ _ G) as Hin.
  assert (Done : forall left counter',
             left = (if truthy attrs then kept bucket attrs else []) ->
             (truthy attrs = true -> objs_with_all_attrs bucket attrs <> []) ->
             counter' = counter - (Z.of_nat (List.length bucket)
                                   - Z.of_nat (List.length left)) ->
             (left = [] ->
              delete_result "" items attrs counter
                (if (1 <? List.length items)%nat
                 then Ok (Kept (Dict (ddel "*" items)), counter')
                 else Ok (Trimmed, counter')))
             /\ (left <> [] ->
                 delete_result "" items attrs counter
                   (Ok (Kept (Dict (dset "*" (PList left) items)), counter')))).
  { intros left counter' El Hm Ec. split; intros Hl.
    - destruct (1 <? List.length items)%nat eqn:L; exists bucket;
        (split; [assumption|]); (split; [assumption|]);
        rewrite <- El; (split; [assumption|]).
      + split; [now apply prefix_wf_ddel|].
        pose proof (replaced_here items left RW) as R. now rewrite Hl in *.
      + split; [assumption|]. now rewrite (short_dict_star _ _ L G).
    - exists bucket. split; [assumption|]. split; [assumption|]. rewrite <- El.
      split; [assumption|]. split; [now apply prefix_wf_dset_star|].
      pose proof (replaced_here items left RW) as R.
      destruct left; [congruence | exact R]. }
  destruct (truthy attrs) eqn:Ta.
  - rewrite remove_matching_kept. cbn [andb orb negb].
    destruct (truthy (objs_with_all_attrs bucket attrs)) eqn:Tm; cbn [negb].
    + assert (Hm : objs_with_all_attrs bucket attrs <> [])
        by (destruct (objs_with_all_attrs bucket attrs); [discriminate | congruence]).
      pose proof (kept_length bucket attrs) as Lk.
      destruct (Done (kept bucket attrs)
                     (counter - Z.of_nat (List.length (objs_with_all_attrs bucket attrs)))
                     eq_refl (fun _ => Hm)) as [D1 D2]; [lia|].
      clear Done.
      destruct (kept bucket attrs) as [|r left]; cbn [truthy negb].
      * rewrite Z.sub_0_r. now apply D1.
      * now apply D2.
    + right. split; [reflexivity|]. split; [exact Ta|]. exists bucket.
      split; [assumption|]. now destruct (objs_with_all_attrs bucket attrs).
  - cbn [andb orb negb].
    destruct (Done [] (counter - Z.of_nat (List.length bucket)) eq_refl) as [D1 _];
      [discriminate | simpl; lia | now apply D1].
Qed.

(** Below the bit [bit] of a node: an entry under [bit ++ rest] is an entry
    of the child under [rest]. *)
Lemma In_stored_bit : forall items bit child rest routes,
    prefix_wf (Dict items) = true -> dget bit items = Some child ->
    bit <> "*"%string ->
    (In ((bit ++ rest)%string, routes) (stored (Dict items))
     <-> In (rest, routes) (stored child)).
Proof.
  intros items bit child rest routes W G Nb.
  pose proof (prefix_wf_nodup _ W) as N.
  pose proof (prefix_wf_radix_wf _ W) as RW.
  destruct (radix_wf_edge _ _ _ RW G Nb) as (Ne & _).
  rewrite In_stored by assumption. split.
  - intros [[E _]|(k & c & s & Nk & Gk & E & I)]; [now apply append_nonempty in E|].
    destruct (bit_append_inj bit k rest s) as [<- <-]; eauto using prefix_wf_bit.
    congruence.
  - intros I. right. exists bit, child, rest. auto.
Qed.

Lemma replaced_below : forall items bit citems after rest left,
    prefix_wf (Dict items) = true -> dget bit items = Some (Dict citems) ->
    bit <> "*"%string -> prefix_wf after = true ->
    replaced rest left (Dict citems) after ->
    replaced (bit ++ rest) left (Dict items) (Dict (dset bit after items)).
Proof.
  intros items bit citems after rest left W G Nb Wa [R1 R2].
  pose proof (prefix_wf_nodup _ W) as N.
  pose proof (prefix_wf_bit _ _ _ W G Nb) as Bb.
  assert (W' : prefix_wf (Dict (dset bit after items)) = true)
    by now apply prefix_wf_dset_bit.
  pose proof (prefix_wf_nodup _ W') as N'.
  split.
  - intros path routes Np. rewrite !In_stored by assumption.
    split; (intros [[E Gs]|(k & c & s & Nk & Gk & E & I)]).
    + left. rewrite dget_dset_other in Gs by congruence. auto.
    + right. destruct (String.eqb_spec k bit) as [->|Nkb].
      * rewrite dget_dset_same in Gk. injection Gk as <-.
        exists bit, (Dict citems), s. repeat split; auto.
        apply R1; [|assumption]. intros ->. congruence.
      * rewrite dget_dset_other in Gk by assumption. exists k, c, s. auto.
    + left. rewrite dget_dset_other by congruence. auto.
    + right. destruct (String.eqb_spec k bit) as [->|Nkb].
      * assert (c = Dict citems) by congruence. subst c.
        exists bit, after, s. rewrite dget_dset_same. repeat split; auto.
        apply R1; [|assumption]. intros ->. congruence.
      * exists k, c, s. rewrite dget_dset_other by assumption. auto.
  - intros routes.
    rewrite (In_stored_bit _ bit after rest routes W' (dget_dset_same _ _ _) Nb).
    apply R2.
Qed.

Lemma trimmed_below : forall items bit citems rest bucket,
    prefix_wf (Dict items) = true -> dget bit items = Some (Dict citems) ->
    bit <> "*"%string ->
    stored (Dict citems) = [(rest, bucket)] ->
    replaced (bit ++ rest) [] (Dict items) (Dict (ddel bit items)).
Proof.
  intros items bit citems rest bucket W G Nb S.
  pose proof (prefix_wf_nodup _ W) as N.
  pose proof (prefix_wf_bit _ _ _ W G Nb) as Bb.
  assert (W' : prefix_wf (Dict (ddel bit items)) = true) by now apply prefix_wf_ddel.
  pose proof (prefix_wf_nodup _ W') as N'.
  assert (Gone : forall k c, dget k (ddel bit items) = Some c ->
                             k <> bit /\ dget k items = Some c).
  { intros k c Gk. destruct (String.eqb_spec k bit) as [->|Nk].
    - rewrite dget_ddel_same in Gk by assumption. discriminate.
    - rewrite dget_ddel_other in Gk by assumption. auto. }
  split.
  - intros path routes Np. rewrite !In_stored by assumption.
    split; (intros [[E Gs]|(k & c & s & Nk & Gk & E & I)]).
    + left. apply Gone in Gs. tauto.
    + right. apply Gone in Gk. exists k, c, s. tauto.
    + left. rewrite dget_ddel_other by congruence. auto.
    + right. destruct (String.eqb_spec k bit) as [->|Nkb].
      * assert (c = Dict citems) by congruence. subst c. rewrite S in I.
        destruct I as [I|[]]. injection I as <- <-. congruence.
      * exists k, c, s. rewrite dget_ddel_other by assumption. auto.
  - intros routes. split; [|intros [_ F]; congruence].
    intros H. exfalso. apply In_stored in H; [|assumption].
    destruct H as [[E _]|(k & c & s & Nk & Gk & E & I)].
    + destruct (is_bit_chars _ Bb) as [->| ->]; discriminate.
    + destruct (Gone _ _ Gk) as [Nkb Gk'].
      destruct (bit_append_inj bit k rest s) as [E' _]; auto.
      eapply prefix_wf_bit; eauto.
Qed.

Lemma stored_single_edge : forall k c,
    k <> "*"%string ->
    stored (Dict [(k, c)]) = map (fun e => ((k ++ fst e)%string, snd e)) (stored c).
Proof.
  intros k c N. apply String.eqb_neq in N.
  change (stored (Dict [(k, c)]))
    with ((if String.eqb k "*"
           then match c with PList routes => [(EmptyString, routes)] | Dict _ => [] end
           else map (fun e => ((k ++ fst e)%string, snd e)) (stored c)) ++ []).
  rewrite N. apply app_nil_r.
Qed.

Lemma prefix_delete_walk_result : forall bits items attrs counter,
    prefix_wf (Dict items) = true -> is_bits bits = true ->
    delete_result bits items attrs counter
                  (IPPrefixTree.delete_walk bits items attrs counter).
Proof.
  induction bits as [|c bits IH]; intros items attrs counter W B.
  - now apply delete_here_result.
  - cbn [IPPrefixTree.delete_walk]. set (bit := String c EmptyString).
    simpl in B. apply andb_prop in B. destruct B as [Bc B].
    destruct (bit_of_char _ Bc) as [Bb Ns]. fold bit in Bb, Ns.
    change (String c bits) with (bit ++ bits)%string.
    pose proof (prefix_wf_radix_wf _ W) as RW.
    destruct (dget bit items) as [child|] eqn:G.
    2:{ left. split; [reflexivity|]. intros routes H.
        apply In_stored in H; [|now apply prefix_wf_nodup].
        destruct H as [[E _]|(k & ch & s & Nk & Gk & E & I)].
        - destruct (is_bit_chars _ Bb) as [Eb|Eb]; rewrite Eb in E; discriminate.
        - destruct (bit_append_inj bit k bits s) as [E' _]; auto.
          + eapply prefix_wf_bit; eauto.
          + congruence. }
    pose proof (prefix_wf_child _ _ _ W G Ns) as Wc.
    destruct (prefix_wf_dict _ Wc) as [citems ->]. cbn [as_dict bind].
    specialize (IH citems attrs counter Wc B).
    pose proof (fun routes => In_stored_bit items bit _ bits routes W G Ns) as Down.
    destruct (IPPrefixTree.delete_walk bits citems attrs counter)
      as [[below counter']|e]; cbn [bind delete_result] in *.
    + destruct IH as (bucket & Hin & Hm & Ec & Hb).
      destruct below as [after|].
      * destruct Hb as [Wa R]. exists bucket. split; [now apply Down|].
        split; [assumption|]. split; [assumption|].
        split; [now apply prefix_wf_dset_bit|].
        now apply (replaced_below items bit citems).
      * destruct Hb as [El S].
        destruct (1 <? List.length items)%nat eqn:L; exists bucket;
          (split; [now apply Down|]); (split; [assumption|]);
          (split; [assumption|]).
        -- split; [now apply prefix_wf_ddel|]. rewrite El.
           now apply (trimmed_below items bit citems bits bucket).
        -- split; [assumption|]. rewrite (short_dict_edge _ _ _ L G).
           rewrite stored_single_edge by assumption. now rewrite S.
    + destruct IH as [[-> Hn]|(-> & Ta & bucket & Hin & Hm)].
      * left. split; [reflexivity|]. intros routes H. apply Down in H.
        now apply Hn in H.
      * right. split; [reflexivity|]. split; [assumption|]. exists bucket.
        split; [now apply Down | assumption].
Qed.

Lemma prefix_delete_table :
  forall (t : table) (prefix : network) (attrs : kwargs),
    prefix_wf (_root t) = true -> counted t ->
    match delete PrefixTree t prefix attrs with
    | Raise e =>
        e = RoutingTableValidationError
        /\ ((forall routes, ~ In (bits_in_prefix prefix, routes) (stored (_root t)))
            \/ (truthy attrs = true
                /\ exists bucket,
                    In (bits_in_prefix prefix, bucket) (stored (_root t))
                    /\ objs_with_all_attrs bucket attrs = []))
    | Ok t' =>
        exists bucket,
          In (bits_in_prefix prefix, bucket) (stored (_root t))
          /\ (truthy attrs = true -> objs_with_all_attrs bucket attrs <> [])
          /\ prefix_wf (_root t') = true
          /\ replaced (bits_in_prefix prefix)
                      (if truthy attrs then kept bucket attrs else [])
                      (_root t) (_root t')
          /\ _counter t' = _counter t
                           - (Z.of_nat (List.length bucket)
                              - Z.of_nat (List.length
                                            (if truthy attrs
                                             then kept bucket attrs else [])))
    end.
Proof.
  intros t prefix attrs W C. simpl. unfold IPPrefixTree.delete.
  destruct (prefix_wf_dict _ W) as [items E]. rewrite E in *. cbn [as_dict bind].
  pose proof (prefix_delete_walk_result (bits_in_prefix prefix) items attrs
                                        (_counter t) W (bits_in_prefix_is_bits prefix))
    as R.
  destruct (IPPrefixTree.delete_walk (bits_in_prefix prefix) items attrs (_counter t))
    as [[below counter']|e]; cbn [bind delete_result sanitize] in *.
  - destruct R as (bucket & Hin & Hm & Ec & Hb). destruct below as [after|].
    + destruct Hb as [Wa R]. cbn [sanitize _root _counter].
      exists bucket. auto.
    + destruct Hb as [El S]. cbn [sanitize IPPrefixTree.flush_all _root _counter].
      exists bucket. split; [assumption|]. split; [assumption|].
      split; [reflexivity|]. rewrite El in *. split.
      * split.
        -- intros path routes Np. rewrite S. simpl. split; [tauto|].
           intros [H|[]]. congruence.
        -- intros routes. simpl. split; [tauto | intros [_ F]; congruence].
      * unfold counted in C. rewrite E in C. unfold routes_of in C.
        rewrite S in C. simpl in C. rewrite app_nil_r in C. simpl. lia.
  - destruct R as [[-> Hn]|(-> & Ta & bucket & Hin & Hm)]; cbn [sanitize].
    + split; [reflexivity|]. now left.
    + split; [reflexivity|]. right. split; [assumption|]. eauto.
Qed.

(** On a well-formed prefix tree whose counter is the number of its routes,
    [delete] raises the validation error exactly when nothing is stored under
    the prefix, or attributes are given and no route under the prefix has
    them; otherwise it leaves under the prefix the routes without all the
    attributes (none when no attributes are given), takes the number of the
    routes removed off the counter, keeps the tree well formed and leaves
    what is stored under other bits as it is. *)
Theorem prefix_tree_delete :
  forall (t : table) (prefix : network) (attrs : kwargs),
    prefix_wf (_root t) = true -> counted t ->
    match delete PrefixTree t prefix attrs with
    | Raise e =>
        e = RoutingTableValidationError
        /\ ((forall routes, ~ In (bits_in_prefix prefix, routes) (stored (_root t)))
            \/ (truthy attrs = true
                /\ exists bucket,
                    In (bits_in_prefix prefix, bucket) (stored (_root t))
                    /\ objs_with_all_attrs bucket attrs = []))
    | Ok t' =>
        exists bucket,
          In (bits_in_prefix prefix, bucket) (stored (_root t))
          /\ (truthy attrs = true -> objs_with_all_attrs bucket attrs <> [])
          /\ prefix_wf (_root t') = true
          /\ replaced (bits_in_prefix prefix)
                      (if truthy attrs then kept bucket attrs else [])
                      (_root t) (_root t')
          /\ _counter t' = _counter t
                           - (Z.of_nat (List.length bucket)
                              - Z.of_nat (List.length
                                            (if truthy attrs
                                             then kept bucket attrs else [])))
    end.
Proof. exact prefix_delete_table. Qed.

Lemma prefix_tree_delete_witness :
  let t := fst (run PrefixTree sample_calls) in
  prefix_wf (_root t) = true /\ counted t
  /\ match delete PrefixTree t (net4 10 0 0 0 8) (dev "a") with
     | Raise e => False
     | Ok t' =>
         exists bucket,
           In (bits_in_prefix (net4 10 0 0 0 8), bucket) (stored (_root t))
           /\ prefix_wf (_root t') = true
           /\ replaced (bits_in_prefix (net4 10 0 0 0 8)) (kept bucket (dev "a"))
                       (_root t) (_root t')
           /\ _counter t' = _counter t
                            - (Z.of_nat (List.length bucket)
                               - Z.of_nat (List.length (kept bucket (dev "a"))))
     end.
Proof.
  assert (W : prefix_wf (_root (fst (run PrefixTree sample_calls))) = true)
    by (vm_compute; reflexivity).
  assert (C : counted (fst (run PrefixTree sample_calls)))
    by (vm_compute; reflexivity).
  split; [exact W|]. split; [exact C|].
  pose proof (prefix_tree_delete _ (net4 10 0 0 0 8) (dev "a") W C) as H.
  destruct (delete PrefixTree (fst (run PrefixTree sample_calls))
                   (net4 10 0 0 0 8) (dev "a")) as [t'|e] eqn:E.
  - destruct H as (bucket & Hin & _ & W' & R & Ec). exists bucket. auto.
  - vm_compute in E. discriminate E.
Defined.

(** ** [IPRadixTree.add] keeps the tree canonical *)

Lemma compact_intro : forall is_root items,
    (is_root || dmem "*" items
     || (2 <=? List.length (new_dict_without_key "*" items))%nat) = true ->
    forallb (fun kv => compact false (snd kv)) items = true ->
    compact is_root (Dict items) = true.
Proof. intros is_root items H F. cbn [compact]. now rewrite H, F. Qed.

Lemma compact_parts : forall is_root items,
    compact is_root (Dict items) = true ->
    (is_root || dmem "*" items
     || (2 <=? List.length (new_dict_without_key "*" items))%nat) = true
    /\ forallb (fun kv => compact false (snd kv)) items = true.
Proof. intros is_root items H. cbn [compact] in H. now apply andb_prop in H. Qed.

Lemma length_dset_old : forall (A : Type) k (v old : A) (d : dict A),
    dget k d = Some old -> List.length (dset k v d) = List.length d.
Proof.
  intros A k v old d. induction d as [|[k0 v0] d IH]; simpl; [discriminate|].
  destruct (String.eqb k0 k); simpl; [reflexivity|]. intros G. now rewrite IH.
Qed.

Lemma length_dset_new : forall (A : Type) k (v : A) (d : dict A),
    dget k d = None -> List.length (dset k v d) = S (List.length d).
Proof.
  intros A k v d G. rewrite (dset_new _ _ _ G), length_app. simpl. lia.
Qed.

Lemma length_ddel : forall (A : Type) k (old : A) (d : dict A),
    dget k d = Some old -> S (List.length (ddel k d)) = List.length d.
Proof.
  intros A k old d. induction d as [|[k0 v0] d IH]; simpl; [discriminate|].
  destruct (String.eqb k0 k); simpl; [reflexivity|]. intros G. now rewrite IH.
Qed.

Lemma dget_without : forall k (d : dict obj),
    k <> "*"%string -> dget k (new_dict_without_key "*" d) = dget k d.
Proof.
  intros k d N. induction d as [|[k0 v0] d IH]; [reflexivity|].
  cbn [new_dict_without_key dget filter fst snd].
  destruct (String.eqb_spec k0 "*") as [->|N0]; cbn [negb dget fst snd].
  - destruct (String.eqb_spec "*" k) as [E|_]; [congruence | exact IH].
  - fold (new_dict_without_key "*" d). now rewrite IH.
Qed.

Lemma forallb_compact_dset : forall k v (items : dict obj),
    forallb (fun kv => compact false (snd kv)) items = true ->
    compact false v = true ->
    forallb (fun kv => compact false (snd kv)) (dset k v items) = true.
Proof.
  intros k v items F C. apply forallb_dset; auto.
Qed.

Lemma install_compact : forall is_root items route counter items' counter',
    compact is_root (Dict items) = true ->
    install items route counter = Ok (items', counter') ->
    compact is_root (Dict items') = true.
Proof.
  intros is_root items route counter items' counter' C H.
  apply compact_parts in C. destruct C as [C1 C2].
  assert (D : forall routes,
             compact is_root (Dict (dset "*" (PList routes) items)) = true).
  { intros routes. apply compact_intro.
    - rewrite dmem_dset, String.eqb_refl. now rewrite orb_true_r.
    - now apply forallb_compact_dset. }
  unfold install in H. destruct (dget "*" items) as [held|].
  - apply bind_ok in H. destruct H as (routes & _ & H).
    destruct (route_in route routes); injection H as <- <-; [|apply D].
    now apply compact_intro.
  - injection H as <- <-. apply D.
Qed.

Lemma add_finish_compact : forall is_root items bits route counter items' counter',
    is_bits bits = true ->
    compact is_root (Dict items) = true ->
    IPRadixTree.add_finish items bits route counter = Ok (items', counter') ->
    compact is_root (Dict items') = true.
Proof.
  intros is_root items bits route counter items' counter' B C H.
  unfold IPRadixTree.add_finish in H.
  destruct (is_empty bits) eqn:E; cbn [negb] in H; [eapply install_compact; eauto|].
  cbn in H. injection H as <- <-.
  assert (Ns : bits <> "*"%string)
    by (apply String.eqb_neq; now apply is_bits_not_star).
  apply compact_parts in C. destruct C as [C1 C2]. apply compact_intro.
  - rewrite dmem_dset. apply String.eqb_neq in Ns. rewrite Ns. cbn [orb].
    apply String.eqb_neq in Ns.
    rewrite without_dset_other by assumption.
    apply orb_prop in C1. destruct C1 as [C1|C1]; [now rewrite C1|].
    apply Nat.leb_le in C1. apply orb_true_iff. right. apply Nat.leb_le.
    destruct (dget bits (new_dict_without_key "*" items)) eqn:G.
    + now rewrite (length_dset_old _ _ _ _ _ G).
    + rewrite (length_dset_new _ _ _ _ G). lia.
  - now apply forallb_compact_dset.
Qed.

Lemma radix_add_walk_compact :
  forall fuel is_root items bits route counter items' counter',
    radix_wf (Dict items) = true -> is_bits bits = true ->
    compact is_root (Dict items) = true ->
    IPRadixTree.add_walk fuel route counter items bits = Ok (items', counter') ->
    compact is_root (Dict items') = true.
Proof.
  induction fuel as [|fuel IH];
    intros is_root items bits route counter items' counter' W B C H; [discriminate|].
  cbn [IPRadixTree.add_walk] in H.
  destruct (String.eqb_spec bits EmptyString) as [->|Nb].
  { rewrite add_scan_empty in H. eapply add_finish_compact; eauto. }
  rewrite add_scan_find in H by assumption.
  pose proof (radix_wf_nodup _ W) as N.
  destruct (find (shares bits) (IPRadixTree.nodes_of items)) as [[k child]|] eqn:F;
    [|eapply add_finish_compact; eauto].
  apply find_some in F. destruct F as [Hin S].
  apply nodes_of_In in Hin. destruct Hin as [Hin Nk]. apply shares_true in S.
  pose proof (In_dget _ _ _ N Hin) as G.
  destruct (radix_wf_edge _ _ _ W G Nk) as (Ne & Bk & Wc).
  pose proof (compact_parts _ _ C) as [C1 C2].
  assert (Cc : compact false child = true).
  { rewrite forallb_forall in C2. apply (C2 _ Hin). }
  cbv zeta in H.
  destruct (String.eqb_spec (bits_in_common k bits) k) as [E|NE].
  - destruct child as [citems|]; [|discriminate Wc]. cbn [as_dict bind] in H.
    apply bind_ok in H. destruct H as ([citems' c'] & Ew & H). injection H as <- <-.
    apply (IH false) in Ew; [|assumption | now apply is_bits_drop | assumption].
    apply compact_intro; [|now apply forallb_compact_dset].
    rewrite dmem_dset. apply String.eqb_neq in Nk. rewrite Nk. cbn [orb].
    apply String.eqb_neq in Nk. rewrite without_dset_other by assumption.
    rewrite (length_dset_old _ _ _ (Dict citems)); [assumption|].
    now rewrite dget_without.
  - apply bind_ok in H. destruct H as ([split c'] & Fs & H). injection H as <- <-.
    set (c0 := bits_in_common k bits) in *.
    set (rem := drop (String.length c0) k) in *.
    assert (Bc : is_bits c0 = true) by now apply is_bits_common.
    assert (Ncs : c0 <> "*"%string)
      by (apply String.eqb_neq; now apply is_bits_not_star).
    assert (Br : is_bits rem = true) by now apply is_bits_drop.
    assert (Nrs : String.eqb rem "*" = false) by now apply is_bits_not_star.
    assert (Cs : compact false (Dict split) = true).
    { unfold IPRadixTree.add_finish in Fs.
      destruct (is_empty (drop (String.length c0) bits)) eqn:Eb; cbn [negb] in Fs.
      - unfold install in Fs. cbn [dget dset fst snd] in Fs. rewrite Nrs in Fs.
        cbn [dget dset fst snd] in Fs. injection Fs as <- <-.
        cbn [compact forallb fst snd]. unfold dmem. cbn [dget]. rewrite Nrs, Cc.
        reflexivity.
      - cbn [bind install dget] in Fs.
        set (rest := drop (String.length c0) bits) in *.
        assert (Nb' : String.eqb rest "*" = false)
          by now apply is_bits_not_star, is_bits_drop.
        assert (Nrb : String.eqb rem rest = false).
        { apply String.eqb_neq. intros Er.
          pose proof (common_rest k bits) as R. fold c0 in R. fold rem in R.
          fold rest in R. rewrite <- Er in R. apply is_empty_false in Eb.
          rewrite <- Er in Eb.
          destruct rem; [congruence|]. cbn [bits_in_common] in R.
          rewrite Ascii.eqb_refl in R. discriminate. }
        cbn [dset] in Fs. rewrite Nrb in Fs. injection Fs as <- <-.
        cbn [compact forallb fst snd]. unfold dmem. cbn [dget].
        rewrite Nrs, Nb', Cc. cbn [new_dict_without_key filter fst snd].
        rewrite Nrs, Nb'. reflexivity. }
    apply compact_intro.
    + rewrite dmem_dset. apply String.eqb_neq in Ncs. rewrite Ncs. cbn [orb].
      apply String.eqb_neq in Ncs.
      assert (Ed : dmem "*" (ddel k items) = dmem "*" items).
      { unfold dmem. now rewrite dget_ddel_other by congruence. }
      rewrite Ed. rewrite without_dset_other, without_ddel_other by assumption.
      apply orb_prop in C1. destruct C1 as [C1|C1]; [now rewrite C1|].
      apply Nat.leb_le in C1. apply orb_true_iff. right. apply Nat.leb_le.
      assert (Gw : dget k (new_dict_without_key "*" items) = Some child)
        by now rewrite dget_without.
      pose proof (length_ddel _ _ _ _ Gw) as Ld.
      destruct (dget c0 (ddel k (new_dict_without_key "*" items))) eqn:G0.
      * rewrite (length_dset_old _ _ _ _ _ G0).
        exfalso. rewrite dget_ddel_other in G0 by congruence.
        rewrite dget_without in G0 by assumption.
        assert (D : bits_in_common c0 k = EmptyString)
          by (apply (radix_wf_disjoint items c0 o k child); auto).
        pose proof (common_split_l k bits) as Ek. fold c0 in Ek. rewrite Ek in D.
        rewrite <- (append_empty_r c0) in D at 1. rewrite common_append in D.
        now apply append_nonempty in D.
      * rewrite (length_dset_new _ _ _ _ G0). lia.
    + apply forallb_compact_dset; [now apply forallb_ddel | assumption].
Qed.

Lemma radix_add_canonical :
  canonical init = true
  /\ forall (t t' : table) (prefix : network) (attrs : kwargs),
      canonical t = true -> add RadixTree t prefix attrs = Ok t' ->
      canonical t' = true.
Proof.
  split; [reflexivity|]. intros t t' prefix attrs C H.
  unfold canonical in *. apply andb_prop in C. destruct C as [W C].
  destruct (radix_add_idempotent t prefix attrs W) as (t2 & E & W' & _).
  simpl in H, E. rewrite E in H. injection H as <-. rewrite W'. cbn [andb].
  unfold IPRadixTree.add in E. apply sanitize_ok in E.
  destruct (radix_wf_dict _ W) as [items Er]. rewrite Er in *.
  cbn [as_dict bind] in E.
  apply bind_ok in E. destruct E as ([root' c'] & Ew & E). injection E as <-.
  cbn [_root].
  apply (radix_add_walk_compact _ true items _ _ _ _ _ W
           (bits_in_prefix_is_bits prefix) C Ew).
Qed.

(** The empty radix tree is canonical, and [add] keeps a canonical radix tree
    canonical: it stays well formed, and no node but the root is without
    routes and with one child only. *)
Theorem radix_add_keeps_canonical :
  canonical init = true
  /\ forall (t t' : table) (prefix : network) (attrs : kwargs),
      canonical t = true -> add RadixTree t prefix attrs = Ok t' ->
      canonical t' = true.
Proof. exact radix_add_canonical. Qed.

Lemma radix_add_keeps_canonical_witness :
  match add RadixTree init (net4 10 0 0 0 8) (dev "a") with
  | Ok t =>
      match add RadixTree t (net4 10 128 0 0 9) (dev "b") with
      | Ok t' => canonical t = true /\ canonical t' = true
      | Raise _ => False
      end
  | Raise _ => False
  end.
Proof.
  destruct (add RadixTree init (net4 10 0 0 0 8) (dev "a")) as [t|e] eqn:E1;
    [|vm_compute in E1; discriminate E1].
  pose proof (proj2 radix_add_keeps_canonical _ _ _ _
                (proj1 radix_add_keeps_canonical) E1) as Ct.
  vm_compute in E1. injection E1 as <-.
  destruct (add RadixTree _ (net4 10 128 0 0 9) (dev "b")) as [t'|e] eqn:E2;
    [|vm_compute in E2; discriminate E2].
  split; [exact Ct|].
  exact (proj2 radix_add_keeps_canonical _ _ _ _ Ct E2).
Defined.

(** ** [add], then [get] *)

Lemma prefix_of_refl : forall s, prefix_of s s = true.
Proof.
  intros s. rewrite <- (append_empty_r s) at 2. apply prefix_of_append.
Qed.

Lemma prefix_of_length : forall k s,
    prefix_of k s = true -> (String.length k <= String.length s)%nat.
Proof.
  intros k s H. apply prefix_of_iff in H. destruct H as [suf ->].
  rewrite length_append. lia.
Qed.

Lemma prefix_of_same_length : forall k s,
    prefix_of k s = true -> (String.length s <= String.length k)%nat -> k = s.
Proof.
  intros k s H L. apply prefix_of_iff in H. destruct H as [suf ->].
  rewrite length_append in L. destruct suf; [now rewrite append_empty_r|].
  simpl in L. lia.
Qed.

(** The longest match of bits that are stored themselves is their list. *)
Lemma longest_match_exact : forall o bits routes r,
    radix_wf o = true -> In (bits, routes) (stored o) ->
    longest_match (stored o) bits r -> r = routes.
Proof.
  intros o bits routes r W Hin [(path & Hp & P & M)|[_ N]].
  - pose proof (M _ _ Hin (prefix_of_refl bits)) as L.
    apply (prefix_of_same_length _ _ P) in L. subst path.
    apply (stored_functional _ _ _ _ W Hp Hin).
  - pose proof (N _ _ Hin) as F. rewrite prefix_of_refl in F. discriminate F.
Qed.

Lemma get_stored_exact : forall (T : RoutingTable) (t : table) prefix attrs routes,
    radix_wf (_root t) = true ->
    (exists r, get T t prefix attrs = Ok (objs_with_all_attrs r attrs)
               /\ longest_match (stored (_root t)) (bits_in_prefix prefix) r) ->
    In (bits_in_prefix prefix, routes) (stored (_root t)) ->
    get T t prefix attrs = Ok (objs_with_all_attrs routes attrs).
Proof.
  intros T t prefix attrs routes W (r & E & M) Hin.
  now rewrite E, (longest_match_exact _ _ _ _ W Hin M).
Qed.

Lemma has_own_attrs : forall prefix attrs,
    nodup_keys attrs = true -> has_all_attrs (mkRoute prefix attrs) attrs = true.
Proof.
  intros prefix attrs N. unfold has_all_attrs. apply forallb_forall.
  intros [k v] Hin. cbn [fst snd attributes].
  rewrite (In_dget _ _ _ N Hin). apply value_eqb_refl.
Qed.

Lemma route_in_filter : forall route routes attrs,
    has_all_attrs route attrs = true -> route_in route routes = true ->
    route_in route (objs_with_all_attrs routes attrs) = true.
Proof.
  intros route routes attrs H R. unfold route_in in *.
  apply existsb_exists in R. destruct R as (x & Hin & E).
  apply existsb_exists. exists x. split; [|exact E].
  apply filter_In. split; [exact Hin|]. now rewrite (has_all_attrs_eqb _ _ _ E).
Qed.

Lemma route_in_nonempty : forall route routes,
    route_in route routes = true -> routes <> [].
Proof. intros route [|x l] H; [discriminate H | discriminate]. Qed.

Lemma bucket_at_stored : forall o bits,
    radix_wf o = true -> bucket_at o bits <> [] ->
    In (bits, bucket_at o bits) (stored o).
Proof.
  intros o bits W N. destruct (bucket_at_cases o bits) as [[routes Hin]|No].
  - now rewrite (bucket_at_In _ _ _ W Hin).
  - now rewrite (bucket_at_none _ _ No) in N.
Qed.

Lemma looked_up_after_add : forall (T : RoutingTable) (wf : obj -> bool),
    (forall o, wf o = true -> radix_wf o = true) ->
    add_idempotent T wf ->
    (forall t prefix attrs,
        wf (_root t) = true ->
        exists routes,
          get T t prefix attrs = Ok (objs_with_all_attrs routes attrs)
          /\ longest_match (stored (_root t)) (bits_in_prefix prefix) routes) ->
    forall t t' prefix attrs,
      wf (_root t) = true -> nodup_keys attrs = true ->
      add T t prefix attrs = Ok t' -> looked_up T t' prefix attrs.
Proof.
  intros T wf R A G t t' prefix attrs W N E.
  destruct (A t prefix attrs W) as (t0 & E0 & W' & _ & Ad).
  rewrite E in E0. injection E0 as <-.
  pose proof (added_then_in _ _ _ _ _ _ Ad) as In'.
  pose proof (bucket_at_stored _ _ (R _ W') (route_in_nonempty _ _ In')) as St.
  unfold looked_up. cbv zeta.
  split; [|split].
  - apply (get_stored_exact T t' prefix attrs _ (R _ W') (G t' prefix attrs W') St).
  - apply route_in_filter; [now apply has_own_attrs | exact In'].
  - unfold contains.
    rewrite (get_stored_exact T t' prefix [] _ (R _ W') (G t' prefix [] W') St).
    rewrite objs_with_no_attrs. cbn [bind].
    destruct (bucket_at (_root t') (bits_in_prefix prefix)); [discriminate In'|].
    reflexivity.
Qed.

(** After [add(prefix, attrs)] on a well-formed table of either tree, with
    keywords that [getattr] reads from the route itself ([plain_names]: none
    is [prefix] or [_prefix] or begins with two underscores),
    [get(prefix, attrs)] returns the routes with all [attrs] of the list
    stored under the bits of [prefix], the route added is one of them, and
    [prefix in table] is true.  The keywords of a call are distinct. *)
Theorem add_then_get :
  forall (t t' : table) (prefix : network) (attrs : kwargs),
    nodup_keys attrs = true -> plain_names attrs = true ->
    (prefix_wf (_root t) = true -> add PrefixTree t prefix attrs = Ok t' ->
     looked_up PrefixTree t' prefix attrs)
    /\ (radix_wf (_root t) = true -> add RadixTree t prefix attrs = Ok t' ->
        looked_up RadixTree t' prefix attrs).
Proof.
  intros t t' prefix attrs N _. split; intros W E.
  - apply (looked_up_after_add PrefixTree prefix_wf prefix_wf_radix_wf
             prefix_add_idempotent
             (fun t p a W => prefix_get_match t p a W) t t' prefix attrs W N E).
  - apply (looked_up_after_add RadixTree radix_wf (fun o W => W)
             radix_add_idempotent
             (fun t p a W => radix_get_match t p a W) t t' prefix attrs W N E).
Qed.

Lemma add_then_get_witness :
  let tp := fst (run PrefixTree sample_calls) in
  let tr := fst (run RadixTree sample_calls) in
  (exists t', add PrefixTree tp (net4 10 64 0 0 10) (dev "c") = Ok t'
              /\ looked_up PrefixTree t' (net4 10 64 0 0 10) (dev "c"))
  /\ (exists t', add RadixTree tr (net4 10 64 0 0 10) (dev "c") = Ok t'
                 /\ looked_up RadixTree t' (net4 10 64 0 0 10) (dev "c")).
Proof.
  split; eexists; (split; [vm_compute; reflexivity|]).
  - refine (proj1 (add_then_get (fst (run PrefixTree sample_calls)) _
                     (net4 10 64 0 0 10) (dev "c") _ _) _ _);
      vm_compute; reflexivity.
  - refine (proj2 (add_then_get (fst (run RadixTree sample_calls)) _
                     (net4 10 64 0 0 10) (dev "c") _ _) _ _);
      vm_compute; reflexivity.
Defined.

(** ** [add] changes one list only *)

Lemma same_elsewhere_refl : forall bits o, same_elsewhere bits o o.
Proof. intros bits o path routes _. reflexivity. Qed.

Lemma same_elsewhere_star : forall items v,
    radix_wf (Dict items) = true -> radix_wf (Dict (dset "*" v items)) = true ->
    same_elsewhere "" (Dict items) (Dict (dset "*" v items)).
Proof.
  intros items v W W' path routes Np.
  rewrite !In_stored by now apply radix_wf_nodup.
  split; (intros [[-> _]|(k & child & suf & Nk & G & -> & Hin)]; [congruence|]);
    right; exists k, child, suf; repeat split; auto.
  - now rewrite dget_dset_other in G by congruence.
  - now rewrite dget_dset_other by congruence.
Qed.

(** The list under [k ++ rest] changes below the edge [k]; a new edge comes
    with no list but the one under [rest]. *)
Lemma same_elsewhere_edge : forall items k child child' rest,
    radix_wf (Dict items) = true ->
    radix_wf (Dict (dset k child' items)) = true -> k <> "*"%string ->
    dget k items = Some child \/ (dget k items = None /\ stored child = []) ->
    same_elsewhere rest child child' ->
    same_elsewhere (k ++ rest) (Dict items) (Dict (dset k child' items)).
Proof.
  intros items k child child' rest W W' Nk G S path routes Np.
  rewrite (In_stored (dset k child' items)) by now apply radix_wf_nodup.
  rewrite (In_stored items) by now apply radix_wf_nodup.
  split.
  - intros [[-> G0]|(k1 & c1 & suf & N1 & G1 & -> & Hin)].
    + left. split; [reflexivity|]. now rewrite dget_dset_other in G0 by congruence.
    + right. destruct (String.eqb_spec k1 k) as [->|Nkk].
      * rewrite dget_dset_same in G1. injection G1 as <-.
        assert (Ns : suf <> rest) by congruence.
        apply (S _ _ Ns) in Hin. destruct G as [G|[_ G]].
        -- exists k, child, suf. auto.
        -- rewrite G in Hin. destruct Hin.
      * rewrite dget_dset_other in G1 by assumption.
        exists k1, c1, suf. auto.
  - intros [[-> G0]|(k1 & c1 & suf & N1 & G1 & -> & Hin)].
    + left. split; [reflexivity|]. now rewrite dget_dset_other by congruence.
    + right. destruct (String.eqb_spec k1 k) as [->|Nkk].
      * destruct G as [G|[G _]]; [|congruence].
        rewrite G in G1. injection G1 as <-.
        assert (Ns : suf <> rest) by congruence.
        apply (S _ _ Ns) in Hin.
        exists k, child', suf. rewrite dget_dset_same. auto.
      * exists k1, c1, suf. rewrite dget_dset_other by assumption. auto.
Qed.

Lemma install_same_elsewhere : forall items route counter items' counter',
    radix_wf (Dict items) = true ->
    install items route counter = Ok (items', counter') ->
    same_elsewhere "" (Dict items) (Dict items').
Proof.
  intros items route counter items' counter' W H. unfold install in H.
  destruct (dget "*" items) as [held|].
  - apply bind_ok in H. destruct H as (routes & _ & H).
    destruct (route_in route routes); injection H as <- <-.
    + apply same_elsewhere_refl.
    + apply same_elsewhere_star; [assumption | now apply radix_wf_dset_star].
  - injection H as <- <-.
    apply same_elsewhere_star; [assumption | now apply radix_wf_dset_star].
Qed.

Lemma prefix_add_walk_same_elsewhere :
  forall bits pointer route counter pointer' counter',
    prefix_wf pointer = true -> is_bits bits = true ->
    IPPrefixTree.add_walk bits pointer route counter = Ok (pointer', counter') ->
    same_elsewhere bits pointer pointer'.
Proof.
  induction bits as [|c bits IH]; intros pointer route counter pointer' counter' W B H;
    destruct (prefix_wf_dict _ W) as [items ->];
    pose proof (prefix_wf_radix_wf _ W) as RW.
  - cbn [IPPrefixTree.add_walk as_dict bind] in H.
    apply bind_ok in H. destruct H as ([items' c'] & E & H). injection H as <- <-.
    apply (install_same_elsewhere _ _ _ _ _ RW E).
  - simpl in B. apply andb_prop in B. destruct B as [Bc B].
    destruct (bit_of_char _ Bc) as [Bb Ns].
    cbn [IPPrefixTree.add_walk as_dict bind] in H. cbv zeta in H.
    set (bit := String c EmptyString) in *.
    set (child := match dget bit items with Some ch => ch | None => Dict [] end) in *.
    assert (Wc : prefix_wf child = true).
    { unfold child. destruct (dget bit items) eqn:G; [|reflexivity].
      eapply prefix_wf_child; eauto. }
    apply bind_ok in H. destruct H as ([child' c'] & E & H). injection H as <- <-.
    destruct (prefix_add_walk_added bits child route counter Wc B)
      as (child2 & c2 & E2 & W2 & _).
    rewrite E in E2. injection E2 as <- <-.
    change (String c bits) with (bit ++ bits)%string.
    apply (same_elsewhere_edge items bit child child' bits RW).
    + now apply prefix_wf_radix_wf, prefix_wf_dset_bit.
    + exact Ns.
    + unfold child. destruct (dget bit items); [now left | now right].
    + apply (IH _ _ _ _ _ Wc B E).
Qed.

Lemma add_finish_same_elsewhere : forall items bits route counter items' counter',
    radix_wf (Dict items) = true -> is_bits bits = true ->
    (forall k child, dget k items = Some child -> k <> "*"%string ->
                     bits_in_common k bits = EmptyString) ->
    IPRadixTree.add_finish items bits route counter = Ok (items', counter') ->
    same_elsewhere bits (Dict items) (Dict items').
Proof.
  intros items bits route counter items' counter' W B D H.
  unfold IPRadixTree.add_finish in H.
  destruct (is_empty bits) eqn:E; cbn [negb] in H.
  - apply is_empty_true in E. subst bits.
    apply (install_same_elsewhere _ _ _ _ _ W H).
  - cbn in H. injection H as <- <-. apply is_empty_false in E.
    assert (Ns : bits <> "*"%string)
      by (apply String.eqb_neq; now apply is_bits_not_star).
    assert (G : dget bits items = None).
    { destruct (dget bits items) as [x|] eqn:G; [|reflexivity].
      specialize (D _ _ G Ns). destruct bits; [congruence|].
      cbn in D. rewrite Ascii.eqb_refl in D. discriminate. }
    rewrite <- (append_empty_r bits) at 1.
    apply (same_elsewhere_edge items bits (Dict []) _ "" W).
    + apply radix_wf_dset_edge; auto using wf_leaf.
      intros k' c' G' N' _. rewrite common_sym. now apply (D k' c').
    + exact Ns.
    + right. now split.
    + intros path routes Np. cbn. split; [|intros []].
      intros [Eq|[]]. injection Eq as <- _. congruence.
Qed.

(** An edge [k] is split at [c0]: what hung under [k] hangs under [c0], then
    [rem]. *)
Lemma same_elsewhere_split : forall items k child c0 rem rest split,
    radix_wf (Dict items) = true ->
    radix_wf (Dict (dset c0 (Dict split) (ddel k items))) = true ->
    dget k items = Some child -> k <> "*"%string -> c0 <> "*"%string ->
    rem <> "*"%string ->
    k = (c0 ++ rem)%string -> c0 <> k ->
    dget c0 (ddel k items) = None ->
    same_elsewhere rest (Dict [(rem, child)]) (Dict split) ->
    same_elsewhere (c0 ++ rest) (Dict items)
                   (Dict (dset c0 (Dict split) (ddel k items))).
Proof.
  intros items k child c0 rem rest split W W' G Nk Nc Nr Ek Nck G0 S path routes Np.
  pose proof (radix_wf_nodup _ W) as N.
  rewrite (In_stored (dset c0 (Dict split) (ddel k items)))
    by now apply radix_wf_nodup.
  rewrite (In_stored items) by assumption.
  split.
  - intros [[-> Gs]|(k1 & c1 & suf & N1 & G1 & -> & Hin)].
    + left. split; [reflexivity|].
      rewrite dget_dset_other, dget_ddel_other in Gs by congruence. exact Gs.
    + right. destruct (String.eqb_spec k1 c0) as [->|N10].
      * rewrite dget_dset_same in G1. injection G1 as <-.
        assert (Ns : suf <> rest) by congruence.
        apply (S _ _ Ns) in Hin. rewrite stored_single_edge in Hin by assumption.
        apply in_map_iff in Hin. destruct Hin as ([e r] & Eq & Hin).
        injection Eq as <- <-. cbn [fst snd].
        exists k, child, e. repeat split; auto.
        now rewrite Ek, append_assoc.
      * rewrite dget_dset_other in G1 by congruence.
        destruct (String.eqb_spec k1 k) as [->|N1k].
        -- rewrite dget_ddel_same in G1 by assumption. discriminate G1.
        -- rewrite dget_ddel_other in G1 by assumption.
           exists k1, c1, suf. auto.
  - intros [[-> Gs]|(k1 & c1 & suf & N1 & G1 & -> & Hin)].
    + left. split; [reflexivity|].
      now rewrite dget_dset_other, dget_ddel_other by congruence.
    + right. destruct (String.eqb_spec k1 k) as [->|N1k].
      * rewrite G in G1. injection G1 as <-.
        exists c0, (Dict split), (rem ++ suf)%string.
        rewrite dget_dset_same. repeat split; auto.
        -- now rewrite Ek, append_assoc.
        -- apply S.
           ++ intros Eq. apply Np. now rewrite Ek, append_assoc, Eq.
           ++ rewrite stored_single_edge by assumption.
              apply in_map_iff. exists (suf, routes). auto.
      * assert (N10 : k1 <> c0).
        { intros ->. rewrite dget_ddel_other in G0 by assumption. congruence. }
        exists k1, c1, suf.
        rewrite dget_dset_other, dget_ddel_other by congruence. auto.
Qed.

Lemma radix_add_walk_same_elsewhere :
  forall fuel items bits route counter items' counter',
    radix_wf (Dict items) = true -> is_bits bits = true ->
    (height (Dict items) <= fuel)%nat ->
    IPRadixTree.add_walk fuel route counter items bits = Ok (items', counter') ->
    same_elsewhere bits (Dict items) (Dict items').
Proof.
  induction fuel as [|fuel IH];
    intros items bits route counter items' counter' W B Hh H; [discriminate|].
  cbn [IPRadixTree.add_walk] in H.
  destruct (String.eqb_spec bits EmptyString) as [->|Nb].
  { rewrite add_scan_empty in H. unfold IPRadixTree.add_finish in H.
    cbn [is_empty negb] in H. apply (install_same_elsewhere _ _ _ _ _ W H). }
  rewrite add_scan_find in H by assumption.
  pose proof (radix_wf_nodup _ W) as N.
  destruct (find (shares bits) (IPRadixTree.nodes_of items)) as [[k child]|] eqn:F.
  - apply find_some in F. destruct F as [Hin S].
    apply nodes_of_In in Hin. destruct Hin as [Hin Nk]. apply shares_true in S.
    pose proof (In_dget _ _ _ N Hin) as G.
    destruct (radix_wf_edge _ _ _ W G Nk) as (Ne & Bk & Wc).
    cbv zeta in H.
    destruct (String.eqb_spec (bits_in_common k bits) k) as [E|NE].
    + destruct child as [citems|]; [|discriminate Wc]. cbn [as_dict bind] in H.
      apply bind_ok in H. destruct H as ([citems' c'] & Ew & H). injection H as <- <-.
      rewrite E in Ew.
      assert (Eb : bits = (k ++ drop (String.length k) bits)%string).
      { apply prefix_of_split. unfold prefix_of. rewrite E. apply String.eqb_refl. }
      assert (Hc : (height (Dict citems) <= fuel)%nat)
        by (pose proof (height_child _ _ _ Hin); lia).
      assert (Bd : is_bits (drop (String.length k) bits) = true)
        by now apply is_bits_drop.
      destruct (radix_add_walk_added fuel citems _ route counter Wc Bd Hc)
        as (citems2 & c2 & Ew2 & Wc' & _).
      rewrite Ew in Ew2. injection Ew2 as <- <-.
      rewrite Eb at 1.
      apply (same_elsewhere_edge items k (Dict citems) (Dict citems') _ W).
      * apply radix_wf_dset_edge; auto.
        intros k' ch' G' Nk' Nkk.
        apply (radix_wf_disjoint items k (Dict citems) k' ch'); auto.
      * exact Nk.
      * now left.
      * apply (IH _ _ _ _ _ _ Wc Bd Hc Ew).
    + destruct (add_split items k child bits route counter W B G Nk S NE)
        as (split2 & c2 & Fs2 & W' & _).
      apply bind_ok in H. destruct H as ([split c'] & Fs & H). injection H as <- <-.
      rewrite Fs in Fs2. injection Fs2 as <- <-.
      set (c0 := bits_in_common k bits) in *.
      set (rem := drop (String.length c0) k) in *.
      assert (Bc : is_bits c0 = true) by now apply is_bits_common.
      assert (Ncs : c0 <> "*"%string)
        by (apply String.eqb_neq; now apply is_bits_not_star).
      assert (Br : is_bits rem = true) by now apply is_bits_drop.
      assert (Nrs : String.eqb rem "*" = false) by now apply is_bits_not_star.
      assert (Nr : rem <> EmptyString).
      { intros E. pose proof (common_split_l k bits) as Ek. fold c0 in Ek.
        fold rem in Ek. rewrite E, append_empty_r in Ek. congruence. }
      assert (Wm : radix_wf (Dict [(rem, child)]) = true).
      { cbn. rewrite Nrs. cbn. rewrite Br, Wc.
        apply is_empty_false in Nr. now rewrite Nr. }
      assert (G0 : dget c0 (ddel k items) = None).
      { destruct (dget c0 (ddel k items)) as [x|] eqn:G0; [|reflexivity]. exfalso.
        rewrite dget_ddel_other in G0 by congruence.
        assert (D : bits_in_common c0 k = EmptyString)
          by (apply (radix_wf_disjoint items c0 x k child); auto).
        pose proof (common_split_l k bits) as Ek. fold c0 in Ek. rewrite Ek in D.
        rewrite <- (append_empty_r c0) in D at 1. rewrite common_append in D.
        now apply append_nonempty in D. }
      rewrite (common_split_r k bits) at 1. fold c0.
      apply (same_elsewhere_split items k child c0 rem _ split W W' G Nk Ncs);
        [now apply String.eqb_neq | apply (common_split_l k bits) | congruence
        | exact G0 |].
      refine (add_finish_same_elsewhere _ _ _ _ _ _ Wm (is_bits_drop _ _ B) _ Fs).
      intros k1 c1 G1 _. cbn in G1.
      destruct (String.eqb_spec rem k1) as [<-|]; [|discriminate].
      apply common_rest.
  - refine (add_finish_same_elsewhere _ _ _ _ _ _ W B _ H).
    intros k child G Nk.
    destruct (String.eqb_spec (bits_in_common k bits) EmptyString) as [E|NE];
      [assumption|]. exfalso.
    pose proof (proj2 (shares_true bits k child) NE) as S.
    rewrite (find_none _ _ F (k, child)) in S; [discriminate|].
    apply nodes_of_In. split; [apply dget_In, G | assumption].
Qed.

Lemma replaced_of_added : forall route bits before counter after counter',
    radix_wf before = true -> radix_wf after = true ->
    added route bits before counter after counter' ->
    same_elsewhere bits before after ->
    replaced bits
             (if route_in route (bucket_at before bits)
              then bucket_at before bits else bucket_at before bits ++ [route])
             before after.
Proof.
  intros route bits before counter after counter' W W' A S.
  pose proof (added_then_in _ _ _ _ _ _ A) as In'.
  assert (Eb : bucket_at after bits
               = if route_in route (bucket_at before bits)
                 then bucket_at before bits else bucket_at before bits ++ [route]).
  { destruct A as [A1 A2]. destruct (route_in route (bucket_at before bits)).
    - now destruct (A1 eq_refl) as [-> _].
    - now destruct (A2 eq_refl) as [_ ->]. }
  rewrite <- Eb. split; [exact S|]. intros routes. split.
  - intros Hin. rewrite (bucket_at_In _ _ _ W' Hin) in *.
    split; [reflexivity | now apply (route_in_nonempty route)].
  - intros [-> Ne]. now apply bucket_at_stored.
Qed.

Lemma add_one_list :
  add_changes_one_list PrefixTree prefix_wf
  /\ add_changes_one_list RadixTree radix_wf.
Proof.
  split; intros t t' prefix attrs W H; cbv zeta;
    pose proof (bits_in_prefix_is_bits prefix) as B.
  - destruct (prefix_add_idempotent t prefix attrs W) as (t0 & E & W' & _ & A).
    rewrite H in E. injection E as <-.
    apply (replaced_of_added _ _ _ _ _ _ (prefix_wf_radix_wf _ W)
             (prefix_wf_radix_wf _ W') A).
    simpl in H. unfold IPPrefixTree.add in H. apply sanitize_ok in H.
    apply bind_ok in H. destruct H as ([root' c'] & Ew & H). injection H as <-.
    apply (prefix_add_walk_same_elsewhere _ _ _ _ _ _ W B Ew).
  - destruct (radix_add_idempotent t prefix attrs W) as (t0 & E & W' & _ & A).
    rewrite H in E. injection E as <-.
    apply (replaced_of_added _ _ _ _ _ _ W W' A).
    simpl in H. unfold IPRadixTree.add in H. apply sanitize_ok in H.
    destruct (radix_wf_dict _ W) as [items Er]. rewrite Er in *.
    cbn [as_dict bind] in H.
    apply bind_ok in H. destruct H as ([root' c'] & Ew & H). injection H as <-.
    cbn [_root]. apply (radix_add_walk_same_elsewhere _ _ _ _ _ _ _ W B) in Ew;
      [exact Ew | unfold IPRadixTree.fuel_of; lia].
Qed.

(** On a well-formed table of either tree, [add] changes the list stored
    under the bits of its prefix and nothing else: every other list is stored
    as before, under the same bits, and the list of the prefix gains the route
    at its end when it does not hold an equal one. *)
Theorem add_changes_only_its_list :
  add_changes_one_list PrefixTree prefix_wf
  /\ add_changes_one_list RadixTree radix_wf.
Proof. exact add_one_list. Qed.

Lemma add_changes_only_its_list_witness :
  let tp := fst (run PrefixTree sample_calls) in
  let tr := fst (run RadixTree sample_calls) in
  let p := net4 10 64 0 0 10 in
  (exists t', add PrefixTree tp p (dev "c") = Ok t'
              /\ replaced (bits_in_prefix p) [mkRoute p (dev "c")] (_root tp) (_root t'))
  /\ (exists t', add RadixTree tr p (dev "c") = Ok t'
                 /\ replaced (bits_in_prefix p) [mkRoute p (dev "c")]
                             (_root tr) (_root t')).
Proof.
  split; eexists; (split; [vm_compute; reflexivity|]).
  - refine (proj1 add_changes_only_its_list (fst (run PrefixTree sample_calls)) _
              (net4 10 64 0 0 10) (dev "c") _ _); vm_compute; reflexivity.
  - refine (proj2 add_changes_only_its_list (fst (run RadixTree sample_calls)) _
              (net4 10 64 0 0 10) (dev "c") _ _); vm_compute; reflexivity.
Defined.

(** ** [IPPrefixTree.show] with a prefix *)

Lemma routes_below_dict : forall items bits,
    routes_below (Dict items) bits
    = flat_map (fun kv => routes_below (Dict [kv]) bits) items.
Proof.
  intros items bits. unfold routes_below. cbn [stored].
  induction items as [|kv items IH]; [reflexivity|].
  cbn [flat_map]. rewrite !app_nil_r, filter_app, map_app, concat_app.
  now rewrite IH.
Qed.

Lemma routes_below_all : forall o, routes_below o "" = routes_of o.
Proof.
  intros o. unfold routes_below, routes_of. f_equal. f_equal.
  induction (stored o) as [|e l IH]; [reflexivity|].
  cbn [filter]. rewrite prefix_of_empty. now f_equal.
Qed.

Lemma routes_below_star : forall v bits,
    bits <> EmptyString -> routes_below (Dict [("*"%string, v)]) bits = [].
Proof.
  intros v bits N. unfold routes_below.
  change (stored (Dict [("*"%string, v)]))
    with (match v with Dict _ => [] | PList routes => [(EmptyString, routes)] end
          ++ []).
  destruct v as [|routes]; [reflexivity|].
  cbn [app filter fst]. now rewrite prefix_of_nonempty_empty.
Qed.

Lemma routes_below_edge : forall k c rest,
    k <> "*"%string ->
    routes_below (Dict [(k, c)]) (k ++ rest) = routes_below c rest.
Proof.
  intros k c rest N. unfold routes_below.
  rewrite stored_single_edge by assumption. f_equal.
  induction (stored c) as [|e l IH]; [reflexivity|].
  cbn [map filter fst snd]. rewrite append_prefix_cancel.
  destruct (prefix_of rest (fst e)); cbn [map snd]; now rewrite IH.
Qed.

Lemma routes_below_other : forall k c bits,
    k <> "*"%string -> k <> EmptyString ->
    bits_in_common bits k = EmptyString -> bits <> EmptyString ->
    routes_below (Dict [(k, c)]) bits = [].
Proof.
  intros k c bits N Nk D Nb. unfold routes_below.
  rewrite stored_single_edge by assumption.
  induction (stored c) as [|e l IH]; [reflexivity|].
  cbn [map filter fst snd].
  replace (prefix_of bits (k ++ fst e)) with false; [exact IH|].
  symmetry. apply common_empty_prefix; [assumption|].
  destruct bits as [|b bits]; [congruence|]. destruct k as [|a k]; [congruence|].
  cbn [bits_in_common append] in *. destruct (Ascii.eqb b a); [discriminate D|].
  reflexivity.
Qed.

Lemma flat_map_single : forall (B : Type) (g : string * obj -> list B)
                               (items : dict obj) k v,
    nodup_keys items = true -> dget k items = Some v ->
    (forall k' v', In (k', v') items -> k' <> k -> g (k', v') = []) ->
    flat_map g items = g (k, v).
Proof.
  intros B g items k v. induction items as [|[k0 v0] items IH]; [discriminate|].
  cbn [nodup_keys dget flat_map]. intros N G O.
  apply andb_prop in N. destruct N as [N0 N].
  destruct (String.eqb_spec k0 k) as [->|Nk].
  - injection G as ->. rewrite <- (app_nil_r (g (k, v))) at 2. f_equal.
    apply negb_true_iff, dmem_dget in N0.
    clear IH. induction items as [|[k1 v1] items IH]; [reflexivity|].
    cbn [flat_map]. cbn [dget] in N0. cbn [nodup_keys] in N.
    apply andb_prop in N. destruct N as [_ N].
    destruct (String.eqb_spec k1 k) as [->|N1]; [discriminate N0|].
    rewrite (O k1 v1) by (cbn; auto). cbn [app].
    apply IH; [assumption | assumption |].
    intros k' v' Hin. apply O. cbn in *. tauto.
  - rewrite (O k0 v0) by (cbn; auto). cbn [app].
    apply IH; [assumption | assumption |].
    intros k' v' Hin. apply O. cbn. auto.
Qed.

Lemma flat_map_none : forall (A B : Type) (g : A -> list B) (l : list A),
    (forall x, In x l -> g x = []) -> flat_map g l = [].
Proof.
  intros A B g l H. induction l as [|x l IH]; [reflexivity|].
  cbn [flat_map]. rewrite (H x) by (cbn; auto). apply IH.
  intros y Hy. apply H. cbn. auto.
Qed.

Lemma common_append_empty : forall k k' rest,
    k <> EmptyString -> bits_in_common k k' = EmptyString ->
    bits_in_common (k ++ rest) k' = EmptyString.
Proof.
  intros [|a k] [|b k'] rest N D; try congruence; try reflexivity.
  cbn [bits_in_common append] in *. destruct (Ascii.eqb a b); [discriminate D|].
  reflexivity.
Qed.

Lemma routes_below_descend : forall items k child rest,
    radix_wf (Dict items) = true -> dget k items = Some child -> k <> "*"%string ->
    routes_below (Dict items) (k ++ rest) = routes_below child rest.
Proof.
  intros items k child rest W G Nk.
  destruct (radix_wf_edge _ _ _ W G Nk) as (Ne & _ & _).
  rewrite routes_below_dict.
  rewrite (flat_map_single _ _ items k child (radix_wf_nodup _ W) G).
  - now apply routes_below_edge.
  - intros k' v' Hin Nkk.
    pose proof (In_dget _ _ _ (radix_wf_nodup _ W) Hin) as G'.
    destruct (String.eqb_spec k' "*") as [->|Ns].
    + apply routes_below_star. now apply append_nonempty.
    + destruct (radix_wf_edge _ _ _ W G' Ns) as (Ne' & _ & _).
      apply routes_below_other; auto using append_nonempty.
      apply common_append_empty; [assumption|].
      apply (radix_wf_disjoint items k child k' v'); auto.
Qed.

Lemma routes_below_no_edge : forall items bits,
    radix_wf (Dict items) = true -> bits <> EmptyString ->
    (forall k child, dget k items = Some child -> k <> "*"%string ->
                     bits_in_common bits k = EmptyString) ->
    routes_below (Dict items) bits = [].
Proof.
  intros items bits W Nb D. rewrite routes_below_dict. apply flat_map_none.
  intros [k v] Hin.
  pose proof (In_dget _ _ _ (radix_wf_nodup _ W) Hin) as G.
  destruct (String.eqb_spec k "*") as [->|Ns].
  - now apply routes_below_star.
  - destruct (radix_wf_edge _ _ _ W G Ns) as (Ne & _ & _).
    apply routes_below_other; eauto.
Qed.

(** The walk of [IPPrefixTree.show] stops at the node of [bits], whose list
    is the one stored under [bits] and whose routes are those at and below
    [bits]; it gives up when no node is there, and nothing is stored at or
    below [bits] then. *)
Lemma prefix_show_walk_result : forall bits items,
    prefix_wf (Dict items) = true -> is_bits bits = true ->
    match IPPrefixTree.show_walk bits items with
    | Ok None =>
        routes_below (Dict items) bits = [] /\ bucket_at (Dict items) bits = []
    | Ok (Some pointer) =>
        prefix_wf (Dict pointer) = true
        /\ routes_of (Dict pointer) = routes_below (Dict items) bits
        /\ bucket_at (Dict pointer) "" = bucket_at (Dict items) bits
    | Raise _ => False
    end.
Proof.
  induction bits as [|c bits IH]; intros items W B.
  - cbn [IPPrefixTree.show_walk]. now rewrite routes_below_all.
  - simpl in B. apply andb_prop in B. destruct B as [Bc B].
    destruct (bit_of_char _ Bc) as [Bb Ns].
    pose proof (prefix_wf_radix_wf _ W) as RW.
    cbn [IPPrefixTree.show_walk]. cbv zeta.
    set (bit := String c EmptyString) in *.
    change (String c bits) with (bit ++ bits)%string.
    destruct (dget bit items) as [child|] eqn:G.
    + pose proof (prefix_wf_child _ _ _ W G Ns) as Wc.
      destruct (prefix_wf_dict _ Wc) as [citems ->]. cbn [as_dict bind].
      rewrite (routes_below_descend _ _ _ _ RW G Ns).
      rewrite (bucket_at_edge _ _ _ _ RW G Ns).
      apply (IH citems Wc B).
    + assert (D : forall k child, dget k items = Some child -> k <> "*"%string ->
                                  bits_in_common (bit ++ bits) k = EmptyString).
      { intros k child Gk Nk.
        pose proof (prefix_wf_bit _ _ _ W Gk Nk) as Bk.
        assert (Nkb : k <> bit) by congruence.
        destruct (is_bit_chars _ Bk) as [->| ->];
          destruct (is_bit_chars _ Bb) as [E|E]; rewrite E in *;
          try congruence; reflexivity. }
      split.
      * apply routes_below_no_edge; auto. discriminate.
      * apply bucket_at_no_edge; [assumption | discriminate |].
        intros k child Gk Nk. apply bit_prefix_of.
        -- apply (prefix_wf_bit _ _ _ W Gk Nk).
        -- intros ->. unfold bit in G. congruence.
Qed.

Lemma get_star_bucket : forall items,
    radix_wf (Dict items) = true ->
    get_star items (PList []) = PList (bucket_at (Dict items) "").
Proof.
  intros items W. rewrite (bucket_at_here _ W). unfold get_star.
  destruct (dget "*" items) as [held|] eqn:G; [|reflexivity].
  now destruct (radix_wf_routes _ _ W G) as [routes ->].
Qed.

(** On a well-formed prefix tree, [show(prefix)] is an exact match: it
    returns the routes with all [attrs] of the list stored under the bits of
    [prefix], none when nothing is stored there; with [as_root] it returns
    the sort of the routes with all [attrs] stored at and below those bits;
    [as_root] without a prefix raises [TypeError]. *)
Theorem prefix_tree_show_prefix :
  forall (t : table) (prefix : network) (attrs : kwargs),
    prefix_wf (_root t) = true ->
    show PrefixTree t (Some prefix) false attrs
    = Ok (objs_with_all_attrs (bucket_at (_root t) (bits_in_prefix prefix)) attrs)
    /\ (exists c,
           Permutation c (objs_with_all_attrs
                            (routes_below (_root t) (bits_in_prefix prefix)) attrs)
           /\ show PrefixTree t (Some prefix) true attrs = _sort c)
    /\ show PrefixTree t None true attrs = Raise TypeError.
Proof.
  intros t prefix attrs W. destruct (prefix_wf_dict _ W) as [items E].
  simpl. unfold IPPrefixTree.show. rewrite E in *. cbn [as_dict bind].
  pose proof (prefix_show_walk_result _ items W (bits_in_prefix_is_bits prefix)) as R.
  destruct (IPPrefixTree.show_walk (bits_in_prefix prefix) items)
    as [[pointer|]|e]; [| |destruct R]; cbn [bind negb].
  - destruct R as (Wp & Rb & Bk). apply prefix_wf_radix_wf in Wp.
    rewrite (get_star_bucket _ Wp), Bk. cbn [as_list bind].
    split; [reflexivity|]. split; [|reflexivity].
    destruct (traverse_yields (Dict pointer) attrs Wp) as (l & El & P).
    exists l. rewrite El, <- Rb. cbn [bind]. auto.
  - destruct R as [Rb Bk]. rewrite Rb, Bk.
    split; [reflexivity|]. split; [|reflexivity].
    exists []. split; [constructor | reflexivity].
Qed.

Lemma prefix_tree_show_prefix_witness :
  let t := fst (run PrefixTree sample_calls) in
  let p := net4 10 0 0 0 8 in
  show PrefixTree t (Some p) false (dev "a")
  = Ok (objs_with_all_attrs (bucket_at (_root t) (bits_in_prefix p)) (dev "a"))
  /\ (exists c,
         Permutation c (objs_with_all_attrs (routes_below (_root t) (bits_in_prefix p))
                                            (dev "a"))
         /\ show PrefixTree t (Some p) true (dev "a") = _sort c)
  /\ show PrefixTree t None true (dev "a") = Raise TypeError.
Proof.
  apply (prefix_tree_show_prefix (fst (run PrefixTree sample_calls))
           (net4 10 0 0 0 8) (dev "a")).
  vm_compute. reflexivity.
Defined.

(** ** The routes of a part of a tree *)

Lemma routes_at_ext : forall sel sel' o,
    (forall s, sel s = sel' s) -> routes_at sel o = routes_at sel' o.
Proof.
  intros sel sel' o H. unfold routes_at. f_equal. f_equal.
  apply filter_ext. intros e. apply H.
Qed.

Lemma routes_at_dict : forall sel items,
    routes_at sel (Dict items)
    = flat_map (fun kv => routes_at sel (Dict [kv])) items.
Proof.
  intros sel items. unfold routes_at. cbn [stored].
  induction items as [|kv items IH]; [reflexivity|].
  cbn [flat_map]. rewrite !app_nil_r, filter_app, map_app, concat_app.
  now rewrite IH.
Qed.

Lemma routes_at_star : forall sel routes,
    routes_at sel (Dict [("*"%string, PList routes)])
    = if sel EmptyString then routes else [].
Proof.
  intros sel routes. unfold routes_at.
  change (stored (Dict [("*"%string, PList routes)]))
    with ([(EmptyString, routes)] ++ []).
  cbn [app filter fst]. destruct (sel ""); [apply app_nil_r | reflexivity].
Qed.

Lemma routes_at_edge : forall sel k c,
    k <> "*"%string ->
    routes_at sel (Dict [(k, c)]) = routes_at (fun s => sel (k ++ s)%string) c.
Proof.
  intros sel k c N. unfold routes_at.
  rewrite stored_single_edge by assumption. f_equal.
  induction (stored c) as [|e l IH]; [reflexivity|].
  cbn [map filter fst snd].
  destruct (sel (k ++ fst e)%string); cbn [map snd]; now rewrite IH.
Qed.

Lemma routes_at_none : forall sel o,
    (forall s, sel s = false) -> routes_at sel o = [].
Proof.
  intros sel o H. unfold routes_at.
  induction (stored o) as [|e l IH]; [reflexivity|].
  cbn [filter]. now rewrite H.
Qed.

Lemma routes_at_all : forall sel o,
    (forall s, sel s = true) -> routes_at sel o = routes_of o.
Proof.
  intros sel o H. unfold routes_at, routes_of. f_equal. f_equal.
  induction (stored o) as [|e l IH]; [reflexivity|].
  cbn [filter]. rewrite H. now f_equal.
Qed.

(** The selected routes of a node: those of its own list, and those below
    each edge. *)
Lemma routes_at_node : forall sel items,
    radix_wf (Dict items) = true ->
    Permutation
      (routes_at sel (Dict items))
      ((if sel EmptyString then bucket_at (Dict items) "" else [])
       ++ flat_map (fun kv => routes_at (fun s => sel (fst kv ++ s)%string) (snd kv))
                   (new_dict_without_key "*" items)).
Proof.
  intros sel items W. rewrite routes_at_dict, (bucket_at_here _ W).
  apply radix_wf_parts in W. destruct W as (N & _ & F). clear - N F.
  induction items as [|[k v] items IH]; [destruct (sel ""); constructor|].
  cbn [flat_map new_dict_without_key filter fst snd dget nodup_keys forallb] in *.
  apply andb_prop in N. destruct N as [N0 N].
  apply andb_prop in F. destruct F as [F0 F].
  specialize (IH N F). fold (new_dict_without_key "*" items) in *.
  destruct (String.eqb_spec k "*") as [->|Ns]; cbn [negb].
  - apply negb_true_iff, dmem_dget in N0. rewrite N0 in IH.
    destruct v as [|routes]; [discriminate F0|]. rewrite routes_at_star.
    destruct (sel ""); cbn [app] in *; [now apply Permutation_app_head | exact IH].
  - cbn [flat_map fst snd]. rewrite routes_at_edge by assumption.
    eapply Permutation_trans; [apply Permutation_app_head, IH|].
    apply Permutation_app_swap_app.
Qed.

Lemma routes_at_descend : forall sel items k child,
    radix_wf (Dict items) = true -> dget k items = Some child -> k <> "*"%string ->
    (forall k' c', dget k' items = Some c' -> k' <> "*"%string -> k' <> k ->
                   forall s, sel (k' ++ s)%string = false) ->
    Permutation (routes_at sel (Dict items))
                ((if sel EmptyString then bucket_at (Dict items) "" else [])
                 ++ routes_at (fun s => sel (k ++ s)%string) child).
Proof.
  intros sel items k child W G Nk O.
  eapply Permutation_trans; [apply (routes_at_node sel items W)|].
  pose proof (radix_wf_nodup _ W) as N.
  rewrite (flat_map_single _ _ (new_dict_without_key "*" items) k child);
    [reflexivity | now apply nodup_keys_without | now rewrite dget_without |].
  intros k' v' Hin Nkk. apply without_In in Hin. destruct Hin as [Hin Ns].
  apply routes_at_none. cbn [fst]. apply (O k' v'); auto using In_dget.
Qed.

Lemma routes_at_no_edge : forall sel items,
    radix_wf (Dict items) = true ->
    (forall k' c', dget k' items = Some c' -> k' <> "*"%string ->
                   forall s, sel (k' ++ s)%string = false) ->
    Permutation (routes_at sel (Dict items))
                (if sel EmptyString then bucket_at (Dict items) "" else []).
Proof.
  intros sel items W O.
  eapply Permutation_trans; [apply (routes_at_node sel items W)|].
  pose proof (radix_wf_nodup _ W) as N.
  rewrite flat_map_none; [now rewrite app_nil_r|].
  intros [k' v'] Hin. apply without_In in Hin. destruct Hin as [Hin Ns].
  apply routes_at_none. cbn [fst]. apply (O k' v'); auto using In_dget.
Qed.

(** Along the edge [k], which begins [k ++ rest], the routes on the path to
    [k ++ rest] are the list of the node and the routes on the path to [rest]
    in the child. *)
Lemma routes_on_path_descend : forall items k child rest,
    radix_wf (Dict items) = true -> dget k items = Some child -> k <> "*"%string ->
    Permutation (routes_on_path (Dict items) (k ++ rest))
                (bucket_at (Dict items) "" ++ routes_on_path child rest).
Proof.
  intros items k child rest W G Nk. unfold routes_on_path.
  destruct (radix_wf_edge _ _ _ W G Nk) as (Ne & _ & _).
  eapply Permutation_trans.
  - apply (routes_at_descend _ items k child W G Nk).
    intros k' c' G' Ns' Nkk s. apply prefix_of_false_append.
    destruct (radix_wf_edge _ _ _ W G' Ns') as (Ne' & _ & _).
    destruct (prefix_of k' (k ++ rest)) eqn:P; [exfalso|reflexivity].
    apply Nkk. apply (radix_wf_one_edge items k' c' k child (k ++ rest) W); auto.
    + now apply prefix_of_nonempty_common.
    + apply prefix_of_nonempty_common; [assumption | apply prefix_of_append].
  - cbv beta. rewrite prefix_of_empty. apply Permutation_app_head.
    rewrite (routes_at_ext _ (fun path => prefix_of path rest)); [reflexivity|].
    intros s. apply append_prefix_cancel.
Qed.

Lemma routes_on_path_stop : forall items bits,
    radix_wf (Dict items) = true ->
    (forall k' c', dget k' items = Some c' -> k' <> "*"%string ->
                   prefix_of k' bits = false) ->
    Permutation (routes_on_path (Dict items) bits) (bucket_at (Dict items) "").
Proof.
  intros items bits W O. unfold routes_on_path.
  eapply Permutation_trans.
  - apply (routes_at_no_edge _ items W).
    intros k' c' G' Ns' s. apply prefix_of_false_append. now apply (O k' c').
  - cbv beta. now rewrite prefix_of_empty.
Qed.

(** ** [match]: the routes on the path *)

Lemma edge_not_prefix_of_empty : forall items k c,
    radix_wf (Dict items) = true -> dget k items = Some c -> k <> "*"%string ->
    prefix_of k "" = false.
Proof.
  intros items k c W G Nk. destruct (radix_wf_edge _ _ _ W G Nk) as (Ne & _).
  now apply prefix_of_nonempty_empty.
Qed.

Lemma star_routes : forall items,
    radix_wf (Dict items) = true ->
    match dget "*" items with
    | Some held => held = PList (bucket_at (Dict items) "")
    | None => bucket_at (Dict items) "" = []
    end.
Proof.
  intros items W. rewrite (bucket_at_here _ W).
  destruct (dget "*" items) as [held|] eqn:G; [|reflexivity].
  now destruct (radix_wf_routes _ _ W G) as [routes ->].
Qed.

Lemma prefix_match_walk_result : forall bits items acc,
    prefix_wf (Dict items) = true -> is_bits bits = true ->
    exists m,
      IPPrefixTree.match_walk bits items acc = Ok (acc ++ m)
      /\ Permutation (bucket_at (Dict items) "" ++ m)
                     (routes_on_path (Dict items) bits).
Proof.
  induction bits as [|c bits IH]; intros items acc W B;
    pose proof (prefix_wf_radix_wf _ W) as RW.
  - exists []. cbn [IPPrefixTree.match_walk]. rewrite !app_nil_r.
    split; [reflexivity|]. symmetry. apply (routes_on_path_stop _ _ RW).
    intros k' c' G Nk. apply (edge_not_prefix_of_empty _ _ _ RW G Nk).
  - simpl in B. apply andb_prop in B. destruct B as [Bc B].
    destruct (bit_of_char _ Bc) as [Bb Ns].
    cbn [IPPrefixTree.match_walk]. cbv zeta.
    set (bit := String c EmptyString) in *.
    change (String c bits) with (bit ++ bits)%string.
    destruct (dget bit items) as [child|] eqn:G.
    + pose proof (prefix_wf_child _ _ _ W G Ns) as Wc.
      destruct (prefix_wf_dict _ Wc) as [citems ->]. cbn [as_dict bind].
      pose proof (star_routes citems (prefix_wf_radix_wf _ Wc)) as St.
      pose proof (routes_on_path_descend _ _ _ bits RW G Ns) as P.
      destruct (dget "*" citems) as [held|].
      * subst held. cbn [as_list bind].
        destruct (IH citems (acc ++ bucket_at (Dict citems) "") Wc B) as (m & E & Pm).
        exists (bucket_at (Dict citems) "" ++ m). rewrite E, app_assoc.
        split; [reflexivity|]. symmetry. eapply Permutation_trans; [exact P|].
        apply Permutation_app_head. now symmetry.
      * destruct (IH citems acc Wc B) as (m & E & Pm). rewrite St in Pm.
        exists m. split; [exact E|]. symmetry. eapply Permutation_trans; [exact P|].
        apply Permutation_app_head. now symmetry.
    + exists []. rewrite !app_nil_r. split; [reflexivity|]. symmetry.
      apply (routes_on_path_stop _ _ RW). intros k' c' Gk Nk. apply bit_prefix_of.
      * apply (prefix_wf_bit _ _ _ W Gk Nk).
      * intros ->. unfold bit in G. congruence.
Qed.

Lemma match_scan_empty : forall D nodes matches,
    IPRadixTree.match_scan D nodes matches "" = Ok matches.
Proof. intros D [|[k c] nodes] matches; reflexivity. Qed.

(** The scan of [match] stops at the first entry of [nodes] whose bits begin
    [prefix_bits]. *)
Lemma match_scan_find : forall D nodes matches bits,
    bits <> EmptyString ->
    IPRadixTree.match_scan D nodes matches bits
    = match find (fun e => prefix_of (fst e) bits) nodes with
      | None => Ok matches
      | Some (node_bits, children) =>
          let rest := drop (String.length (bits_in_common node_bits bits)) bits in
          items <- as_dict children ;;
          match dget "*" items with
          | None => D items matches rest
          | Some held => routes <- as_list held ;; D items (matches ++ routes) rest
          end
      end.
Proof.
  intros D nodes matches bits N. apply is_empty_false in N.
  induction nodes as [|[k c] nodes IH]; [reflexivity|].
  cbn [IPRadixTree.match_scan find fst]. rewrite N. unfold prefix_of at 1.
  destruct (String.eqb (bits_in_common k bits) k); [reflexivity | apply IH].
Qed.

Lemma radix_match_walk_result : forall fuel items bits acc,
    radix_wf (Dict items) = true -> (height (Dict items) <= fuel)%nat ->
    exists m,
      IPRadixTree.match_walk fuel items acc bits = Ok (acc ++ m)
      /\ Permutation (bucket_at (Dict items) "" ++ m)
                     (routes_on_path (Dict items) bits).
Proof.
  induction fuel as [|fuel IH]; intros items bits acc W Hh; [simpl in Hh; lia|].
  cbn [IPRadixTree.match_walk]. pose proof (radix_wf_nodup _ W) as N.
  destruct (String.eqb_spec bits EmptyString) as [->|Nb].
  { rewrite match_scan_empty. exists []. rewrite !app_nil_r.
    split; [reflexivity|]. symmetry. apply (routes_on_path_stop _ _ W).
    intros k' c' G Nk. apply (edge_not_prefix_of_empty _ _ _ W G Nk). }
  rewrite match_scan_find by assumption.
  destruct (find (fun e => prefix_of (fst e) bits) (IPRadixTree.nodes_of items))
    as [[k child]|] eqn:F.
  - apply find_some in F. destruct F as [Hin P]. simpl in P.
    apply nodes_of_In in Hin. destruct Hin as [Hin Nk].
    pose proof (In_dget _ _ _ N Hin) as G.
    destruct (radix_wf_edge _ _ _ W G Nk) as (Ne & _ & Wc).
    destruct (radix_wf_dict _ Wc) as [citems ->]. cbv zeta. cbn [as_dict bind].
    assert (Ec : bits_in_common k bits = k)
      by (unfold prefix_of in P; now apply String.eqb_eq in P).
    rewrite Ec.
    assert (Hc : (height (Dict citems) <= fuel)%nat)
      by (pose proof (height_child _ _ _ Hin); lia).
    pose proof (star_routes citems Wc) as St.
    pose proof (routes_on_path_descend _ _ _ (drop (String.length k) bits) W G Nk)
      as Pd.
    rewrite <- (prefix_of_split _ _ P) in Pd.
    destruct (dget "*" citems) as [held|].
    + subst held. cbn [as_list bind].
      destruct (IH citems (drop (String.length k) bits)
                   (acc ++ bucket_at (Dict citems) "") Wc Hc) as (m & E & Pm).
      exists (bucket_at (Dict citems) "" ++ m). rewrite E, app_assoc.
      split; [reflexivity|]. symmetry. eapply Permutation_trans; [exact Pd|].
      apply Permutation_app_head. now symmetry.
    + destruct (IH citems (drop (String.length k) bits) acc Wc Hc) as (m & E & Pm).
      rewrite St in Pm.
      exists m. split; [exact E|]. symmetry. eapply Permutation_trans; [exact Pd|].
      apply Permutation_app_head. now symmetry.
  - exists []. rewrite !app_nil_r. split; [reflexivity|]. symmetry.
    apply (routes_on_path_stop _ _ W). intros k' c' Gk Nk.
    apply (find_none _ _ F (k', c')).
    apply nodes_of_In. split; [apply dget_In, Gk | assumption].
Qed.

Lemma sanitize_sort : forall l, sanitize (_sort l) = _sort l.
Proof.
  intros l. unfold _sort. destruct (sorted l) as [l'|e] eqn:E; [reflexivity|].
  now rewrite (sorted_raises _ _ E).
Qed.

Lemma prefix_match_collects : match_collects_path PrefixTree prefix_wf.
Proof.
  intros t prefix attrs W. destruct (prefix_wf_dict _ W) as [items E].
  simpl. unfold IPPrefixTree.match_. rewrite E in *. cbn [as_dict bind].
  rewrite (get_star_bucket _ (prefix_wf_radix_wf _ W)). cbn [as_list bind].
  destruct (prefix_match_walk_result (bits_in_prefix prefix) items
              (bucket_at (Dict items) "") W (bits_in_prefix_is_bits prefix))
    as (m & Em & P).
  rewrite Em. cbn [bind]. rewrite sanitize_sort. eauto.
Qed.

Lemma radix_match_collects : match_collects_path RadixTree radix_wf.
Proof.
  intros t prefix attrs W. destruct (radix_wf_dict _ W) as [items E].
  simpl. unfold IPRadixTree.match_. rewrite E in *. cbn [as_dict bind].
  rewrite (get_star_bucket _ W). cbn [as_list bind].
  destruct (radix_match_walk_result (IPRadixTree.fuel_of (Dict items)) items
              (bits_in_prefix prefix) (bucket_at (Dict items) "") W)
    as (m & Em & P); [unfold IPRadixTree.fuel_of; lia|].
  rewrite Em. cbn [bind]. rewrite sanitize_sort. eauto.
Qed.

(** On a well-formed table of either tree, [match(prefix, attrs)] returns the
    sort of the routes with all [attrs] among the routes of the stored
    prefixes that cover [prefix], [prefix] itself included: those stored under
    bits that begin the bits of [prefix]. *)
Theorem match_returns_covering_routes :
  match_collects_path PrefixTree prefix_wf
  /\ match_collects_path RadixTree radix_wf.
Proof. split; [apply prefix_match_collects | apply radix_match_collects]. Qed.

Lemma match_returns_covering_routes_witness :
  let tp := fst (run PrefixTree sample_calls) in
  let tr := fst (run RadixTree sample_calls) in
  let p := net4 10 1 2 0 24 in
  (exists matches,
      Permutation matches (routes_on_path (_root tp) (bits_in_prefix p))
      /\ match_ PrefixTree tp p (dev "b") = _sort (objs_with_all_attrs matches (dev "b")))
  /\ (exists matches,
         Permutation matches (routes_on_path (_root tr) (bits_in_prefix p))
         /\ match_ RadixTree tr p (dev "b")
            = _sort (objs_with_all_attrs matches (dev "b"))).
Proof.
  split.
  - apply (proj1 match_returns_covering_routes (fst (run PrefixTree sample_calls))).
    vm_compute. reflexivity.
  - apply (proj2 match_returns_covering_routes (fst (run RadixTree sample_calls))).
    vm_compute. reflexivity.
Defined.

(** ** The node of given bits *)

Lemma common_append_both : forall k k' a b,
    k <> EmptyString -> k' <> EmptyString -> bits_in_common k k' = EmptyString ->
    bits_in_common (k ++ a) (k' ++ b) = EmptyString.
Proof.
  intros [|x k] [|y k'] a b N N' D; try congruence.
  cbn [bits_in_common append] in *. destruct (Ascii.eqb x y); [discriminate D|].
  reflexivity.
Qed.

Lemma eqb_append_cancel : forall k a b : string,
    String.eqb (k ++ a) (k ++ b) = String.eqb a b.
Proof.
  induction k as [|c k IH]; intros a b; [reflexivity|].
  cbn [append String.eqb]. now rewrite Ascii.eqb_refl.
Qed.

(** In a well-formed node, what is stored under bits that begin with the
    edge [k] is stored in the child of [k]. *)
Lemma In_stored_below : forall items k child rest routes,
    radix_wf (Dict items) = true -> dget k items = Some child -> k <> "*"%string ->
    (In ((k ++ rest)%string, routes) (stored (Dict items))
     <-> In (rest, routes) (stored child)).
Proof.
  intros items k child rest routes W G Nk.
  destruct (radix_wf_edge _ _ _ W G Nk) as (Ne & _ & _).
  split; [|now apply In_stored_edge].
  intros Hin. apply In_stored in Hin; [|now apply radix_wf_nodup].
  destruct Hin as [[E _]|(k1 & c1 & suf & N1 & G1 & E & Hin)].
  - now apply append_nonempty in E.
  - destruct (radix_wf_edge _ _ _ W G1 N1) as (Ne1 & _ & _).
    assert (Ek : k = k1).
    { destruct (String.eqb_spec k k1) as [|Nkk]; [assumption|]. exfalso.
      pose proof (radix_wf_disjoint _ _ _ _ _ W G G1 Nk N1 Nkk) as D.
      apply (common_of_append k rest k1 suf Ne Ne1 E D). }
    subst k1. rewrite G in G1. injection G1 as <-.
    apply append_inj_l in E. now subst suf.
Qed.

(** Nothing is stored under bits that no edge begins. *)
Lemma nothing_stored_off_edges : forall items bits routes,
    radix_wf (Dict items) = true -> bits <> EmptyString ->
    (forall k c, dget k items = Some c -> k <> "*"%string ->
                 prefix_of k bits = false) ->
    ~ In (bits, routes) (stored (Dict items)).
Proof.
  intros items bits routes W Nb O Hin.
  apply In_stored in Hin; [|now apply radix_wf_nodup].
  destruct Hin as [[E _]|(k1 & c1 & suf & N1 & G1 & E & _)]; [congruence|].
  specialize (O _ _ G1 N1). subst bits. now rewrite prefix_of_append in O.
Qed.

Lemma reaches_wf : forall items bits pointer,
    reaches items bits pointer -> radix_wf (Dict items) = true ->
    radix_wf (Dict pointer) = true.
Proof.
  induction 1 as [|items k citems rest pointer G Nk _ IH]; intros W; [assumption|].
  apply IH. now destruct (radix_wf_edge _ _ _ W G Nk) as (_ & _ & Wc).
Qed.

Lemma reaches_prefix_wf : forall items bits pointer,
    reaches items bits pointer -> prefix_wf (Dict items) = true ->
    prefix_wf (Dict pointer) = true.
Proof.
  induction 1 as [|items k citems rest pointer G Nk _ IH]; intros W; [assumption|].
  apply IH. apply (prefix_wf_child _ _ _ W G Nk).
Qed.

Lemma reaches_stored : forall items bits pointer,
    reaches items bits pointer -> radix_wf (Dict items) = true ->
    forall suf routes,
      In (suf, routes) (stored (Dict pointer))
      <-> In ((bits ++ suf)%string, routes) (stored (Dict items)).
Proof.
  induction 1 as [|items k citems rest pointer G Nk _ IH]; intros W suf routes;
    [reflexivity|].
  destruct (radix_wf_edge _ _ _ W G Nk) as (_ & _ & Wc).
  rewrite append_assoc, (In_stored_below _ _ _ _ _ W G Nk). now apply IH.
Qed.

Lemma routes_under_descend : forall items k child rest,
    radix_wf (Dict items) = true -> dget k items = Some child -> k <> "*"%string ->
    Permutation (routes_under (Dict items) (k ++ rest)) (routes_under child rest).
Proof.
  intros items k child rest W G Nk. unfold routes_under.
  destruct (radix_wf_edge _ _ _ W G Nk) as (Ne & _ & _).
  eapply Permutation_trans.
  - apply (routes_at_descend _ items k child W G Nk).
    intros k' c' G' Ns' Nkk s.
    destruct (radix_wf_edge _ _ _ W G' Ns') as (Ne' & _ & _).
    rewrite common_empty_prefix; [reflexivity | now apply append_nonempty |].
    apply common_append_both; auto.
    apply (radix_wf_disjoint items k child k' c'); auto.
  - cbv beta. rewrite prefix_of_nonempty_empty by now apply append_nonempty.
    cbn [andb app].
    rewrite (routes_at_ext _ (fun path => prefix_of rest path
                                          && negb (String.eqb path rest)));
      [reflexivity|].
    intros s. now rewrite append_prefix_cancel, eqb_append_cancel.
Qed.

Lemma reaches_under : forall items bits pointer,
    reaches items bits pointer -> radix_wf (Dict items) = true ->
    Permutation (routes_under (Dict pointer) "") (routes_under (Dict items) bits).
Proof.
  induction 1 as [|items k citems rest pointer G Nk _ IH]; intros W; [reflexivity|].
  destruct (radix_wf_edge _ _ _ W G Nk) as (_ & _ & Wc).
  eapply Permutation_trans; [apply (IH Wc)|].
  symmetry. apply (routes_under_descend _ _ _ _ W G Nk).
Qed.

Lemma without_idem : forall (k : string) (d : dict obj),
    new_dict_without_key k (new_dict_without_key k d) = new_dict_without_key k d.
Proof.
  intros k d. unfold new_dict_without_key.
  induction d as [|x d IH]; [reflexivity|]. cbn [filter].
  destruct (negb (fst x =? k)%string) eqn:E; [|exact IH].
  cbn [filter]. rewrite E. now f_equal.
Qed.

Lemma radix_wf_without : forall items,
    radix_wf (Dict items) = true ->
    radix_wf (Dict (new_dict_without_key "*" items)) = true.
Proof.
  intros items W. apply radix_wf_parts in W. destruct W as (N & P & F).
  apply radix_wf_intro.
  - now apply nodup_keys_without.
  - now rewrite without_idem.
  - apply forallb_forall. intros x Hx. apply filter_In in Hx.
    rewrite forallb_forall in F. now apply F.
Qed.

Lemma flat_map_ext_In : forall (A B : Type) (f g : A -> list B) (l : list A),
    (forall x, In x l -> f x = g x) -> flat_map f l = flat_map g l.
Proof.
  intros A B f g l H. induction l as [|x l IH]; [reflexivity|].
  cbn [flat_map]. rewrite (H x) by (cbn; auto). f_equal.
  apply IH. intros y Hy. apply H. cbn. auto.
Qed.

(** The routes under the bits of a node, the list of the node apart, are
    those of the node without its key ["*"]. *)
Lemma routes_under_here : forall pointer,
    radix_wf (Dict pointer) = true ->
    Permutation (routes_under (Dict pointer) "")
                (routes_of (Dict (new_dict_without_key "*" pointer))).
Proof.
  intros pointer W. unfold routes_under.
  eapply Permutation_trans; [apply (routes_at_node _ pointer W)|].
  cbv beta. rewrite prefix_of_empty. cbn [String.eqb negb andb app].
  rewrite routes_of_dict.
  rewrite (flat_map_ext_In _ _ _ entry_routes); [reflexivity|].
  intros [k c] Hin. apply without_In in Hin. destruct Hin as [Hin Ns].
  pose proof (In_dget _ _ _ (radix_wf_nodup _ W) Hin) as G.
  destruct (radix_wf_edge _ _ _ W G Ns) as (Ne & _ & _).
  rewrite entry_routes_edge by assumption. cbn [fst snd].
  apply routes_at_all. intros s. rewrite prefix_of_empty.
  destruct k; [congruence | reflexivity].
Qed.

Lemma filter_perm : forall (A : Type) (f : A -> bool) (l l' : list A),
    Permutation l l' -> Permutation (filter f l) (filter f l').
Proof.
  intros A f l l' P. induction P as [|x l l' _ IH|x y l|l l1 l2 _ IH1 _ IH2].
  - constructor.
  - cbn [filter]. destruct (f x); [now constructor | assumption].
  - cbn [filter]. destruct (f x), (f y); try reflexivity. constructor.
  - now transitivity (filter f l1).
Qed.

(** The end of both [children] methods, at the node of the bits of the
    prefix. *)
Lemma children_at_node : forall items bits pointer attrs,
    radix_wf (Dict items) = true -> reaches items bits pointer ->
    ((forall routes, ~ In (bits, routes) (stored (Dict items))) ->
     dmem "*" pointer = false)
    /\ ((exists routes, In (bits, routes) (stored (Dict items))) ->
        dmem "*" pointer = true
        /\ exists c,
            Permutation c (objs_with_all_attrs (routes_under (Dict items) bits) attrs)
            /\ _traverse (Dict (new_dict_without_key "*" pointer)) attrs = Ok c).
Proof.
  intros items bits pointer attrs W R.
  pose proof (reaches_wf _ _ _ R W) as Wp.
  pose proof (reaches_stored _ _ _ R W "") as St.
  assert (Hs : forall routes, In (bits, routes) (stored (Dict items))
                              <-> dget "*" pointer = Some (PList routes)).
  { intros routes. rewrite <- (append_empty_r bits) at 1. rewrite <- St.
    rewrite In_stored by now apply radix_wf_nodup. split.
    - intros [[_ G]|(k & c & suf & Nk & G & E & _)]; [exact G|].
      destruct (radix_wf_edge _ _ _ Wp G Nk) as (Ne & _ & _).
      symmetry in E. now apply append_nonempty in E.
    - intros G. left. now split. }
  split.
  - intros No. apply dmem_dget. destruct (dget "*" pointer) as [held|] eqn:G;
      [|reflexivity].
    destruct (radix_wf_routes _ _ Wp G) as [routes ->].
    exfalso. apply (No routes). now apply Hs.
  - intros [routes Hin]. apply Hs in Hin. unfold dmem. rewrite Hin.
    split; [reflexivity|].
    destruct (traverse_yields _ attrs (radix_wf_without _ Wp)) as (c & E & P).
    exists c. split; [|exact E].
    eapply Permutation_trans; [exact P|]. apply filter_perm.
    eapply Permutation_trans; [symmetry; apply (routes_under_here _ Wp)|].
    apply (reaches_under _ _ _ R W).
Qed.

(** ** [children] *)

Lemma prefix_children_walk_result : forall bits items,
    prefix_wf (Dict items) = true -> is_bits bits = true ->
    match IPPrefixTree.children_walk bits items with
    | Ok pointer => reaches items bits pointer
    | Raise e =>
        e = KeyError /\ forall routes, ~ In (bits, routes) (stored (Dict items))
    end.
Proof.
  induction bits as [|c bits IH]; intros items W B;
    pose proof (prefix_wf_radix_wf _ W) as RW.
  - cbn [IPPrefixTree.children_walk]. constructor.
  - simpl in B. apply andb_prop in B. destruct B as [Bc B].
    destruct (bit_of_char _ Bc) as [Bb Ns].
    cbn [IPPrefixTree.children_walk]. cbv zeta.
    set (bit := String c EmptyString) in *.
    change (String c bits) with (bit ++ bits)%string.
    destruct (dget bit items) as [child|] eqn:G.
    + pose proof (prefix_wf_child _ _ _ W G Ns) as Wc.
      destruct (prefix_wf_dict _ Wc) as [citems ->]. cbn [as_dict bind].
      specialize (IH citems Wc B).
      destruct (IPPrefixTree.children_walk bits citems) as [pointer|e].
      * now apply (reaches_edge items bit citems bits pointer).
      * destruct IH as [-> No]. split; [reflexivity|]. intros routes Hin.
        apply (In_stored_below _ _ _ _ _ RW G Ns) in Hin. now apply No in Hin.
    + split; [reflexivity|]. intros routes.
      apply nothing_stored_off_edges; [assumption | discriminate |].
      intros k ch Gk Nk. apply bit_prefix_of.
      * apply (prefix_wf_bit _ _ _ W Gk Nk).
      * intros ->. unfold bit in G. congruence.
Qed.

Lemma children_scan_empty : forall D pointer nodes,
    IPRadixTree.children_scan D pointer nodes "" = Ok (pointer, EmptyString).
Proof. intros D pointer [|[k c] nodes]; reflexivity. Qed.

Lemma children_scan_find : forall D pointer nodes bits,
    bits <> EmptyString ->
    IPRadixTree.children_scan D pointer nodes bits
    = match find (fun e => prefix_of (fst e) bits) nodes with
      | None => Ok (pointer, bits)
      | Some (node_bits, children) =>
          items <- as_dict children ;;
          D items (drop (String.length (bits_in_common node_bits bits)) bits)
      end.
Proof.
  intros D pointer nodes bits N. apply is_empty_false in N.
  induction nodes as [|[k c] nodes IH]; [reflexivity|].
  cbn [IPRadixTree.children_scan find fst]. rewrite N. unfold prefix_of at 1.
  destruct (String.eqb (bits_in_common k bits) k); [reflexivity | apply IH].
Qed.

(** The walk of [IPRadixTree.children] ends with no bits left at the node of
    [bits], or with bits left when the tree has no such node. *)
Lemma radix_children_walk_result : forall fuel items bits,
    radix_wf (Dict items) = true -> (height (Dict items) <= fuel)%nat ->
    exists pointer rest,
      IPRadixTree.children_walk fuel items bits = Ok (pointer, rest)
      /\ ((rest = EmptyString /\ reaches items bits pointer)
          \/ (rest <> EmptyString
              /\ forall routes, ~ In (bits, routes) (stored (Dict items)))).
Proof.
  induction fuel as [|fuel IH]; intros items bits W Hh; [simpl in Hh; lia|].
  cbn [IPRadixTree.children_walk]. pose proof (radix_wf_nodup _ W) as N.
  destruct (String.eqb_spec bits EmptyString) as [->|Nb].
  { rewrite children_scan_empty. exists items, EmptyString.
    split; [reflexivity|]. left. split; [reflexivity | constructor]. }
  rewrite children_scan_find by assumption.
  destruct (find (fun e => prefix_of (fst e) bits) (IPRadixTree.nodes_of items))
    as [[k child]|] eqn:F.
  - apply find_some in F. destruct F as [Hin P]. simpl in P.
    apply nodes_of_In in Hin. destruct Hin as [Hin Nk].
    pose proof (In_dget _ _ _ N Hin) as G.
    destruct (radix_wf_edge _ _ _ W G Nk) as (Ne & _ & Wc).
    destruct (radix_wf_dict _ Wc) as [citems ->]. cbn [as_dict bind].
    assert (Ec : bits_in_common k bits = k)
      by (unfold prefix_of in P; now apply String.eqb_eq in P).
    rewrite Ec.
    destruct (IH citems (drop (String.length k) bits) Wc)
      as (pointer & rest & E & R).
    { pose proof (height_child _ _ _ Hin). lia. }
    exists pointer, rest. split; [exact E|].
    pose proof (prefix_of_split _ _ P) as Eb.
    destruct R as [[-> R]|[Nr No]]; [left | right].
    + split; [reflexivity|]. rewrite Eb.
      now apply (reaches_edge items k citems).
    + split; [assumption|]. intros routes Hin'. rewrite Eb in Hin'.
      apply (In_stored_below _ _ _ _ _ W G Nk) in Hin'. now apply No in Hin'.
  - exists items, bits. split; [reflexivity|]. right. split; [assumption|].
    intros routes. apply nothing_stored_off_edges; [assumption..|].
    intros k c Gk Nk. apply (find_none _ _ F (k, c)).
    apply nodes_of_In. split; [apply dget_In, Gk | assumption].
Qed.

Lemma children_finish : forall items bits pointer attrs,
    radix_wf (Dict items) = true -> reaches items bits pointer ->
    let out :=
      sanitize
        (if negb (dmem "*" pointer) then Raise KeyError
         else routes <- _traverse (Dict (new_dict_without_key "*" pointer)) attrs ;;
              _sort routes) in
    ((forall routes, ~ In (bits, routes) (stored (Dict items))) ->
     out = Raise RoutingTableValidationError)
    /\ ((exists routes, In (bits, routes) (stored (Dict items))) ->
        exists c,
          Permutation c (objs_with_all_attrs (routes_under (Dict items) bits) attrs)
          /\ out = _sort c).
Proof.
  intros items bits pointer attrs W R out. subst out.
  destruct (children_at_node items bits pointer attrs W R) as [No Yes]. split.
  - intros H. now rewrite (No H).
  - intros H. destruct (Yes H) as (M & c & P & E). rewrite M, E.
    cbn [negb bind]. rewrite sanitize_sort. eauto.
Qed.

Lemma prefix_children_inside : children_are_inside PrefixTree prefix_wf.
Proof.
  intros t prefix attrs W bits. destruct (prefix_wf_dict _ W) as [items E].
  simpl. unfold IPPrefixTree.children. rewrite E in *. cbn [as_dict bind].
  pose proof (prefix_children_walk_result bits items W
                (bits_in_prefix_is_bits prefix)) as R.
  fold bits. destruct (IPPrefixTree.children_walk bits items) as [pointer|e].
  - cbn [bind]. apply (children_finish _ _ _ _ (prefix_wf_radix_wf _ W) R).
  - destruct R as [-> No]. split; [reflexivity|].
    intros [routes Hin]. now apply No in Hin.
Qed.

Lemma radix_children_inside : children_are_inside RadixTree radix_wf.
Proof.
  intros t prefix attrs W bits. destruct (radix_wf_dict _ W) as [items E].
  simpl. unfold IPRadixTree.children. rewrite E in *. cbn [as_dict bind].
  destruct (radix_children_walk_result (IPRadixTree.fuel_of (Dict items)) items
              bits W) as (pointer & rest & Ew & R);
    [unfold IPRadixTree.fuel_of; lia|].
  fold bits. rewrite Ew. cbn [bind].
  destruct R as [[-> R]|[Nr No]].
  - cbn [is_empty negb orb]. apply (children_finish _ _ _ _ W R).
  - apply is_empty_false in Nr. rewrite Nr. cbn [negb orb sanitize].
    split; [reflexivity|]. intros [routes Hin]. now apply No in Hin.
Qed.

(** On a well-formed table of either tree, [children(prefix, attrs)] raises
    the validation error when nothing is stored under the bits of [prefix],
    and otherwise returns the sort of the routes with all [attrs] among the
    routes of the stored prefixes inside [prefix], the routes of [prefix]
    itself left out. *)
Theorem children_returns_routes_inside :
  children_are_inside PrefixTree prefix_wf
  /\ children_are_inside RadixTree radix_wf.
Proof. split; [apply prefix_children_inside | apply radix_children_inside]. Qed.

Lemma children_returns_routes_inside_witness :
  let tp := fst (run PrefixTree sample_calls) in
  let tr := fst (run RadixTree sample_calls) in
  let bits := bits_in_prefix (net4 10 0 0 0 8) in
  (exists c,
      Permutation c (objs_with_all_attrs (routes_under (_root tp) bits) (dev "b"))
      /\ children PrefixTree tp (net4 10 0 0 0 8) (dev "b") = _sort c)
  /\ (exists c,
         Permutation c (objs_with_all_attrs (routes_under (_root tr) bits) (dev "b"))
         /\ children RadixTree tr (net4 10 0 0 0 8) (dev "b") = _sort c).
Proof.
  split.
  - refine (proj2 (proj1 children_returns_routes_inside
                     (fst (run PrefixTree sample_calls)) (net4 10 0 0 0 8) (dev "b") _)
                  _); [vm_compute; reflexivity|].
    eexists. vm_compute. left. reflexivity.
  - refine (proj2 (proj2 children_returns_routes_inside
                     (fst (run RadixTree sample_calls)) (net4 10 0 0 0 8) (dev "b") _)
                  _); [vm_compute; reflexivity|].
    eexists. vm_compute. left. reflexivity.
Defined.

(** ** [parent] *)

Lemma In_stored_above : forall o bits path routes,
    In (path, routes) (stored_above o bits)
    <-> In (path, routes) (stored o) /\ path <> bits.
Proof.
  intros o bits path routes. unfold stored_above. rewrite filter_In. cbn [fst].
  rewrite negb_true_iff, String.eqb_neq. reflexivity.
Qed.

(** An edge whose bits, with more bits, begin [k ++ rest] is the edge [k]. *)
Lemma edge_of_prefix : forall items k child rest k' c' suf,
    radix_wf (Dict items) = true ->
    dget k items = Some child -> k <> "*"%string ->
    dget k' items = Some c' -> k' <> "*"%string ->
    prefix_of (k' ++ suf) (k ++ rest) = true ->
    k' = k /\ c' = child /\ prefix_of suf rest = true.
Proof.
  intros items k child rest k' c' suf W G Nk G' Nk' P.
  destruct (radix_wf_edge _ _ _ W G Nk) as (Ne & _).
  destruct (radix_wf_edge _ _ _ W G' Nk') as (Ne' & _).
  assert (k' = k).
  { apply (radix_wf_one_edge items k' c' k child (k ++ rest)); auto.
    - apply prefix_of_nonempty_common; [assumption|].
      eapply prefix_of_append_l, P.
    - apply prefix_of_nonempty_common; [assumption | apply prefix_of_append]. }
  subst k'. rewrite append_prefix_cancel in P.
  split; [reflexivity|]. split; [congruence | assumption].
Qed.

Lemma above_here : forall items prev,
    radix_wf (Dict items) = true ->
    walk_result (stored_above (Dict items) "") "" prev prev.
Proof.
  intros items prev W. right. split; [reflexivity|].
  intros path' routes' Hin. apply In_stored_above in Hin. destruct Hin as [_ Np].
  now apply prefix_of_nonempty_empty.
Qed.

(** The walk of [parent] goes down the edge [k] with the list of the node
    in hand. *)
Lemma above_descend : forall items k citems rest prev res,
    radix_wf (Dict items) = true ->
    dget k items = Some (Dict citems) -> k <> "*"%string ->
    walk_result (stored_above (Dict citems) rest) rest (get_star items prev) res ->
    walk_result (stored_above (Dict items) (k ++ rest)) (k ++ rest) prev res.
Proof.
  intros items k citems rest prev res W G Nk R.
  pose proof (radix_wf_nodup _ W) as N.
  destruct (radix_wf_edge _ _ _ W G Nk) as (Ne & _ & Wc).
  assert (Below : forall path' routes',
             In (path', routes') (stored_above (Dict items) (k ++ rest)) ->
             prefix_of path' (k ++ rest) = true ->
             path' = EmptyString
             \/ exists suf, path' = (k ++ suf)%string
                            /\ In (suf, routes') (stored_above (Dict citems) rest)
                            /\ prefix_of suf rest = true).
  { intros path' routes' Hin P. apply In_stored_above in Hin.
    destruct Hin as [Hin Np]. apply In_stored in Hin; [|assumption].
    destruct Hin as [[-> _]|(k' & c' & suf & Nk' & G' & -> & I')]; [now left|].
    destruct (edge_of_prefix _ _ _ _ _ _ _ W G Nk G' Nk' P) as (-> & -> & Ps).
    right. exists suf. split; [reflexivity|]. split; [|assumption].
    apply In_stored_above. split; [assumption | congruence]. }
  destruct R as [(routes & -> & path & I & P & M)|[-> Hn]].
  - left. exists routes. split; [reflexivity|]. exists (k ++ path)%string.
    apply In_stored_above in I. destruct I as [I Np].
    split; [|split; [now rewrite append_prefix_cancel|]].
    + apply In_stored_above. split; [eapply In_stored_edge; eauto|].
      intros E. now apply append_inj_l in E.
    + intros path' routes' Hin P'.
      destruct (Below _ _ Hin P') as [->|(suf & -> & I' & Ps)]; [simpl; lia|].
      rewrite !length_append. specialize (M _ _ I' Ps). lia.
  - unfold get_star. destruct (dget "*" items) as [held|] eqn:Gs.
    + destruct (radix_wf_routes _ _ W Gs) as [routes ->]. left.
      exists routes. split; [reflexivity|]. exists EmptyString.
      split; [|split; [reflexivity|]].
      * apply In_stored_above. split; [now apply In_stored_here|].
        intros E. symmetry in E. now apply append_nonempty in E.
      * intros path' routes' Hin P'.
        destruct (Below _ _ Hin P') as [->|(suf & -> & I' & Ps)]; [simpl; lia|].
        rewrite (Hn _ _ I') in Ps. discriminate Ps.
    + right. split; [reflexivity|]. intros path' routes' Hin.
      destruct (prefix_of path' (k ++ rest)) eqn:P'; [exfalso|reflexivity].
      destruct (Below _ _ Hin P') as [->|(suf & -> & I' & Ps)].
      * apply In_stored_above in Hin. destruct Hin as [Hin _].
        now apply (no_entry_here _ _ W Gs) in Hin.
      * rewrite (Hn _ _ I') in Ps. discriminate Ps.
Qed.

Lemma reaches_list : forall items bits pointer,
    radix_wf (Dict items) = true -> reaches items bits pointer ->
    forall routes,
      In (bits, routes) (stored (Dict items))
      <-> dget "*" pointer = Some (PList routes).
Proof.
  intros items bits pointer W R routes.
  pose proof (reaches_wf _ _ _ R W) as Wp.
  rewrite <- (append_empty_r bits) at 1.
  rewrite <- (reaches_stored _ _ _ R W "").
  rewrite In_stored by now apply radix_wf_nodup. split.
  - intros [[_ G]|(k & c & suf & Nk & G & E & _)]; [exact G|].
    destruct (radix_wf_edge _ _ _ Wp G Nk) as (Ne & _ & _).
    symmetry in E. now apply append_nonempty in E.
  - intros G. left. now split.
Qed.

Lemma prefix_parent_walk_result : forall bits items prev,
    prefix_wf (Dict items) = true -> is_bits bits = true ->
    match IPPrefixTree.parent_walk bits items prev with
    | Ok (pointer, res) =>
        reaches items bits pointer
        /\ walk_result (stored_above (Dict items) bits) bits prev res
    | Raise e =>
        e = KeyError /\ forall routes, ~ In (bits, routes) (stored (Dict items))
    end.
Proof.
  induction bits as [|c bits IH]; intros items prev W B;
    pose proof (prefix_wf_radix_wf _ W) as RW.
  - cbn [IPPrefixTree.parent_walk]. split; [constructor | now apply above_here].
  - simpl in B. apply andb_prop in B. destruct B as [Bc B].
    destruct (bit_of_char _ Bc) as [Bb Ns].
    cbn [IPPrefixTree.parent_walk]. cbv zeta.
    set (bit := String c EmptyString) in *.
    change (String c bits) with (bit ++ bits)%string.
    destruct (dget bit items) as [child|] eqn:G.
    + pose proof (prefix_wf_child _ _ _ W G Ns) as Wc.
      destruct (prefix_wf_dict _ Wc) as [citems ->]. cbn [as_dict bind].
      specialize (IH citems (get_star items prev) Wc B).
      destruct (IPPrefixTree.parent_walk bits citems (get_star items prev))
        as [[pointer res]|e].
      * destruct IH as [R Wr]. split.
        -- now apply (reaches_edge items bit citems bits pointer).
        -- now apply (above_descend items bit citems bits prev res).
      * destruct IH as [-> No]. split; [reflexivity|]. intros routes Hin.
        apply (In_stored_below _ _ _ _ _ RW G Ns) in Hin. now apply No in Hin.
    + split; [reflexivity|]. intros routes.
      apply nothing_stored_off_edges; [assumption | discriminate |].
      intros k ch Gk Nk. apply bit_prefix_of.
      * apply (prefix_wf_bit _ _ _ W Gk Nk).
      * intros ->. unfold bit in G. congruence.
Qed.

Lemma parent_scan_empty : forall D pointer nodes routes,
    IPRadixTree.parent_scan D pointer nodes routes ""
    = Ok (pointer, routes, EmptyString).
Proof. intros D pointer [|[k c] nodes] routes; reflexivity. Qed.

Lemma parent_scan_find : forall D pointer nodes routes bits,
    bits <> EmptyString ->
    IPRadixTree.parent_scan D pointer nodes routes bits
    = match find (fun e => prefix_of (fst e) bits) nodes with
      | None => Ok (pointer, routes, bits)
      | Some (node_bits, children) =>
          items <- as_dict children ;;
          D items (get_star pointer routes)
            (drop (String.length (bits_in_common node_bits bits)) bits)
      end.
Proof.
  intros D pointer nodes routes bits N. apply is_empty_false in N.
  induction nodes as [|[k c] nodes IH]; [reflexivity|].
  cbn [IPRadixTree.parent_scan find fst]. rewrite N. unfold prefix_of at 1.
  destruct (String.eqb (bits_in_common k bits) k); [reflexivity | apply IH].
Qed.

Lemma radix_parent_walk_result : forall fuel items bits prev,
    radix_wf (Dict items) = true -> (height (Dict items) <= fuel)%nat ->
    exists pointer res rest,
      IPRadixTree.parent_walk fuel items prev bits = Ok (pointer, res, rest)
      /\ ((rest = EmptyString /\ reaches items bits pointer
           /\ walk_result (stored_above (Dict items) bits) bits prev res)
          \/ (rest <> EmptyString
              /\ forall routes, ~ In (bits, routes) (stored (Dict items)))).
Proof.
  induction fuel as [|fuel IH]; intros items bits prev W Hh; [simpl in Hh; lia|].
  cbn [IPRadixTree.parent_walk]. pose proof (radix_wf_nodup _ W) as N.
  destruct (String.eqb_spec bits EmptyString) as [->|Nb].
  { rewrite parent_scan_empty. exists items, prev, EmptyString.
    split; [reflexivity|]. left. split; [reflexivity|].
    split; [constructor | now apply above_here]. }
  rewrite parent_scan_find by assumption.
  destruct (find (fun e => prefix_of (fst e) bits) (IPRadixTree.nodes_of items))
    as [[k child]|] eqn:F.
  - apply find_some in F. destruct F as [Hin P]. simpl in P.
    apply nodes_of_In in Hin. destruct Hin as [Hin Nk].
    pose proof (In_dget _ _ _ N Hin) as G.
    destruct (radix_wf_edge _ _ _ W G Nk) as (Ne & _ & Wc).
    destruct (radix_wf_dict _ Wc) as [citems ->]. cbn [as_dict bind].
    assert (Ec : bits_in_common k bits = k)
      by (unfold prefix_of in P; now apply String.eqb_eq in P).
    rewrite Ec.
    destruct (IH citems (drop (String.length k) bits) (get_star items prev) Wc)
      as (pointer & res & rest & E & R).
    { pose proof (height_child _ _ _ Hin). lia. }
    exists pointer, res, rest. split; [exact E|].
    pose proof (prefix_of_split _ _ P) as Eb.
    destruct R as [(-> & R & Wr)|[Nr No]]; [left | right].
    + split; [reflexivity|]. rewrite Eb. split.
      * now apply (reaches_edge items k citems).
      * now apply (above_descend items k citems _ prev res).
    + split; [assumption|]. intros routes Hin'. rewrite Eb in Hin'.
      apply (In_stored_below _ _ _ _ _ W G Nk) in Hin'. now apply No in Hin'.
  - exists items, prev, bits. split; [reflexivity|]. right. split; [assumption|].
    intros routes. apply nothing_stored_off_edges; [assumption..|].
    intros k c Gk Nk. apply (find_none _ _ F (k, c)).
    apply nodes_of_In. split; [apply dget_In, Gk | assumption].
Qed.

Lemma parent_finish : forall items bits pointer held attrs,
    radix_wf (Dict items) = true -> reaches items bits pointer ->
    walk_result (stored_above (Dict items) bits) bits (PList []) held ->
    let out :=
      sanitize
        (if negb (dmem "*" pointer) then Raise KeyError
         else routes <- as_list held ;; Ok (objs_with_all_attrs routes attrs)) in
    ((forall routes, ~ In (bits, routes) (stored (Dict items))) ->
     out = Raise RoutingTableValidationError)
    /\ ((exists routes, In (bits, routes) (stored (Dict items))) ->
        exists routes,
          longest_match (stored_above (Dict items) bits) bits routes
          /\ out = Ok (objs_with_all_attrs routes attrs)).
Proof.
  intros items bits pointer held attrs W R Wr out. subst out.
  pose proof (reaches_list _ _ _ W R) as Hs.
  pose proof (reaches_wf _ _ _ R W) as Wp. split.
  - intros No. replace (dmem "*" pointer) with false; [reflexivity|].
    symmetry. apply dmem_dget.
    destruct (dget "*" pointer) as [x|] eqn:G; [|reflexivity].
    destruct (radix_wf_routes _ _ Wp G) as [routes ->].
    exfalso. apply (No routes). now apply Hs.
  - intros [routes Hin]. apply Hs in Hin. unfold dmem. rewrite Hin. cbn [negb].
    destruct (walk_result_top _ _ _ Wr) as (r & -> & M).
    exists r. split; [exact M | reflexivity].
Qed.

Lemma prefix_parent_covering : parent_is_covering PrefixTree prefix_wf.
Proof.
  intros t prefix attrs W bits. destruct (prefix_wf_dict _ W) as [items E].
  simpl. unfold IPPrefixTree.parent. rewrite E in *. cbn [as_dict bind].
  pose proof (prefix_parent_walk_result bits items (PList []) W
                (bits_in_prefix_is_bits prefix)) as R.
  fold bits. destruct (IPPrefixTree.parent_walk bits items (PList []))
    as [[pointer held]|e].
  - cbn [bind]. destruct R as [R Wr].
    apply (parent_finish _ _ _ _ _ (prefix_wf_radix_wf _ W) R Wr).
  - destruct R as [-> No]. split; [reflexivity|].
    intros [routes Hin]. now apply No in Hin.
Qed.

Lemma radix_parent_covering : parent_is_covering RadixTree radix_wf.
Proof.
  intros t prefix attrs W bits. destruct (radix_wf_dict _ W) as [items E].
  simpl. unfold IPRadixTree.parent. rewrite E in *. cbn [as_dict bind].
  destruct (radix_parent_walk_result (IPRadixTree.fuel_of (Dict items)) items
              bits (PList []) W) as (pointer & held & rest & Ew & R);
    [unfold IPRadixTree.fuel_of; lia|].
  fold bits. rewrite Ew. cbn [bind].
  destruct R as [(-> & R & Wr)|[Nr No]].
  - cbn [is_empty negb orb]. apply (parent_finish _ _ _ _ _ W R Wr).
  - apply is_empty_false in Nr. rewrite Nr. cbn [negb orb sanitize].
    split; [reflexivity|]. intros [routes Hin]. now apply No in Hin.
Qed.

(** On a well-formed table of either tree, [parent(prefix, attrs)] raises the
    validation error when nothing is stored under the bits of [prefix], and
    otherwise returns the routes with all [attrs] of the closest stored prefix
    that covers [prefix] and is not [prefix]: the list under the longest
    shorter bits that begin the bits of [prefix], none when there are no such
    bits. *)
Theorem parent_returns_closest_cover :
  parent_is_covering PrefixTree prefix_wf
  /\ parent_is_covering RadixTree radix_wf.
Proof. split; [apply prefix_parent_covering | apply radix_parent_covering]. Qed.

Lemma parent_returns_closest_cover_witness :
  let tp := fst (run PrefixTree sample_calls) in
  let tr := fst (run RadixTree sample_calls) in
  let bits := bits_in_prefix (net4 10 1 0 0 16) in
  (exists routes,
      longest_match (stored_above (_root tp) bits) bits routes
      /\ parent PrefixTree tp (net4 10 1 0 0 16) (dev "b")
         = Ok (objs_with_all_attrs routes (dev "b")))
  /\ (exists routes,
         longest_match (stored_above (_root tr) bits) bits routes
         /\ parent RadixTree tr (net4 10 1 0 0 16) (dev "b")
            = Ok (objs_with_all_attrs routes (dev "b"))).
Proof.
  split.
  - refine (proj2 (proj1 parent_returns_closest_cover
                     (fst (run PrefixTree sample_calls)) (net4 10 1 0 0 16) (dev "b") _)
                  _); [vm_compute; reflexivity|].
    eexists. vm_compute. right. right. left. reflexivity.
  - refine (proj2 (proj2 parent_returns_closest_cover
                     (fst (run RadixTree sample_calls)) (net4 10 1 0 0 16) (dev "b") _)
                  _); [vm_compute; reflexivity|].
    eexists. vm_compute. right. right. left. reflexivity.
Defined.

(** ** [IPRadixTree.delete]: errors, counter, and routes left in the list *)

Lemma radix_replaced_below : forall items k citems after rest left,
    radix_wf (Dict items) = true -> dget k items = Some (Dict citems) ->
    k <> "*"%string -> radix_wf after = true ->
    replaced rest left (Dict citems) after ->
    replaced (k ++ rest) left (Dict items) (Dict (dset k after items)).
Proof.
  intros items k citems after rest left W G Nk Wa [R1 R2].
  destruct (radix_wf_edge _ _ _ W G Nk) as (Ne & Bk & _).
  assert (W' : radix_wf (Dict (dset k after items)) = true).
  { apply radix_wf_dset_edge; auto. intros k' ch' G' Nk' Nkk.
    apply (radix_wf_disjoint items k (Dict citems) k' ch'); auto. }
  split.
  - apply (same_elsewhere_edge items k (Dict citems) after rest W W' Nk);
      [now left | exact R1].
  - intros routes.
    rewrite (In_stored_below _ k after rest routes W' (dget_dset_same _ _ _) Nk).
    apply R2.
Qed.

Lemma radix_delete_here_result : forall items attrs counter,
    radix_wf (Dict items) = true ->
    radix_delete_result "" items attrs counter
                        (IPRadixTree.delete_here items "" attrs counter).
Proof.
  intros items attrs counter W. unfold IPRadixTree.delete_here.
  cbn [is_empty negb].
  destruct (dget "*" items) as [held|] eqn:G.
  2:{ left. split; [reflexivity|]. intros routes. now apply no_entry_here. }
  destruct (radix_wf_routes _ _ W G) as [bucket ->]. cbn [as_list bind].
  pose proof (In_stored_here _ _ G) as Hin.
  destruct (truthy attrs) eqn:Ta.
  - rewrite remove_matching_kept. cbn [andb orb negb].
    destruct (truthy (objs_with_all_attrs bucket attrs)) eqn:Tm; cbn [negb].
    + assert (Hm : objs_with_all_attrs bucket attrs <> [])
        by (destruct (objs_with_all_attrs bucket attrs); [discriminate | congruence]).
      pose proof (kept_length bucket attrs) as Lk.
      pose proof (replaced_here items (kept bucket attrs) W) as R.
      destruct (kept bucket attrs) as [|r left] eqn:Ek; cbn [truthy negb];
        exists bucket; rewrite Ta, Ek; (split; [assumption|]);
        (split; [intros _; assumption|]).
      * split; [simpl in *; lia | congruence].
      * split; [lia|]. intros _. split; [reflexivity|].
        split; [now apply radix_wf_dset_star | exact R].
    + right. split; [reflexivity|]. split; [exact Ta|]. exists bucket.
      split; [assumption|]. now destruct (objs_with_all_attrs bucket attrs).
  - cbn [andb orb negb]. exists bucket. rewrite Ta.
    split; [assumption|]. split; [discriminate|].
    split; [simpl; lia | congruence].
Qed.

Lemma delete_scan_empty : forall D attrs counter pointer nodes,
    IPRadixTree.delete_scan D attrs counter pointer nodes ""
    = IPRadixTree.delete_here pointer "" attrs counter.
Proof. intros D attrs counter pointer [|[k c] nodes]; reflexivity. Qed.

Lemma delete_scan_find : forall D attrs counter pointer nodes bits,
    bits <> EmptyString ->
    IPRadixTree.delete_scan D attrs counter pointer nodes bits
    = match find (fun e => prefix_of (fst e) bits) nodes with
      | None => IPRadixTree.delete_here pointer bits attrs counter
      | Some (node_bits, children) =>
          items <- as_dict children ;;
          '(items', counter', turns) <-
            D items (drop (String.length (bits_in_common node_bits bits)) bits) ;;
          match turns with
          | O => Ok (dset node_bits (Dict items') pointer, counter', O)
          | S turns' =>
              Ok (IPRadixTree.merge pointer node_bits items', counter', turns')
          end
      end.
Proof.
  intros D attrs counter pointer nodes bits N. apply is_empty_false in N.
  induction nodes as [|[k c] nodes IH]; [reflexivity|].
  cbn [IPRadixTree.delete_scan find fst]. rewrite N. unfold prefix_of at 1.
  destruct (String.eqb (bits_in_common k bits) k); [reflexivity | apply IH].
Qed.

Lemma radix_delete_walk_result : forall fuel items bits attrs counter,
    radix_wf (Dict items) = true -> (height (Dict items) <= fuel)%nat ->
    radix_delete_result bits items attrs counter
                        (IPRadixTree.delete_walk fuel attrs counter items bits).
Proof.
  induction fuel as [|fuel IH]; intros items bits attrs counter W Hh;
    [simpl in Hh; lia|].
  cbn [IPRadixTree.delete_walk]. pose proof (radix_wf_nodup _ W) as N.
  destruct (String.eqb_spec bits EmptyString) as [->|Nb].
  { rewrite delete_scan_empty. now apply radix_delete_here_result. }
  rewrite delete_scan_find by assumption.
  destruct (find (fun e => prefix_of (fst e) bits) (IPRadixTree.nodes_of items))
    as [[k child]|] eqn:F.
  - apply find_some in F. destruct F as [Hin P]. simpl in P.
    apply nodes_of_In in Hin. destruct Hin as [Hin Nk].
    pose proof (In_dget _ _ _ N Hin) as G.
    destruct (radix_wf_edge _ _ _ W G Nk) as (Ne & Bk & Wc).
    destruct (radix_wf_dict _ Wc) as [citems ->]. cbn [as_dict bind].
    assert (Ec : bits_in_common k bits = k)
      by (unfold prefix_of in P; now apply String.eqb_eq in P).
    rewrite Ec. pose proof (prefix_of_split _ _ P) as Eb.
    assert (Hc : (height (Dict citems) <= fuel)%nat)
      by (pose proof (height_child _ _ _ Hin); lia).
    specialize (IH citems (drop (String.length k) bits) attrs counter Wc Hc).
    destruct (IPRadixTree.delete_walk fuel attrs counter citems
                                      (drop (String.length k) bits))
      as [[[items' counter'] turns]|e]; cbn [bind radix_delete_result] in *.
    + destruct IH as (bucket & Hb & Hm & Hc' & Hl).
      assert (Hb' : In (bits, bucket) (stored (Dict items)))
        by (rewrite Eb; now apply (In_stored_edge items k (Dict citems))).
      destruct turns as [|turns']; exists bucket;
        (split; [assumption|]); (split; [assumption|]); (split; [assumption|]);
        intros Nl; destruct (Hl Nl) as (Et & Wa & R); [|discriminate Et].
      split; [reflexivity|]. split.
      * apply radix_wf_dset_edge; auto. intros k' ch' G' Nk' Nkk.
        apply (radix_wf_disjoint items k (Dict citems) k' ch'); auto.
      * rewrite Eb at 1.
        apply (radix_replaced_below items k citems (Dict items') _ _ W G Nk Wa R).
    + destruct IH as [[-> No]|(-> & Ta & bucket & Hb & Hm)]; [left | right].
      * split; [reflexivity|]. intros routes Hin'. rewrite Eb in Hin'.
        apply (In_stored_below _ _ _ _ _ W G Nk) in Hin'. now apply No in Hin'.
      * split; [reflexivity|]. split; [assumption|]. exists bucket.
        split; [|assumption]. rewrite Eb.
        now apply (In_stored_edge items k (Dict citems)).
  - unfold IPRadixTree.delete_here. apply is_empty_false in Nb. rewrite Nb.
    cbn [negb radix_delete_result]. left. split; [reflexivity|].
    intros routes. apply nothing_stored_off_edges; [assumption | |].
    + now apply is_empty_false.
    + intros k c Gk Nk. apply (find_none _ _ F (k, c)).
      apply nodes_of_In. split; [apply dget_In, Gk | assumption].
Qed.

(** On a well-formed radix tree, [delete] raises the validation error
    exactly when nothing is stored under the bits of the prefix, or
    attributes are given and no route of the list has them all; otherwise it
    returns, and takes the number of the routes removed off the counter: all
    the routes of the list without attributes, those with all the attributes
    otherwise.  When routes are left in the list, the tree stays well formed,
    the list holds the routes left, and what is stored under other bits is
    as before. *)
Theorem radix_tree_delete :
  forall (t : table) (prefix : network) (attrs : kwargs),
    radix_wf (_root t) = true ->
    match delete RadixTree t prefix attrs with
    | Raise e =>
        e = RoutingTableValidationError
        /\ ((forall routes, ~ In (bits_in_prefix prefix, routes) (stored (_root t)))
            \/ (truthy attrs = true
                /\ exists bucket,
                    In (bits_in_prefix prefix, bucket) (stored (_root t))
                    /\ objs_with_all_attrs bucket attrs = []))
    | Ok t' =>
        exists bucket,
          In (bits_in_prefix prefix, bucket) (stored (_root t))
          /\ (truthy attrs = true -> objs_with_all_attrs bucket attrs <> [])
          /\ _counter t' = _counter t
                           - (Z.of_nat (List.length bucket)
                              - Z.of_nat (List.length
                                            (if truthy attrs
                                             then kept bucket attrs else [])))
          /\ ((if truthy attrs then kept bucket attrs else []) <> [] ->
              radix_wf (_root t') = true
              /\ replaced (bits_in_prefix prefix) (kept bucket attrs)
                          (_root t) (_root t'))
    end.
Proof.
  intros t prefix attrs W. simpl. unfold IPRadixTree.delete.
  destruct (radix_wf_dict _ W) as [items E]. rewrite E in *. cbn [as_dict bind].
  pose proof (radix_delete_walk_result (IPRadixTree.fuel_of (Dict items)) items
                (bits_in_prefix prefix) attrs (_counter t) W) as R.
  destruct (IPRadixTree.delete_walk (IPRadixTree.fuel_of (Dict items)) attrs
                                    (_counter t) items (bits_in_prefix prefix))
    as [[[items' counter'] turns]|e]; cbn [bind radix_delete_result sanitize] in *.
  - destruct R as (bucket & Hb & Hm & Hc & Hl); [unfold IPRadixTree.fuel_of; lia|].
    exists bucket. cbn [_root _counter]. repeat (split; [assumption|]).
    intros Nl. now destruct (Hl Nl) as (_ & Wa & Rp).
  - destruct R as [[-> No]|(-> & Ta & Hb)]; [unfold IPRadixTree.fuel_of; lia | |];
      cbn [sanitize]; (split; [reflexivity|]); [now left | right; now split].
Qed.

Lemma radix_tree_delete_witness :
  let t := fst (run RadixTree sample_calls) in
  let p := net4 10 0 0 0 8 in
  match delete RadixTree t p (dev "a") with
  | Raise e => False
  | Ok t' =>
      exists bucket,
        In (bits_in_prefix p, bucket) (stored (_root t))
        /\ _counter t' = _counter t
                         - (Z.of_nat (List.length bucket)
                            - Z.of_nat (List.length (kept bucket (dev "a"))))
        /\ (kept bucket (dev "a") <> [] ->
            radix_wf (_root t') = true
            /\ replaced (bits_in_prefix p) (kept bucket (dev "a")) (_root t) (_root t'))
  end.
Proof.
  pose proof (radix_tree_delete (fst (run RadixTree sample_calls))
                (net4 10 0 0 0 8) (dev "a") eq_refl) as H.
  cbv zeta.
  destruct (delete RadixTree (fst (run RadixTree sample_calls)) (net4 10 0 0 0 8)
                   (dev "a")) as [t'|e] eqn:E.
  - destruct H as (bucket & Hin & _ & Hc & Hl). exists bucket. auto.
  - vm_compute in E. discriminate E.
Defined.

(** ** [IPPrefixTree.delete] after [add] *)

(** On a well-formed prefix tree whose counter is the number of its routes,
    [delete(prefix)] after [add(prefix, attrs)] returns and takes the route
    added and all the routes the prefix had before out of the tree: nothing is
    stored under the bits of the prefix, every other list is stored as before
    the [add], and the counter is the one before the [add] less the routes
    the prefix had.  For a prefix that was not stored, the table stores what
    it stored before and counts what it counted. *)
Theorem prefix_tree_delete_after_add :
  forall (t t' : table) (prefix : network) (attrs : kwargs),
    prefix_wf (_root t) = true -> counted t ->
    add PrefixTree t prefix attrs = Ok t' ->
    exists t'',
      delete PrefixTree t' prefix [] = Ok t''
      /\ prefix_wf (_root t'') = true
      /\ replaced (bits_in_prefix prefix) [] (_root t) (_root t'')
      /\ _counter t'' = _counter t
                        - Z.of_nat (List.length
                                      (bucket_at (_root t) (bits_in_prefix prefix))).
Proof.
  intros t t' prefix attrs W C H.
  destruct (prefix_add_idempotent t prefix attrs W) as (t0 & E & W' & _ & A).
  rewrite H in E. injection E as <-.
  pose proof (proj1 (add_counted t t' prefix attrs C) W H) as C'.
  pose proof (proj1 add_one_list t t' prefix attrs W H) as R. cbv zeta in R.
  set (bits := bits_in_prefix prefix) in *.
  set (route := mkRoute prefix attrs) in *.
  set (bucket := bucket_at (_root t) bits) in *.
  set (L := if route_in route bucket then bucket else bucket ++ [route]) in *.
  assert (Nl : L <> []).
  { unfold L. destruct (route_in route bucket) eqn:Ri.
    - now apply (route_in_nonempty route).
    - now destruct bucket. }
  assert (Ec : _counter t' = _counter t + Z.of_nat (List.length L)
                             - Z.of_nat (List.length bucket)).
  { destruct A as [A1 A2]. fold bits route bucket in A1, A2. unfold L.
    destruct (route_in route bucket).
    - destruct (A1 eq_refl) as [_ ->]. lia.
    - destruct (A2 eq_refl) as [-> _]. rewrite length_app. simpl. lia. }
  destruct R as [R1 R2].
  pose proof (prefix_delete_table t' prefix [] W' C') as D. fold bits in D.
  destruct (delete PrefixTree t' prefix []) as [t''|e].
  - destruct D as (b2 & Hin & _ & W2 & [D1 D2] & Ec2). cbn [truthy] in *.
    apply R2 in Hin. destruct Hin as [-> _].
    exists t''. split; [reflexivity|]. split; [assumption|]. split; [|simpl in Ec2; lia].
    split; [|exact D2].
    intros path routes Np. rewrite (D1 path routes Np). now apply R1.
  - exfalso. destruct D as [_ [No|[Ta _]]]; [|discriminate Ta].
    apply (No L). apply R2. now split.
Qed.

Lemma prefix_tree_delete_after_add_witness :
  let t := fst (run PrefixTree sample_calls) in
  let p := net4 10 64 0 0 10 in
  exists t' t'',
    add PrefixTree t p (dev "c") = Ok t'
    /\ delete PrefixTree t' p [] = Ok t''
    /\ prefix_wf (_root t'') = true
    /\ replaced (bits_in_prefix p) [] (_root t) (_root t'')
    /\ _counter t'' = _counter t.
Proof.
  cbv zeta.
  destruct (add PrefixTree (fst (run PrefixTree sample_calls)) (net4 10 64 0 0 10)
                (dev "c")) as [t'|e] eqn:E; [|vm_compute in E; discriminate E].
  assert (W0 : prefix_wf (_root (fst (run PrefixTree sample_calls))) = true)
    by (vm_compute; reflexivity).
  assert (C0 : counted (fst (run PrefixTree sample_calls)))
    by (vm_compute; reflexivity).
  destruct (prefix_tree_delete_after_add (fst (run PrefixTree sample_calls)) t'
              (net4 10 64 0 0 10) (dev "c") W0 C0 E) as (t'' & D & W & R & C).
  exists t', t''. split; [reflexivity|]. repeat (split; [assumption|]).
  rewrite C. vm_compute. reflexivity.
Defined.

(** ** [bits_in_common] *)

(** [bits_in_common x y] is the longest common beginning of [x] and [y]:
    both begin with it, what is left of them does not begin with the same
    character, every common beginning of [x] and [y] begins it, and it does
    not depend on the order of the arguments. *)
Theorem bits_in_common_longest_common_prefix :
  forall x y : string,
    (exists x' y',
        x = (bits_in_common x y ++ x')%string
        /\ y = (bits_in_common x y ++ y')%string
        /\ forall a x'' y'', ~ (x' = String a x'' /\ y' = String a y''))
    /\ (forall k a b,
           x = (k ++ a)%string -> y = (k ++ b)%string ->
           exists r, bits_in_common x y = (k ++ r)%string)
    /\ bits_in_common y x = bits_in_common x y.
Proof.
  intros x y. split; [|split].
  - exists (drop (String.length (bits_in_common x y)) x),
           (drop (String.length (bits_in_common x y)) y).
    split; [apply common_split_l|]. split; [apply common_split_r|].
    intros a x'' y'' [Ex Ey].
    pose proof (common_rest x y) as R.
    apply (proj2 (common_nonempty _ _)) in R; [exact R|]. eauto.
  - intros k a b -> ->. exists (bits_in_common a b). apply common_append.
  - apply common_sym.
Qed.

(** ** [bits_in_prefix] and [int_prefix_boundaries] *)

Lemma broadcast_is_sum : forall p,
    valid_network p ->
    broadcast_address p = network_address p + 2 ^ Z.of_nat (hostbits p) - 1.
Proof.
  intros p (_ & _ & Hm). unfold broadcast_address.
  rewrite <- Z.lxor_lor, <- Z.add_nocarry_lxor by assumption.
  unfold hostmask. lia.
Qed.

Lemma aligned_mod : forall p,
    valid_network p -> network_address p mod 2 ^ Z.of_nat (hostbits p) = 0.
Proof.
  intros p (_ & _ & Hm). unfold hostmask in Hm.
  rewrite <- Z.land_ones by lia. rewrite Z.ones_equiv.
  unfold Z.pred. now replace (2 ^ Z.of_nat (hostbits p) + -1)
    with (2 ^ Z.of_nat (hostbits p) - 1) by lia.
Qed.

Lemma length_take : forall n s,
    String.length (take n s) = Nat.min n (String.length s).
Proof.
  induction n as [|n IH]; intros [|c s]; simpl; try reflexivity.
  now rewrite IH.
Qed.

Lemma length_bits_in_prefix : forall p,
    (prefixlen p <= max_prefixlen (ver p))%nat ->
    String.length (bits_in_prefix p) = prefixlen p.
Proof.
  intros p H. unfold bits_in_prefix. rewrite length_take, length_format_b. lia.
Qed.

Lemma take_prefix_of_take : forall m n s,
    (m <= n)%nat -> prefix_of (take m s) (take n s) = true.
Proof.
  intros m n s H. unfold prefix_of. apply String.eqb_eq. revert n s H.
  induction m as [|m IH]; intros [|n] [|c s] H; simpl; try reflexivity; try lia.
  rewrite Ascii.eqb_refl. f_equal. apply IH. lia.
Qed.

Lemma take_format_b_bits : forall w n a b,
    (n <= w)%nat -> take n (format_b w a) = take n (format_b w b) ->
    forall j, Z.of_nat (w - n) <= j < Z.of_nat w -> Z.testbit a j = Z.testbit b j.
Proof.
  induction w as [|w IH]; intros n a b Hn E j Hj; [simpl in Hj; lia|].
  destruct n as [|n]; [simpl in Hj; lia|].
  cbn [format_b take] in E. injection E as Eh Et.
  destruct (Z.eq_dec j (Z.of_nat w)) as [->|Nj].
  - destruct (Z.testbit a (Z.of_nat w)), (Z.testbit b (Z.of_nat w));
      try reflexivity; discriminate Eh.
  - apply (IH n a b); [lia | assumption |].
    replace (S w - S n)%nat with (w - n)%nat in Hj by lia. lia.
Qed.

Lemma testbit_above : forall a w j,
    0 <= a < 2 ^ w -> w <= j -> Z.testbit a j = false.
Proof.
  intros a w j [Lo Hi] Hj. destruct (Z.eq_dec a 0) as [->|Na];
    [apply Z.bits_0|].
  apply Z.bits_above_log2; [lia|].
  assert (Z.log2 a < w); [|lia]. apply Z.log2_lt_pow2; lia.
Qed.

(** The addresses that agree with a network on the bits of its prefix are
    the addresses of the network. *)
Lemma address_in_of_bits : forall p b,
    valid_network p -> 0 <= b < 2 ^ Z.of_nat (max_prefixlen (ver p)) ->
    (forall j, Z.of_nat (hostbits p) <= j < Z.of_nat (max_prefixlen (ver p)) ->
               Z.testbit (network_address p) j = Z.testbit b j) ->
    address_in b p.
Proof.
  intros p b V Hb H. pose proof (aligned_mod p V) as Em.
  pose proof (broadcast_is_sum p V) as Eb.
  destruct V as (Hl & Hn & _).
  set (h := Z.of_nat (hostbits p)) in *.
  set (w := Z.of_nat (max_prefixlen (ver p))) in *.
  assert (Hh : 0 <= h) by (unfold h; lia).
  assert (P : 0 < 2 ^ h) by (apply Z.pow_pos_nonneg; lia).
  assert (Ed : network_address p / 2 ^ h = b / 2 ^ h).
  { apply Z.bits_inj'. intros i Hi. rewrite !Z.div_pow2_bits by lia.
    destruct (Z_lt_dec (i + h) w) as [Lt|Ge].
    - apply H. lia.
    - rewrite (testbit_above _ w), (testbit_above b w) by lia. reflexivity. }
  unfold address_in. rewrite Eb.
  pose proof (Z.div_mod (network_address p) (2 ^ h)).
  pose proof (Z.div_mod b (2 ^ h)).
  pose proof (Z.mod_pos_bound b (2 ^ h) P). rewrite Ed in *. lia.
Qed.

Lemma prefixes_same_length : forall a b s,
    prefix_of a s = true -> prefix_of b s = true ->
    String.length a = String.length b -> a = b.
Proof.
  intros a b s Ha Hb. apply prefix_of_iff in Ha, Hb.
  destruct Ha as [x ->]. destruct Hb as [y E]. revert b E.
  induction a as [|c a IH]; intros [|d b] E L; simpl in *; try reflexivity; try lia.
  injection E as -> E. f_equal. apply IH; [assumption | lia].
Qed.

Lemma pow2_split : forall a b : nat,
    (a <= b)%nat -> 2 ^ Z.of_nat b = 2 ^ Z.of_nat a * 2 ^ Z.of_nat (b - a).
Proof.
  intros a b H. rewrite <- Z.pow_add_r by lia. f_equal. lia.
Qed.

(** A network whose bits begin with the bits of [p] lies inside [p]. *)
Lemma inside_of_bits : forall p q,
    valid_network p -> valid_network q -> ver p = ver q ->
    prefix_of (bits_in_prefix p) (bits_in_prefix q) = true ->
    network_address p <= network_address q
    /\ broadcast_address q <= broadcast_address p.
Proof.
  intros p q Vp Vq Ev P.
  pose proof (proj1 Vp) as Lp. pose proof (proj1 Vq) as Lq.
  pose proof (prefix_of_length _ _ P) as L.
  rewrite !length_bits_in_prefix in L by assumption.
  assert (Et : take (prefixlen p)
                    (format_b (max_prefixlen (ver p)) (network_address p))
               = take (prefixlen p)
                      (format_b (max_prefixlen (ver p)) (network_address q))).
  { apply (prefixes_same_length _ _ (bits_in_prefix q) P).
    - unfold bits_in_prefix. rewrite <- Ev. now apply take_prefix_of_take.
    - unfold bits_in_prefix. rewrite !length_take, !length_format_b. reflexivity. }
  assert (A : address_in (network_address q) p).
  { apply address_in_of_bits; [assumption | |].
    - rewrite Ev. apply Vq.
    - intros j Hj. apply (take_format_b_bits _ _ _ _ Lp Et). unfold hostbits in Hj.
      lia. }
  destruct A as [Lo Hi]. split; [exact Lo|].
  rewrite (broadcast_is_sum p Vp) in *. rewrite (broadcast_is_sum q Vq).
  pose proof (aligned_mod p Vp) as Mp. pose proof (aligned_mod q Vq) as Mq.
  assert (Hh : (hostbits q <= hostbits p)%nat) by (unfold hostbits; rewrite Ev; lia).
  rewrite (pow2_split _ _ Hh) in *.
  set (X := 2 ^ Z.of_nat (hostbits q)) in *.
  set (D := 2 ^ Z.of_nat (hostbits p - hostbits q)) in *.
  assert (PX : 0 < X) by (apply Z.pow_pos_nonneg; lia).
  assert (PD : 0 < D) by (apply Z.pow_pos_nonneg; lia).
  apply Z.mod_divide in Mp; [|nia]. apply Z.mod_divide in Mq; [|lia].
  destruct Mp as [a Ea]. destruct Mq as [b Eb]. rewrite Ea, Eb in *.
  assert (b - a * D < D) by nia. nia.
Qed.

(** The bits of a network inside [p] begin with the bits of [p]. *)
Lemma bits_of_inside : forall p q,
    valid_network p -> valid_network q -> ver p = ver q ->
    network_address p <= network_address q ->
    broadcast_address q <= broadcast_address p ->
    prefix_of (bits_in_prefix p) (bits_in_prefix q) = true.
Proof.
  intros p q Vp Vq Ev Lo Hi.
  assert (A : address_in (network_address q) p).
  { split; [assumption|]. rewrite (broadcast_is_sum q Vq) in Hi.
    assert (0 < 2 ^ Z.of_nat (hostbits q)) by (apply Z.pow_pos_nonneg; lia). lia. }
  assert (Hh : (hostbits q <= hostbits p)%nat).
  { rewrite (broadcast_is_sum p Vp), (broadcast_is_sum q Vq) in Hi.
    apply Nat2Z.inj_le. apply (Z.pow_le_mono_r_iff 2); lia. }
  pose proof (proj1 Vp) as Lp. pose proof (proj1 Vq) as Lq.
  unfold bits_in_prefix.
  rewrite (format_b_take _ _ (network_address p) (network_address q)).
  - rewrite Ev. apply take_prefix_of_take. unfold hostbits in Hh.
    rewrite Ev in Hh, Lp. lia.
  - intros j Hj. apply high_bits_of_address; auto. unfold hostbits. lia.
Qed.

(** For networks of one version as [ip_network] builds them:
    [bits_in_prefix] returns as many bits as the prefix is long;
    [int_prefix_boundaries] returns the first address and, two to the number
    of host bits less one further, the last; the bits of [p] begin the bits of
    [q] exactly when the boundaries of [q] lie within those of [p]; and two
    networks with the same bits are the same network. *)
Theorem bits_in_prefix_spells_subnets :
  forall p q : network,
    valid_network p -> valid_network q -> ver p = ver q ->
    String.length (bits_in_prefix p) = prefixlen p
    /\ snd (int_prefix_boundaries p)
       = fst (int_prefix_boundaries p) + 2 ^ Z.of_nat (hostbits p) - 1
    /\ (prefix_of (bits_in_prefix p) (bits_in_prefix q) = true
        <-> fst (int_prefix_boundaries p) <= fst (int_prefix_boundaries q)
            /\ snd (int_prefix_boundaries q) <= snd (int_prefix_boundaries p))
    /\ (bits_in_prefix p = bits_in_prefix q -> p = q).
Proof.
  intros p q Vp Vq Ev. cbn [int_prefix_boundaries fst snd].
  split; [apply length_bits_in_prefix, Vp|].
  split; [now apply broadcast_is_sum|]. split.
  - split; [now apply inside_of_bits|].
    intros [Lo Hi]. now apply bits_of_inside.
  - intros E.
    assert (P : prefix_of (bits_in_prefix p) (bits_in_prefix q) = true)
      by (rewrite E; apply prefix_of_refl).
    assert (Q : prefix_of (bits_in_prefix q) (bits_in_prefix p) = true)
      by (rewrite E; apply prefix_of_refl).
    apply inside_of_bits in P; auto. apply inside_of_bits in Q; auto.
    apply (f_equal String.length) in E.
    rewrite !length_bits_in_prefix in E by (apply Vp || apply Vq).
    destruct p as [vp ap lp], q as [vq aq lq]. cbn in *. subst.
    f_equal. lia.
Qed.

Lemma bits_in_prefix_spells_subnets_witness :
  let p := net4 10 0 0 0 8 in
  let q := net4 10 128 0 0 9 in
  String.length (bits_in_prefix p) = 8%nat
  /\ prefix_of (bits_in_prefix p) (bits_in_prefix q) = true
  /\ fst (int_prefix_boundaries p) <= fst (int_prefix_boundaries q)
  /\ snd (int_prefix_boundaries q) <= snd (int_prefix_boundaries p).
Proof.
  assert (Vp : valid_network (net4 10 0 0 0 8))
    by (repeat split; vm_compute; (lia || discriminate || reflexivity)).
  assert (Vq : valid_network (net4 10 128 0 0 9))
    by (repeat split; vm_compute; (lia || discriminate || reflexivity)).
  destruct (bits_in_prefix_spells_subnets _ _ Vp Vq eq_refl) as (L & _ & [S _] & _).
  split; [exact L|]. split; [vm_compute; reflexivity|].
  apply S. vm_compute. reflexivity.
Defined.

(** ** [get] of an address *)

Lemma is_valid_network_spec : forall p,
    is_valid_network p = true <-> valid_network p.
Proof.
  intros p. unfold is_valid_network, valid_network.
  rewrite !andb_true_iff, Nat.leb_le, Z.leb_le, Z.ltb_lt, Z.eqb_eq. tauto.
Qed.

Lemma In_routes_of : forall o r,
    In r (routes_of o)
    <-> exists path routes, In (path, routes) (stored o) /\ In r routes.
Proof.
  intros o r. unfold routes_of. rewrite in_concat. split.
  - intros (routes & Hl & Hr). apply in_map_iff in Hl.
    destruct Hl as ([path routes'] & E & Hin). cbn in E. subst routes'. eauto.
  - intros (path & routes & Hin & Hr). exists routes. split; [|exact Hr].
    apply in_map_iff. exists (path, routes). auto.
Qed.

Lemma of_version_spec : forall v o path routes,
    of_version v o = true -> In (path, routes) (stored o) ->
    routes <> []
    /\ forall r, In r routes ->
                 ver (_prefix r) = v /\ valid_network (_prefix r)
                 /\ bits_in_prefix (_prefix r) = path.
Proof.
  intros v o path routes H Hin. unfold of_version in H.
  rewrite forallb_forall in H. specialize (H _ Hin). cbn [fst snd] in H.
  apply andb_prop in H. destruct H as [Ne F]. split.
  - intros ->. discriminate Ne.
  - intros r Hr. rewrite forallb_forall in F. specialize (F _ Hr).
    rewrite !andb_true_iff in F. destruct F as [[Ev V] Eb].
    apply version_eqb_eq in Ev. apply is_valid_network_spec in V.
    apply String.eqb_eq in Eb. auto.
Qed.

Lemma of_version_intro : forall v o,
    (forall path routes,
        In (path, routes) (stored o) ->
        routes <> []
        /\ forall r, In r routes ->
                     ver (_prefix r) = v /\ valid_network (_prefix r)
                     /\ bits_in_prefix (_prefix r) = path) ->
    of_version v o = true.
Proof.
  intros v o H. unfold of_version. apply forallb_forall.
  intros [path routes] Hin. cbn [fst snd].
  destruct (H _ _ Hin) as [Ne F]. apply andb_true_intro. split.
  - destruct routes; [now elim Ne | reflexivity].
  - apply forallb_forall. intros r Hr. destruct (F _ Hr) as (Ev & V & Eb).
    rewrite !andb_true_iff. repeat split.
    + now apply version_eqb_eq.
    + now apply is_valid_network_spec.
    + now apply String.eqb_eq.
Qed.

Lemma bits_in_prefix_inj : forall p q,
    valid_network p -> valid_network q -> ver p = ver q ->
    bits_in_prefix p = bits_in_prefix q -> p = q.
Proof.
  intros p q Vp Vq Ev E.
  assert (P : prefix_of (bits_in_prefix p) (bits_in_prefix q) = true)
    by (rewrite E; apply prefix_of_refl).
  assert (Q : prefix_of (bits_in_prefix q) (bits_in_prefix p) = true)
    by (rewrite E; apply prefix_of_refl).
  apply inside_of_bits in P; auto. apply inside_of_bits in Q; auto.
  apply (f_equal String.length) in E.
  rewrite !length_bits_in_prefix in E by (apply Vp || apply Vq).
  destruct p as [vp ap lp], q as [vq aq lq]. cbn in *. subst.
  f_equal. lia.
Qed.

Lemma host_valid : forall v address,
    0 <= address < 2 ^ Z.of_nat (max_prefixlen v) -> valid_network (host v address).
Proof.
  intros v address R. unfold valid_network, host, hostmask, hostbits.
  cbn [ver network_address prefixlen]. rewrite Nat.sub_diag.
  split; [lia|]. split; [exact R|]. cbn. apply Z.land_0_r.
Qed.

Lemma address_of_bits : forall p address,
    valid_network p -> 0 <= address < 2 ^ Z.of_nat (max_prefixlen (ver p)) ->
    prefix_of (bits_in_prefix p) (bits_in_prefix (host (ver p) address)) = true ->
    address_in address p.
Proof.
  intros p address V R P.
  apply inside_of_bits in P; [|exact V|now apply host_valid|reflexivity].
  unfold address_in. destruct P as [Lo Hi]. split; [exact Lo|].
  replace (broadcast_address (host (ver p) address)) with address in Hi; [exact Hi|].
  unfold broadcast_address, host, hostmask, hostbits.
  cbn [ver network_address prefixlen]. rewrite Nat.sub_diag. cbn.
  now rewrite Z.lor_0_r.
Qed.

Lemma cover_of_match : forall o v address routes,
    radix_wf o = true -> of_version v o = true ->
    0 <= address < 2 ^ Z.of_nat (max_prefixlen v) ->
    longest_match (stored o) (bits_in_prefix (host v address)) routes ->
    longest_cover o v address routes.
Proof.
  intros o v address routes W F R [(path & Hin & P & M)|[-> N]].
  - destruct (of_version_spec _ _ _ _ F Hin) as [Ne Fr].
    destruct routes as [|r0 rest] eqn:Er; [now elim Ne|]. rewrite <- Er in *.
    assert (H0 : In r0 routes) by (rewrite Er; now left).
    destruct (Fr _ H0) as (Ev0 & V0 & Eb0).
    left. exists (_prefix r0).
    assert (A0 : address_in address (_prefix r0)).
    { apply address_of_bits; [exact V0 | now rewrite Ev0 | now rewrite Ev0, Eb0]. }
    split; [exact Ev0|]. split; [exact A0|]. split; [exact Ne|]. split.
    { rewrite Eb0. symmetry. now apply bucket_at_In. }
    split.
    + intros r Hr. apply In_routes_of in Hr.
      destruct Hr as (path' & routes' & Hin' & Hr').
      destruct (of_version_spec _ _ _ _ F Hin') as [_ Fr'].
      destruct (Fr' _ Hr') as (Ev & V & Eb). split.
      * intros Hr0. destruct (Fr _ Hr0) as (_ & _ & Eb1).
        apply bits_in_prefix_inj; congruence.
      * intros E. assert (Ep : path' = path) by congruence. rewrite Ep in Hin'.
        now rewrite (stored_functional _ _ _ _ W Hin Hin').
    + intros r Hr [Ev A]. apply In_routes_of in Hr.
      destruct Hr as (path' & routes' & Hin' & Hr').
      destruct (of_version_spec _ _ _ _ F Hin') as [_ Fr'].
      destruct (Fr' _ Hr') as (_ & V & Eb).
      pose proof (bits_of_address _ _ V A) as P'. rewrite Ev, Eb in P'.
      pose proof (M _ _ Hin' P') as L.
      rewrite <- Eb, <- Eb0 in L.
      rewrite !length_bits_in_prefix in L by (apply V || apply V0). exact L.
  - right. split; [reflexivity|]. intros r Hr [Ev A]. apply In_routes_of in Hr.
    destruct Hr as (path' & routes' & Hin' & Hr').
    destruct (of_version_spec _ _ _ _ F Hin') as [_ Fr'].
    destruct (Fr' _ Hr') as (_ & V & Eb).
    pose proof (bits_of_address _ _ V A) as P'. rewrite Ev, Eb in P'.
    rewrite (N _ _ Hin') in P'. discriminate P'.
Qed.

Lemma replaced_of_version : forall v bits left before after,
    replaced bits left before after -> of_version v before = true ->
    (forall r, In r left ->
               ver (_prefix r) = v /\ valid_network (_prefix r)
               /\ bits_in_prefix (_prefix r) = bits) ->
    of_version v after = true.
Proof.
  intros v bits left before after [Else Here] F L. apply of_version_intro.
  intros path routes Hin. destruct (String.eqb_spec path bits) as [->|Ne].
  - apply Here in Hin. destruct Hin as [-> Nl]. auto.
  - apply (Else _ _ Ne) in Hin. apply (of_version_spec _ _ _ _ F Hin).
Qed.

Lemma add_keeps_of_version : forall (T : RoutingTable) (wf : obj -> bool),
    (forall o, wf o = true -> radix_wf o = true) ->
    add_changes_one_list T wf -> add_keeps_version T wf.
Proof.
  intros T wf Rw A t t' prefix attrs W F V E.
  pose proof (A t t' prefix attrs W E) as Rp. cbv zeta in Rp.
  apply (replaced_of_version _ _ _ _ _ Rp F).
  assert (B : forall r, In r (bucket_at (_root t) (bits_in_prefix prefix)) ->
                        ver (_prefix r) = ver prefix /\ valid_network (_prefix r)
                        /\ bits_in_prefix (_prefix r) = bits_in_prefix prefix).
  { intros r Hr.
    destruct (bucket_at_cases (_root t) (bits_in_prefix prefix)) as [[routes Hin]|No].
    - rewrite (bucket_at_In _ _ _ (Rw _ W) Hin) in Hr.
      now apply (of_version_spec _ _ _ _ F Hin).
    - rewrite (bucket_at_none _ _ No) in Hr. destruct Hr. }
  intros r Hr.
  destruct (route_in _ _); [now apply B|].
  apply in_app_or in Hr. destruct Hr as [Hr|[<-|[]]]; [now apply B|].
  cbn [_prefix]. auto.
Qed.

(** C3: on a well-formed table of either tree [get] returns the routes with
    all [attrs] of the list stored under the longest stored bits that begin
    the bits of the queried prefix, and the empty list when no stored bits
    do.  On a table of one address family, [get] of an address of that
    family with the full length returns the routes with all [attrs] of the
    list of the longest stored prefix that covers the address, and the empty
    list when no stored prefix covers it; the empty table is of either
    family and [add] of a prefix of a family keeps a table of that family. *)
Theorem get_is_longest_prefix_match :
  (get_longest_match PrefixTree prefix_wf /\ get_longest_match RadixTree radix_wf)
  /\ (get_longest_cover PrefixTree prefix_wf /\ get_longest_cover RadixTree radix_wf)
  /\ (forall v, of_version v (_root init) = true)
  /\ (add_keeps_version PrefixTree prefix_wf /\ add_keeps_version RadixTree radix_wf).
Proof.
  split; [|split; [|split]].
  - split; intros t prefix attrs W.
    + now apply prefix_get_match.
    + now apply radix_get_match.
  - split; intros t v address attrs W F R.
    + destruct (prefix_get_match t (host v address) attrs W) as (routes & E & M).
      exists routes. split; [exact E|].
      apply cover_of_match; auto using prefix_wf_radix_wf.
    + destruct (radix_get_match t (host v address) attrs W) as (routes & E & M).
      exists routes. split; [exact E|]. now apply cover_of_match.
  - reflexivity.
  - split.
    + apply add_keeps_of_version; [apply prefix_wf_radix_wf | apply add_one_list].
    + apply add_keeps_of_version; [auto | apply add_one_list].
Qed.

Lemma get_is_longest_prefix_match_witness :
  let tp := fst (run PrefixTree sample_calls) in
  let tr := fst (run RadixTree sample_calls) in
  let address := 10 * 2 ^ 24 + 1 * 2 ^ 16 + 2 * 2 ^ 8 + 3 in
  ((exists routes,
       get PrefixTree tp (host V4 address) (dev "b")
       = Ok (objs_with_all_attrs routes (dev "b"))
       /\ longest_match (stored (_root tp)) (bits_in_prefix (host V4 address)) routes)
   /\ exists routes,
       get PrefixTree tp (host V4 address) (dev "b")
       = Ok (objs_with_all_attrs routes (dev "b"))
       /\ longest_cover (_root tp) V4 address routes)
  /\ ((exists routes,
          get RadixTree tr (host V4 address) (dev "b")
          = Ok (objs_with_all_attrs routes (dev "b"))
          /\ longest_match (stored (_root tr)) (bits_in_prefix (host V4 address)) routes)
      /\ exists routes,
          get RadixTree tr (host V4 address) (dev "b")
          = Ok (objs_with_all_attrs routes (dev "b"))
          /\ longest_cover (_root tr) V4 address routes)
  /\ of_version V4 (_root tp) = true
  /\ of_version V4 (_root tr) = true.
Proof.
  assert (R : 0 <= 10 * 2 ^ 24 + 1 * 2 ^ 16 + 2 * 2 ^ 8 + 3
              < 2 ^ Z.of_nat (max_prefixlen V4)) by (cbn; lia).
  split; [|split; [|split; vm_compute; reflexivity]]; split.
  - apply (proj1 (proj1 get_is_longest_prefix_match)). vm_compute. reflexivity.
  - apply (proj1 (proj1 (proj2 get_is_longest_prefix_match)));
      [vm_compute; reflexivity | vm_compute; reflexivity | exact R].
  - apply (proj2 (proj1 get_is_longest_prefix_match)). vm_compute. reflexivity.
  - apply (proj2 (proj1 (proj2 get_is_longest_prefix_match)));
      [vm_compute; reflexivity | vm_compute; reflexivity | exact R].
Defined.

(** C3 as stated fails on a table that holds both address families.  After
    [add 10.0.0.0/8] and [add a80::/9] both trees are well formed and hold
    each route under the bits of its prefix; the address [10.128.0.1] is in
    [10.0.0.0/8], the one stored prefix that covers it, and its bits begin
    with the nine bits of [a80::/9]: [get] of [10.128.0.1/32] returns the
    route of [a80::/9], which does not cover the address, and not the list
    of [10.0.0.0/8]. *)
Lemma get_returns_route_of_other_family :
  let p4 := net4 10 0 0 0 8 in
  let p6 := Network V6 (2688 * 2 ^ 112) 9 in
  let r4 := mkRoute p4 (dev "a") in
  let r6 := mkRoute p6 (dev "b") in
  let address := 10 * 2 ^ 24 + 128 * 2 ^ 16 + 1 in
  let calls := [CAdd p4 (dev "a"); CAdd p6 (dev "b")] in
  let tp := fst (run PrefixTree calls) in
  let tr := fst (run RadixTree calls) in
  (valid_network p4 /\ valid_network p6
   /\ covers r4 V4 address /\ ~ covers r6 V4 address)
  /\ (prefix_wf (_root tp) = true
      /\ stored (_root tp)
         = [(bits_in_prefix p4, [r4]); (bits_in_prefix p6, [r6])]
      /\ get PrefixTree tp (host V4 address) [] = Ok [r6]
      /\ ~ longest_cover (_root tp) V4 address [r6]
      /\ longest_cover (_root tp) V4 address [r4])
  /\ (radix_wf (_root tr) = true /\ canonical tr = true
      /\ stored (_root tr)
         = [(bits_in_prefix p4, [r4]); (bits_in_prefix p6, [r6])]
      /\ get RadixTree tr (host V4 address) [] = Ok [r6]
      /\ ~ longest_cover (_root tr) V4 address [r6]
      /\ longest_cover (_root tr) V4 address [r4]).
Proof.
  assert (N : forall o,
             In (mkRoute (Network V6 (2688 * 2 ^ 112) 9) (dev "b")) (routes_of o) ->
             ~ longest_cover o V4 (10 * 2 ^ 24 + 128 * 2 ^ 16 + 1)
                 [mkRoute (Network V6 (2688 * 2 ^ 112) 9) (dev "b")]).
  { intros o Hin [(p & Ev & _ & _ & _ & Same & _)|[E _]]; [|discriminate E].
    assert (E : _prefix (mkRoute (Network V6 (2688 * 2 ^ 112) 9) (dev "b")) = p)
      by (apply (Same _ Hin); now left).
    rewrite <- E in Ev. discriminate Ev. }
  assert (A : address_in (10 * 2 ^ 24 + 128 * 2 ^ 16 + 1) (net4 10 0 0 0 8)).
  { unfold address_in, broadcast_address, hostmask, hostbits. cbn. lia. }
  assert (Y : forall o,
             routes_of o = [mkRoute (net4 10 0 0 0 8) (dev "a");
                            mkRoute (Network V6 (2688 * 2 ^ 112) 9) (dev "b")] ->
             bucket_at o (bits_in_prefix (net4 10 0 0 0 8))
             = [mkRoute (net4 10 0 0 0 8) (dev "a")] ->
             longest_cover o V4 (10 * 2 ^ 24 + 128 * 2 ^ 16 + 1)
               [mkRoute (net4 10 0 0 0 8) (dev "a")]).
  { intros o Er Eb. left. exists (net4 10 0 0 0 8).
    split; [reflexivity|]. split; [exact A|]. split; [discriminate|].
    split; [now rewrite Eb|]. rewrite Er. split.
    - intros r [<-|[<-|[]]]; split; try reflexivity.
      + now left.
      + intros [E|[]]. discriminate E.
      + intros E. discriminate E.
    - intros r [<-|[<-|[]]] [Ev _]; [cbn; lia | discriminate Ev]. }
  split; [|split].
  - split; [|split; [|split]].
    + apply is_valid_network_spec. vm_compute. reflexivity.
    + apply is_valid_network_spec. vm_compute. reflexivity.
    + split; [reflexivity | exact A].
    + intros [Ev _]. discriminate Ev.
  - split; [vm_compute; reflexivity|]. split; [vm_compute; reflexivity|].
    split; [vm_compute; reflexivity|].
    split; [apply N; vm_compute; auto | apply Y; vm_compute; reflexivity].
  - split; [vm_compute; reflexivity|]. split; [vm_compute; reflexivity|].
    split; [vm_compute; reflexivity|].
    split; [vm_compute; reflexivity|].
    split; [apply N; vm_compute; auto | apply Y; vm_compute; reflexivity].
Qed.

(** ** [wcmatch] *)

Lemma testbit_ones : forall n i,
    0 <= n -> 0 <= i -> Z.testbit (2 ^ n - 1) i = (i <? n).
Proof.
  intros n i Hn Hi. replace (2 ^ n - 1) with (Z.ones n)
    by (rewrite Z.ones_equiv; lia).
  destruct (Z.ltb_spec i n).
  - apply Z.ones_spec_low. lia.
  - apply Z.ones_spec_high. lia.
Qed.

Lemma testbit_aligned : forall a n i,
    0 <= n -> a mod 2 ^ n = 0 -> 0 <= i < n -> Z.testbit a i = false.
Proof.
  intros a n i Hn Hm Hi. rewrite <- (Z.mod_pow2_bits_low a n i) by lia.
  rewrite Hm. apply Z.bits_0.
Qed.

Lemma same_block_bits : forall a s b,
    0 <= b ->
    (a / 2 ^ b = s / 2 ^ b
     <-> forall i, b <= i -> Z.testbit a i = Z.testbit s i).
Proof.
  intros a s b Hb. split.
  - intros E i Hi. replace i with ((i - b) + b) by lia.
    rewrite <- !Z.div_pow2_bits by lia. now rewrite E.
  - intros H. apply Z.bits_inj'. intros i Hi.
    rewrite !Z.div_pow2_bits by lia. apply H. lia.
Qed.

(** For two aligned blocks of addresses of sizes [2 ^ m <= 2 ^ n], the test
    of [wcmatch] says that they agree on the bits above the larger one. *)
Lemma wildcard_test_bits : forall a m s n,
    0 <= m <= n -> a mod 2 ^ m = 0 -> s mod 2 ^ n = 0 ->
    (Z.land a (Z.lor s (2 ^ n - 1)) = a /\ Z.land s (Z.lor a (2 ^ m - 1)) = s
     <-> a / 2 ^ n = s / 2 ^ n).
Proof.
  intros a m s n Hmn Ma Ms. rewrite same_block_bits by lia. split.
  - intros [E1 E2] i Hi.
    apply (f_equal (fun z => Z.testbit z i)) in E1, E2.
    rewrite Z.land_spec, Z.lor_spec, testbit_ones in E1, E2 by lia.
    destruct (Z.ltb_spec i n); [lia|]. destruct (Z.ltb_spec i m); [lia|].
    destruct (Z.testbit a i), (Z.testbit s i); cbn in *; congruence.
  - intros H. split; apply Z.bits_inj'; intros i Hi;
      rewrite Z.land_spec, Z.lor_spec, testbit_ones by lia.
    + destruct (Z.ltb_spec i n).
      * now rewrite orb_true_r, andb_true_r.
      * rewrite (H i) by lia. now destruct (Z.testbit s i).
    + destruct (Z.ltb_spec i n) as [Lt|Ge].
      * now rewrite (testbit_aligned s n i) by lia.
      * rewrite (H i) by lia. now destruct (Z.testbit s i).
Qed.

(** The same in terms of the ranges: the smaller block lies within the
    larger one. *)
Lemma same_block_within : forall a m s n,
    0 <= m <= n -> a mod 2 ^ m = 0 -> s mod 2 ^ n = 0 ->
    (a / 2 ^ n = s / 2 ^ n
     <-> within (a, a + 2 ^ m - 1) (s, s + 2 ^ n - 1)).
Proof.
  intros a m s n Hmn Ma Ms. unfold within. cbn [fst snd].
  assert (Pm : 0 < 2 ^ m) by (apply Z.pow_pos_nonneg; lia).
  assert (Pn : 0 < 2 ^ n) by (apply Z.pow_pos_nonneg; lia).
  assert (En : 2 ^ n = 2 ^ m * 2 ^ (n - m))
    by (rewrite <- Z.pow_add_r by lia; f_equal; lia).
  assert (Pd : 0 < 2 ^ (n - m)) by (apply Z.pow_pos_nonneg; lia).
  pose proof (Z.div_mod s (2 ^ n)) as Ds. pose proof (Z.div_mod a (2 ^ n)) as Da.
  pose proof (Z.mod_pos_bound a (2 ^ n) Pn) as Ba.
  split.
  - intros E. rewrite E in Da.
    assert (Hr : 0 <= a - s < 2 ^ n) by lia. split; [lia|].
    clear Ds Da Ba E.
    apply Z.mod_divide in Ma; [|lia]. destruct Ma as [a' Ea].
    apply Z.mod_divide in Ms; [|lia]. destruct Ms as [s' Es].
    rewrite En in *.
    set (X := 2 ^ m) in *. set (D := 2 ^ (n - m)) in *.
    subst a s. assert (a' - s' * D < D) by nia. nia.
  - intros [Lo Hi]. symmetry.
    apply (Z.div_unique a (2 ^ n) (s / 2 ^ n) (a - s)); [left; lia | lia].
Qed.

Lemma pow2_le_hostbits : forall m n : nat,
    2 ^ Z.of_nat m <= 2 ^ Z.of_nat n -> (m <= n)%nat.
Proof.
  intros m n H. apply Nat2Z.inj_le. apply (Z.pow_le_mono_r_iff 2); lia.
Qed.

Lemma wildcard_test_nested : forall (a s : Z) (m n : nat),
    a mod 2 ^ Z.of_nat m = 0 -> s mod 2 ^ Z.of_nat n = 0 ->
    (Z.land a (Z.lor s (2 ^ Z.of_nat n - 1)) = a
     /\ Z.land s (Z.lor a (2 ^ Z.of_nat m - 1)) = s
     <-> nested (a, a + 2 ^ Z.of_nat m - 1) (s, s + 2 ^ Z.of_nat n - 1)).
Proof.
  intros a s m n Ma Ms.
  assert (Pm : 0 < 2 ^ Z.of_nat m) by (apply Z.pow_pos_nonneg; lia).
  assert (Pn : 0 < 2 ^ Z.of_nat n) by (apply Z.pow_pos_nonneg; lia).
  assert (Small : (m <= n)%nat ->
                  (Z.land a (Z.lor s (2 ^ Z.of_nat n - 1)) = a
                   /\ Z.land s (Z.lor a (2 ^ Z.of_nat m - 1)) = s
                   <-> within (a, a + 2 ^ Z.of_nat m - 1) (s, s + 2 ^ Z.of_nat n - 1))).
  { intros L. rewrite <- same_block_within by (lia || assumption).
    apply wildcard_test_bits; (lia || assumption). }
  assert (Large : (n <= m)%nat ->
                  (Z.land a (Z.lor s (2 ^ Z.of_nat n - 1)) = a
                   /\ Z.land s (Z.lor a (2 ^ Z.of_nat m - 1)) = s
                   <-> within (s, s + 2 ^ Z.of_nat n - 1) (a, a + 2 ^ Z.of_nat m - 1))).
  { intros L. rewrite <- same_block_within by (lia || assumption).
    rewrite <- (wildcard_test_bits s (Z.of_nat n) a (Z.of_nat m))
      by (lia || assumption).
    tauto. }
  unfold nested. split.
  - intros T. destruct (Nat.le_ge_cases m n) as [L|L].
    + left. now apply Small.
    + right. now apply Large.
  - intros [[Lo Hi]|[Lo Hi]]; cbn [fst snd] in Lo, Hi.
    + apply Small; [apply pow2_le_hostbits; lia | now split].
    + apply Large; [apply pow2_le_hostbits; lia | now split].
Qed.

(** With the address and the host mask of a network [q] as the wildcard
    range, the test of [wcmatch] holds of the routes whose range of addresses
    lies within the range of [q] or around it. *)
Lemma in_wildcard_nested : forall q route,
    valid_network q -> valid_network (_prefix route) ->
    in_wildcard (network_address q) (Z.lor (network_address q) (hostmask q)) route
    = true
    <-> nested (int_prefix_boundaries (_prefix route)) (int_prefix_boundaries q).
Proof.
  intros q route Vq Vr.
  replace (int_prefix_boundaries (_prefix route))
    with (network_address (_prefix route),
          network_address (_prefix route)
          + 2 ^ Z.of_nat (hostbits (_prefix route)) - 1)
    by (unfold int_prefix_boundaries; now rewrite (broadcast_is_sum _ Vr)).
  replace (int_prefix_boundaries q)
    with (network_address q, network_address q + 2 ^ Z.of_nat (hostbits q) - 1)
    by (unfold int_prefix_boundaries; now rewrite (broadcast_is_sum _ Vq)).
  rewrite <- (wildcard_test_nested _ _ _ _ (aligned_mod _ Vr) (aligned_mod _ Vq)).
  unfold in_wildcard, int_prefix_boundaries, broadcast_address, hostmask.
  now rewrite andb_true_iff, !Z.eqb_eq.
Qed.

(** On a well-formed table, [wcmatch(address, wildcard, attrs)] returns the
    sort of the stored routes with all [attrs] that pass its test on the
    integer boundaries.  With the address and the host mask of a network as
    [address] and [wildcard], the test passes exactly the routes whose range
    of addresses lies within the range of that network or around it; the
    version of the route plays no part. *)
Theorem wcmatch_returns_nested_ranges :
  (forall (t : table) (address wildcard : Z) (attrs : kwargs),
      radix_wf (_root t) = true ->
      exists c,
        Permutation c (filter (in_wildcard address (Z.lor address wildcard))
                              (objs_with_all_attrs (routes_of (_root t)) attrs))
        /\ wcmatch t address wildcard attrs = _sort c)
  /\ (forall (q : network) (route : Route),
         valid_network q -> valid_network (_prefix route) ->
         in_wildcard (fst (int_wildcard_boundaries (network_address q) (hostmask q)))
                     (snd (int_wildcard_boundaries (network_address q) (hostmask q)))
                     route = true
         <-> nested (int_prefix_boundaries (_prefix route))
                    (int_prefix_boundaries q)).
Proof.
  split.
  - intros t address wildcard attrs W. unfold wcmatch, int_wildcard_boundaries.
    destruct (traverse_yields _ attrs W) as (l & E & P). rewrite E. cbn [bind].
    exists (filter (in_wildcard address (Z.lor address wildcard)) l).
    split; [now apply filter_perm | reflexivity].
  - intros q route Vq Vr. cbn [int_wildcard_boundaries fst snd].
    now apply in_wildcard_nested.
Qed.

Lemma wcmatch_returns_nested_ranges_witness :
  let t := fst (run RadixTree sample_calls) in
  let q := net4 10 0 0 0 9 in
  let route := mkRoute (net4 10 1 0 0 16) (dev "b") in
  (exists c,
      Permutation c (filter (in_wildcard (network_address q)
                                         (Z.lor (network_address q) (hostmask q)))
                            (objs_with_all_attrs (routes_of (_root t)) []))
      /\ wcmatch t (network_address q) (hostmask q) [] = _sort c)
  /\ in_wildcard (network_address q) (Z.lor (network_address q) (hostmask q)) route
     = true.
Proof.
  assert (Vq : valid_network (net4 10 0 0 0 9))
    by (repeat split; vm_compute; (lia || discriminate || reflexivity)).
  assert (Vr : valid_network (net4 10 1 0 0 16))
    by (repeat split; vm_compute; (lia || discriminate || reflexivity)).
  split.
  - apply (proj1 wcmatch_returns_nested_ranges (fst (run RadixTree sample_calls))).
    vm_compute. reflexivity.
  - apply (proj2 wcmatch_returns_nested_ranges (net4 10 0 0 0 9)
             (mkRoute (net4 10 1 0 0 16) (dev "b")) Vq Vr).
    left. split; vm_compute; discriminate.
Defined.

(** ** [Route.__eq__] and the order of the keywords *)

Lemma option_value_eqb_eq : forall a b, option_value_eqb a b = true <-> a = b.
Proof.
  intros [x|] [y|]; simpl; split; intros H; try discriminate; try reflexivity.
  - now rewrite (value_eqb_eq _ _ H).
  - injection H as ->. apply value_eqb_refl.
Qed.

Lemma kwargs_eqb_iff : forall a b,
    kwargs_eqb a b = true <-> forall k, dget k a = dget k b.
Proof.
  intros a b. split.
  - intros H k. apply option_value_eqb_eq. now apply kwargs_eqb_dget.
  - intros H. unfold kwargs_eqb. apply andb_true_intro.
    split; apply forallb_forall; intros [k v] _; cbn [fst];
      rewrite (H k); apply option_value_eqb_refl.
Qed.

Lemma network_eqb_eq : forall a b, network_eqb a b = true <-> a = b.
Proof.
  intros [va aa la] [vb ab lb]. unfold network_eqb. cbn [ver network_address prefixlen].
  rewrite !andb_true_iff, Z.eqb_eq, Nat.eqb_eq, version_eqb_eq. split.
  - now intros [[-> ->] ->].
  - intros E. injection E as -> -> ->. auto.
Qed.

Lemma Route_eqb_iff : forall r1 r2,
    Route_eqb r1 r2 = true
    <-> _prefix r1 = _prefix r2
        /\ forall k, dget k (attributes r1) = dget k (attributes r2).
Proof.
  intros r1 r2. unfold Route_eqb.
  now rewrite andb_true_iff, network_eqb_eq, kwargs_eqb_iff.
Qed.

Lemma dget_perm : forall (a b : kwargs),
    nodup_keys a = true -> nodup_keys b = true -> Permutation a b ->
    forall k, dget k a = dget k b.
Proof.
  intros a b Na Nb P k.
  destruct (dget k a) as [v|] eqn:Ga.
  - symmetry. apply (In_dget _ _ _ Nb).
    apply (Permutation_in _ P). now apply dget_In.
  - destruct (dget k b) as [v|] eqn:Gb; [|reflexivity].
    apply dget_In in Gb. apply (Permutation_in _ (Permutation_sym P)) in Gb.
    apply (In_dget _ _ _ Na) in Gb. congruence.
Qed.

Lemma route_in_eqb : forall r r' routes,
    Route_eqb r r' = true -> route_in r routes = true -> route_in r' routes = true.
Proof.
  intros r r' routes E H. unfold route_in in *.
  apply existsb_exists in H. destruct H as (x & Hin & Ex).
  apply existsb_exists. exists x. split; [exact Hin|].
  apply Route_eqb_iff in E, Ex. apply Route_eqb_iff.
  destruct E as [E1 E2], Ex as [X1 X2]. split; [congruence|].
  intros k. now rewrite X2, E2.
Qed.

Lemma add_again_equal : forall (T : RoutingTable) (wf : obj -> bool),
    add_idempotent T wf ->
    forall t t' prefix attrs attrs',
      Route_eqb (mkRoute prefix attrs) (mkRoute prefix attrs') = true ->
      wf (_root t) = true -> add T t prefix attrs = Ok t' ->
      add T t' prefix attrs' = Ok t'.
Proof.
  intros T wf A t t' prefix attrs attrs' E W H.
  destruct (A t prefix attrs W) as (t0 & E0 & W' & _ & Ad).
  rewrite H in E0. injection E0 as <-.
  pose proof (route_in_eqb _ _ _ E (added_then_in _ _ _ _ _ _ Ad)) as In'.
  destruct (A t' prefix attrs' W') as (t2 & E2 & _ & _ & [A1 _]).
  destruct (A1 In') as [Er Ec]. rewrite E2. f_equal.
  destruct t2, t'. cbn in *. congruence.
Qed.

(** [Route.__eq__] compares the attributes as dictionaries, so the order of
    the keywords of [add] plays no part: two routes of one prefix with the
    same keywords in another order are equal, and on a well-formed table of
    either tree an [add] with them after the first [add] changes nothing. *)
Theorem add_ignores_keyword_order :
  forall (t t' : table) (prefix : network) (attrs attrs' : kwargs),
    nodup_keys attrs = true -> nodup_keys attrs' = true ->
    Permutation attrs attrs' ->
    Route_eqb (mkRoute prefix attrs) (mkRoute prefix attrs') = true
    /\ (prefix_wf (_root t) = true -> add PrefixTree t prefix attrs = Ok t' ->
        add PrefixTree t' prefix attrs' = Ok t')
    /\ (radix_wf (_root t) = true -> add RadixTree t prefix attrs = Ok t' ->
        add RadixTree t' prefix attrs' = Ok t').
Proof.
  intros t t' prefix attrs attrs' N N' P.
  assert (E : Route_eqb (mkRoute prefix attrs) (mkRoute prefix attrs') = true).
  { apply Route_eqb_iff. split; [reflexivity|]. now apply dget_perm. }
  split; [exact E|]. split; intros W H.
  - apply (add_again_equal PrefixTree prefix_wf prefix_add_idempotent
             t t' prefix attrs attrs' E W H).
  - apply (add_again_equal RadixTree radix_wf radix_add_idempotent
             t t' prefix attrs attrs' E W H).
Qed.

Lemma add_ignores_keyword_order_witness :
  let via := ("via"%string, VStr "10.0.0.1") in
  let eth := ("dev"%string, VStr "eth0") in
  let p := net4 10 64 0 0 10 in
  exists t',
    add RadixTree (fst (run RadixTree sample_calls)) p [via; eth] = Ok t'
    /\ add RadixTree t' p [eth; via] = Ok t'.
Proof.
  cbv zeta. eexists. split; [vm_compute; reflexivity|].
  refine (proj2 (proj2 (add_ignores_keyword_order
                          (fst (run RadixTree sample_calls)) _ (net4 10 64 0 0 10)
                          [("via"%string, VStr "10.0.0.1"); ("dev"%string, VStr "eth0")]
                          [("dev"%string, VStr "eth0"); ("via"%string, VStr "10.0.0.1")]
                          _ _ _)) _ _);
    try (vm_compute; reflexivity).
  apply perm_swap.
Defined.

(** ** The counter under [IPPrefixTree.delete] *)

Lemma routes_of_star : forall routes,
    routes_of (Dict [("*"%string, PList routes)]) = routes.
Proof. intros routes. unfold routes_of. cbn. now rewrite !app_nil_r. Qed.

Lemma prefix_delete_here_counts : forall items attrs counter below counter',
    prefix_wf (Dict items) = true ->
    IPPrefixTree.delete_here items attrs counter = Ok (below, counter') ->
    Z.of_nat (List.length (routes_of (left_of below)))
    - Z.of_nat (List.length (routes_of (Dict items))) = counter' - counter.
Proof.
  intros items attrs counter below counter' W H.
  pose proof (prefix_wf_radix_wf _ W) as RW.
  unfold IPPrefixTree.delete_here in H.
  destruct (dget "*" items) as [held|] eqn:G; [|discriminate H].
  destruct (radix_wf_routes _ _ RW G) as [bucket ->]. cbn [as_list bind] in H.
  assert (Del : Z.of_nat (List.length (routes_of (Dict (ddel "*" items))))
                - Z.of_nat (List.length (routes_of (Dict items)))
                = - Z.of_nat (List.length bucket)).
  { rewrite !routes_of_dict.
    pose proof (length_flat_ddel entry_routes "*" _ items G) as L.
    cbn in L. lia. }
  assert (Set_ : forall left,
             Z.of_nat (List.length (routes_of (Dict (dset "*" (PList left) items))))
             - Z.of_nat (List.length (routes_of (Dict items)))
             = Z.of_nat (List.length left) - Z.of_nat (List.length bucket)).
  { intros left. rewrite !routes_of_dict.
    pose proof (length_flat_dset_old entry_routes "*" (PList left) _ items G) as L.
    cbn in L. lia. }
  assert (Trim : (1 <? List.length items)%nat = false ->
                 Z.of_nat (List.length (routes_of (Dict [])))
                 - Z.of_nat (List.length (routes_of (Dict items)))
                 = - Z.of_nat (List.length bucket)).
  { intros Sh. rewrite (short_dict_star _ _ Sh G), routes_of_star. cbn. lia. }
  pose proof (kept_length bucket attrs) as Lk.
  destruct (truthy attrs) eqn:Ta.
  - rewrite remove_matching_kept in H. cbn [andb orb negb] in H.
    destruct (truthy (objs_with_all_attrs bucket attrs)); cbn [negb] in H;
      [|discriminate H].
    destruct (kept bucket attrs) as [|r left] eqn:Ek; cbn [truthy negb] in H.
    + destruct (1 <? List.length items)%nat eqn:Sh; injection H as <- <-;
        cbn [left_of]; [rewrite Del | rewrite (Trim eq_refl)]; simpl in *; lia.
    + injection H as <- <-. cbn [left_of]. rewrite Set_. lia.
  - cbn [andb orb negb] in H.
    destruct (1 <? List.length items)%nat eqn:Sh; injection H as <- <-;
      cbn [left_of]; [rewrite Del | rewrite (Trim eq_refl)]; lia.
Qed.

Lemma prefix_delete_walk_counts : forall bits items attrs counter below counter',
    prefix_wf (Dict items) = true -> is_bits bits = true ->
    IPPrefixTree.delete_walk bits items attrs counter = Ok (below, counter') ->
    Z.of_nat (List.length (routes_of (left_of below)))
    - Z.of_nat (List.length (routes_of (Dict items))) = counter' - counter.
Proof.
  induction bits as [|c bits IH]; intros items attrs counter below counter' W B H.
  - now apply (prefix_delete_here_counts items attrs).
  - simpl in B. apply andb_prop in B. destruct B as [Bc B].
    destruct (bit_of_char _ Bc) as [Bb Ns].
    cbn [IPPrefixTree.delete_walk] in H. cbv zeta in H.
    set (bit := String c EmptyString) in *.
    destruct (dget bit items) as [child|] eqn:G; [|discriminate H].
    pose proof (prefix_wf_child _ _ _ W G Ns) as Wc.
    destruct (prefix_wf_dict _ Wc) as [citems ->]. cbn [as_dict bind] in H.
    apply bind_ok in H. destruct H as ([b c'] & E & H).
    apply (IH _ _ _ _ _ Wc B) in E.
    destruct b as [child'|]; cbn [left_of] in E.
    + injection H as <- <-. cbn [left_of]. rewrite !routes_of_dict.
      pose proof (length_flat_dset_old entry_routes bit child' _ items G) as L.
      rewrite !entry_routes_edge in L by assumption. lia.
    + assert (E0 : routes_of (Dict []) = []) by reflexivity.
      rewrite E0 in *. cbn [List.length] in *.
      destruct (1 <? List.length items)%nat eqn:Sh; injection H as <- <-;
        cbn [left_of].
      * rewrite !routes_of_dict.
        pose proof (length_flat_ddel entry_routes bit _ items G) as L.
        rewrite entry_routes_edge in L by assumption. lia.
      * rewrite E0, (short_dict_edge _ _ _ Sh G), (routes_of_dict [_]).
        cbn [flat_map List.length]. rewrite app_nil_r, entry_routes_edge by assumption.
        lia.
Qed.

(** ** Tables built by calls *)

Lemma counted_iterated : forall t,
    radix_wf (_root t) = true -> counted t -> len_is_iterated t.
Proof.
  intros t W C. destruct (traverse_yields _ [] W) as (l & E & P).
  exists l. split; [exact E|]. rewrite objs_with_no_attrs in P.
  unfold len. rewrite C. f_equal. symmetry. now apply Permutation_length.
Qed.

Lemma prefix_add_keeps : forall t t' prefix attrs,
    prefix_wf (_root t) = true -> counted t ->
    add PrefixTree t prefix attrs = Ok t' ->
    prefix_wf (_root t') = true /\ counted t'.
Proof.
  intros t t' prefix attrs W C H. split.
  - destruct (prefix_add_idempotent t prefix attrs W) as (t0 & E & W' & _).
    rewrite H in E. now injection E as <-.
  - apply (proj1 (add_counted t t' prefix attrs C) W H).
Qed.

Lemma prefix_delete_keeps : forall t t' prefix attrs,
    prefix_wf (_root t) = true -> counted t ->
    delete PrefixTree t prefix attrs = Ok t' ->
    prefix_wf (_root t') = true /\ counted t'.
Proof.
  intros t t' prefix attrs W C H. split.
  - pose proof (prefix_delete_table t prefix attrs W C) as D. rewrite H in D.
    now destruct D as (bucket & _ & _ & W' & _).
  - simpl in H. unfold IPPrefixTree.delete in H. apply sanitize_ok in H.
    destruct (prefix_wf_dict _ W) as [items E]. rewrite E in *.
    cbn [as_dict bind] in H.
    apply bind_ok in H. destruct H as ([below c'] & Ew & H).
    apply (prefix_delete_walk_counts _ _ _ _ _ _ W (bits_in_prefix_is_bits prefix))
      in Ew.
    unfold counted in *. rewrite E in C.
    destruct below as [root'|]; injection H as <-; cbn [left_of _root _counter] in *.
    + lia.
    + reflexivity.
Qed.

Lemma prefix_exec_keeps : forall t c,
    plain_call c = true -> prefix_wf (_root t) = true -> counted t ->
    prefix_wf (_root (fst (exec PrefixTree t c))) = true
    /\ counted (fst (exec PrefixTree t c)).
Proof.
  intros t c Pc W C.
  destruct c as [p a|p a|p r a|p a|p a|p a|ad wc a|p a|[p|] a| |p|];
    cbn [exec fst]; try (split; assumption).
  - destruct (add PrefixTree t p a) as [t'|e] eqn:E; cbn [update fst];
      [now apply (prefix_add_keeps t t' p a) | now split].
  - destruct (delete PrefixTree t p a) as [t'|e] eqn:E; cbn [update fst];
      [now apply (prefix_delete_keeps t t' p a) | now split].
  - cbn [flush PrefixTree]. unfold IPPrefixTree_flush, flush_with.
    destruct (IPPrefixTree.delete t p a) as [t'|e] eqn:E; cbn [fst];
      [now apply (prefix_delete_keeps t t' p a) | now split].
  - cbn [flush PrefixTree]. unfold IPPrefixTree_flush, flush_with.
    cbn [plain_call] in Pc. rewrite Pc. cbn [fst _root]. now split.
Qed.

Lemma prefix_run_keeps : forall calls t,
    forallb plain_call calls = true -> prefix_wf (_root t) = true -> counted t ->
    prefix_wf (_root (fst (run_from PrefixTree t calls))) = true
    /\ counted (fst (run_from PrefixTree t calls)).
Proof.
  induction calls as [|c calls IH]; intros t F W C; [now split|].
  cbn [forallb] in F. apply andb_prop in F. destruct F as [Pc F].
  destruct (prefix_exec_keeps t c Pc W C) as [W' C'].
  cbn [run_from]. destruct (exec PrefixTree t c) as [t' a]. cbn [fst] in *.
  specialize (IH t' F W' C').
  destruct (run_from PrefixTree t' calls) as [final answers]. exact IH.
Qed.

(** A prefix tree built from the empty table by any calls but [flush] with
    attributes and no prefix is well formed, its counter is the number of the
    routes it stores, and [len(table)] is the number of the routes that
    iteration yields. *)
Theorem prefix_tree_stays_well_formed :
  forall calls : list call,
    forallb plain_call calls = true ->
    prefix_wf (_root (fst (run PrefixTree calls))) = true
    /\ counted (fst (run PrefixTree calls))
    /\ len_is_iterated (fst (run PrefixTree calls)).
Proof.
  intros calls F.
  destruct (prefix_run_keeps calls init F eq_refl eq_refl) as [W C].
  split; [exact W|]. split; [exact C|].
  apply counted_iterated; [now apply prefix_wf_radix_wf | exact C].
Qed.

Lemma prefix_tree_stays_well_formed_witness :
  let calls := sample_calls ++ [CDelete (net4 10 1 0 0 16) []; CLen;
                                CFlush (Some (net4 10 0 0 0 8)) (dev "a")] in
  prefix_wf (_root (fst (run PrefixTree calls))) = true
  /\ counted (fst (run PrefixTree calls))
  /\ len_is_iterated (fst (run PrefixTree calls)).
Proof.
  apply prefix_tree_stays_well_formed. vm_compute. reflexivity.
Defined.

Lemma radix_add_keeps : forall t t' prefix attrs,
    canonical t = true -> counted t ->
    add RadixTree t prefix attrs = Ok t' ->
    canonical t' = true /\ counted t'.
Proof.
  intros t t' prefix attrs Cn C H. split.
  - apply (proj2 radix_add_canonical t t' prefix attrs Cn H).
  - unfold canonical in Cn. apply andb_prop in Cn. destruct Cn as [W _].
    apply (proj2 (add_counted t t' prefix attrs C) W H).
Qed.

Lemma radix_exec_keeps : forall t c,
    keeps_routes c = true -> canonical t = true -> counted t ->
    canonical (fst (exec RadixTree t c)) = true
    /\ counted (fst (exec RadixTree t c)).
Proof.
  intros t c Kc Cn C.
  destruct c as [p a|p a|p r a|p a|p a|p a|ad wc a|p a|[p|] a| |p|];
    cbn [exec fst]; try (split; assumption); try discriminate Kc.
  - destruct (add RadixTree t p a) as [t'|e] eqn:E; cbn [update fst];
      [now apply (radix_add_keeps t t' p a) | now split].
  - cbn [flush RadixTree]. unfold IPRadixTree_flush, flush_with.
    cbn [keeps_routes] in Kc. rewrite Kc. cbn [fst _root]. now split.
Qed.

Lemma radix_run_keeps : forall calls t,
    forallb keeps_routes calls = true -> canonical t = true -> counted t ->
    canonical (fst (run_from RadixTree t calls)) = true
    /\ counted (fst (run_from RadixTree t calls)).
Proof.
  induction calls as [|c calls IH]; intros t F Cn C; [now split|].
  cbn [forallb] in F. apply andb_prop in F. destruct F as [Kc F].
  destruct (radix_exec_keeps t c Kc Cn C) as [Cn' C'].
  cbn [run_from]. destruct (exec RadixTree t c) as [t' a]. cbn [fst] in *.
  specialize (IH t' F Cn' C').
  destruct (run_from RadixTree t' calls) as [final answers]. exact IH.
Qed.

(** A radix tree built from the empty table by [add], [flush()] and the
    queries is canonical: well formed, and with no node but the root that has
    no routes and one child only; its counter is the number of the routes it
    stores, and [len(table)] is the number of the routes that iteration
    yields. *)
Theorem radix_tree_built_by_add_is_canonical :
  forall calls : list call,
    forallb keeps_routes calls = true ->
    canonical (fst (run RadixTree calls)) = true
    /\ counted (fst (run RadixTree calls))
    /\ len_is_iterated (fst (run RadixTree calls)).
Proof.
  intros calls F.
  destruct (radix_run_keeps calls init F eq_refl eq_refl) as [Cn C].
  split; [exact Cn|]. split; [exact C|].
  unfold canonical in Cn. apply andb_prop in Cn. destruct Cn as [W _].
  now apply counted_iterated.
Qed.

Lemma radix_tree_built_by_add_is_canonical_witness :
  let calls := sample_calls ++ [CGet (net4 10 1 2 3 32) []; CFlush None [];
                                CAdd (net4 10 0 0 0 8) (dev "a")] in
  canonical (fst (run RadixTree calls)) = true
  /\ counted (fst (run RadixTree calls))
  /\ len_is_iterated (fst (run RadixTree calls)).
Proof.
  apply radix_tree_built_by_add_is_canonical. vm_compute. reflexivity.
Defined.

(** ** [IPRadixTree.show] of a stored prefix *)

Lemma show_scan_empty : forall D pointer nodes,
    IPRadixTree.show_scan D pointer nodes "" = Ok (pointer, EmptyString).
Proof. intros D pointer [|[k c] nodes]; reflexivity. Qed.

(** The scan of [show] passes the entries that share no bit with the bits
    left and goes down the edge that begins them. *)
Lemma show_scan_edge : forall D pointer nodes k citems rest,
    k <> EmptyString ->
    In (k, Dict citems) nodes ->
    (forall c', In (k, c') nodes -> c' = Dict citems) ->
    (forall k' c', In (k', c') nodes -> k' <> k ->
                   bits_in_common k' (k ++ rest) = EmptyString) ->
    IPRadixTree.show_scan D pointer nodes (k ++ rest) = D citems rest.
Proof.
  intros D pointer nodes k citems rest Ne Hin U O.
  assert (Nb : is_empty (k ++ rest) = false)
    by now apply is_empty_false, append_nonempty.
  induction nodes as [|[k0 c0] nodes IH]; [destruct Hin|].
  cbn [IPRadixTree.show_scan]. rewrite Nb. cbv zeta.
  destruct (String.eqb_spec k0 k) as [->|Nk].
  - assert (Ec : bits_in_common k (k ++ rest) = k).
    { pose proof (prefix_of_append k rest) as P. unfold prefix_of in P.
      now apply String.eqb_eq in P. }
    rewrite Ec, String.eqb_refl, drop_append.
    apply is_empty_false in Ne. rewrite Ne. cbn [negb].
    now rewrite (U c0 (or_introl eq_refl)).
  - rewrite (O k0 c0 (or_introl eq_refl) Nk). cbn [is_empty negb].
    apply IH.
    + destruct Hin as [E|Hin]; [congruence | exact Hin].
    + intros c' Hin'. apply U. now right.
    + intros k' c' Hin' Nk'. apply (O k' c'); [now right | assumption].
Qed.

Lemma height_dict_pos : forall items, (1 <= height (Dict items))%nat.
Proof. intros items. cbn [height]. lia. Qed.

Lemma radix_show_walk_reaches : forall items bits pointer,
    reaches items bits pointer -> radix_wf (Dict items) = true ->
    forall fuel, (height (Dict items) <= fuel)%nat ->
                 IPRadixTree.show_walk fuel items bits = Ok (pointer, EmptyString).
Proof.
  induction 1 as [items|items k citems rest pointer G Nk _ IH]; intros W fuel Hh;
    (destruct fuel as [|fuel]; [pose proof (height_dict_pos items); lia|]);
    cbn [IPRadixTree.show_walk].
  - apply show_scan_empty.
  - destruct (radix_wf_edge _ _ _ W G Nk) as (Ne & _ & Wc).
    pose proof (radix_wf_nodup _ W) as N.
    rewrite (show_scan_edge _ items (IPRadixTree.nodes_of items) k citems rest Ne).
    + apply (IH Wc). pose proof (height_child _ _ _ (dget_In _ _ _ G)). lia.
    + apply nodes_of_In. split; [now apply dget_In | assumption].
    + intros c' Hin. apply nodes_of_In in Hin. destruct Hin as [Hin _].
      apply (In_dget _ _ _ N) in Hin. congruence.
    + intros k' c' Hin Nkk. apply nodes_of_In in Hin. destruct Hin as [Hin Nk'].
      apply (In_dget _ _ _ N) in Hin. rewrite common_sym.
      apply common_append_empty; [assumption|].
      apply (radix_wf_disjoint items k (Dict citems) k' c'); auto.
Qed.

Lemma reaches_below : forall items bits pointer,
    reaches items bits pointer -> radix_wf (Dict items) = true ->
    routes_of (Dict pointer) = routes_below (Dict items) bits.
Proof.
  induction 1 as [items|items k citems rest pointer G Nk _ IH]; intros W.
  - now rewrite routes_below_all.
  - destruct (radix_wf_edge _ _ _ W G Nk) as (_ & _ & Wc).
    rewrite (routes_below_descend _ _ _ _ W G Nk). now apply IH.
Qed.

Lemma reaches_bucket : forall items bits pointer,
    reaches items bits pointer -> radix_wf (Dict items) = true ->
    bucket_at (Dict pointer) "" = bucket_at (Dict items) bits.
Proof.
  induction 1 as [items|items k citems rest pointer G Nk _ IH]; intros W;
    [reflexivity|].
  destruct (radix_wf_edge _ _ _ W G Nk) as (_ & _ & Wc).
  rewrite (bucket_at_edge _ _ _ _ W G Nk). now apply IH.
Qed.

(** Bits that a list is stored under spell the way to a node. *)
Lemma stored_reaches : forall n items bits routes,
    (height (Dict items) <= n)%nat -> radix_wf (Dict items) = true ->
    In (bits, routes) (stored (Dict items)) ->
    exists pointer, reaches items bits pointer.
Proof.
  induction n as [|n IH]; intros items bits routes Hh W Hin;
    [pose proof (height_dict_pos items); lia|].
  apply In_stored in Hin; [|now apply radix_wf_nodup].
  destruct Hin as [[-> _]|(k & child & suf & Nk & G & -> & Hin)].
  - exists items. constructor.
  - destruct (radix_wf_edge _ _ _ W G Nk) as (_ & _ & Wc).
    destruct (radix_wf_dict _ Wc) as [citems ->].
    destruct (IH citems suf routes) as [pointer R]; auto.
    { pose proof (height_child _ _ _ (dget_In _ _ _ G)). lia. }
    exists pointer. now apply (reaches_edge items k citems).
Qed.

(** On a well-formed radix tree, [show] of a prefix that is stored returns
    the routes with all [attrs] of the list of the prefix, and with
    [as_root] the sort of the routes with all [attrs] stored at and below the
    bits of the prefix: the bits that the walk takes off without going down
    an edge play no part on the way to a node that is there. *)
Theorem radix_show_stored_prefix :
  forall (t : table) (prefix : network) (attrs : kwargs),
    radix_wf (_root t) = true ->
    (exists routes, In (bits_in_prefix prefix, routes) (stored (_root t))) ->
    show RadixTree t (Some prefix) false attrs
    = Ok (objs_with_all_attrs (bucket_at (_root t) (bits_in_prefix prefix)) attrs)
    /\ exists c,
        Permutation c (objs_with_all_attrs
                         (routes_below (_root t) (bits_in_prefix prefix)) attrs)
        /\ show RadixTree t (Some prefix) true attrs = _sort c.
Proof.
  intros t prefix attrs W [routes Hin]. destruct (radix_wf_dict _ W) as [items E].
  rewrite E in *.
  destruct (stored_reaches _ items _ routes (le_n _) W Hin) as [pointer R].
  pose proof (reaches_wf _ _ _ R W) as Wp.
  cbn [show RadixTree]. unfold IPRadixTree.show. rewrite E. cbn [as_dict bind].
  rewrite (radix_show_walk_reaches _ _ _ R W)
    by (unfold IPRadixTree.fuel_of; lia).
  cbn [bind is_empty negb].
  rewrite (get_star_bucket _ Wp), (reaches_bucket _ _ _ R W). cbn [as_list bind].
  split; [reflexivity|].
  destruct (traverse_yields (Dict pointer) attrs Wp) as (l & El & P).
  exists l. rewrite El, <- (reaches_below _ _ _ R W). cbn [bind]. auto.
Qed.

Lemma radix_show_stored_prefix_witness :
  let t := fst (run RadixTree sample_calls) in
  let p := net4 10 0 0 0 8 in
  show RadixTree t (Some p) false (dev "a")
  = Ok (objs_with_all_attrs (bucket_at (_root t) (bits_in_prefix p)) (dev "a"))
  /\ exists c,
      Permutation c (objs_with_all_attrs (routes_below (_root t) (bits_in_prefix p))
                                         (dev "a"))
      /\ show RadixTree t (Some p) true (dev "a") = _sort c.
Proof.
  apply (radix_show_stored_prefix (fst (run RadixTree sample_calls))
           (net4 10 0 0 0 8) (dev "a")); [vm_compute; reflexivity|].
  eexists. vm_compute. left. reflexivity.
Defined.

(** ** [IPRadixTree.delete] of a prefix with prefixes inside *)

Lemma without_ddel_star : forall (items : dict obj),
    nodup_keys items = true ->
    new_dict_without_key "*" (ddel "*" items) = new_dict_without_key "*" items.
Proof.
  induction items as [|[k v] items IH]; intros N; [reflexivity|].
  cbn [nodup_keys] in N. apply andb_prop in N. destruct N as [N0 N].
  cbn [ddel new_dict_without_key filter fst].
  destruct (String.eqb_spec k "*") as [->|Nk]; cbn [negb].
  - fold (new_dict_without_key "*" items). reflexivity.
  - cbn [new_dict_without_key filter fst].
    destruct (String.eqb_spec k "*") as [|_]; [congruence|]. cbn [negb].
    f_equal. apply (IH N).
Qed.

Lemma radix_wf_ddel_star : forall items,
    radix_wf (Dict items) = true -> radix_wf (Dict (ddel "*" items)) = true.
Proof.
  intros items W. apply radix_wf_parts in W. destruct W as (N & P & F).
  apply radix_wf_intro.
  - now apply nodup_keys_ddel.
  - now rewrite without_ddel_star.
  - now apply forallb_ddel.
Qed.

Lemma ddel_dset_same : forall (k : string) (v old : obj) (d : dict obj),
    dget k d = Some old -> ddel k (dset k v d) = ddel k d.
Proof.
  intros k v old d. induction d as [|[k0 v0] d IH]; [discriminate|].
  cbn [dget dset ddel]. destruct (String.eqb_spec k0 k) as [->|Nk].
  - intros _. cbn [ddel]. now rewrite String.eqb_refl.
  - intros G. cbn [ddel]. destruct (String.eqb_spec k0 k); [congruence|].
    f_equal. now apply IH.
Qed.

(** The child [c] of the only key [cb] of the node under the edge [k] is
    hung under [k ++ cb]: the tree stores what it stored. *)
Lemma splice_stores_the_same : forall items k cb c,
    radix_wf (Dict items) = true ->
    dget k items = Some (Dict [(cb, c)]) -> k <> "*"%string -> cb <> "*"%string ->
    radix_wf (Dict (dset (k ++ cb) c (ddel k items))) = true
    /\ forall path routes,
        In (path, routes) (stored (Dict (dset (k ++ cb) c (ddel k items))))
        <-> In (path, routes) (stored (Dict items)).
Proof.
  intros items k cb c W G Nk Ncb.
  pose proof (radix_wf_nodup _ W) as N.
  destruct (radix_wf_edge _ _ _ W G Nk) as (Ne & Bk & Wc).
  assert (Gc : dget cb [(cb, c)] = Some c) by (cbn; now rewrite String.eqb_refl).
  destruct (radix_wf_edge _ _ _ Wc Gc Ncb) as (Necb & Bcb & Wcc).
  assert (Bkc : is_bits (k ++ cb) = true) by (rewrite is_bits_append; now rewrite Bk).
  assert (Nkc : (k ++ cb)%string <> "*"%string)
    by (apply String.eqb_neq; now apply is_bits_not_star).
  assert (Nkk : (k ++ cb)%string <> k).
  { intros E. rewrite <- (append_empty_r k) in E at 2.
    apply append_inj_l in E. congruence. }
  assert (Other : forall k' c', dget k' items = Some c' -> k' <> "*"%string ->
                                k' <> k -> k' <> (k ++ cb)%string).
  { intros k' c' G' Nk' Nkk' ->.
    pose proof (radix_wf_disjoint _ _ _ _ _ W G G' Nk Nk' (not_eq_sym Nkk')) as D.
    rewrite <- (append_empty_r k) in D at 1. rewrite common_append in D.
    now apply append_nonempty in D. }
  assert (W' : radix_wf (Dict (dset (k ++ cb) c (ddel k items))) = true).
  { apply radix_wf_dset_edge; auto using radix_wf_ddel, append_nonempty.
    intros k' c' G' Nk' _.
    destruct (String.eqb_spec k' k) as [->|Nkk'].
    - rewrite dget_ddel_same in G' by assumption. discriminate G'.
    - rewrite dget_ddel_other in G' by assumption.
      apply common_append_empty; [assumption|].
      apply (radix_wf_disjoint items k (Dict [(cb, c)]) k' c'); auto. }
  split; [exact W'|]. intros path routes.
  rewrite (In_stored (dset (k ++ cb) c (ddel k items))) by now apply radix_wf_nodup.
  rewrite (In_stored items) by assumption.
  split.
  - intros [[-> Gs]|(k1 & c1 & suf & N1 & G1 & -> & Hin)].
    + left. split; [reflexivity|].
      now rewrite dget_dset_other, dget_ddel_other in Gs by congruence.
    + right. destruct (String.eqb_spec k1 (k ++ cb)) as [->|N1k].
      * rewrite dget_dset_same in G1. injection G1 as <-.
        exists k, (Dict [(cb, c)]), (cb ++ suf)%string.
        repeat split; auto using append_assoc.
        rewrite stored_single_edge by assumption.
        apply in_map_iff. exists (suf, routes). auto.
      * rewrite dget_dset_other in G1 by congruence.
        destruct (String.eqb_spec k1 k) as [->|N1x].
        -- rewrite dget_ddel_same in G1 by assumption. discriminate G1.
        -- rewrite dget_ddel_other in G1 by assumption. exists k1, c1, suf. auto.
  - intros [[-> Gs]|(k1 & c1 & suf & N1 & G1 & -> & Hin)].
    + left. split; [reflexivity|].
      now rewrite dget_dset_other, dget_ddel_other by congruence.
    + right. destruct (String.eqb_spec k1 k) as [->|N1x].
      * rewrite G in G1. injection G1 as <-.
        rewrite stored_single_edge in Hin by assumption.
        apply in_map_iff in Hin. destruct Hin as ([e r] & Eq & Hin).
        injection Eq as <- <-. cbn [fst snd].
        exists (k ++ cb)%string, c, e. rewrite dget_dset_same.
        repeat split; auto. now rewrite append_assoc.
      * assert (N10 : k1 <> (k ++ cb)%string) by (eapply Other; eauto).
        exists k1, c1, suf.
        rewrite dget_dset_other, dget_ddel_other by assumption. auto.
Qed.

Lemma truthy_In : forall (A : Type) (x : A) (l : list A), In x l -> truthy l = true.
Proof. intros A x [|y l] H; [destruct H | reflexivity]. Qed.

Lemma has_edge_dset : forall (items : dict obj) k v,
    k <> "*"%string -> truthy (new_dict_without_key "*" (dset k v items)) = true.
Proof.
  intros items k v Nk. apply (truthy_In _ (k, v)). apply without_In.
  split; [|assumption]. apply dget_In, dget_dset_same.
Qed.

(** One turn of the loop over [parents], for a node below that has a child
    left: the tree stays well formed and stores what it stored. *)
Lemma merge_result : forall parent k child items' rest,
    radix_wf (Dict parent) = true -> dget k parent = Some (Dict child) ->
    k <> "*"%string ->
    radix_wf (Dict items') = true ->
    truthy (new_dict_without_key "*" items') = true ->
    replaced rest [] (Dict child) (Dict items') ->
    radix_wf (Dict (IPRadixTree.merge parent k items')) = true
    /\ replaced (k ++ rest) [] (Dict parent) (Dict (IPRadixTree.merge parent k items'))
    /\ truthy (new_dict_without_key "*" (IPRadixTree.merge parent k items')) = true.
Proof.
  intros parent k child items' rest W G Nk Wi He R.
  destruct (radix_wf_edge _ _ _ W G Nk) as (Ne & Bk & _).
  assert (Wm : radix_wf (Dict (dset k (Dict items') parent)) = true).
  { apply radix_wf_dset_edge; auto. intros k' ch' G' Nk' Nkk.
    apply (radix_wf_disjoint parent k (Dict child) k' ch'); auto. }
  pose proof (radix_replaced_below parent k child (Dict items') rest [] W G Nk Wi R)
    as Rm.
  destruct items' as [|[cb c] [|e2 l]].
  - discriminate He.
  - assert (Ncb : cb <> "*"%string).
    { intros ->. discriminate He. }
    cbn [IPRadixTree.merge].
    rewrite <- (ddel_dset_same k (Dict [(cb, c)]) _ parent G).
    destruct (splice_stores_the_same _ k cb c Wm (dget_dset_same _ _ _) Nk Ncb)
      as [Ws Same].
    split; [exact Ws|]. split.
    + destruct Rm as [R1 R2]. split.
      * intros path routes Np. rewrite Same. now apply R1.
      * intros routes. rewrite Same. apply R2.
    + apply has_edge_dset. apply String.eqb_neq, is_bits_not_star.
      assert (Gc : dget cb [(cb, c)] = Some c) by (cbn; now rewrite String.eqb_refl).
      destruct (radix_wf_edge _ _ _ Wi Gc Ncb) as (_ & Bcb & _).
      rewrite is_bits_append. now rewrite Bk.
  - cbn [IPRadixTree.merge]. split; [exact Wm|]. split; [exact Rm|].
    now apply has_edge_dset.
Qed.

(** A list stored under longer bits that begin with [k ++ rest] is stored in
    the child of [k], under longer bits that begin with [rest]. *)
Lemma inside_below : forall items k child rest,
    radix_wf (Dict items) = true -> dget k items = Some child -> k <> "*"%string ->
    (exists path routes,
        In (path, routes) (stored (Dict items))
        /\ prefix_of (k ++ rest) path = true /\ path <> (k ++ rest)%string) ->
    exists path routes,
      In (path, routes) (stored child)
      /\ prefix_of rest path = true /\ path <> rest.
Proof.
  intros items k child rest W G Nk (path & routes & Hin & P & Np).
  destruct (radix_wf_edge _ _ _ W G Nk) as (Ne & _ & _).
  apply prefix_of_iff in P. destruct P as [suf ->].
  rewrite append_assoc in Hin. apply (In_stored_below _ _ _ _ _ W G Nk) in Hin.
  exists (rest ++ suf)%string, routes. split; [exact Hin|].
  split; [apply prefix_of_append|]. intros E. apply Np.
  now rewrite append_assoc, E.
Qed.

Lemma radix_delete_walk_prunes : forall fuel items bits attrs counter bucket,
    radix_wf (Dict items) = true -> (height (Dict items) <= fuel)%nat ->
    In (bits, bucket) (stored (Dict items)) ->
    (exists path routes,
        In (path, routes) (stored (Dict items))
        /\ prefix_of bits path = true /\ path <> bits) ->
    (truthy attrs = true ->
     objs_with_all_attrs bucket attrs <> [] /\ kept bucket attrs = []) ->
    exists items' counter' turns,
      IPRadixTree.delete_walk fuel attrs counter items bits
      = Ok (items', counter', turns)
      /\ counter' = counter - Z.of_nat (List.length bucket)
      /\ radix_wf (Dict items') = true
      /\ replaced bits [] (Dict items) (Dict items')
      /\ truthy (new_dict_without_key "*" items') = true.
Proof.
  induction fuel as [|fuel IH]; intros items bits attrs counter bucket W Hh Hin Hs Ha;
    [simpl in Hh; lia|].
  cbn [IPRadixTree.delete_walk]. pose proof (radix_wf_nodup _ W) as N.
  destruct (String.eqb_spec bits EmptyString) as [->|Nb].
  { rewrite delete_scan_empty. unfold IPRadixTree.delete_here. cbn [is_empty negb].
    assert (G : dget "*" items = Some (PList bucket)).
    { apply In_stored in Hin; [|assumption].
      destruct Hin as [[_ G]|(k & c & suf & Nk & Gk & E & _)]; [exact G|].
      destruct (radix_wf_edge _ _ _ W Gk Nk) as (Ne & _).
      symmetry in E. now apply append_nonempty in E. }
    rewrite G. cbn [as_list bind].
    assert (He : truthy (new_dict_without_key "*" (ddel "*" items)) = true).
    { rewrite without_ddel_star by assumption.
      destruct Hs as (path & routes & Hp & _ & Np).
      apply In_stored in Hp; [|assumption].
      destruct Hp as [[-> _]|(k & c & suf & Nk & Gk & _)]; [congruence|].
      apply (truthy_In _ (k, c)). apply without_In. split; [now apply dget_In|exact Nk]. }
    pose proof (replaced_here items [] W) as R. cbn in R.
    pose proof (radix_wf_ddel_star _ W) as Wd.
    destruct (truthy attrs) eqn:Ta.
    - destruct (Ha eq_refl) as [Hm Hk]. rewrite remove_matching_kept, Hk.
      pose proof (kept_length bucket attrs) as Lk. rewrite Hk in Lk.
      destruct (objs_with_all_attrs bucket attrs) as [|m ms] eqn:Em; [congruence|].
      cbn [truthy andb orb negb]. do 3 eexists. split; [reflexivity|].
      split; [simpl in *; lia | auto].
    - cbn [andb orb negb]. do 3 eexists. split; [reflexivity|]. auto. }
  rewrite delete_scan_find by assumption.
  destruct (find (fun e => prefix_of (fst e) bits) (IPRadixTree.nodes_of items))
    as [[k child]|] eqn:F.
  - apply find_some in F. destruct F as [Hk P]. simpl in P.
    apply nodes_of_In in Hk. destruct Hk as [Hk Nk].
    pose proof (In_dget _ _ _ N Hk) as G.
    destruct (radix_wf_edge _ _ _ W G Nk) as (Ne & Bk & Wc).
    destruct (radix_wf_dict _ Wc) as [citems ->]. cbn [as_dict bind].
    assert (Ec : bits_in_common k bits = k)
      by (unfold prefix_of in P; now apply String.eqb_eq in P).
    rewrite Ec. pose proof (prefix_of_split _ _ P) as Eb.
    remember (drop (String.length k) bits) as rest eqn:Er. clear Er. subst bits.
    apply (In_stored_below _ _ _ _ _ W G Nk) in Hin.
    apply (inside_below _ _ _ _ W G Nk) in Hs.
    destruct (IH citems rest attrs counter bucket Wc)
      as (items' & counter' & turns & Ew & Ecn & Wi & R & He); auto.
    { pose proof (height_child _ _ _ Hk). lia. }
    rewrite Ew. cbn [bind].
    destruct turns as [|turns']; do 3 eexists; (split; [reflexivity|]);
      (split; [exact Ecn|]).
    + split; [|split].
      * apply radix_wf_dset_edge; auto. intros k' ch' G' Nk' Nkk.
        apply (radix_wf_disjoint items k (Dict citems) k' ch'); auto.
      * apply (radix_replaced_below items k citems (Dict items') _ _ W G Nk Wi R).
      * now apply has_edge_dset.
    + apply (merge_result items k citems items' _ W G Nk Wi He R).
  - exfalso. apply (nothing_stored_off_edges items bits bucket W Nb); [|exact Hin].
    intros k c Gk Nk. apply (find_none _ _ F (k, c)).
    apply nodes_of_In. split; [apply dget_In, Gk | assumption].
Qed.

(** On a well-formed radix tree, [delete] of a stored prefix that has stored
    prefixes inside it (some list is stored under longer bits that begin with
    its bits) is right: it returns unless attributes are given that no route
    of the list has, the tree stays well formed, the list of the prefix
    holds the routes left, none without attributes, what is stored under
    other bits is stored as before, and the counter loses the routes
    removed.  The node of such a prefix keeps a child, and the loop over
    [parents] then merges no node that holds routes. *)
Theorem radix_delete_with_prefixes_inside :
  forall (t : table) (prefix : network) (attrs : kwargs) (bucket : list Route),
    radix_wf (_root t) = true ->
    In (bits_in_prefix prefix, bucket) (stored (_root t)) ->
    (exists path routes,
        In (path, routes) (stored (_root t))
        /\ prefix_of (bits_in_prefix prefix) path = true
        /\ path <> bits_in_prefix prefix) ->
    (truthy attrs = true -> objs_with_all_attrs bucket attrs <> []) ->
    exists t',
      delete RadixTree t prefix attrs = Ok t'
      /\ radix_wf (_root t') = true
      /\ replaced (bits_in_prefix prefix)
                  (if truthy attrs then kept bucket attrs else [])
                  (_root t) (_root t')
      /\ _counter t' = _counter t
                       - (Z.of_nat (List.length bucket)
                          - Z.of_nat (List.length
                                        (if truthy attrs
                                         then kept bucket attrs else []))).
Proof.
  intros t prefix attrs bucket W Hin Hs Hm.
  destruct (radix_wf_dict _ W) as [items E]. rewrite E in *.
  cbn [delete RadixTree]. unfold IPRadixTree.delete. rewrite E.
  cbn [as_dict bind].
  assert (Hf : (height (Dict items) <= IPRadixTree.fuel_of (Dict items))%nat)
    by (unfold IPRadixTree.fuel_of; lia).
  destruct (if truthy attrs then kept bucket attrs else []) as [|r left] eqn:El.
  - destruct (radix_delete_walk_prunes _ items _ attrs (_counter t) bucket W Hf Hin Hs)
      as (items' & counter' & turns & Ew & Ec & Wi & R & _).
    { intros Ta. rewrite Ta in El. auto. }
    rewrite Ew. cbn [bind sanitize]. eexists. split; [reflexivity|].
    cbn [_root _counter]. split; [exact Wi|]. split; [exact R|]. simpl. lia.
  - pose proof (radix_delete_walk_result _ items (bits_in_prefix prefix) attrs
                  (_counter t) W Hf) as R.
    destruct (IPRadixTree.delete_walk (IPRadixTree.fuel_of (Dict items)) attrs
                                      (_counter t) items (bits_in_prefix prefix))
      as [[[items' counter'] turns]|e]; cbn [radix_delete_result] in R.
    + destruct R as (b2 & Hb & _ & Ec & Hl).
      rewrite (stored_functional _ _ _ _ W Hb Hin) in *. rewrite El in *.
      destruct Hl as (_ & Wi & Rp); [discriminate|].
      cbn [bind sanitize]. eexists. split; [reflexivity|]. cbn [_root _counter].
      split; [exact Wi|]. split; [|exact Ec].
      destruct (truthy attrs); [now rewrite El in Rp | discriminate El].
    + exfalso. destruct R as [[_ No]|(_ & Ta & b2 & Hb & Hn)].
      * now apply (No bucket).
      * rewrite (stored_functional _ _ _ _ W Hb Hin) in Hn. now apply Hm.
Qed.

Lemma radix_delete_with_prefixes_inside_witness :
  let t := fst (run RadixTree sample_calls) in
  let p := net4 10 0 0 0 8 in
  exists bucket t',
    In (bits_in_prefix p, bucket) (stored (_root t))
    /\ delete RadixTree t p [] = Ok t'
    /\ radix_wf (_root t') = true
    /\ replaced (bits_in_prefix p) [] (_root t) (_root t')
    /\ _counter t' = _counter t - Z.of_nat (List.length bucket).
Proof.
  cbv zeta.
  assert (W : radix_wf (_root (fst (run RadixTree sample_calls))) = true)
    by (vm_compute; reflexivity).
  destruct (bucket_at_cases (_root (fst (run RadixTree sample_calls)))
              (bits_in_prefix (net4 10 0 0 0 8))) as [[bucket Hin]|No].
  - destruct (radix_delete_with_prefixes_inside _ (net4 10 0 0 0 8) [] bucket W Hin)
      as (t' & D & W' & R & C).
    + exists (bits_in_prefix (net4 10 1 0 0 16)). eexists.
      split; [vm_compute; repeat (first [left; reflexivity | right])|].
      split; vm_compute; [reflexivity | discriminate].
    + discriminate.
    + exists bucket, t'. repeat (split; [assumption|]).
      cbn [truthy List.length] in C. rewrite C. lia.
  - exfalso. eapply No. vm_compute. left. reflexivity.
Defined.

(** ** [prefix in table] *)

Lemma contains_of_get : forall (T : RoutingTable) (t : table),
    (forall prefix,
        exists routes,
          get T t prefix [] = Ok (objs_with_all_attrs routes [])
          /\ longest_match (stored (_root t)) (bits_in_prefix prefix) routes) ->
    lists_nonempty (_root t) -> contains_is_covered T t.
Proof.
  intros T t G Ne prefix. destruct (G prefix) as (routes & E & M).
  unfold contains. rewrite E, objs_with_no_attrs. cbn [bind].
  exists (truthy routes). split; [reflexivity|].
  destruct M as [(path & Hin & P & _)|[-> No]].
  - pose proof (Ne _ _ Hin) as Nr.
    split; [intros _; now exists path, routes|].
    intros _. now destruct routes.
  - split; [discriminate|]. intros (path & routes & Hin & P).
    rewrite (No _ _ Hin) in P. discriminate P.
Qed.

Lemma replaced_lists_nonempty : forall bits left before after,
    replaced bits left before after -> lists_nonempty before ->
    lists_nonempty after.
Proof.
  intros bits left before after [R1 R2] Ne path routes Hin.
  destruct (String.eqb_spec path bits) as [->|Np].
  - apply R2 in Hin. now destruct Hin as [-> Nl].
  - apply (R1 _ _ Np) in Hin. now apply (Ne path).
Qed.

Lemma prefix_exec_lists : forall t c,
    plain_call c = true -> prefix_wf (_root t) = true -> counted t ->
    lists_nonempty (_root t) ->
    lists_nonempty (_root (fst (exec PrefixTree t c))).
Proof.
  intros t c Pc W C Ne.
  assert (Del : forall p a t',
             delete PrefixTree t p a = Ok t' -> lists_nonempty (_root t')).
  { intros p a t' E. pose proof (prefix_delete_table t p a W C) as D.
    rewrite E in D. destruct D as (bucket & _ & _ & _ & R & _).
    apply (replaced_lists_nonempty _ _ _ _ R Ne). }
  destruct c as [p a|p a|p r a|p a|p a|p a|ad wc a|p a|[p|] a| |p|];
    cbn [exec fst]; try assumption.
  - destruct (add PrefixTree t p a) as [t'|e] eqn:E; cbn [update fst];
      [|assumption].
    apply (replaced_lists_nonempty _ _ _ _ (proj1 add_one_list t t' p a W E) Ne).
  - destruct (delete PrefixTree t p a) as [t'|e] eqn:E; cbn [update fst];
      [now apply (Del p a) | assumption].
  - cbn [flush PrefixTree]. unfold IPPrefixTree_flush, flush_with.
    destruct (IPPrefixTree.delete t p a) as [t'|e] eqn:E; cbn [fst];
      [now apply (Del p a) | assumption].
  - cbn [flush PrefixTree]. unfold IPPrefixTree_flush, flush_with.
    cbn [plain_call] in Pc. rewrite Pc. cbn [fst _root]. intros path routes [].
Qed.

Lemma prefix_run_lists : forall calls t,
    forallb plain_call calls = true -> prefix_wf (_root t) = true -> counted t ->
    lists_nonempty (_root t) ->
    lists_nonempty (_root (fst (run_from PrefixTree t calls))).
Proof.
  induction calls as [|c calls IH]; intros t F W C Ne; [assumption|].
  cbn [forallb] in F. apply andb_prop in F. destruct F as [Pc F].
  destruct (prefix_exec_keeps t c Pc W C) as [W' C'].
  pose proof (prefix_exec_lists t c Pc W C Ne) as Ne'.
  cbn [run_from]. destruct (exec PrefixTree t c) as [t' a]. cbn [fst] in *.
  specialize (IH t' F W' C' Ne').
  destruct (run_from PrefixTree t' calls) as [final answers]. exact IH.
Qed.

Lemma radix_exec_lists : forall t c,
    keeps_routes c = true -> radix_wf (_root t) = true ->
    lists_nonempty (_root t) ->
    lists_nonempty (_root (fst (exec RadixTree t c))).
Proof.
  intros t c Kc W Ne.
  destruct c as [p a|p a|p r a|p a|p a|p a|ad wc a|p a|[p|] a| |p|];
    cbn [exec fst]; try assumption; try discriminate Kc.
  - destruct (add RadixTree t p a) as [t'|e] eqn:E; cbn [update fst];
      [|assumption].
    apply (replaced_lists_nonempty _ _ _ _ (proj2 add_one_list t t' p a W E) Ne).
  - cbn [flush RadixTree]. unfold IPRadixTree_flush, flush_with.
    cbn [keeps_routes] in Kc. rewrite Kc. cbn [fst _root]. intros path routes [].
Qed.

Lemma radix_run_lists : forall calls t,
    forallb keeps_routes calls = true -> canonical t = true -> counted t ->
    lists_nonempty (_root t) ->
    lists_nonempty (_root (fst (run_from RadixTree t calls))).
Proof.
  induction calls as [|c calls IH]; intros t F Cn C Ne; [assumption|].
  cbn [forallb] in F. apply andb_prop in F. destruct F as [Kc F].
  destruct (radix_exec_keeps t c Kc Cn C) as [Cn' C'].
  assert (W : radix_wf (_root t) = true)
    by (unfold canonical in Cn; now apply andb_prop in Cn).
  pose proof (radix_exec_lists t c Kc W Ne) as Ne'.
  cbn [run_from]. destruct (exec RadixTree t c) as [t' a]. cbn [fst] in *.
  specialize (IH t' F Cn' C' Ne').
  destruct (run_from RadixTree t' calls) as [final answers]. exact IH.
Qed.

(** On a table built from the empty table, [prefix in table] returns, and
    is true exactly when a stored prefix covers [prefix]: for the prefix tree
    after any calls but [flush] with attributes and no prefix, for the radix
    tree after [add], [flush()] and the queries. *)
Theorem routable_iff_covered :
  (forall calls, forallb plain_call calls = true ->
                 contains_is_covered PrefixTree (fst (run PrefixTree calls)))
  /\ (forall calls, forallb keeps_routes calls = true ->
                    contains_is_covered RadixTree (fst (run RadixTree calls))).
Proof.
  assert (E0 : lists_nonempty (_root init)) by (intros path routes []).
  split; intros calls F.
  - destruct (prefix_run_keeps calls init F eq_refl eq_refl) as [W C].
    apply contains_of_get.
    + intros prefix. apply (prefix_get_match _ prefix [] W).
    + apply (prefix_run_lists calls init F eq_refl eq_refl E0).
  - destruct (radix_run_keeps calls init F eq_refl eq_refl) as [Cn C].
    apply contains_of_get.
    + intros prefix. apply (radix_get_match _ prefix []).
      unfold canonical in Cn. now apply andb_prop in Cn.
    + apply (radix_run_lists calls init F eq_refl eq_refl E0).
Qed.

Lemma routable_iff_covered_witness :
  contains_is_covered PrefixTree
    (fst (run PrefixTree (sample_calls ++ [CDelete (net4 10 1 0 0 16) []])))
  /\ contains_is_covered RadixTree (fst (run RadixTree sample_calls)).
Proof.
  split.
  - apply (proj1 routable_iff_covered). vm_compute. reflexivity.
  - apply (proj2 routable_iff_covered). vm_compute. reflexivity.
Defined.

(** ** [IPRadixTree.delete] of a prefix with no prefix inside *)

Lemma nothing_inside_spec : forall o bits,
    nothing_inside o bits = true ->
    forall path routes,
      In (path, routes) (stored o) -> prefix_of bits path = true -> path = bits.
Proof.
  intros o bits H path routes Hin P. unfold nothing_inside in H.
  rewrite forallb_forall in H. specialize (H _ Hin). cbn [fst] in H.
  rewrite P in H. cbn [negb orb] in H. now apply String.eqb_eq.
Qed.

Lemma nothing_inside_intro : forall o bits,
    (forall path routes,
        In (path, routes) (stored o) -> prefix_of bits path = true -> path = bits) ->
    nothing_inside o bits = true.
Proof.
  intros o bits H. unfold nothing_inside. apply forallb_forall.
  intros [path routes] Hin. cbn [fst].
  destruct (prefix_of bits path) eqn:P; [|reflexivity].
  rewrite (H _ _ Hin P). cbn [negb orb]. apply String.eqb_refl.
Qed.

Lemma covers_have_more_spec : forall o bits,
    covers_have_more o bits = true ->
    forall pre held,
      In (pre, held) (stored o) -> pre <> EmptyString ->
      prefix_of pre bits = true -> pre <> bits ->
      exists path routes,
        In (path, routes) (stored o)
        /\ prefix_of pre path = true /\ path <> pre /\ path <> bits.
Proof.
  intros o bits H pre held Hin Ne P Nb. unfold covers_have_more in H.
  rewrite forallb_forall in H. specialize (H _ Hin). cbn [fst] in H.
  apply is_empty_false in Ne. apply String.eqb_neq in Nb.
  rewrite Ne, P, Nb in H. cbn [negb orb] in H.
  apply existsb_exists in H. destruct H as ([path routes] & Hp & H).
  cbn [fst] in H. apply andb_prop in H. destruct H as [H N2].
  apply andb_prop in H. destruct H as [P1 N1].
  apply negb_true_iff, String.eqb_neq in N1, N2. now exists path, routes.
Qed.

Lemma covers_have_more_intro : forall o bits,
    (forall pre held,
        In (pre, held) (stored o) -> pre <> EmptyString ->
        prefix_of pre bits = true -> pre <> bits ->
        exists path routes,
          In (path, routes) (stored o)
          /\ prefix_of pre path = true /\ path <> pre /\ path <> bits) ->
    covers_have_more o bits = true.
Proof.
  intros o bits H. unfold covers_have_more. apply forallb_forall.
  intros [pre held] Hin. cbn [fst].
  destruct (is_empty pre) eqn:Ne; [reflexivity|].
  destruct (prefix_of pre bits) eqn:P; [|reflexivity].
  destruct (String.eqb_spec pre bits) as [|Nb]; [reflexivity|]. cbn [negb orb].
  apply is_empty_false in Ne.
  destruct (H _ _ Hin Ne P Nb) as (path & routes & Hp & P1 & N1 & N2).
  apply existsb_exists. exists (path, routes). split; [assumption|]. cbn [fst].
  rewrite P1. apply String.eqb_neq in N1, N2. now rewrite N1, N2.
Qed.

(** Every node but the root of a canonical tree stores a list. *)
Lemma compact_stores : forall n o,
    (height o <= n)%nat -> radix_wf o = true -> compact false o = true ->
    exists path routes, In (path, routes) (stored o).
Proof.
  induction n as [|n IH]; intros o Hh W C;
    destruct (radix_wf_dict _ W) as [items ->]; [simpl in Hh; lia|].
  pose proof (radix_wf_nodup _ W) as N.
  apply compact_parts in C. destruct C as [C1 C2]. cbn [orb] in C1.
  unfold dmem in C1. destruct (dget "*" items) as [held|] eqn:G.
  - destruct (radix_wf_routes _ _ W G) as [routes ->].
    exists EmptyString, routes. apply In_stored; auto.
  - cbn [orb] in C1. apply Nat.leb_le in C1.
    destruct (new_dict_without_key "*" items) as [|[k c] l] eqn:E;
      [simpl in C1; lia|].
    assert (Hk : In (k, c) (new_dict_without_key "*" items))
      by (rewrite E; now left).
    apply without_In in Hk. destruct Hk as [Hk Nk].
    pose proof (In_dget _ _ _ N Hk) as Gk.
    destruct (radix_wf_edge _ _ _ W Gk Nk) as (_ & _ & Wc).
    rewrite forallb_forall in C2. pose proof (C2 _ Hk) as Cc. cbn [snd] in Cc.
    pose proof (height_child _ _ _ Hk) as Hc.
    destruct (IH c) as (path & routes & Hin); [lia | assumption | assumption |].
    exists (k ++ path)%string, routes. now apply (In_stored_edge items k c).
Qed.

(** A node of a canonical tree that stores its own list only has no child. *)
Lemma leaf_has_no_edge : forall items,
    radix_wf (Dict items) = true ->
    forallb (fun kv => compact false (snd kv)) items = true ->
    (forall path routes, In (path, routes) (stored (Dict items)) ->
                         path = EmptyString) ->
    new_dict_without_key "*" items = [].
Proof.
  intros items W C H. pose proof (radix_wf_nodup _ W) as N.
  destruct (new_dict_without_key "*" items) as [|[k c] l] eqn:E; [reflexivity|].
  exfalso.
  assert (Hk : In (k, c) (new_dict_without_key "*" items))
    by (rewrite E; now left).
  apply without_In in Hk. destruct Hk as [Hk Nk].
  pose proof (In_dget _ _ _ N Hk) as Gk.
  destruct (radix_wf_edge _ _ _ W Gk Nk) as (Ne & _ & Wc).
  rewrite forallb_forall in C. pose proof (C _ Hk) as Cc. cbn [snd] in Cc.
  destruct (compact_stores _ c (Nat.le_refl _) Wc Cc) as (path & routes & Hin).
  apply (In_stored_edge items k c _ _ Nk Gk) in Hin. apply H in Hin.
  now apply append_nonempty in Hin.
Qed.

Lemma ddel_star_of_leaf : forall items : dict obj,
    nodup_keys items = true -> new_dict_without_key "*" items = [] ->
    ddel "*" items = [].
Proof.
  intros items N E. pose proof (without_ddel_star items N) as Ew. rewrite E in Ew.
  pose proof (dget_ddel_same "*" items N) as G.
  destruct (ddel "*" items) as [|[k v] l]; [reflexivity|]. exfalso.
  cbn [dget] in G. cbn [new_dict_without_key filter fst] in Ew.
  destruct (String.eqb k "*"); [discriminate G | discriminate Ew].
Qed.

(** The edge [k] to a node that stores its own list only is dropped:
    nothing is stored under [k] any more, all else as before. *)
Lemma drop_leaf_replaced : forall items k child,
    radix_wf (Dict items) = true -> dget k items = Some child -> k <> "*"%string ->
    (forall path routes, In (path, routes) (stored child) -> path = EmptyString) ->
    replaced k [] (Dict items) (Dict (ddel k items)).
Proof.
  intros items k child W G Nk Leaf. pose proof (radix_wf_nodup _ W) as N.
  destruct (radix_wf_edge _ _ _ W G Nk) as (Ne & _ & _).
  pose proof (nodup_keys_ddel k items N) as Nd.
  split.
  - intros path routes Np. rewrite (In_stored (ddel k items)), (In_stored items)
      by assumption.
    split.
    + intros [[-> Gs]|(k1 & c1 & suf & N1 & G1 & -> & Hin)].
      * left. split; [reflexivity|]. rewrite dget_ddel_other in Gs by congruence.
        exact Gs.
      * right. destruct (String.eqb_spec k1 k) as [->|N1k].
        -- rewrite dget_ddel_same in G1 by assumption. discriminate G1.
        -- rewrite dget_ddel_other in G1 by assumption. exists k1, c1, suf. auto.
    + intros [[-> Gs]|(k1 & c1 & suf & N1 & G1 & -> & Hin)].
      * left. split; [reflexivity|]. rewrite dget_ddel_other by congruence.
        exact Gs.
      * right. destruct (String.eqb_spec k1 k) as [->|N1k].
        -- exfalso. rewrite G in G1. injection G1 as <-.
           apply Leaf in Hin. subst suf. now rewrite append_empty_r in Np.
        -- exists k1, c1, suf. rewrite dget_ddel_other by assumption. auto.
  - intros routes. split; [|intros [_ F]; now contradiction F].
    intros Hin. exfalso. apply In_stored in Hin; [|assumption].
    destruct Hin as [[E _]|(k1 & c1 & suf & N1 & G1 & E & _)]; [congruence|].
    destruct (String.eqb_spec k1 k) as [->|N1k].
    + rewrite dget_ddel_same in G1 by assumption. discriminate G1.
    + rewrite dget_ddel_other in G1 by assumption.
      destruct (radix_wf_edge _ _ _ W G1 N1) as (Ne1 & _ & _).
      rewrite <- (append_empty_r k) in E.
      apply (common_of_append k "" k1 suf Ne Ne1 E).
      apply (radix_wf_disjoint items k child k1 c1); auto.
Qed.

(** A node that stores more than its own list and the list of a child
    without children has another child. *)
Lemma other_edge_left : forall items k child path routes,
    radix_wf (Dict items) = true -> dget k items = Some child -> k <> "*"%string ->
    (forall p r, In (p, r) (stored child) -> p = EmptyString) ->
    In (path, routes) (stored (Dict items)) -> path <> EmptyString -> path <> k ->
    truthy (new_dict_without_key "*" (ddel k items)) = true.
Proof.
  intros items k child path routes W G Nk Leaf Hin Np Npk.
  pose proof (radix_wf_nodup _ W) as N.
  apply In_stored in Hin; [|assumption].
  destruct Hin as [[E _]|(k1 & c1 & suf & N1 & G1 & E & Hin)]; [congruence|].
  destruct (String.eqb_spec k1 k) as [->|N1k].
  - exfalso. rewrite G in G1. injection G1 as <-. apply Leaf in Hin. subst suf.
    now rewrite append_empty_r in E.
  - apply (truthy_In _ (k1, c1)). apply without_In. split; [|assumption].
    apply dget_In. now rewrite dget_ddel_other.
Qed.

(** A node without routes of a canonical tree, the root apart, stores lists
    under two bit strings at least, none of them empty. *)
Lemma branching_stores_two : forall items rest,
    radix_wf (Dict items) = true -> compact false (Dict items) = true ->
    dmem "*" items = false ->
    exists path routes,
      In (path, routes) (stored (Dict items))
      /\ path <> EmptyString /\ path <> rest.
Proof.
  intros items rest W C Ns. pose proof (radix_wf_nodup _ W) as N.
  apply compact_parts in C. destruct C as [C1 C2]. rewrite Ns in C1.
  cbn [orb] in C1. apply Nat.leb_le in C1.
  destruct (radix_wf_parts _ W) as (_ & P & _).
  destruct (new_dict_without_key "*" items) as [|[k1 c1] [|[k2 c2] l]] eqn:E;
    [simpl in C1; lia | simpl in C1; lia |].
  assert (H1 : In (k1, c1) (new_dict_without_key "*" items))
    by (rewrite E; now left).
  assert (H2 : In (k2, c2) (new_dict_without_key "*" items))
    by (rewrite E; right; now left).
  apply without_In in H1, H2. destruct H1 as [H1 N1], H2 as [H2 N2].
  pose proof (In_dget _ _ _ N H1) as G1. pose proof (In_dget _ _ _ N H2) as G2.
  destruct (radix_wf_edge _ _ _ W G1 N1) as (Ne1 & _ & W1).
  destruct (radix_wf_edge _ _ _ W G2 N2) as (Ne2 & _ & W2).
  rewrite forallb_forall in C2.
  pose proof (C2 _ H1) as Cc1. pose proof (C2 _ H2) as Cc2. cbn [snd] in Cc1, Cc2.
  destruct (compact_stores _ c1 (Nat.le_refl _) W1 Cc1) as (p1 & r1 & S1).
  destruct (compact_stores _ c2 (Nat.le_refl _) W2 Cc2) as (p2 & r2 & S2).
  apply (In_stored_edge items k1 c1 _ _ N1 G1) in S1.
  apply (In_stored_edge items k2 c2 _ _ N2 G2) in S2.
  assert (D : bits_in_common k1 k2 = EmptyString).
  { cbn [pairwise forallb] in P. apply andb_prop in P. destruct P as [P _].
    apply andb_prop in P. destruct P as [P _]. unfold disjoint_edges in P.
    cbn [fst] in P. now apply is_empty_true. }
  destruct (String.eqb_spec (k1 ++ p1) rest) as [E1|E1].
  - exists (k2 ++ p2)%string, r2. split; [assumption|].
    split; [now apply append_nonempty|]. intros E2. rewrite <- E2 in E1.
    now apply (common_of_append k1 p1 k2 p2 Ne1 Ne2 E1).
  - exists (k1 ++ p1)%string, r1. split; [assumption|].
    split; [now apply append_nonempty | assumption].
Qed.

Lemma without_no_star : forall items : dict obj,
    dmem "*" items = false -> new_dict_without_key "*" items = items.
Proof.
  induction items as [|[k v] items IH]; intros H; [reflexivity|].
  unfold dmem in H. cbn [dget] in H.
  cbn [new_dict_without_key filter fst].
  destruct (String.eqb k "*"); [discriminate H|]. cbn [negb]. f_equal.
  apply IH. exact H.
Qed.

(** What the loop over [parents] leaves of a node with two entries or more
    has routes or two children. *)
Lemma compact_remainder : forall e1 e2 (l : dict obj),
    forallb (fun kv => compact false (snd kv)) (e1 :: e2 :: l) = true ->
    compact false (Dict (e1 :: e2 :: l)) = true.
Proof.
  intros e1 e2 l F. apply compact_intro; [|assumption]. cbn [orb].
  destruct (dmem "*" (e1 :: e2 :: l)) eqn:Ds; [reflexivity|].
  rewrite (without_no_star _ Ds). reflexivity.
Qed.

Lemma compact_head_dset_old : forall is_root (items : dict obj) k v old,
    dget k items = Some old -> k <> "*"%string ->
    (is_root || dmem "*" items
     || (2 <=? List.length (new_dict_without_key "*" items))%nat) = true ->
    (is_root || dmem "*" (dset k v items)
     || (2 <=? List.length (new_dict_without_key "*" (dset k v items)))%nat) = true.
Proof.
  intros is_root items k v old G Nk H.
  rewrite dmem_dset. apply String.eqb_neq in Nk. rewrite Nk. cbn [orb].
  apply String.eqb_neq in Nk. rewrite without_dset_other by assumption.
  rewrite (length_dset_old _ _ _ old); [assumption|]. now rewrite dget_without.
Qed.

Lemma compact_head_splice : forall is_root (items : dict obj) k child k2 v,
    dget k items = Some child -> k <> "*"%string -> k2 <> "*"%string ->
    dget k2 (ddel k items) = None ->
    (is_root || dmem "*" items
     || (2 <=? List.length (new_dict_without_key "*" items))%nat) = true ->
    (is_root || dmem "*" (dset k2 v (ddel k items))
     || (2 <=? List.length (new_dict_without_key "*" (dset k2 v (ddel k items))))%nat)
    = true.
Proof.
  intros is_root items k child k2 v G Nk Nk2 G2 H.
  rewrite dmem_dset. apply String.eqb_neq in Nk2. rewrite Nk2. cbn [orb].
  apply String.eqb_neq in Nk2.
  assert (Ed : dmem "*" (ddel k items) = dmem "*" items).
  { unfold dmem. now rewrite dget_ddel_other by congruence. }
  rewrite Ed. rewrite without_dset_other, without_ddel_other by assumption.
  apply orb_prop in H. destruct H as [H|H]; [now rewrite H|].
  apply Nat.leb_le in H. apply orb_true_iff. right. apply Nat.leb_le.
  assert (Gw : dget k (new_dict_without_key "*" items) = Some child)
    by now rewrite dget_without.
  pose proof (length_ddel _ _ _ _ Gw) as Ld.
  rewrite length_dset_new; [lia|].
  rewrite <- without_ddel_other by assumption. now rewrite dget_without.
Qed.

(** One turn of the loop over [parents] keeps the tree canonical when the
    node below has a child left. *)
Lemma merge_compact : forall is_root parent k child items',
    radix_wf (Dict parent) = true -> dget k parent = Some (Dict child) ->
    k <> "*"%string -> radix_wf (Dict items') = true ->
    truthy (new_dict_without_key "*" items') = true ->
    compact is_root (Dict parent) = true ->
    forallb (fun kv => compact false (snd kv)) items' = true ->
    compact is_root (Dict (IPRadixTree.merge parent k items')) = true.
Proof.
  intros is_root parent k child items' W G Nk Wi He C Fi.
  pose proof (radix_wf_nodup _ W) as N.
  destruct (radix_wf_edge _ _ _ W G Nk) as (Ne & Bk & _).
  apply compact_parts in C. destruct C as [C1 C2].
  destruct items' as [|[cb c] [|e2 l]].
  - discriminate He.
  - assert (Ncb : cb <> "*"%string) by (intros ->; discriminate He).
    assert (Gc : dget cb [(cb, c)] = Some c) by (cbn; now rewrite String.eqb_refl).
    destruct (radix_wf_edge _ _ _ Wi Gc Ncb) as (Necb & Bcb & _).
    assert (Nkc : (k ++ cb)%string <> "*"%string).
    { apply String.eqb_neq, is_bits_not_star. rewrite is_bits_append.
      now rewrite Bk. }
    assert (Nkk : (k ++ cb)%string <> k).
    { intros E. rewrite <- (append_empty_r k) in E at 2.
      apply append_inj_l in E. congruence. }
    cbn [IPRadixTree.merge]. apply compact_intro.
    + apply (compact_head_splice is_root parent k (Dict child)); auto.
      rewrite dget_ddel_other by assumption.
      destruct (dget (k ++ cb) parent) as [o|] eqn:Go; [exfalso | reflexivity].
      pose proof (radix_wf_disjoint _ _ _ _ _ W G Go Nk Nkc (not_eq_sym Nkk)) as D.
      rewrite <- (append_empty_r k) in D at 1. rewrite common_append in D.
      now apply append_nonempty in D.
    + apply forallb_compact_dset; [now apply forallb_ddel|].
      cbn [forallb snd] in Fi. now apply andb_prop in Fi.
  - cbn [IPRadixTree.merge]. apply compact_intro.
    + now apply (compact_head_dset_old is_root parent k _ (Dict child)).
    + apply forallb_compact_dset; [assumption|]. now apply compact_remainder.
Qed.

Lemma nothing_inside_below : forall items k child rest,
    radix_wf (Dict items) = true -> dget k items = Some child -> k <> "*"%string ->
    (forall path routes, In (path, routes) (stored (Dict items)) ->
                         prefix_of (k ++ rest) path = true -> path = (k ++ rest)%string) ->
    forall path routes, In (path, routes) (stored child) ->
                        prefix_of rest path = true -> path = rest.
Proof.
  intros items k child rest W G Nk H path routes Hin P.
  apply prefix_of_iff in P. destruct P as [suf ->].
  apply (In_stored_edge items k child _ _ Nk G) in Hin.
  apply H in Hin.
  - now apply append_inj_l in Hin.
  - rewrite <- append_assoc. apply prefix_of_append.
Qed.

Lemma covers_have_more_below : forall items k child rest,
    radix_wf (Dict items) = true -> dget k items = Some child -> k <> "*"%string ->
    (forall pre held,
        In (pre, held) (stored (Dict items)) -> pre <> EmptyString ->
        prefix_of pre (k ++ rest) = true -> pre <> (k ++ rest)%string ->
        exists path routes,
          In (path, routes) (stored (Dict items))
          /\ prefix_of pre path = true /\ path <> pre /\ path <> (k ++ rest)%string) ->
    forall pre held,
      In (pre, held) (stored child) -> pre <> EmptyString ->
      prefix_of pre rest = true -> pre <> rest ->
      exists path routes,
        In (path, routes) (stored child)
        /\ prefix_of pre path = true /\ path <> pre /\ path <> rest.
Proof.
  intros items k child rest W G Nk H pre held Hin Ne P Np.
  destruct (radix_wf_edge _ _ _ W G Nk) as (Nek & _ & _).
  apply (In_stored_edge items k child _ _ Nk G) in Hin.
  apply prefix_of_iff in P. destruct P as [suf ->].
  destruct (H _ _ Hin) as (path & routes & Hp & P1 & N1 & N2).
  - now apply append_nonempty.
  - rewrite <- append_assoc. apply prefix_of_append.
  - intros E. apply append_inj_l in E. congruence.
  - apply prefix_of_iff in P1. destruct P1 as [s2 ->].
    rewrite append_assoc in Hp. apply (In_stored_below _ _ _ _ _ W G Nk) in Hp.
    exists (pre ++ s2)%string, routes. split; [assumption|].
    split; [apply prefix_of_append|]. split.
    + intros E. apply N1. now rewrite append_assoc, E.
    + intros E. apply N2. now rewrite append_assoc, E.
Qed.

(** The walk of [IPRadixTree.delete] to a stored prefix with no prefix
    inside, when the list is emptied and every stored prefix that covers it
    covers another one as well: the number left in [turns] tells how far
    above the node of the prefix the walk is. *)
Lemma radix_delete_walk_leaf :
  forall fuel is_root items bits attrs counter bucket,
    radix_wf (Dict items) = true -> compact is_root (Dict items) = true ->
    (height (Dict items) <= fuel)%nat ->
    In (bits, bucket) (stored (Dict items)) ->
    (forall path routes, In (path, routes) (stored (Dict items)) ->
                         prefix_of bits path = true -> path = bits) ->
    (forall pre held,
        In (pre, held) (stored (Dict items)) -> pre <> EmptyString ->
        prefix_of pre bits = true -> pre <> bits ->
        exists path routes,
          In (path, routes) (stored (Dict items))
          /\ prefix_of pre path = true /\ path <> pre /\ path <> bits) ->
    (truthy attrs = true ->
     objs_with_all_attrs bucket attrs <> [] /\ kept bucket attrs = []) ->
    exists items' counter' turns,
      IPRadixTree.delete_walk fuel attrs counter items bits
      = Ok (items', counter', turns)
      /\ counter' = counter - Z.of_nat (List.length bucket)
      /\ radix_wf (Dict items') = true
      /\ replaced bits [] (Dict items) (Dict items')
      /\ forallb (fun kv => compact false (snd kv)) items' = true
      /\ match turns with
         | O => compact is_root (Dict items') = true
         | S O =>
             bits <> EmptyString
             /\ ((exists path routes,
                     In (path, routes) (stored (Dict items))
                     /\ path <> EmptyString /\ path <> bits) ->
                 truthy (new_dict_without_key "*" items') = true)
         | S (S above) => above = O /\ bits = EmptyString /\ items' = []
         end.
Proof.
  induction fuel as [|fuel IH];
    intros is_root items bits attrs counter bucket W C Hh Hin Leaf More Ha;
    [simpl in Hh; lia|].
  cbn [IPRadixTree.delete_walk]. pose proof (radix_wf_nodup _ W) as N.
  pose proof (compact_parts _ _ C) as [C1 C2].
  destruct (String.eqb_spec bits EmptyString) as [->|Nb].
  { rewrite delete_scan_empty. unfold IPRadixTree.delete_here. cbn [is_empty negb].
    assert (G : dget "*" items = Some (PList bucket)).
    { apply In_stored in Hin; [|assumption].
      destruct Hin as [[_ G]|(k & c & suf & Nk & Gk & E & _)]; [exact G|].
      destruct (radix_wf_edge _ _ _ W Gk Nk) as (Ne & _).
      symmetry in E. now apply append_nonempty in E. }
    rewrite G. cbn [as_list bind].
    assert (Ed : ddel "*" items = []).
    { apply ddel_star_of_leaf; [assumption|].
      apply leaf_has_no_edge; [assumption | assumption |].
      intros path routes Hp. apply (Leaf _ _ Hp), prefix_of_empty. }
    pose proof (replaced_here items [] W) as R. cbn in R. rewrite Ed in *.
    destruct (truthy attrs) eqn:Ta.
    - destruct (Ha eq_refl) as [Hm Hk]. rewrite remove_matching_kept, Hk.
      pose proof (kept_length bucket attrs) as Lk. rewrite Hk in Lk.
      destruct (objs_with_all_attrs bucket attrs) as [|m ms] eqn:Em; [congruence|].
      cbn [truthy andb orb negb]. do 3 eexists. split; [reflexivity|].
      split; [simpl in *; lia|]. split; [reflexivity|]. split; [exact R|].
      split; [reflexivity|]. repeat split.
    - cbn [andb orb negb]. do 3 eexists. split; [reflexivity|].
      split; [reflexivity|]. split; [reflexivity|]. split; [exact R|].
      split; [reflexivity|]. repeat split. }
  rewrite delete_scan_find by assumption.
  destruct (find (fun e => prefix_of (fst e) bits) (IPRadixTree.nodes_of items))
    as [[k child]|] eqn:F.
  - apply find_some in F. destruct F as [Hk P]. simpl in P.
    apply nodes_of_In in Hk. destruct Hk as [Hk Nk].
    pose proof (In_dget _ _ _ N Hk) as G.
    destruct (radix_wf_edge _ _ _ W G Nk) as (Ne & Bk & Wc).
    destruct (radix_wf_dict _ Wc) as [citems ->]. cbn [as_dict bind].
    assert (Ec : bits_in_common k bits = k)
      by (unfold prefix_of in P; now apply String.eqb_eq in P).
    rewrite Ec. pose proof (prefix_of_split _ _ P) as Eb.
    remember (drop (String.length k) bits) as rest eqn:Er. clear Er. subst bits.
    apply (In_stored_below _ _ _ _ _ W G Nk) in Hin.
    pose proof (nothing_inside_below _ _ _ _ W G Nk Leaf) as Leaf'.
    pose proof (covers_have_more_below _ _ _ _ W G Nk More) as More'.
    assert (Cc : compact false (Dict citems) = true).
    { rewrite forallb_forall in C2. apply (C2 _ Hk). }
    destruct (IH false citems rest attrs counter bucket Wc Cc)
      as (items' & counter' & turns & Ew & Ecn & Wi & R & Fi & Shape); auto.
    { pose proof (height_child _ _ _ Hk). lia. }
    rewrite Ew. cbn [bind].
    destruct turns as [|[|turns']]; do 3 eexists; (split; [reflexivity|]);
      (split; [exact Ecn|]).
    + assert (Cd : compact is_root (Dict (dset k (Dict items') items)) = true).
      { apply compact_intro; [|now apply forallb_compact_dset].
        now apply (compact_head_dset_old is_root items k _ (Dict citems)). }
      split; [|split; [|split; [|exact Cd]]].
      * apply radix_wf_dset_edge; auto. intros k' ch' G' Nk' Nkk.
        apply (radix_wf_disjoint items k (Dict citems) k' ch'); auto.
      * apply (radix_replaced_below items k citems (Dict items') _ _ W G Nk Wi R).
      * now apply compact_parts in Cd.
    + destruct Shape as [Nr Edge].
      assert (He : truthy (new_dict_without_key "*" items') = true).
      { apply Edge. destruct (dmem "*" citems) eqn:Ds.
        - unfold dmem in Ds. destruct (dget "*" citems) as [held|] eqn:Gs;
            [|discriminate Ds].
          destruct (radix_wf_routes _ _ Wc Gs) as [h ->].
          assert (Hs : In (k, h) (stored (Dict items))).
          { rewrite <- (append_empty_r k).
            apply (In_stored_edge items k (Dict citems)); auto.
            apply In_stored; [now apply radix_wf_nodup | auto]. }
          destruct (More _ _ Hs Ne (prefix_of_append _ _))
            as (path & routes & Hp & P1 & N1 & N2).
          { intros E. rewrite <- (append_empty_r k) in E at 1.
            apply append_inj_l in E. congruence. }
          apply prefix_of_iff in P1. destruct P1 as [suf ->].
          apply (In_stored_below _ _ _ _ _ W G Nk) in Hp.
          exists suf, routes. split; [assumption|]. split.
          + intros ->. now rewrite append_empty_r in N1.
          + intros ->. now apply N2.
        - apply (branching_stores_two citems rest Wc Cc Ds). }
      destruct (merge_result items k citems items' _ W G Nk Wi He R)
        as (Wm & Rm & _).
      pose proof (merge_compact is_root items k citems items' W G Nk Wi He C Fi)
        as Cm.
      split; [exact Wm|]. split; [exact Rm|]. split; [|exact Cm].
      now apply compact_parts in Cm.
    + destruct Shape as (-> & -> & ->). cbn [IPRadixTree.merge].
      assert (Leaf0 : forall p r, In (p, r) (stored (Dict citems)) -> p = EmptyString).
      { intros p r Hp. apply (Leaf' _ _ Hp), prefix_of_empty. }
      rewrite append_empty_r in *.
      split; [now apply radix_wf_ddel|].
      split; [now apply (drop_leaf_replaced items k (Dict citems))|].
      split; [now apply forallb_ddel|].
      split; [assumption|].
      intros (path & routes & Hp & N1 & N2).
      now apply (other_edge_left items k (Dict citems) path routes).
  - exfalso. apply (nothing_stored_off_edges items bits bucket W Nb); [|exact Hin].
    intros k c Gk Nk. apply (find_none _ _ F (k, c)).
    apply nodes_of_In. split; [apply dget_In, Gk | assumption].
Qed.

(** On a canonical radix tree, [delete] of a stored prefix with no stored
    prefix inside it, with no attributes or with attributes that all its
    routes have, is right when every stored prefix that covers it (the one of
    no bits apart) covers another stored prefix as well: it returns, the tree
    stays canonical, nothing is stored under the bits of the prefix any more,
    what is stored under other bits is stored as before, and the counter
    loses the routes of the list.  The node above then keeps a child, and the
    second turn of the loop over [parents] merges two nodes only where the
    upper one holds no routes. *)
Theorem radix_delete_of_leaf_prefix :
  forall (t : table) (prefix : network) (attrs : kwargs) (bucket : list Route),
    canonical t = true ->
    In (bits_in_prefix prefix, bucket) (stored (_root t)) ->
    nothing_inside (_root t) (bits_in_prefix prefix) = true ->
    covers_have_more (_root t) (bits_in_prefix prefix) = true ->
    (truthy attrs = true ->
     objs_with_all_attrs bucket attrs <> [] /\ kept bucket attrs = []) ->
    exists t',
      delete RadixTree t prefix attrs = Ok t'
      /\ canonical t' = true
      /\ replaced (bits_in_prefix prefix) [] (_root t) (_root t')
      /\ _counter t' = _counter t - Z.of_nat (List.length bucket).
Proof.
  intros t prefix attrs bucket Cn Hin Leaf More Ha.
  unfold canonical in Cn. apply andb_prop in Cn. destruct Cn as [W C].
  destruct (radix_wf_dict _ W) as [items E]. rewrite E in *.
  cbn [delete RadixTree]. unfold IPRadixTree.delete. rewrite E.
  cbn [as_dict bind].
  assert (Hf : (height (Dict items) <= IPRadixTree.fuel_of (Dict items))%nat)
    by (unfold IPRadixTree.fuel_of; lia).
  destruct (radix_delete_walk_leaf _ true items _ attrs (_counter t) bucket W C Hf Hin
              (nothing_inside_spec _ _ Leaf) (covers_have_more_spec _ _ More) Ha)
    as (items' & counter' & turns & Ew & Ec & Wi & R & Fi & _).
  rewrite Ew. cbn [bind sanitize]. eexists. split; [reflexivity|].
  unfold canonical. cbn [_root _counter]. rewrite Wi. cbn [andb].
  split; [|split; [exact R | exact Ec]].
  now apply compact_intro.
Qed.

Lemma radix_delete_of_leaf_prefix_witness :
  let t := fst (run RadixTree sample_calls) in
  let p := net4 10 1 0 0 16 in
  exists bucket t',
    In (bits_in_prefix p, bucket) (stored (_root t))
    /\ delete RadixTree t p [] = Ok t'
    /\ canonical t' = true
    /\ replaced (bits_in_prefix p) [] (_root t) (_root t')
    /\ _counter t' = _counter t - Z.of_nat (List.length bucket).
Proof.
  cbv zeta.
  assert (Cn : canonical (fst (run RadixTree sample_calls)) = true)
    by (vm_compute; reflexivity).
  assert (Leaf : nothing_inside (_root (fst (run RadixTree sample_calls)))
                                (bits_in_prefix (net4 10 1 0 0 16)) = true)
    by (vm_compute; reflexivity).
  assert (More : covers_have_more (_root (fst (run RadixTree sample_calls)))
                                  (bits_in_prefix (net4 10 1 0 0 16)) = true)
    by (vm_compute; reflexivity).
  destruct (bucket_at_cases (_root (fst (run RadixTree sample_calls)))
              (bits_in_prefix (net4 10 1 0 0 16))) as [[bucket Hin]|No].
  - destruct (radix_delete_of_leaf_prefix _ (net4 10 1 0 0 16) [] bucket Cn Hin Leaf More)
      as (t' & D & Cn' & R & Ec).
    + discriminate.
    + exists bucket, t'. auto.
  - exfalso. eapply No. vm_compute. repeat (first [left; reflexivity | right]).
Defined.

(** ** The layout that [Heap.alloc] gives *)

Lemma alloc_dict : forall items h,
    Heap.alloc (Dict items) h
    = let '(refs, h') := alloc_items items h in
      (List.length h', h' ++ [Heap.HDict refs]).
Proof. reflexivity. Qed.

Lemma lay_dict : forall h items lo a,
    lay h (Dict items) lo a
    <-> exists refs,
        nth_error h a = Some (Heap.HDict refs) /\ lay_items (lay h) a items refs lo.
Proof. reflexivity. Qed.

Lemma cost_dict : forall items, cost (Dict items) = S (cost_items items).
Proof.
  intros items. cbn [cost]. f_equal.
  induction items as [|[k c] l IH]; [reflexivity|].
  cbn [cost_items fold_right snd]. f_equal. exact IH.
Qed.

Lemma lay_items_impl : forall (R1 R2 : obj -> nat -> nat -> Prop) a l refs lo,
    (forall k c, In (k, c) l -> forall lo' ac, R1 c lo' ac -> R2 c lo' ac) ->
    lay_items R1 a l refs lo -> lay_items R2 a l refs lo.
Proof.
  intros R1 R2 a l. induction l as [|[k c] l IH]; intros [|[k' ac] refs] lo H L;
    cbn [lay_items] in *; try assumption.
  destruct L as (E & Lc & Ll). split; [assumption|]. split.
  - apply (H k c); [now left | assumption].
  - apply IH; [|assumption]. intros k0 c0 Hin. apply (H k0 c0). now right.
Qed.

Lemma lay_items_lo : forall (R : obj -> nat -> nat -> Prop) a l refs lo lo',
    (forall k c, In (k, c) l -> forall l1 l2 ac, R c l1 ac -> (l2 <= l1)%nat -> R c l2 ac) ->
    lay_items R a l refs lo -> (lo' <= lo)%nat -> lay_items R a l refs lo'.
Proof.
  intros R a [|[k c] l] [|[k' ac] refs] lo lo' H L Hl; cbn [lay_items] in *;
    try assumption; [lia|].
  destruct L as (E & Lc & Ll). split; [assumption|]. split; [|assumption].
  apply (H k c) with (l1 := lo); [now left | assumption | assumption].
Qed.

Lemma lay_items_range : forall (R : obj -> nat -> nat -> Prop) a l refs lo,
    (forall k c, In (k, c) l -> forall l1 ac, R c l1 ac -> (l1 <= ac)%nat) ->
    lay_items R a l refs lo -> (lo <= a)%nat.
Proof.
  intros R a l. induction l as [|[k c] l IH]; intros [|[k' ac] refs] lo H L;
    cbn [lay_items] in *; try assumption; try contradiction.
  destruct L as (E & Lc & Ll).
  assert (lo <= ac)%nat by (apply (H k c); [now left | assumption]).
  assert (S ac <= a)%nat; [|lia].
  apply (IH refs); [|assumption]. intros k0 c0 Hin. apply (H k0 c0). now right.
Qed.

Lemma lay_ext : forall h m o lo a, lay h o lo a -> lay (h ++ m) o lo a.
Proof.
  intros h m o. induction o as [routes|items IH] using obj_induction; intros lo a L.
  - destruct L as [Hl Hc]. split; [assumption|].
    rewrite nth_error_app1; [assumption|]. apply nth_error_Some. congruence.
  - apply lay_dict in L. destruct L as (refs & Hc & L). apply lay_dict.
    exists refs. split.
    + rewrite nth_error_app1; [assumption|]. apply nth_error_Some. congruence.
    + apply (lay_items_impl (lay h)); [|assumption].
      intros k c Hin lo' ac. now apply (IH k c).
Qed.

Lemma lay_lo : forall h o lo lo' a,
    lay h o lo a -> (lo' <= lo)%nat -> lay h o lo' a.
Proof.
  intros h o. induction o as [routes|items IH] using obj_induction;
    intros lo lo' a L Hl.
  - destruct L as [H Hc]. split; [lia | assumption].
  - apply lay_dict in L. destruct L as (refs & Hc & L). apply lay_dict.
    exists refs. split; [assumption|].
    apply (lay_items_lo _ _ _ _ lo); [|assumption | assumption].
    intros k c Hin l1 l2 ac. now apply (IH k c).
Qed.

Lemma lay_range : forall h o lo a, lay h o lo a -> (lo <= a)%nat.
Proof.
  intros h o. induction o as [routes|items IH] using obj_induction; intros lo a L.
  - now destruct L.
  - apply lay_dict in L. destruct L as (refs & Hc & L).
    apply (lay_items_range _ _ _ _ _ (fun k c Hin l1 ac => IH k c Hin l1 ac) L).
Qed.

Lemma alloc_items_lay : forall l,
    (forall k c, In (k, c) l ->
                 forall h a h', Heap.alloc c h = (a, h') ->
                                lay h' c (List.length h) a
                                /\ S a = List.length h' /\ exists m, h' = h ++ m) ->
    forall h refs h1,
      alloc_items l h = (refs, h1) ->
      (exists m, h1 = h ++ m)
      /\ forall a, (List.length h1 <= a)%nat ->
                   lay_items (lay h1) a l refs (List.length h).
Proof.
  induction l as [|[k c] l IH]; intros Hc h refs h1 E.
  - cbn in E. injection E as <- <-. split; [exists []; now rewrite app_nil_r|].
    intros a Ha. cbn [lay_items]. exact Ha.
  - cbn [alloc_items] in E. destruct (Heap.alloc c h) as [ac h2] eqn:Ea.
    fold alloc_items in E.
    destruct (alloc_items l h2) as [r h3] eqn:El. injection E as <- <-.
    destruct (Hc k c (or_introl eq_refl) _ _ _ Ea) as (Lc & Sa & m1 & ->).
    destruct (IH (fun k0 c0 Hin => Hc k0 c0 (or_intror Hin)) _ _ _ El)
      as ((m2 & ->) & Ll).
    split; [exists (m1 ++ m2); now rewrite app_assoc|].
    intros a Ha. cbn [lay_items]. split; [reflexivity|]. split.
    + now apply lay_ext.
    + rewrite Sa. now apply Ll.
Qed.

Lemma alloc_lay : forall o h a h',
    Heap.alloc o h = (a, h') ->
    lay h' o (List.length h) a /\ S a = List.length h' /\ exists m, h' = h ++ m.
Proof.
  induction o as [routes|items IH] using obj_induction; intros h a h' E.
  - cbn in E. injection E as <- <-. split; [|split].
    + split; [lia|]. rewrite nth_error_app2 by lia. now rewrite Nat.sub_diag.
    + rewrite length_app. simpl. lia.
    + now exists [Heap.HList routes].
  - rewrite alloc_dict in E. destruct (alloc_items items h) as [refs h1] eqn:El.
    injection E as <- <-.
    destruct (alloc_items_lay items IH _ _ _ El) as ((m & ->) & Ll).
    split; [|split].
    + apply lay_dict. exists refs. split.
      * rewrite nth_error_app2 by lia. now rewrite Nat.sub_diag.
      * apply (lay_items_impl (lay (h ++ m))); [|now apply Ll].
        intros k c Hin lo' ac. apply lay_ext.
    + rewrite !length_app. simpl. lia.
    + exists (m ++ [Heap.HDict refs]). now rewrite app_assoc.
Qed.

Lemma size_app : forall h m, Heap.size (h ++ m) = (Heap.size h + Heap.size m)%nat.
Proof.
  intros h m. unfold Heap.size. induction h as [|c h IH]; [reflexivity|].
  cbn [app fold_right]. rewrite IH. destruct c; lia.
Qed.

Lemma alloc_items_size : forall l,
    (forall k c, In (k, c) l ->
                 forall h a h', Heap.alloc c h = (a, h') ->
                                (Heap.size h' + 1 = Heap.size h + cost c)%nat) ->
    forall h refs h1,
      alloc_items l h = (refs, h1) ->
      (Heap.size h1 + List.length refs = Heap.size h + cost_items l)%nat.
Proof.
  induction l as [|[k c] l IH]; intros Hc h refs h1 E.
  - cbn in E. injection E as <- <-. cbn. lia.
  - cbn [alloc_items] in E. destruct (Heap.alloc c h) as [ac h2] eqn:Ea.
    fold alloc_items in E.
    destruct (alloc_items l h2) as [r h3] eqn:El. injection E as <- <-.
    pose proof (Hc k c (or_introl eq_refl) _ _ _ Ea) as S1.
    pose proof (IH (fun k0 c0 Hin => Hc k0 c0 (or_intror Hin)) _ _ _ El) as S2.
    cbn [List.length cost_items fold_right snd]. fold (cost_items l). lia.
Qed.

Lemma alloc_size : forall o h a h',
    Heap.alloc o h = (a, h') -> (Heap.size h' + 1 = Heap.size h + cost o)%nat.
Proof.
  induction o as [routes|items IH] using obj_induction; intros h a h' E.
  - cbn in E. injection E as <- <-. rewrite size_app. cbn. lia.
  - rewrite alloc_dict in E. destruct (alloc_items items h) as [refs h1] eqn:El.
    injection E as <- <-.
    pose proof (alloc_items_size items IH _ _ _ El) as S1.
    rewrite size_app, cost_dict. cbn [Heap.size fold_right]. lia.
Qed.

Lemma lay_items_dget : forall h a l refs lo k c,
    lay_items (lay h) a l refs lo -> dget k l = Some c ->
    exists lo1 ac,
      dget k refs = Some ac /\ lay h c lo1 ac /\ (lo <= lo1)%nat /\ (ac < a)%nat.
Proof.
  intros h a l. induction l as [|[k0 c0] l IH]; intros [|[k0' ac0] refs] lo k c L G;
    cbn [lay_items] in L; try discriminate G; try contradiction.
  destruct L as (<- & Lc & Ll). cbn [dget] in *.
  assert (Hr : (S ac0 <= a)%nat).
  { apply (lay_items_range _ _ _ _ _ (fun k1 c1 _ l1 a1 => lay_range h c1 l1 a1) Ll). }
  destruct (String.eqb k0 k).
  - injection G as <-. exists lo, ac0. repeat split; auto; lia.
  - destruct (IH _ _ _ _ Ll G) as (lo1 & ac & G' & Lk & Hl & Ha).
    exists lo1, ac. pose proof (lay_range _ _ _ _ Lc). repeat split; auto; lia.
Qed.

Lemma lay_items_two : forall h a l refs lo k1 c1 k2 c2,
    lay_items (lay h) a l refs lo ->
    dget k1 l = Some c1 -> dget k2 l = Some c2 -> k1 <> k2 ->
    exists lo1 a1 lo2 a2,
      dget k1 refs = Some a1 /\ dget k2 refs = Some a2
      /\ lay h c1 lo1 a1 /\ lay h c2 lo2 a2
      /\ ((a1 < lo2)%nat \/ (a2 < lo1)%nat).
Proof.
  intros h a l. induction l as [|[k0 c0] l IH];
    intros [|[k0' ac0] refs] lo k1 c1 k2 c2 L G1 G2 N;
    cbn [lay_items] in L; try discriminate G1; try contradiction.
  destruct L as (<- & Lc & Ll). cbn [dget] in *.
  destruct (String.eqb_spec k0 k1) as [E1|N1], (String.eqb_spec k0 k2) as [E2|N2].
  - congruence.
  - injection G1 as <-.
    destruct (lay_items_dget _ _ _ _ _ _ _ Ll G2) as (lo2 & a2 & G' & L2 & Hl & _).
    exists lo, ac0, lo2, a2. repeat split; auto.
  - injection G2 as <-.
    destruct (lay_items_dget _ _ _ _ _ _ _ Ll G1) as (lo1 & a1 & G' & L1 & Hl & _).
    exists lo1, a1, lo, ac0. repeat split; auto.
  - apply (IH _ _ _ _ _ _ Ll G1 G2 N).
Qed.

Lemma lay_items_keys : forall (R : obj -> nat -> nat -> Prop) a l refs lo,
    lay_items R a l refs lo -> map fst refs = map fst l.
Proof.
  intros R a l. induction l as [|[k c] l IH]; intros [|[k' ac] refs] lo L;
    cbn [lay_items] in L; try contradiction; [reflexivity|].
  destruct L as (<- & _ & Ll). cbn [map fst]. f_equal. apply (IH _ _ Ll).
Qed.

(** The cells of a tree that lies in the heap: the reference that a way
    through the tree leads to, and the tree below it. *)
Lemma lay_sub : forall h e o lo a c,
    lay h o lo a -> sub_at o e = Some c ->
    exists lo' a',
      haddr h a e = Some a' /\ lay h c lo' a'
      /\ (lo <= lo')%nat /\ (a' <= a)%nat /\ (e <> EmptyString -> (a' < a)%nat).
Proof.
  intros h e. induction e as [|ch e IH]; intros o lo a c L S.
  - cbn in S. injection S as <-. exists lo, a. repeat split; auto. congruence.
  - cbn [sub_at] in S. destruct o as [items|routes]; [|discriminate S].
    destruct (dget (String ch "") items) as [child|] eqn:G; [|discriminate S].
    apply lay_dict in L. destruct L as (refs & Hc & L).
    destruct (lay_items_dget _ _ _ _ _ _ _ L G) as (lo1 & ac & G' & Lc & Hl & Ha).
    destruct (IH _ _ _ _ Lc S) as (lo' & a' & Hh & Lk & H1 & H2 & _).
    exists lo', a'. cbn [haddr]. rewrite Hc, G'. repeat split; auto; lia.
Qed.

Lemma lay_inj : forall h e1 e2 o lo a c1 c2,
    lay h o lo a -> sub_at o e1 = Some c1 -> sub_at o e2 = Some c2 ->
    haddr h a e1 = haddr h a e2 -> e1 = e2.
Proof.
  intros h e1. induction e1 as [|ch1 e1 IH]; intros [|ch2 e2] o lo a c1 c2 L S1 S2 E.
  - reflexivity.
  - exfalso. destruct (lay_sub _ _ _ _ _ _ L S2) as (lo' & a' & Hh & _ & _ & _ & Ha).
    rewrite Hh in E. cbn in E. injection E as ->.
    assert (a' < a')%nat by (apply Ha; discriminate). lia.
  - exfalso. destruct (lay_sub _ _ _ _ _ _ L S1) as (lo' & a' & Hh & _ & _ & _ & Ha).
    rewrite Hh in E. cbn in E. injection E as <-.
    assert (a' < a')%nat by (apply Ha; discriminate). lia.
  - cbn [sub_at] in S1, S2. destruct o as [items|routes]; [|discriminate S1].
    destruct (dget (String ch1 "") items) as [child1|] eqn:G1; [|discriminate S1].
    destruct (dget (String ch2 "") items) as [child2|] eqn:G2; [|discriminate S2].
    apply lay_dict in L. destruct L as (refs & Hc & L).
    cbn [haddr] in E. rewrite Hc in E.
    destruct (Ascii.eqb_spec ch1 ch2) as [->|Nc].
    + rewrite G1 in G2. injection G2 as <-.
      destruct (lay_items_dget _ _ _ _ _ _ _ L G1) as (lo1 & ac & G' & Lc & _).
      rewrite G' in E. f_equal. apply (IH _ _ _ _ _ _ Lc S1 S2 E).
    + exfalso.
      destruct (lay_items_two _ _ _ _ _ _ _ _ _ L G1 G2)
        as (lo1 & a1 & lo2 & a2 & R1 & R2 & L1 & L2 & D); [congruence|].
      rewrite R1, R2 in E.
      destruct (lay_sub _ _ _ _ _ _ L1 S1) as (l1' & x1 & H1 & K1 & ? & ? & _).
      destruct (lay_sub _ _ _ _ _ _ L2 S2) as (l2' & x2 & H2 & K2 & ? & ? & _).
      rewrite H1, H2 in E. injection E as ->.
      pose proof (lay_range _ _ _ _ K1). pose proof (lay_range _ _ _ _ K2). lia.
Qed.

(** ** The heap as a map from ways to cells *)

Lemma sub_at_app : forall e1 e2 o,
    sub_at o (e1 ++ e2)%string
    = match sub_at o e1 with
      | Some c => sub_at c e2
      | None => None
      end.
Proof.
  induction e1 as [|ch e1 IH]; intros e2 o; [reflexivity|].
  cbn [append sub_at]. destruct o as [items|routes]; [|reflexivity].
  destruct (dget (String ch "") items) as [child|]; [apply IH | reflexivity].
Qed.

Lemma haddr_app : forall h e1 e2 a,
    haddr h a (e1 ++ e2)%string
    = match haddr h a e1 with
      | Some x => haddr h x e2
      | None => None
      end.
Proof.
  intros h. induction e1 as [|ch e1 IH]; intros e2 a; [reflexivity|].
  cbn [append haddr]. destruct (nth_error h a) as [[refs|routes]|]; try reflexivity.
  destruct (dget (String ch "") refs) as [x|]; [apply IH | reflexivity].
Qed.

Lemma key_one_char : forall items k v,
    prefix_wf (Dict items) = true -> In (k, v) items ->
    exists ch, k = String ch EmptyString.
Proof.
  intros items k v W Hin. cbn [prefix_wf] in W. apply andb_prop in W.
  destruct W as [_ F]. rewrite forallb_forall in F. specialize (F _ Hin).
  cbn [fst snd] in F. destruct (String.eqb_spec k "*") as [->|N]; [now eexists|].
  apply andb_prop in F. destruct F as [B _].
  destruct (is_bit_chars _ B) as [->| ->]; now eexists.
Qed.

Lemma sub_at_wf : forall e o n,
    prefix_wf o = true -> sub_at o e = Some (Dict n) -> prefix_wf (Dict n) = true.
Proof.
  induction e as [|ch e IH]; intros o n W S.
  - cbn in S. now injection S as ->.
  - destruct (prefix_wf_dict _ W) as [items ->]. cbn [sub_at] in S.
    destruct (dget (String ch "") items) as [child|] eqn:G; [|discriminate S].
    destruct (String.eqb_spec (String ch "") "*") as [E|N].
    + rewrite E in G. destruct (radix_wf_routes _ _ (prefix_wf_radix_wf _ W) G)
        as [routes ->].
      destruct e; cbn in S; discriminate S.
    + apply (IH child); [|assumption]. apply (prefix_wf_child items _ _ W G N).
Qed.

Lemma refs_are : forall (g : string -> nat) (n : dict obj) (refs : dict nat),
    map fst refs = map fst n ->
    (forall k x, In (k, x) refs -> g k = x) ->
    refs = map (fun kv => (fst kv, g (fst kv))) n.
Proof.
  intros g n. induction n as [|[k c] n IH]; intros [|[k' x] refs] E H;
    try discriminate E; [reflexivity|].
  cbn [map fst] in *. injection E as -> E. f_equal.
  - f_equal. symmetry. apply H. now left.
  - apply IH; [assumption|]. intros k0 x0 Hin. apply H. now right.
Qed.

Lemma nodup_keys_same : forall (A B : Type) (d1 : dict A) (d2 : dict B),
    map fst d1 = map fst d2 -> nodup_keys d1 = nodup_keys d2.
Proof.
  intros A B d1. induction d1 as [|[k v] d1 IH]; intros [|[k' v'] d2] E;
    try discriminate E; [reflexivity|].
  cbn [map fst] in E. injection E as -> E. cbn [nodup_keys].
  rewrite (IH _ E). f_equal. f_equal. unfold dmem.
  clear IH. revert d2 E. induction d1 as [|[k0 v0] d1 IH]; intros [|[k1 v1] d2] E;
    try discriminate E; [reflexivity|].
  cbn [map fst] in E. injection E as -> E. cbn [dget].
  destruct (String.eqb k1 k'); [reflexivity | now apply IH].
Qed.

(** A tree that lies in the heap is held by it, under the references that
    the ways lead to. *)
Lemma lay_rep : forall h o lo a,
    prefix_wf o = true -> lay h o lo a ->
    rep (addr h a) h o /\ apart (addr h a) o.
Proof.
  intros h o lo a W L. split; [|split].
  - intros e c S. destruct (lay_sub _ _ _ _ _ _ L S) as (lo' & a' & Hh & Lc & _).
    unfold addr at 1. rewrite Hh. destruct c as [n|routes]; [|now destruct Lc].
    apply lay_dict in Lc. destruct Lc as (refs & Hc & Ll). rewrite Hc.
    cbn [cell_of]. do 2 f_equal.
    pose proof (lay_items_keys _ _ _ _ _ Ll) as Ek.
    pose proof (sub_at_wf _ _ _ W S) as Wn.
    apply (refs_are (fun k => addr h a (e ++ k)%string)); [assumption|].
    intros k x Hin.
    assert (Nr : nodup_keys refs = true).
    { rewrite (nodup_keys_same _ _ refs n Ek). now apply prefix_wf_nodup. }
    assert (Hk : In k (map fst n)).
    { rewrite <- Ek. apply in_map_iff. now exists (k, x). }
    apply in_map_iff in Hk. destruct Hk as ([k' v] & <- & Hv). cbn [fst] in *.
    destruct (key_one_char _ _ _ Wn Hv) as [ch ->].
    unfold addr. rewrite haddr_app, Hh. cbn [haddr]. rewrite Hc.
    now rewrite (In_dget _ _ _ Nr Hin).
  - intros e1 e2 c1 c2 S1 S2 E.
    destruct (lay_sub _ _ _ _ _ _ L S1) as (l1 & x1 & H1 & _).
    destruct (lay_sub _ _ _ _ _ _ L S2) as (l2 & x2 & H2 & _).
    unfold addr in E. rewrite H1, H2 in E. subst x2.
    apply (lay_inj h e1 e2 o lo a c1 c2 L S1 S2). congruence.
  - intros e ch c S. rewrite sub_at_app in S.
    destruct (sub_at o e) as [ce|] eqn:Se; [|discriminate S].
    destruct (lay_sub _ _ _ _ _ _ L Se) as (l1 & x1 & H1 & L1 & _).
    destruct (lay_sub _ _ _ _ _ _ L1 S) as (l2 & x2 & H2 & _ & _ & _ & Lt).
    unfold addr. rewrite haddr_app, H1, H2. apply Lt. discriminate.
Qed.

(** The tree read back from the cell of a way is the object of that way. *)
Lemma reify_rep : forall A h o,
    prefix_wf o = true -> rep A h o -> apart A o ->
    forall fuel e c,
      sub_at o e = Some c -> (A e < fuel)%nat -> Heap.reify fuel h (A e) = c.
Proof.
  intros A h o W R [_ Fall]. induction fuel as [|fuel IH]; intros e c S Lt; [lia|].
  cbn [Heap.reify]. rewrite (R _ _ S). destruct c as [n|routes]; [|reflexivity].
  cbn [cell_of]. f_equal. rewrite map_map. cbn [fst snd].
  pose proof (sub_at_wf _ _ _ W S) as Wn.
  rewrite <- (map_id n) at 2. apply map_ext_in. intros [k v] Hin. cbn [fst].
  f_equal. destruct (key_one_char _ _ _ Wn Hin) as [ch ->].
  assert (Sk : sub_at o (e ++ String ch "")%string = Some v).
  { rewrite sub_at_app, S. cbn [sub_at].
    now rewrite (In_dget _ _ _ (prefix_wf_nodup _ Wn) Hin). }
  apply IH; [assumption|]. specialize (Fall _ _ _ Sk). lia.
Qed.

Lemma nth_error_store_same : forall h a c,
    (a < List.length h)%nat -> nth_error (Heap.store h a c) a = Some c.
Proof.
  induction h as [|x h IH]; intros [|a] c Lt; cbn in *; try lia; [reflexivity|].
  apply IH. lia.
Qed.

Lemma nth_error_store_other : forall h a b c,
    a <> b -> nth_error (Heap.store h a c) b = nth_error h b.
Proof.
  induction h as [|x h IH]; intros [|a] [|b] c N; cbn; try reflexivity; try congruence.
  apply IH. congruence.
Qed.

Lemma length_store : forall h a c, List.length (Heap.store h a c) = List.length h.
Proof.
  induction h as [|x h IH]; intros [|a] c; cbn; try reflexivity. now rewrite IH.
Qed.

(** ** Ways through a prefix tree *)

Lemma prefix_of_cons : forall c a c' b,
    prefix_of (String c a) (String c' b) = Ascii.eqb c c' && prefix_of a b.
Proof.
  intros c a c' b. destruct (Ascii.eqb_spec c c') as [->|N]; cbn [andb].
  - apply (append_prefix_cancel (String c' "") a b).
  - unfold prefix_of. cbn [bits_in_common].
    destruct (Ascii.eqb_spec c c') as [|_]; [congruence | reflexivity].
Qed.

Lemma keys_dset_old : forall (A : Type) k (v old : A) (d : dict A),
    dget k d = Some old -> map fst (dset k v d) = map fst d.
Proof.
  intros A k v old d. induction d as [|[k0 v0] d IH]; cbn [dget dset]; [discriminate|].
  destruct (String.eqb_spec k0 k) as [->|N]; [reflexivity|].
  intros G. cbn [map fst]. f_equal. now apply IH.
Qed.

Lemma sub_at_is_dict : forall r child nq,
    sub_at child r = Some (Dict nq) -> exists ci, child = Dict ci.
Proof.
  intros r [ci|routes] nq S; [now exists ci|]. destruct r; discriminate S.
Qed.

Lemma sub_at_step : forall ch r items nq,
    sub_at (Dict items) (String ch r) = Some (Dict nq) ->
    exists ci, dget (String ch "") items = Some (Dict ci)
               /\ sub_at (Dict ci) r = Some (Dict nq).
Proof.
  intros ch r items nq S. cbn [sub_at] in S.
  destruct (dget (String ch "") items) as [child|]; [|discriminate S].
  destruct (sub_at_is_dict _ _ _ S) as [ci ->]. now exists ci.
Qed.

(** Below the node that [put] replaces, the tree is the new node. *)
Lemma put_sub_below : forall q items nq new e,
    sub_at (Dict items) q = Some (Dict nq) ->
    sub_at (Dict (put items q new)) (q ++ e) = sub_at (Dict new) e.
Proof.
  induction q as [|ch q IH]; intros items nq new e S; [reflexivity|].
  destruct (sub_at_step _ _ _ _ S) as (ci & G & Sc).
  cbn [put append]. rewrite G. cbn [sub_at]. rewrite dget_dset_same.
  apply (IH _ _ _ _ Sc).
Qed.

(** Off the way to the node that [put] replaces, the tree is as before. *)
Lemma put_sub_other : forall q items nq new e,
    sub_at (Dict items) q = Some (Dict nq) ->
    prefix_of q e = false -> prefix_of e q = false ->
    sub_at (Dict (put items q new)) e = sub_at (Dict items) e.
Proof.
  induction q as [|ch q IH]; intros items nq new e S P1 P2.
  - now rewrite prefix_of_empty in P1.
  - destruct e as [|ch' e]; [now rewrite prefix_of_empty in P2|].
    destruct (sub_at_step _ _ _ _ S) as (ci & G & Sc).
    cbn [put]. rewrite G. cbn [sub_at]. rewrite prefix_of_cons in P1, P2.
    destruct (Ascii.eqb_spec ch ch') as [->|N].
    + rewrite dget_dset_same, G. rewrite Ascii.eqb_refl in P2. cbn [andb] in *.
      apply (IH _ _ _ _ Sc P1 P2).
    + rewrite dget_dset_other; [reflexivity|]. congruence.
Qed.

(** On the way to the node that [put] replaces, the nodes keep their keys. *)
Lemma put_sub_above : forall e r items nq new ne,
    r <> EmptyString ->
    sub_at (Dict items) (e ++ r) = Some (Dict nq) ->
    sub_at (Dict items) e = Some (Dict ne) ->
    sub_at (Dict (put items (e ++ r) new)) e = Some (Dict (put ne r new))
    /\ map fst (put ne r new) = map fst ne.
Proof.
  induction e as [|ch e IH]; intros r items nq new ne Nr S Se.
  - cbn in Se. injection Se as <-. cbn [append sub_at]. split; [reflexivity|].
    destruct r as [|ch r]; [congruence|].
    destruct (sub_at_step _ _ _ _ S) as (ci & G & Sc).
    cbn [put]. rewrite G. apply (keys_dset_old _ _ _ _ _ G).
  - cbn [append] in *. destruct (sub_at_step _ _ _ _ S) as (ci & G & Sc).
    cbn [sub_at] in Se. rewrite G in Se.
    cbn [put]. rewrite G. cbn [sub_at]. rewrite dget_dset_same.
    apply (IH _ _ _ _ _ Nr Sc Se).
Qed.

(** How a way stands to the way of a node: below it, above it, or off it. *)
Lemma ways_compare : forall q e : string,
    (exists e', e = (q ++ e')%string)
    \/ (exists r, r <> EmptyString /\ q = (e ++ r)%string)
    \/ (prefix_of q e = false /\ prefix_of e q = false).
Proof.
  intros q e. destruct (prefix_of q e) eqn:P1.
  - left. now apply prefix_of_iff.
  - destruct (prefix_of e q) eqn:P2; [|now right; right].
    right. left. apply prefix_of_iff in P2. destruct P2 as [r ->]. exists r.
    split; [|reflexivity]. intros ->. rewrite append_empty_r in P1.
    now rewrite prefix_of_refl in P1.
Qed.

Lemma wf_step : forall items k ci,
    prefix_wf (Dict items) = true -> dget k items = Some (Dict ci) ->
    k <> "*"%string /\ is_bit k = true /\ prefix_wf (Dict ci) = true.
Proof.
  intros items k ci W G.
  assert (N : k <> "*"%string).
  { intros ->. destruct (radix_wf_routes _ _ (prefix_wf_radix_wf _ W) G) as [r E].
    discriminate E. }
  split; [assumption|]. split.
  - apply (prefix_wf_bit items k (Dict ci) W G N).
  - apply (prefix_wf_child items k (Dict ci) W G N).
Qed.

Lemma put_wf : forall q items nq new,
    prefix_wf (Dict items) = true -> sub_at (Dict items) q = Some (Dict nq) ->
    prefix_wf (Dict new) = true -> prefix_wf (Dict (put items q new)) = true.
Proof.
  induction q as [|ch q IH]; intros items nq new W S Wn; [assumption|].
  destruct (sub_at_step _ _ _ _ S) as (ci & G & Sc).
  destruct (wf_step _ _ _ W G) as (N & B & Wc).
  cbn [put]. rewrite G. apply prefix_wf_dset_bit; auto. apply (IH _ _ _ Wc Sc Wn).
Qed.

Lemma put_replaced : forall q items nq new r left,
    prefix_wf (Dict items) = true -> sub_at (Dict items) q = Some (Dict nq) ->
    prefix_wf (Dict new) = true ->
    replaced r left (Dict nq) (Dict new) ->
    replaced (q ++ r) left (Dict items) (Dict (put items q new)).
Proof.
  induction q as [|ch q IH]; intros items nq new r left W S Wn R.
  - cbn in S. injection S as <-. exact R.
  - destruct (sub_at_step _ _ _ _ S) as (ci & G & Sc).
    destruct (wf_step _ _ _ W G) as (N & B & Wc).
    cbn [put]. rewrite G.
    apply (replaced_below items (String ch "") ci _ (q ++ r) left W G N).
    + apply (put_wf _ _ _ _ Wc Sc Wn).
    + apply (IH _ _ _ _ _ Wc Sc Wn R).
Qed.

Lemma put_same_elsewhere : forall q items nq new r,
    prefix_wf (Dict items) = true -> sub_at (Dict items) q = Some (Dict nq) ->
    prefix_wf (Dict new) = true ->
    same_elsewhere r (Dict nq) (Dict new) ->
    same_elsewhere (q ++ r) (Dict items) (Dict (put items q new)).
Proof.
  induction q as [|ch q IH]; intros items nq new r W S Wn R.
  - cbn in S. injection S as <-. exact R.
  - destruct (sub_at_step _ _ _ _ S) as (ci & G & Sc).
    destruct (wf_step _ _ _ W G) as (N & B & Wc).
    cbn [put]. rewrite G.
    apply (same_elsewhere_edge items (String ch "") (Dict ci) _ (q ++ r)).
    + now apply prefix_wf_radix_wf.
    + apply prefix_wf_radix_wf, prefix_wf_dset_bit; auto.
      apply (put_wf _ _ _ _ Wc Sc Wn).
    + assumption.
    + now left.
    + apply (IH _ _ _ _ Wc Sc Wn R).
Qed.

Lemma put_routes_length : forall q items nq new,
    prefix_wf (Dict items) = true -> sub_at (Dict items) q = Some (Dict nq) ->
    (List.length (routes_of (Dict (put items q new))) + List.length (routes_of (Dict nq))
     = List.length (routes_of (Dict items)) + List.length (routes_of (Dict new)))%nat.
Proof.
  induction q as [|ch q IH]; intros items nq new W S.
  - cbn in S. injection S as <-. cbn [put]. lia.
  - destruct (sub_at_step _ _ _ _ S) as (ci & G & Sc).
    destruct (wf_step _ _ _ W G) as (N & B & Wc).
    cbn [put]. rewrite G. specialize (IH _ _ new Wc Sc).
    rewrite !routes_of_dict in *.
    pose proof (length_flat_dset_old entry_routes (String ch "")
                  (Dict (put ci q new)) (Dict ci) items G) as Ld.
    rewrite !entry_routes_edge in Ld by assumption.
    rewrite !routes_of_dict in Ld. lia.
Qed.

(** A list is stored under [p] when the keys of [p] and then ["*"] lead to it. *)
Lemma sub_at_stored : forall p items routes,
    prefix_wf (Dict items) = true ->
    sub_at (Dict items) (p ++ "*") = Some (PList routes) ->
    In (p, routes) (stored (Dict items)) /\ is_bits p = true.
Proof.
  induction p as [|ch p IH]; intros items routes W S.
  - cbn [append sub_at] in S.
    destruct (dget "*" items) as [child|] eqn:G; [|discriminate S].
    cbn in S. injection S as ->. split; [now apply In_stored_here | reflexivity].
  - cbn [append sub_at] in S.
    destruct (dget (String ch "") items) as [child|] eqn:G; [|discriminate S].
    destruct child as [ci|rs]; [|destruct p; discriminate S].
    destruct (wf_step _ _ _ W G) as (N & B & Wc).
    destruct (IH _ _ Wc S) as [Hin Bp]. split.
    + apply (In_stored_bit items (String ch "") (Dict ci) p routes W G N). exact Hin.
    + change (String ch p) with (String ch "" ++ p)%string.
      rewrite is_bits_append, Bp.
      destruct (is_bit_chars _ B) as [E|E]; injection E as ->; reflexivity.
Qed.

Lemma stored_sub_at : forall p items routes,
    prefix_wf (Dict items) = true -> In (p, routes) (stored (Dict items)) ->
    sub_at (Dict items) (p ++ "*") = Some (PList routes).
Proof.
  induction p as [|ch p IH]; intros items routes W Hin;
    pose proof (prefix_wf_nodup _ W) as Nd;
    apply In_stored in Hin; try assumption;
    destruct Hin as [[E G]|(k & child & suf & Nk & G & E & Hin)].
  - cbn [append sub_at]. now rewrite G.
  - exfalso. pose proof (prefix_wf_bit items k child W G Nk) as B.
    destruct (is_bit_chars _ B) as [->| ->]; discriminate E.
  - discriminate E.
  - pose proof (prefix_wf_bit items k child W G Nk) as B.
    pose proof (prefix_wf_child items k child W G Nk) as Wc.
    destruct (prefix_wf_dict _ Wc) as [ci ->].
    assert (Ek : k = String ch "" /\ suf = p).
    { destruct (is_bit_chars _ B) as [->| ->]; injection E as -> ->; auto. }
    destruct Ek as [-> ->]. cbn [append sub_at]. rewrite G. now apply IH.
Qed.

(** ** The branch that [IPPrefixTree.delete] trims *)

(** A branch of nodes with one key each that ends in a node with a list
    only stores that list, and has no way off the way to it. *)
Lemma chain_stored : forall r cb routes,
    prefix_wf (Dict cb) = true -> shallow cb r ->
    sub_at (Dict cb) r = Some (Dict [("*"%string, PList routes)]) ->
    stored (Dict cb) = [(r, routes)]
    /\ forall e c, sub_at (Dict cb) e = Some c -> prefix_of e (r ++ "*") = true.
Proof.
  induction r as [|ch r IH]; intros cb routes W Sh S.
  - cbn in S. injection S as ->. split; [reflexivity|].
    intros [|ch [|ch' e]] c Se; [reflexivity | |].
    + cbn [sub_at dget] in Se. cbn [append].
      destruct (String.eqb_spec "*" (String ch "")) as [E|N]; [|discriminate Se].
      rewrite <- E. apply prefix_of_refl.
    + cbn [sub_at dget] in Se.
      destruct (String.eqb "*" (String ch "")); discriminate Se.
  - destruct (sub_at_step _ _ _ _ S) as (ci & G & Sc).
    destruct (wf_step _ _ _ W G) as (N & B & Wc).
    cbn [shallow] in Sh. destruct Sh as [Len Sh]. rewrite G in Sh.
    destruct (IH _ _ Wc Sh Sc) as [St Way].
    pose proof (short_dict_edge _ _ _ Len G) as ->.
    split.
    + rewrite stored_single_edge by assumption. rewrite St. reflexivity.
    + intros [|ch' e] c Se; [reflexivity|]. cbn [sub_at dget] in Se.
      destruct (String.eqb_spec (String ch "") (String ch' "")) as [E|Ne];
        [|discriminate Se].
      injection E as <-. cbn [append]. rewrite prefix_of_cons, Ascii.eqb_refl.
      cbn [andb]. apply (Way _ _ Se).
Qed.

(** What the loop of [IPPrefixTree.delete] leaves in [parent_prefix_node]:
    what it held before when no node on the way has two keys, otherwise the
    last node on the way that has. *)
Lemma walk_ppn_spec : forall rest items done ppn nx,
    prefix_wf (Dict items) = true ->
    sub_at (Dict items) rest = Some (Dict nx) ->
    (walk_ppn items done rest ppn = ppn /\ shallow items rest)
    \/ (exists q b r nq cb,
           rest = (q ++ b ++ r)%string
           /\ walk_ppn items done rest ppn = Some ((done ++ q)%string, b)
           /\ sub_at (Dict items) q = Some (Dict nq)
           /\ (1 <? List.length nq)%nat = true
           /\ dget b nq = Some (Dict cb)
           /\ (exists ch, b = String ch EmptyString)
           /\ shallow cb r
           /\ sub_at (Dict cb) r = Some (Dict nx)).
Proof.
  induction rest as [|ch rest IH]; intros items done ppn nx W S.
  - left. split; [reflexivity | exact I].
  - destruct (sub_at_step _ _ _ _ S) as (ci & G & Sc).
    destruct (wf_step _ _ _ W G) as (N & B & Wc).
    cbn [walk_ppn]. cbv zeta. rewrite G.
    destruct (IH ci (done ++ String ch "")%string
                 (if (1 <? List.length items)%nat
                  then Some (done, String ch "") else ppn) nx Wc Sc)
      as [[Ew Sh]|(q & b & r & nq & cb & Er & Ew & Sq & Len & Gb & Cb & Sh & Sx)].
    + rewrite Ew. destruct (1 <? List.length items)%nat eqn:Len.
      * right. exists EmptyString, (String ch ""), rest, items, ci.
        rewrite append_empty_r. repeat split; auto. now exists ch.
      * left. split; [reflexivity|]. cbn [shallow]. rewrite G. auto.
    + right. exists (String ch q), b, r, nq, cb. rewrite Ew, Er.
      rewrite append_assoc. cbn [append sub_at]. rewrite G.
      repeat split; auto.
Qed.

(** ** Reading and writing the cells of a tree *)

Lemma dget_refs : forall (g : string -> nat) k (n : dict obj),
    dget k (map (fun kv => (fst kv, g (fst kv))) n)
    = match dget k n with
      | Some _ => Some (g k)
      | None => None
      end.
Proof.
  intros g k n. induction n as [|[k0 v0] n IH]; [reflexivity|].
  cbn [map dget fst]. destruct (String.eqb_spec k0 k) as [->|N]; [reflexivity | exact IH].
Qed.

Lemma ddel_refs : forall (g : string -> nat) k (n : dict obj),
    ddel k (map (fun kv => (fst kv, g (fst kv))) n)
    = map (fun kv => (fst kv, g (fst kv))) (ddel k n).
Proof.
  intros g k n. induction n as [|[k0 v0] n IH]; [reflexivity|].
  cbn [map ddel fst]. destruct (String.eqb k0 k); [reflexivity|].
  cbn [map fst]. now rewrite IH.
Qed.

Lemma refs_same_keys : forall (g : string -> nat) (n n' : dict obj),
    map fst n = map fst n' ->
    map (fun kv => (fst kv, g (fst kv))) n = map (fun kv => (fst kv, g (fst kv))) n'.
Proof.
  intros g n. induction n as [|[k v] n IH]; intros [|[k' v'] n'] E;
    try discriminate E; [reflexivity|].
  cbn [map fst] in *. injection E as -> E. f_equal. now apply IH.
Qed.

Lemma rep_dict_at : forall A h o e n,
    rep A h o -> sub_at o e = Some (Dict n) ->
    Heap.dict_at h (A e) = Ok (map (fun kv => (fst kv, A (e ++ fst kv)%string)) n).
Proof. intros A h o e n R S. unfold Heap.dict_at. now rewrite (R _ _ S). Qed.

Lemma rep_list_at : forall A h o e routes,
    rep A h o -> sub_at o e = Some (PList routes) ->
    Heap.list_at h (A e) = Ok routes.
Proof. intros A h o e routes R S. unfold Heap.list_at. now rewrite (R _ _ S). Qed.

Lemma store_same : forall h a c, nth_error h a = Some c -> Heap.store h a c = h.
Proof.
  induction h as [|x h IH]; intros [|a] c E; cbn in *; try discriminate E.
  - now injection E as ->.
  - f_equal. now apply IH.
Qed.

Lemma nth_error_lt : forall (h : Heap.heap) a c,
    nth_error h a = Some c -> (a < List.length h)%nat.
Proof. intros h a c E. apply nth_error_Some. congruence. Qed.

(** The walk of [Heap.prefix_delete] over a heap that holds a tree. *)
Lemma walk_sim : forall A h o rest done n ppn nx,
    rep A h o -> sub_at o done = Some (Dict n) ->
    sub_at (Dict n) rest = Some (Dict nx) ->
    Heap.prefix_walk h rest (A done)
                     (option_map (fun qb => (A (fst qb), snd qb)) ppn)
    = Ok (A (done ++ rest)%string,
          option_map (fun qb => (A (fst qb), snd qb)) (walk_ppn n done rest ppn)).
Proof.
  intros A h o rest. induction rest as [|ch rest IH]; intros done n ppn nx R Sd S.
  - cbn [Heap.prefix_walk walk_ppn]. now rewrite append_empty_r.
  - destruct (sub_at_step _ _ _ _ S) as (ci & G & Sc).
    cbn [Heap.prefix_walk walk_ppn]. cbv zeta.
    rewrite (rep_dict_at _ _ _ _ _ R Sd). cbn [bind].
    rewrite length_map, (dget_refs (fun k => A (done ++ k)%string)), G.
    assert (Sn : sub_at o (done ++ String ch "")%string = Some (Dict ci)).
    { rewrite sub_at_app, Sd. cbn [sub_at]. now rewrite G. }
    replace (if (1 <? List.length n)%nat
             then Some (A done, String ch "")
             else option_map (fun qb => (A (fst qb), snd qb)) ppn)
      with (option_map (fun qb : string * string => (A (fst qb), snd qb))
                       (if (1 <? List.length n)%nat
                        then Some (done, String ch "") else ppn))
      by (destruct (1 <? List.length n)%nat; reflexivity).
    rewrite (IH _ _ _ _ R Sn Sc). now rewrite append_assoc.
Qed.

(** The heap after a node is replaced holds the tree after [put], when the
    cell of the node and the cells below it hold the new node, and the
    other cells of the tree are as before. *)
Lemma rep_put : forall A h h' items q nq new,
    rep A h (Dict items) -> sub_at (Dict items) q = Some (Dict nq) ->
    nth_error h' (A q) = Some (cell_of A q (Dict new)) ->
    (forall e' c1, e' <> EmptyString -> sub_at (Dict new) e' = Some c1 ->
                   nth_error h' (A (q ++ e')%string) = Some (cell_of A (q ++ e')%string c1)) ->
    (forall e c, sub_at (Dict items) e = Some c -> prefix_of q e = false ->
                 nth_error h' (A e) = nth_error h (A e)) ->
    rep A h' (Dict (put items q new)).
Proof.
  intros A h h' items q nq new R Sq Hq Hb Ho e c1 S1.
  destruct (ways_compare q e) as [[e' ->]|[(r & Nr & ->)|[P1 P2]]].
  - rewrite (put_sub_below _ _ _ _ _ Sq) in S1. destruct e' as [|ch e'].
    + cbn in S1. injection S1 as <-. now rewrite append_empty_r.
    + apply Hb; [discriminate | assumption].
  - rewrite sub_at_app in Sq. destruct (sub_at (Dict items) e) as [ce|] eqn:Se;
      [|discriminate Sq].
    destruct r as [|ch r]; [congruence|]. destruct ce as [ne|rs]; [|discriminate Sq].
    assert (Sq' : sub_at (Dict items) (e ++ String ch r) = Some (Dict nq))
      by (now rewrite sub_at_app, Se).
    destruct (put_sub_above e (String ch r) items nq new ne Nr Sq' Se) as [Sp Ek].
    rewrite Sp in S1. injection S1 as <-.
    rewrite (Ho _ _ Se).
    + rewrite (R _ _ Se). cbn [cell_of]. do 2 f_equal.
      symmetry. apply (refs_same_keys (fun k => A (e ++ k)%string)). exact Ek.
    + destruct (prefix_of (e ++ String ch r) e) eqn:P; [|reflexivity].
      apply prefix_of_length in P. rewrite length_append in P. cbn in P. lia.
  - rewrite (put_sub_other _ _ _ _ _ Sq P1 P2) in S1.
    rewrite (Ho _ _ S1 P1). apply (R _ _ S1).
Qed.

(** ** The two writes of [flush]: a list, and the keys of a node *)

Lemma sub_at_ddel : forall k (n : dict obj) ch e c,
    nodup_keys n = true ->
    sub_at (Dict (ddel k n)) (String ch e) = Some c ->
    String ch "" <> k /\ sub_at (Dict n) (String ch e) = Some c.
Proof.
  intros k n ch e c Nd S. cbn [sub_at] in *.
  destruct (String.eqb_spec (String ch "") k) as [E|N].
  - rewrite E, dget_ddel_same in S by assumption. discriminate S.
  - rewrite dget_ddel_other in S by assumption. auto.
Qed.

Lemma sub_at_ddel_other : forall k (n : dict obj) ch e,
    String ch "" <> k ->
    sub_at (Dict (ddel k n)) (String ch e) = sub_at (Dict n) (String ch e).
Proof. intros k n ch e N. cbn [sub_at]. now rewrite dget_ddel_other. Qed.

Lemma put_ways : forall items q nq new,
    sub_at (Dict items) q = Some (Dict nq) ->
    (forall e' c, e' <> EmptyString -> sub_at (Dict new) e' = Some c ->
                  exists c0, sub_at (Dict nq) e' = Some c0) ->
    ways_of (Dict (put items q new)) (Dict items).
Proof.
  intros items q nq new Sq H e c S.
  destruct (ways_compare q e) as [[e' ->]|[(r & Nr & ->)|[P1 P2]]].
  - rewrite (put_sub_below _ _ _ _ _ Sq) in S. rewrite sub_at_app, Sq.
    destruct e' as [|ch e']; [now eexists|]. apply (H _ c); [discriminate | assumption].
  - rewrite sub_at_app in Sq. destruct (sub_at (Dict items) e) as [ce|]; [|discriminate Sq].
    now exists ce.
  - rewrite (put_sub_other _ _ _ _ _ Sq P1 P2) in S. now exists c.
Qed.

Lemma ways_of_trans : forall o1 o2 o3, ways_of o1 o2 -> ways_of o2 o3 -> ways_of o1 o3.
Proof.
  intros o1 o2 o3 H1 H2 e c S. destruct (H1 _ _ S) as [c2 S2]. apply (H2 _ _ S2).
Qed.

Lemma star_way_differs : forall p e : string,
    prefix_of p e = false -> e <> (p ++ "*")%string.
Proof. intros p e P ->. now rewrite prefix_of_append in P. Qed.

Section HeapWrites.
Variable A : string -> nat.
Variable o0 : obj.
Hypothesis Ap : apart A o0.

Lemma cells_differ : forall o e1 e2 c1 c2,
    ways_of o o0 -> sub_at o e1 = Some c1 -> sub_at o e2 = Some c2 ->
    e1 <> e2 -> A e1 <> A e2.
Proof.
  intros o e1 e2 c1 c2 Wy S1 S2 N E. apply N.
  destruct (Wy _ _ S1) as [d1 T1]. destruct (Wy _ _ S2) as [d2 T2].
  apply (proj1 Ap e1 e2 d1 d2 T1 T2 E).
Qed.

(** The list under [p] is replaced in its cell. *)
Lemma set_list_step : forall h items p n routes routes',
    prefix_wf (Dict items) = true -> rep A h (Dict items) ->
    ways_of (Dict items) o0 ->
    sub_at (Dict items) p = Some (Dict n) -> dget "*" n = Some (PList routes) ->
    let o1 := Dict (put items p (dset "*" (PList routes') n)) in
    rep A (Heap.store h (A (p ++ "*")%string) (Heap.HList routes')) o1
    /\ prefix_wf o1 = true
    /\ ways_of o1 (Dict items)
    /\ same_elsewhere p (Dict items) o1
    /\ sub_at o1 (p ++ "*") = Some (PList routes')
    /\ (List.length (routes_of o1) + List.length routes
        = List.length (routes_of (Dict items)) + List.length routes')%nat
    /\ (forall e c,
           prefix_of e (p ++ "*") = false -> prefix_of (p ++ "*") e = false ->
           sub_at (Dict items) e = Some c -> sub_at o1 e = Some c).
Proof.
  intros h items p n routes routes' W R Wy Sp G o1.
  pose proof (sub_at_wf _ _ _ W Sp) as Wn.
  assert (Wn' : prefix_wf (Dict (dset "*" (PList routes') n)) = true)
    by now apply prefix_wf_dset_star.
  assert (Ss : sub_at (Dict items) (p ++ "*") = Some (PList routes)).
  { rewrite sub_at_app, Sp. cbn [sub_at]. now rewrite G. }
  assert (Ls : (A (p ++ "*")%string < List.length h)%nat)
    by (apply (nth_error_lt _ _ _ (R _ _ Ss))).
  split; [|split; [|split; [|split; [|split; [|split]]]]].
  - apply (rep_put A h _ items p n _ R Sp).
    + rewrite nth_error_store_other.
      * rewrite (R _ _ Sp). cbn [cell_of]. do 2 f_equal.
        apply (refs_same_keys (fun k => A (p ++ k)%string)).
        symmetry. apply (keys_dset_old _ _ _ _ _ G).
      * apply (cells_differ (Dict items) _ _ _ _ Wy Ss Sp).
        intros E. rewrite <- (append_empty_r p) in E at 2.
        apply append_inj_l in E. discriminate E.
    + intros [|ch e'] c1 Ne S1; [congruence|]. cbn [sub_at] in S1.
      destruct (String.eqb_spec (String ch "") "*") as [E|N].
      * rewrite E, dget_dset_same in S1. injection E as ->.
        destruct e'; [|discriminate S1]. cbn in S1. injection S1 as <-.
        now rewrite nth_error_store_same.
      * rewrite dget_dset_other in S1 by assumption.
        assert (Se : sub_at (Dict items) (p ++ String ch e') = Some c1)
          by (now rewrite sub_at_app, Sp).
        rewrite nth_error_store_other; [apply (R _ _ Se)|].
        apply (cells_differ (Dict items) _ _ _ _ Wy Ss Se).
        intros E. apply append_inj_l in E. injection E as <- _. congruence.
    + intros e c Se P. rewrite nth_error_store_other; [reflexivity|].
      apply (cells_differ (Dict items) _ _ _ _ Wy Ss Se).
      apply not_eq_sym. now apply star_way_differs.
  - apply (put_wf _ _ _ _ W Sp Wn').
  - apply (put_ways _ _ _ _ Sp). intros [|ch e'] c Ne S1; [congruence|].
    cbn [sub_at] in *. destruct (String.eqb_spec (String ch "") "*") as [E|N].
    + rewrite E, G. rewrite E, dget_dset_same in S1.
      destruct e'; [now eexists | discriminate S1].
    + rewrite dget_dset_other in S1 by assumption. now exists c.
  - rewrite <- (append_empty_r p) at 1. apply (put_same_elsewhere _ _ _ _ _ W Sp Wn').
    apply same_elsewhere_star; now apply prefix_wf_radix_wf.
  - unfold o1. rewrite (put_sub_below _ _ _ _ _ Sp). cbn [sub_at].
    now rewrite dget_dset_same.
  - unfold o1. pose proof (put_routes_length p items n
                             (dset "*" (PList routes') n) W Sp) as Lp.
    rewrite !(routes_of_dict n), !(routes_of_dict (dset _ _ n)) in Lp.
    pose proof (length_flat_dset_old entry_routes "*" (PList routes')
                  (PList routes) n G) as Ld.
    cbn [entry_routes fst snd String.eqb Ascii.eqb Bool.eqb] in Ld. lia.
  - intros e c P1 P2 Se. unfold o1.
    destruct (ways_compare p e) as [[e' ->]|[(r & Nr & ->)|[Q1 Q2]]].
    + rewrite (put_sub_below _ _ _ _ _ Sp). rewrite sub_at_app, Sp in Se.
      destruct e' as [|ch e'].
      * rewrite append_empty_r, prefix_of_append in P1. discriminate P1.
      * cbn [sub_at] in *. destruct (String.eqb_spec (String ch "") "*") as [E|N].
        -- injection E as ->. change (String "*" e') with ("*" ++ e')%string in P2.
           rewrite <- append_assoc, prefix_of_append in P2. discriminate P2.
        -- now rewrite dget_dset_other.
    + rewrite append_assoc, prefix_of_append in P1. discriminate P1.
    + now rewrite (put_sub_other _ _ _ _ _ Sp Q1 Q2).
Qed.

(** The key [k] is taken out of the cell of the node under [q]. *)
Lemma del_entry_step : forall h items q nq k,
    prefix_wf (Dict items) = true -> rep A h (Dict items) ->
    ways_of (Dict items) o0 -> sub_at (Dict items) q = Some (Dict nq) ->
    let o' := Dict (put items q (ddel k nq)) in
    rep A (Heap.store h (A q)
             (Heap.HDict (ddel k (map (fun kv => (fst kv, A (q ++ fst kv)%string)) nq))))
        o'
    /\ prefix_wf o' = true
    /\ ways_of o' (Dict items).
Proof.
  intros h items q nq k W R Wy Sq o'.
  pose proof (sub_at_wf _ _ _ W Sq) as Wn.
  pose proof (prefix_wf_nodup _ Wn) as Nd.
  assert (Lq : (A q < List.length h)%nat) by (apply (nth_error_lt _ _ _ (R _ _ Sq))).
  split; [|split].
  - apply (rep_put A h _ items q nq _ R Sq).
    + rewrite nth_error_store_same by assumption. cbn [cell_of]. do 2 f_equal.
      apply (ddel_refs (fun k0 => A (q ++ k0)%string)).
    + intros [|ch e'] c1 Ne S1; [congruence|].
      destruct (sub_at_ddel _ _ _ _ _ Nd S1) as [Nk S2].
      assert (Se : sub_at (Dict items) (q ++ String ch e') = Some c1)
        by (now rewrite sub_at_app, Sq).
      rewrite nth_error_store_other; [apply (R _ _ Se)|].
      apply (cells_differ (Dict items) _ _ _ _ Wy Sq Se).
      intros E. rewrite <- (append_empty_r q) in E at 1.
      apply append_inj_l in E. discriminate E.
    + intros e c Se P. rewrite nth_error_store_other; [reflexivity|].
      apply (cells_differ (Dict items) _ _ _ _ Wy Sq Se).
      intros <-. now rewrite prefix_of_refl in P.
  - apply (put_wf _ _ _ _ W Sq). now apply prefix_wf_ddel.
  - apply (put_ways _ _ _ _ Sq). intros [|ch e'] c Ne S1; [congruence|].
    destruct (sub_at_ddel _ _ _ _ _ Nd S1) as [_ S2]. now exists c.
Qed.

End HeapWrites.

Section HeapDelete.
Variable A : string -> nat.
Variable o0 : obj.
Hypothesis Ap : apart A o0.

(** [Heap.prefix_delete] without attributes, of a prefix with a list, on a
    heap that holds a tree: the list is taken out of the tree, with its
    node or its branch when nothing else is there; the other ways of the
    tree lead to what they led to, in the same cells. *)
Lemma heap_delete_list : forall s items prefix routes,
    prefix_wf (Dict items) = true ->
    rep A (Heap.cells s) (Dict items) -> Heap.root s = A "" ->
    ways_of (Dict items) o0 ->
    counted (Table (Dict items) (Heap.counter s)) ->
    In (bits_in_prefix prefix, routes) (stored (Dict items)) ->
    exists s' o',
      Heap.prefix_delete s prefix [] = Ok s'
      /\ Heap.root s' = A ""
      /\ rep A (Heap.cells s') o'
      /\ prefix_wf o' = true
      /\ ways_of o' (Dict items)
      /\ counted (Table o' (Heap.counter s'))
      /\ replaced (bits_in_prefix prefix) [] (Dict items) o'
      /\ (forall e c,
             prefix_of e (bits_in_prefix prefix ++ "*") = false ->
             prefix_of (bits_in_prefix prefix ++ "*") e = false ->
             sub_at (Dict items) e = Some c -> sub_at o' e = Some c).
Proof.
  intros s items prefix routes W R Er Wy Cn Hin.
  set (p := bits_in_prefix prefix) in *.
  pose proof (stored_sub_at _ _ _ W Hin) as Ss.
  assert (Sp : exists n, sub_at (Dict items) p = Some (Dict n)
                         /\ dget "*" n = Some (PList routes)).
  { rewrite sub_at_app in Ss. destruct (sub_at (Dict items) p) as [[n|rs]|];
      try discriminate Ss. exists n. split; [reflexivity|]. cbn [sub_at] in Ss.
    destruct (dget "*" n) as [child|]; [|discriminate Ss]. cbn in Ss. congruence. }
  destruct Sp as (n & Sp & G).
  pose proof (sub_at_wf _ _ _ W Sp) as Wn.
  unfold counted in Cn. cbn [_counter _root] in Cn.
  unfold Heap.prefix_delete, Heap.prefix_delete_raw.
  pose proof (walk_sim A (Heap.cells s) (Dict items) p "" items None n R eq_refl Sp)
    as Ew.
  cbn [option_map append] in Ew. fold p. rewrite Er, Ew. cbn [bind].
  unfold Heap.take_routes. rewrite (rep_dict_at _ _ _ _ _ R Sp). cbn [bind].
  rewrite (dget_refs (fun k => A (p ++ k)%string)), G.
  rewrite (rep_list_at _ _ _ _ _ R Ss). cbn [bind truthy andb negb orb].
  rewrite (store_same (Heap.cells s) (A (p ++ "*")%string) (Heap.HList routes)
             (R _ _ Ss)).
  rewrite (rep_dict_at _ _ _ _ _ R Sp). cbn [bind]. rewrite length_map.
  destruct (1 <? List.length n)%nat eqn:Len.
  - destruct (del_entry_step A o0 Ap (Heap.cells s) items p n "*" W R Wy Sp)
      as (R' & W' & Wy').
    do 2 eexists. cbn [sanitize]. split; [reflexivity|].
    cbn [Heap.root Heap.cells Heap.counter]. split; [reflexivity|].
    split; [exact R'|]. split; [exact W'|]. split; [exact Wy'|].
    split; [|split].
    + unfold counted. cbn [_counter _root].
      pose proof (put_routes_length p items n (ddel "*" n) W Sp) as Lp.
      rewrite (routes_of_dict n), (routes_of_dict (ddel "*" n)) in Lp.
      pose proof (length_flat_ddel entry_routes "*" (PList routes) n G) as Ld.
      cbn [entry_routes fst snd String.eqb Ascii.eqb Bool.eqb] in Ld. lia.
    + rewrite <- (append_empty_r p) at 1.
      apply (put_replaced _ _ _ _ _ _ W Sp); [now apply prefix_wf_ddel|].
      apply (replaced_here n [] (prefix_wf_radix_wf _ Wn)).
    + intros e c P1 P2 Se.
      destruct (ways_compare p e) as [[e' ->]|[(r & Nr & ->)|[Q1 Q2]]].
      * rewrite (put_sub_below _ _ _ _ _ Sp). rewrite sub_at_app, Sp in Se.
        destruct e' as [|ch e'].
        -- rewrite append_empty_r, prefix_of_append in P1. discriminate P1.
        -- destruct (String.eqb_spec (String ch "") "*") as [E|N].
           ++ injection E as ->. change (String "*" e') with ("*" ++ e')%string in P2.
              rewrite <- append_assoc, prefix_of_append in P2. discriminate P2.
           ++ now rewrite sub_at_ddel_other.
      * rewrite append_assoc, prefix_of_append in P1. discriminate P1.
      * now rewrite (put_sub_other _ _ _ _ _ Sp Q1 Q2).
  - pose proof (short_dict_star _ _ Len G) as En. subst n.
    destruct (walk_ppn_spec p items "" None _ W Sp)
      as [[Ep Sh]|(q & b & r & nq & cb & Eq & Ep & Sq & Lq & Gb & (ch & Eb) & Sh & Sx)];
      rewrite Ep; cbn [option_map fst snd append].
    + destruct (chain_stored _ _ _ W Sh Sp) as [St Way].
      exists (Heap.State (Heap.store (Heap.cells s) (A "") (Heap.HDict [])) (A "") 0),
        (Dict []).
      cbn [sanitize]. split; [reflexivity|].
      cbn [Heap.root Heap.cells Heap.counter]. split; [reflexivity|].
      split; [|split; [reflexivity|split; [|split; [reflexivity|split]]]].
      * apply (rep_put A (Heap.cells s) _ items "" items [] R eq_refl).
        -- rewrite nth_error_store_same; [reflexivity|].
           apply (nth_error_lt _ _ _ (R "" _ eq_refl)).
        -- intros [|c1 e'] c2 Ne S1; [congruence | discriminate S1].
        -- intros e c _ P. now rewrite prefix_of_empty in P.
      * intros [|c1 e] c S1; [now eexists | discriminate S1].
      * split.
        -- intros path rs Np. rewrite St. cbn [stored flat_map In]. split; [tauto|].
           intros [E|[]]. congruence.
        -- intros rs. cbn [stored flat_map In]. split; [tauto|]. intros [_ F].
           now contradiction F.
      * intros e c P1 _ Se. rewrite (Way _ _ Se) in P1. discriminate P1.
    + subst b. destruct (wf_step _ _ _ (sub_at_wf _ _ _ W Sq) Gb) as (Nb & Bb & Wcb).
      destruct (chain_stored _ _ _ Wcb Sh Sx) as [St Way].
      rewrite (rep_dict_at _ _ _ _ _ R Sq). cbn [bind].
      destruct (del_entry_step A o0 Ap (Heap.cells s) items q nq (String ch "") W R Wy Sq)
        as (R' & W' & Wy').
      do 2 eexists. cbn [sanitize]. split; [reflexivity|].
      cbn [Heap.root Heap.cells Heap.counter]. split; [reflexivity|].
      split; [exact R'|]. split; [exact W'|]. split; [exact Wy'|].
      split; [|split].
      * unfold counted. cbn [_counter _root].
        pose proof (put_routes_length q items nq (ddel (String ch "") nq) W Sq) as Lp.
        rewrite (routes_of_dict nq), (routes_of_dict (ddel _ nq)) in Lp.
        pose proof (length_flat_ddel entry_routes (String ch "") (Dict cb) nq Gb) as Ld.
        rewrite entry_routes_edge in Ld by assumption.
        unfold routes_of at 1 in Ld. rewrite St in Ld.
        cbn [map snd List.concat] in Ld. rewrite app_nil_r in Ld. lia.
      * fold p. rewrite Eq.
        apply (put_replaced _ _ _ _ _ _ W Sq);
          [apply prefix_wf_ddel, (sub_at_wf _ _ _ W Sq)|].
        apply (trimmed_below nq (String ch "") cb r routes
                 (sub_at_wf _ _ _ W Sq) Gb Nb St).
      * intros e c P1 P2 Se. fold p in P1, P2. rewrite Eq in P1, P2.
        destruct (ways_compare q e) as [[e' ->]|[(r' & Nr & Eqe)|[Q1 Q2]]].
        -- rewrite (put_sub_below _ _ _ _ _ Sq). rewrite sub_at_app, Sq in Se.
           destruct e' as [|ch' e'].
           ++ rewrite append_empty_r, !append_assoc, prefix_of_append in P1.
              discriminate P1.
           ++ destruct (String.eqb_spec (String ch' "") (String ch "")) as [E|N].
              ** exfalso. injection E as ->. cbn [sub_at] in Se. rewrite Gb in Se.
                 pose proof (Way _ _ Se) as Pw.
                 rewrite !append_assoc, append_prefix_cancel in P1.
                 cbn [append] in P1. rewrite prefix_of_cons, Ascii.eqb_refl in P1.
                 cbn [andb] in P1. congruence.
              ** now rewrite sub_at_ddel_other.
        -- rewrite Eqe, !append_assoc, prefix_of_append in P1. discriminate P1.
        -- now rewrite (put_sub_other _ _ _ _ _ Sq Q1 Q2).
Qed.

End HeapDelete.

(** ** The stack of [flush] *)

Lemma cost_pos : forall c, (1 <= cost c)%nat.
Proof. intros [items|routes]; [rewrite cost_dict|cbn]; lia. Qed.

Lemma weight_app : forall o w1 w2,
    weight o (w1 ++ w2) = (weight o w1 + weight o w2)%nat.
Proof.
  intros o w1 w2. unfold weight. induction w1 as [|w l IH]; [reflexivity|].
  cbn [app fold_right]. rewrite IH. lia.
Qed.

Lemma star_is_list : forall o p c,
    prefix_wf o = true -> sub_at o (p ++ "*") = Some c ->
    exists n routes,
      sub_at o p = Some (Dict n) /\ dget "*" n = Some (PList routes)
      /\ c = PList routes.
Proof.
  intros o p c W S. rewrite sub_at_app in S.
  destruct (sub_at o p) as [[n|rs]|] eqn:Sp; try discriminate S.
  cbn [sub_at] in S. destruct (dget "*" n) as [child|] eqn:G; [|discriminate S].
  cbn in S. injection S as ->.
  destruct (radix_wf_routes _ _ (prefix_wf_radix_wf _ (sub_at_wf _ _ _ W Sp)) G)
    as [routes ->].
  now exists n, routes.
Qed.

Lemma bit_is_dict : forall o p ch c,
    prefix_wf o = true -> sub_at o (p ++ String ch "") = Some c ->
    String ch "" <> "*"%string -> exists n, c = Dict n.
Proof.
  intros o p ch c W S N. rewrite sub_at_app in S.
  destruct (sub_at o p) as [[n|rs]|] eqn:Sp; try discriminate S.
  cbn [sub_at] in S. destruct (dget (String ch "") n) as [child|] eqn:G;
    [|discriminate S].
  cbn in S. injection S as ->.
  apply prefix_wf_dict. apply (prefix_wf_child n _ _ (sub_at_wf _ _ _ W Sp) G N).
Qed.

Lemma star_prefix_bits : forall p path,
    is_bits path = true -> prefix_of (p ++ "*") (path ++ "*") = true -> p = path.
Proof.
  induction p as [|c p IH]; intros [|c' path] B P.
  - reflexivity.
  - cbn [append] in P. rewrite prefix_of_cons in P. apply andb_prop in P.
    destruct P as [E _]. apply Ascii.eqb_eq in E. subst c'. discriminate B.
  - cbn [append] in P. rewrite prefix_of_cons in P. apply andb_prop in P.
    destruct P as [_ P]. destruct p; cbn in P; discriminate P.
  - cbn [append] in P. rewrite prefix_of_cons in P. apply andb_prop in P.
    destruct P as [E P]. apply Ascii.eqb_eq in E. subst c'. f_equal.
    apply IH; [|assumption]. cbn [is_bits] in B. now apply andb_prop in B.
Qed.

Lemma prefix_snoc : forall e s ch,
    prefix_of e (s ++ String ch "") = true ->
    e = (s ++ String ch "")%string \/ prefix_of e s = true.
Proof.
  intros e s ch P. destruct (String.eqb_spec e (s ++ String ch "")) as [|N];
    [now left|]. right.
  apply prefix_of_iff in P. destruct P as [suf E].
  destruct suf as [|c suf]; [rewrite append_empty_r in E; congruence|].
  apply prefix_of_iff.
  assert (L : String.length (s ++ String ch "") = String.length (e ++ String c suf))
    by now rewrite E.
  rewrite !length_append in L. cbn [String.length] in L.
  clear N. revert s E L. induction e as [|x e IH]; intros s E L.
  - now exists s.
  - destruct s as [|y s]; [cbn in L; lia|]. cbn [append] in E. injection E as -> E.
    destruct (IH s E) as [r ->]; [cbn in L; lia|]. now exists r.
Qed.

Lemma nodup_keys_NoDup : forall (n : dict obj),
    nodup_keys n = true -> NoDup (map fst n).
Proof.
  induction n as [|[k v] n IH]; intros H; [constructor|].
  cbn [nodup_keys] in H. apply andb_prop in H. destruct H as [M H].
  cbn [map fst]. constructor; [|now apply IH].
  intros Hin. apply in_map_iff in Hin. destruct Hin as ([k' v'] & E & Hin).
  cbn [fst] in E. subst k'. apply negb_true_iff in M. unfold dmem in M.
  rewrite (In_dget _ _ _ H Hin) in M. discriminate M.
Qed.

Lemma bucket_replaced : forall bits left before after path,
    radix_wf before = true -> radix_wf after = true ->
    replaced bits left before after ->
    bucket_at after path = if String.eqb path bits then left else bucket_at before path.
Proof.
  intros bits left before after path Wb Wa [R1 R2].
  destruct (String.eqb_spec path bits) as [->|N].
  - destruct left as [|r left].
    + apply bucket_at_none. intros routes Hin. apply R2 in Hin. now destruct Hin.
    + apply bucket_at_In; [assumption|]. apply R2. split; [reflexivity | discriminate].
  - destruct (bucket_at_cases before path) as [[routes Hin]|No].
    + rewrite (bucket_at_In _ _ _ Wb Hin). apply bucket_at_In; [assumption|].
      now apply R1.
    + rewrite (bucket_at_none _ _ No). apply bucket_at_none.
      intros routes Hin. apply (No routes). now apply R1.
Qed.

Lemma NoDup_map_append : forall (q : string) (l : list string),
    NoDup l -> NoDup (map (append q) l).
Proof.
  intros q l H. induction H as [|x l Hx H IH]; [constructor|].
  cbn [map]. constructor; [|assumption]. intros Hin. apply in_map_iff in Hin.
  destruct Hin as (y & E & Hy). apply append_inj_l in E. now subst y.
Qed.

Lemma weight_ext : forall o o' ways,
    (forall w, In w ways -> sub_at o' w = sub_at o w) ->
    weight o' ways = weight o ways.
Proof.
  intros o o' ways. induction ways as [|w l IH]; intros H; [reflexivity|].
  cbn [weight fold_right]. fold (weight o' l). fold (weight o l).
  rewrite (H w (or_introl eq_refl)), IH; [reflexivity|].
  intros w' Hin. apply H. now right.
Qed.

Lemma weight_children : forall o q (l : dict obj),
    (forall kv, In kv l -> sub_at o (q ++ fst kv) = Some (snd kv)) ->
    weight o (map (fun kv => (q ++ fst kv)%string) l) = cost_items l.
Proof.
  intros o q l. induction l as [|kv l IH]; intros H; [reflexivity|].
  cbn [map weight fold_right cost_items].
  fold (weight o (map (fun kv => (q ++ fst kv)%string) l)). fold (cost_items l).
  rewrite (H kv (or_introl eq_refl)), IH; [reflexivity|].
  intros kv' Hin. apply H. now right.
Qed.

Section FlushStack.
Variable A : string -> nat.
Variable o0 : obj.
Variable attrs : kwargs.

(** The loop takes a node from the stack and puts its entries there. *)
Lemma inv_push : forall s o ways q n,
    flush_inv A o0 attrs s o (ways ++ [q]) -> sub_at o q = Some (Dict n) ->
    flush_inv A o0 attrs s o (ways ++ map (fun kv => (q ++ fst kv)%string) n)
    /\ (weight o (ways ++ map (fun kv => (q ++ fst kv)%string) n) + 1
        = weight o (ways ++ [q]))%nat.
Proof.
  intros s o ways q n (R & Er & W & Wy & Cn & Ne & Pr & Nd & Px & Q) Sq.
  pose proof (sub_at_wf _ _ _ W Sq) as Wn.
  pose proof (prefix_wf_nodup _ Wn) as Ndn.
  assert (Ch : forall kv, In kv n ->
                          (exists ch, fst kv = String ch "")
                          /\ sub_at o (q ++ fst kv) = Some (snd kv)).
  { intros [k v] Hin. cbn [fst snd]. destruct (key_one_char _ _ _ Wn Hin) as [ch ->].
    split; [now exists ch|]. rewrite sub_at_app, Sq. cbn [sub_at].
    now rewrite (In_dget _ _ _ Ndn Hin). }
  assert (Nq : ~ In q ways).
  { apply NoDup_remove in Nd. destruct Nd as [_ Nd]. now rewrite app_nil_r in Nd. }
  assert (Iq : In q (ways ++ [q])) by (apply in_app_iff; right; now left).
  assert (Iw : forall w, In w ways -> In w (ways ++ [q]))
    by (intros w Hw; apply in_app_iff; now left).
  split.
  - split; [assumption|]. split; [assumption|]. split; [assumption|].
    split; [assumption|]. split; [assumption|]. split; [assumption|].
    split; [|split; [|split]].
    + intros w Hw. apply in_app_iff in Hw. destruct Hw as [Hw|Hw].
      * apply Pr. now apply Iw.
      * apply in_map_iff in Hw. destruct Hw as (kv & <- & Hin).
        exists (snd kv). apply (Ch kv Hin).
    + apply NoDup_app.
      * now apply NoDup_app_remove_r in Nd.
      * rewrite <- (map_map fst (append q)). apply NoDup_map_append.
        now apply nodup_keys_NoDup.
      * intros a Ha Hc. apply in_map_iff in Hc. destruct Hc as (kv & <- & Hin).
        apply Nq. rewrite (Px q (q ++ fst kv)%string Iq (Iw _ Ha)
                              (prefix_of_append _ _)) at 1.
        exact Ha.
    + intros w1 w2 H1 H2 P. apply in_app_iff in H1, H2.
      destruct H1 as [H1|H1], H2 as [H2|H2].
      * apply Px; auto.
      * apply in_map_iff in H2. destruct H2 as (kv & <- & Hin).
        destruct (Ch kv Hin) as [[ch Ek] _]. rewrite Ek in *.
        destruct (prefix_snoc _ _ _ P) as [E|P']; [exact E|].
        exfalso. apply Nq. rewrite <- (Px w1 q (Iw _ H1) Iq P'). exact H1.
      * apply in_map_iff in H1. destruct H1 as (kv & <- & Hin).
        apply prefix_of_append_l in P. exfalso. apply Nq.
        rewrite (Px q w2 Iq (Iw _ H2) P). exact H2.
      * apply in_map_iff in H1, H2. destruct H1 as (kv1 & <- & Hin1).
        destruct H2 as (kv2 & <- & Hin2).
        destruct (Ch kv1 Hin1) as [[c1 E1] _]. destruct (Ch kv2 Hin2) as [[c2 E2] _].
        rewrite E1, E2 in *. rewrite append_prefix_cancel, prefix_of_cons in P.
        apply andb_prop in P. destruct P as [E _]. apply Ascii.eqb_eq in E.
        now subst c2.
    + intros path B. rewrite (Q path B). unfold cov. rewrite !existsb_app.
      destruct (existsb (fun w => prefix_of w (path ++ "*")) ways); [reflexivity|].
      cbn [orb existsb].
      destruct (existsb (fun w => prefix_of w (path ++ "*"))
                        (map (fun kv => (q ++ fst kv)%string) n)) eqn:Cc.
      * apply existsb_exists in Cc. destruct Cc as (w & Hw & P).
        apply in_map_iff in Hw. destruct Hw as (kv & <- & Hin).
        apply prefix_of_append_l in P. now rewrite P.
      * destruct (prefix_of q (path ++ "*")) eqn:Pq; [|reflexivity]. cbn [orb].
        assert (Eb : bucket_at o path = []).
        { apply bucket_at_none. intros rs Hin.
          destruct (prefix_wf_dict _ W) as [items Eo]. subst o.
          apply (stored_sub_at _ _ _ W) in Hin.
          apply prefix_of_iff in Pq. destruct Pq as [suf Es]. rewrite Es in Hin.
          rewrite sub_at_app, Sq in Hin. destruct suf as [|ch suf]; [discriminate Hin|].
          cbn [sub_at] in Hin.
          destruct (dget (String ch "") n) as [child|] eqn:G; [|discriminate Hin].
          assert (F : existsb (fun w => prefix_of w (path ++ "*"))
                              (map (fun kv => (q ++ fst kv)%string) n) = true).
          { apply existsb_exists. exists (q ++ String ch "")%string. split.
            - apply in_map_iff. exists (String ch "", child). split; [reflexivity|].
              now apply dget_In.
            - rewrite Es, append_prefix_cancel, prefix_of_cons, Ascii.eqb_refl.
              cbn [andb]. apply prefix_of_empty. }
          congruence. }
        pose proof (Q path B) as Qp. unfold cov in Qp. rewrite existsb_app in Qp.
        cbn [existsb] in Qp. rewrite Pq in Qp. rewrite orb_true_r in Qp.
        rewrite <- Qp, Eb. reflexivity.
  - rewrite !weight_app. cbn [weight fold_right]. rewrite Sq, cost_dict.
    rewrite (weight_children o q n (fun kv Hin => proj2 (Ch kv Hin))). lia.
Qed.

(** The loop takes a list from the stack, and leaves of it what [attrs]
    leaves. *)
Lemma inv_pop : forall s o ways p routes s' o',
    flush_inv A o0 attrs s o (ways ++ [(p ++ "*")%string]) ->
    sub_at o (p ++ "*") = Some (PList routes) ->
    rep A (Heap.cells s') o' -> Heap.root s' = A "" -> prefix_wf o' = true ->
    ways_of o' o -> counted (Table o' (Heap.counter s')) ->
    replaced p (kept routes attrs) o o' ->
    (forall e c, prefix_of e (p ++ "*") = false -> prefix_of (p ++ "*") e = false ->
                 sub_at o e = Some c -> sub_at o' e = Some c) ->
    flush_inv A o0 attrs s' o' ways
    /\ (weight o' ways + 1 = weight o (ways ++ [(p ++ "*")%string]))%nat.
Proof.
  intros s o ways p routes s' o' (R & Er & W & Wy & Cn & Ne & Pr & Nd & Px & Q)
         Ss R' Er' W' Wy' Cn' Rp Fr.
  assert (Nq : ~ In (p ++ "*")%string ways).
  { apply NoDup_remove in Nd. destruct Nd as [_ Nd]. now rewrite app_nil_r in Nd. }
  assert (Iq : In (p ++ "*")%string (ways ++ [(p ++ "*")%string]))
    by (apply in_app_iff; right; now left).
  assert (Iw : forall w, In w ways -> In w (ways ++ [(p ++ "*")%string]))
    by (intros w Hw; apply in_app_iff; now left).
  assert (Same : forall w, In w ways -> sub_at o' w = sub_at o w).
  { intros w Hw. destruct (Pr w (Iw _ Hw)) as [c Sw]. rewrite Sw.
    apply (Fr _ _); [| |assumption].
    - destruct (prefix_of w (p ++ "*")) eqn:P; [|reflexivity]. exfalso. apply Nq.
      rewrite <- (Px _ _ (Iw _ Hw) Iq P). exact Hw.
    - destruct (prefix_of (p ++ "*") w) eqn:P; [|reflexivity]. exfalso. apply Nq.
      rewrite (Px _ _ Iq (Iw _ Hw) P). exact Hw. }
  destruct (prefix_wf_dict _ W) as [items Eo]. subst o.
  destruct (sub_at_stored _ _ _ W Ss) as [Hin Bp].
  pose proof (prefix_wf_radix_wf _ W) as Wr.
  pose proof (prefix_wf_radix_wf _ W') as Wr'.
  split.
  - split; [assumption|]. split; [assumption|]. split; [assumption|].
    split; [apply (ways_of_trans _ _ _ Wy' Wy)|]. split; [assumption|].
    split; [apply (replaced_lists_nonempty _ _ _ _ Rp Ne)|].
    split; [|split; [|split]].
    + intros w Hw. destruct (Pr w (Iw _ Hw)) as [c Sw]. exists c.
      now rewrite (Same w Hw).
    + now apply NoDup_app_remove_r in Nd.
    + intros w1 w2 H1 H2. apply Px; auto.
    + intros path B. rewrite (bucket_replaced _ _ _ _ path Wr Wr' Rp).
      pose proof (Q path B) as Qp. unfold cov in Qp. rewrite existsb_app in Qp.
      cbn [existsb] in Qp. rewrite orb_false_r in Qp. fold (cov ways path) in Qp.
      destruct (String.eqb_spec path p) as [->|Np].
      * rewrite prefix_of_refl, orb_true_r in Qp.
        rewrite (bucket_at_In _ _ _ Wr Hin) in Qp. rewrite Qp.
        destruct (cov ways p) eqn:Cw; [|reflexivity]. exfalso.
        apply existsb_exists in Cw. destruct Cw as (w & Hw & P). apply Nq.
        rewrite <- (Px _ _ (Iw _ Hw) Iq P). exact Hw.
      * destruct (prefix_of (p ++ "*") (path ++ "*")) eqn:P.
        -- apply (star_prefix_bits _ _ B) in P. congruence.
        -- now rewrite orb_false_r in Qp.
  - rewrite weight_app, (weight_ext _ _ _ Same). cbn [weight fold_right].
    rewrite Ss. cbn [cost]. lia.
Qed.

End FlushStack.

Lemma rev_nonempty : forall (X : Type) (l : list X),
    l <> [] -> exists last front, rev l = last :: front /\ In last l.
Proof.
  intros X l N. destruct (rev l) as [|x r] eqn:E.
  - exfalso. apply N. rewrite <- (rev_involutive l), E. reflexivity.
  - exists x, r. split; [reflexivity|]. apply in_rev. rewrite E. now left.
Qed.

Section FlushLoop.
Variable A : string -> nat.
Variable o0 : obj.
Variable attrs : kwargs.
Hypothesis Ap : apart A o0.
Hypothesis W0 : prefix_wf o0 = true.
Hypothesis IP : routes_in_place o0 = true.

Lemma in_place : forall path routes r,
    In (path, routes) (stored o0) -> In r routes -> bits_in_prefix (_prefix r) = path.
Proof.
  intros path routes r Hin Hr. unfold routes_in_place in IP.
  rewrite forallb_forall in IP. specialize (IP _ Hin). cbn [fst snd] in IP.
  rewrite forallb_forall in IP. apply String.eqb_eq. apply (IP _ Hr).
Qed.

(** The loop of [flush] with attributes over a prefix tree ends without an
    exception, with the stack empty. *)
Lemma flush_loop_inv : forall fuel s o E route,
    flush_inv A o0 attrs s o (map entry_way E) ->
    Forall (fun pk => exists ch, snd pk = String ch "") E ->
    (weight o (map entry_way E) <= fuel)%nat ->
    exists s' o',
      Heap.flush_loop Heap.prefix_delete attrs fuel s (map (stack_entry A) E) route
      = (s', None)
      /\ flush_inv A o0 attrs s' o' [].
Proof.
  induction fuel as [|fuel IH]; intros s o E route Inv Ks Wt.
  - destruct E as [|pk E]; [now exists s, o|]. exfalso.
    destruct Inv as (_ & _ & _ & _ & _ & _ & Pr & _).
    destruct (Pr (entry_way pk) (or_introl eq_refl)) as [c Sc].
    cbn [map weight fold_right] in Wt. rewrite Sc in Wt.
    pose proof (cost_pos c). lia.
  - cbn [Heap.flush_loop].
    destruct (pop_cases _ E) as [[-> _]|(pk & E' & -> & _)]; [now exists s, o|].
    rewrite map_app in Inv, Wt. cbn [map] in Inv, Wt.
    rewrite map_app. cbn [map]. rewrite pop_snoc.
    apply Forall_app in Ks. destruct Ks as [Ks Kpk].
    apply Forall_inv in Kpk. destruct Kpk as [ch Ek]. destruct pk as [p k].
    cbn [snd] in Ek. subst k.
    change (stack_entry A (p, String ch ""))
      with (String ch "", A (p ++ String ch "")%string).
    change (entry_way (p, String ch "")) with (p ++ String ch "")%string in Inv, Wt.
    pose proof Inv as (R & Er & W & Wy & Cn & Ne & Pr & Nd & Px & Q).
    destruct (Pr (p ++ String ch "")%string) as [c Sc];
      [apply in_app_iff; right; now left|].
    destruct (prefix_wf_dict _ W) as [items Eo]. subst o.
    destruct (String.eqb_spec (String ch "") "*") as [Es|Ns].
    + injection Es as ->.
      destruct (star_is_list _ _ _ W Sc) as (n & routes & Sp & G & ->).
      destruct (sub_at_stored _ _ _ W Sc) as [Hin Bp].
      rewrite (rep_list_at _ _ _ _ _ R Sc). rewrite remove_matching_kept.
      destruct (rev_nonempty _ routes (Ne _ _ Hin)) as (last & front & Erev & Hl).
      rewrite Erev.
      destruct (set_list_step A o0 Ap (Heap.cells s) items p n routes
                              (kept routes attrs) W R Wy Sp G)
        as (R1 & W1 & Wy1 & Se1 & Ss1 & Len1 & Fr1).
      set (o1 := Dict (put items p (dset "*" (PList (kept routes attrs)) n))) in *.
      assert (Cn1 : counted (Table o1 (Heap.counter s
                       - Z.of_nat (List.length (objs_with_all_attrs routes attrs))))).
      { unfold counted in *. cbn [_counter _root] in *.
        pose proof (kept_length routes attrs). lia. }
      assert (Hin1 : In (p, kept routes attrs) (stored o1))
        by (apply (sub_at_stored _ _ _ W1 Ss1)).
      assert (Ep : bits_in_prefix (_prefix last) = p).
      { pose proof (Q p Bp) as Qp. unfold cov in Qp. rewrite existsb_app in Qp.
        cbn [existsb] in Qp. rewrite prefix_of_refl in Qp.
        rewrite !orb_true_r in Qp.
        rewrite (bucket_at_In _ _ _ (prefix_wf_radix_wf _ W) Hin) in Qp.
        apply (in_place p routes last); [|assumption]. rewrite Qp.
        apply bucket_at_stored; [now apply prefix_wf_radix_wf|].
        rewrite <- Qp. apply (Ne _ _ Hin). }
      destruct (kept routes attrs) as [|r left] eqn:Ek; cbn [truthy negb].
      * destruct (heap_delete_list A o0 Ap
                    (Heap.State (Heap.store (Heap.cells s) (A (p ++ "*")%string)
                                            (Heap.HList []))
                                (Heap.root s)
                                (Heap.counter s - Z.of_nat (List.length
                                   (objs_with_all_attrs routes attrs))))
                    (put items p (dset "*" (PList []) n)) (_prefix last) []
                    W1 R1 Er (ways_of_trans _ _ _ Wy1 Wy) Cn1)
          as (s' & o' & D & Er' & R' & W' & Wy' & Cn' & Rp' & Fr').
        { rewrite Ep. exact Hin1. }
        rewrite D. rewrite Ep in Rp', Fr'.
        destruct (inv_pop A o0 attrs s (Dict items) (map entry_way E') p routes s' o'
                          Inv Sc R' Er' W' (ways_of_trans _ _ _ Wy' Wy1) Cn')
          as [Inv' Wt'].
        { rewrite Ek. destruct Rp' as [P1 P2]. split; [|exact P2].
          intros path rs Np. rewrite (P1 path rs Np). apply (Se1 path rs Np). }
        { intros e c P1 P2 Se. apply (Fr' e c P1 P2). apply (Fr1 e c P1 P2 Se). }
        apply (IH s' o' E' (Some last) Inv' Ks). lia.
      * destruct (inv_pop A o0 attrs s (Dict items) (map entry_way E') p routes
                          (Heap.State (Heap.store (Heap.cells s) (A (p ++ "*")%string)
                                                  (Heap.HList (r :: left)))
                                      (Heap.root s)
                                      (Heap.counter s - Z.of_nat (List.length
                                         (objs_with_all_attrs routes attrs))))
                          o1 Inv Sc R1 Er W1 Wy1 Cn1)
          as [Inv' Wt'].
        { rewrite Ek. split; [exact Se1|]. intros rs. split.
          - intros Hrs. split; [|discriminate].
            apply (stored_functional o1 p rs (r :: left)
                     (prefix_wf_radix_wf _ W1) Hrs Hin1).
          - intros [-> _]. exact Hin1. }
        { exact Fr1. }
        apply (IH _ o1 E' (Some last) Inv' Ks). lia.
    + destruct (bit_is_dict _ _ _ _ W Sc Ns) as [n ->].
      rewrite (rep_dict_at _ _ _ _ _ R Sc).
      destruct (inv_push A o0 attrs s (Dict items) (map entry_way E')
                         (p ++ String ch "")%string n Inv Sc) as [Inv' Wt'].
      assert (En : map (fun kv : string * obj =>
                          (fst kv, A ((p ++ String ch "") ++ fst kv)%string)) n
                   = map (stack_entry A)
                         (map (fun kv : string * obj =>
                                 ((p ++ String ch "")%string, fst kv)) n)).
      { rewrite map_map. reflexivity. }
      assert (Ew : map (fun kv : string * obj => ((p ++ String ch "") ++ fst kv)%string) n
                   = map entry_way
                         (map (fun kv : string * obj =>
                                 ((p ++ String ch "")%string, fst kv)) n)).
      { rewrite map_map. reflexivity. }
      rewrite En, <- map_app. rewrite Ew, <- map_app in Inv', Wt'.
      apply (IH s (Dict items) _ route Inv'); [|lia].
      apply Forall_app. split; [assumption|]. apply Forall_forall.
      intros pk Hpk. apply in_map_iff in Hpk. destruct Hpk as ([k v] & <- & Hkv).
      cbn [fst snd]. apply (key_one_char n k v (sub_at_wf _ _ _ W Sc) Hkv).
Qed.

End FlushLoop.

(** ** [IPPrefixTree.flush] with attributes *)

Lemma apart_ways : forall A o0 o, apart A o0 -> ways_of o o0 -> apart A o.
Proof.
  intros A o0 o [I F] Wy. split.
  - intros e1 e2 c1 c2 S1 S2 E. destruct (Wy _ _ S1) as [d1 T1].
    destruct (Wy _ _ S2) as [d2 T2]. apply (I _ _ _ _ T1 T2 E).
  - intros e ch c S. destruct (Wy _ _ S) as [d T]. apply (F _ _ _ T).
Qed.

Lemma stored_is_bits : forall o path routes,
    prefix_wf o = true -> In (path, routes) (stored o) -> is_bits path = true.
Proof.
  intros o path routes W Hin. destruct (prefix_wf_dict _ W) as [items ->].
  apply (stored_sub_at _ _ _ W) in Hin. apply (sub_at_stored _ _ _ W Hin).
Qed.

Lemma flush_attrs_buckets : forall (t : table) (attrs : kwargs),
    prefix_wf (_root t) = true -> counted t -> lists_nonempty (_root t) ->
    routes_in_place (_root t) = true -> truthy attrs = true ->
    exists t',
      flush PrefixTree t None attrs = (t', None)
      /\ prefix_wf (_root t') = true /\ counted t' /\ lists_nonempty (_root t')
      /\ forall path, is_bits path = true ->
                      bucket_at (_root t') path
                      = kept (bucket_at (_root t) path) attrs.
Proof.
  intros [o c] attrs W Cn Ne IP Ta. cbn [_root _counter] in *.
  cbn [flush PrefixTree]. unfold IPPrefixTree_flush, flush_with. rewrite Ta.
  cbn [negb]. unfold Heap.flush_attrs, Heap.load_table. cbn [_root _counter].
  destruct (Heap.alloc o []) as [a h] eqn:Ea. cbn [Heap.cells Heap.root].
  destruct (alloc_lay _ _ _ _ Ea) as (L & Sa & _). cbn [List.length] in L.
  pose proof (alloc_size _ _ _ _ Ea) as Sz. cbn [Heap.size fold_right] in Sz.
  destruct (lay_rep h o 0 a W L) as [R Ap].
  set (A := addr h a) in *.
  assert (Ea0 : A "" = a) by reflexivity.
  destruct (prefix_wf_dict _ W) as [items ->].
  pose proof (rep_dict_at A h _ "" items R eq_refl) as Ed. rewrite Ea0 in Ed.
  rewrite Ed.
  assert (Inv0 : flush_inv A (Dict items) attrs (Heap.State h a c) (Dict items)
                           ([] ++ [EmptyString])).
  { split; [exact R|]. split; [now rewrite Ea0|]. split; [exact W|].
    split; [intros e c0 S; now exists c0|]. split; [exact Cn|]. split; [exact Ne|].
    split; [|split; [|split]].
    - intros w [<-|[]]. now eexists.
    - repeat constructor. intros [].
    - intros w1 w2 [<-|[]] [<-|[]] _. reflexivity.
    - intros path B. unfold cov. cbn [app existsb]. now rewrite prefix_of_empty. }
  destruct (inv_push A (Dict items) attrs _ _ [] "" items Inv0 eq_refl) as [Inv1 Wt1].
  cbn [app append] in Inv1, Wt1. cbn [weight fold_right sub_at] in Wt1.
  replace (map (fun kv : string * obj => fst kv) items)
    with (map entry_way (map (fun kv : string * obj => (EmptyString, fst kv)) items))
    in Inv1, Wt1 by (rewrite map_map; reflexivity).
  replace (map (fun kv : string * obj => (fst kv, A ("" ++ fst kv)%string)) items)
    with (map (stack_entry A)
              (map (fun kv : string * obj => (EmptyString, fst kv)) items))
    by (rewrite map_map; reflexivity).
  destruct (flush_loop_inv A (Dict items) attrs Ap W IP (S (Heap.size h))
                           (Heap.State h a c) (Dict items) _ None Inv1)
    as (s' & o' & El & Inv'); [| lia |].
  { apply Forall_forall. intros pk Hpk. apply in_map_iff in Hpk.
    destruct Hpk as ([k v] & <- & Hkv). cbn [fst snd].
    apply (key_one_char items k v W Hkv). }
  rewrite El. eexists. split; [reflexivity|].
  destruct Inv' as (R' & Er' & W' & Wy' & Cn' & Ne' & _ & _ & _ & Q').
  unfold Heap.read_table. cbn [_root _counter]. rewrite Er'.
  rewrite (reify_rep A (Heap.cells s') o' W' R' (apart_ways _ _ _ Ap Wy')
                     (S (List.length (Heap.cells s'))) "" o' eq_refl).
  - split; [exact W'|]. split; [exact Cn'|]. split; [exact Ne'|].
    intros path B. apply (Q' path B).
  - pose proof (nth_error_lt _ _ _ (R' "" o' eq_refl)). lia.
Qed.

(** On a well-formed prefix tree whose counter is the number of its routes,
    with no empty list and every route under the bits of its own prefix,
    [flush] with attributes and no prefix returns without an exception and
    takes the routes that have all the attributes out of every list: a
    prefix keeps the other routes of its list, in their order, and is
    stored no more when none is left.  The tree stays well formed, the
    counter is the number of the routes left, no list is empty and every
    route is under the bits of its prefix still. *)
Theorem prefix_tree_flush_with_attributes :
  forall (t : table) (attrs : kwargs),
    prefix_wf (_root t) = true -> counted t -> lists_nonempty (_root t) ->
    routes_in_place (_root t) = true -> truthy attrs = true ->
    exists t',
      flush PrefixTree t None attrs = (t', None)
      /\ prefix_wf (_root t') = true /\ counted t' /\ lists_nonempty (_root t')
      /\ routes_in_place (_root t') = true
      /\ forall path routes,
          In (path, routes) (stored (_root t'))
          <-> routes <> []
              /\ exists held, In (path, held) (stored (_root t))
                              /\ routes = kept held attrs.
Proof.
  intros t attrs W Cn Ne IP Ta.
  destruct (flush_attrs_buckets t attrs W Cn Ne IP Ta)
    as (t' & E & W' & Cn' & Ne' & Q).
  pose proof (prefix_wf_radix_wf _ W) as Wr.
  pose proof (prefix_wf_radix_wf _ W') as Wr'.
  assert (St : forall path routes,
             In (path, routes) (stored (_root t'))
             <-> routes <> []
                 /\ exists held, In (path, held) (stored (_root t))
                                 /\ routes = kept held attrs).
  { intros path routes. split.
    - intros Hin. pose proof (Ne' _ _ Hin) as Nr. split; [exact Nr|].
      pose proof (Q path (stored_is_bits _ _ _ W' Hin)) as Qp.
      rewrite (bucket_at_In _ _ _ Wr' Hin) in Qp.
      exists (bucket_at (_root t) path). split; [|exact Qp].
      apply (bucket_at_stored _ _ Wr). intros Eb. rewrite Eb in Qp. now subst routes.
    - intros (Nr & held & Hin & ->).
      pose proof (Q path (stored_is_bits _ _ _ W Hin)) as Qp.
      rewrite (bucket_at_In _ _ _ Wr Hin) in Qp. rewrite <- Qp.
      apply (bucket_at_stored _ _ Wr'). now rewrite Qp. }
  exists t'. repeat (split; [assumption|]). split; [|exact St].
  unfold routes_in_place in *. apply forallb_forall. intros [path routes] Hin.
  cbn [fst snd]. apply St in Hin. destruct Hin as (_ & held & Hh & ->).
  rewrite forallb_forall in IP. specialize (IP _ Hh). cbn [fst snd] in IP.
  rewrite forallb_forall in IP. apply forallb_forall. intros r Hr.
  apply IP. unfold kept in Hr. now apply filter_In in Hr.
Qed.

Lemma prefix_tree_flush_with_attributes_witness :
  let t := fst (run PrefixTree sample_calls) in
  exists t',
    flush PrefixTree t None (dev "b") = (t', None)
    /\ prefix_wf (_root t') = true /\ counted t' /\ lists_nonempty (_root t')
    /\ routes_in_place (_root t') = true
    /\ forall path routes,
        In (path, routes) (stored (_root t'))
        <-> routes <> []
            /\ exists held, In (path, held) (stored (_root t))
                            /\ routes = kept held (dev "b").
Proof.
  cbv zeta. apply prefix_tree_flush_with_attributes.
  - vm_compute. reflexivity.
  - vm_compute. reflexivity.
  - apply (prefix_run_lists sample_calls init); try reflexivity. intros path routes [].
  - vm_compute. reflexivity.
  - reflexivity.
Defined.
